(** * A verification development for the [lru] package

    The package offers a fixed-size LRU engine ([unsafeCache]), a locked
    wrapper around it ([Cache]), a two-queue cache ([TwoQueueCache]) and an
    adaptive replacement cache ([ARCCache]).  The Go code is embedded as Rocq
    functions over explicit states; every call of the eviction callback is
    recorded in a trace that the operations return next to their result. *)

From Stdlib Require Import ZArith Lia.
From Corelib Require Import SpecFloat.
From stdpp Require Import base option list gmap.

Local Open Scope Z_scope.

(** ** Go's [int] on a 64-bit target

    Machine integers are integers of [Z]; every arithmetic operation of the
    source is followed by the two's complement wrap-around. *)
Module Int.

Definition min_int : Z := - 2 ^ 63.
Definition max_int : Z := 2 ^ 63 - 1.

Definition wrap (z : Z) : Z := (z + 2 ^ 63) mod 2 ^ 64 - 2 ^ 63.

Definition add (a b : Z) : Z := wrap (a + b).
Definition sub (a b : Z) : Z := wrap (a - b).
(** Go's [/] truncates toward zero. *)
Definition div (a b : Z) : Z := wrap (Z.quot a b).

Definition in_range (z : Z) : Prop := min_int <= z <= max_int.

End Int.

(** The zero value of a Go type ([var v V]). *)
Class GoZero (V : Type) := zero : V.
Global Instance Z_GoZero : GoZero Z := 0.
Global Instance nat_GoZero : GoZero nat := 0%nat.

(** ** The trace of callback invocations and the monad threading it *)

(** An invocation of the callback [f]: run inline ([f(key, value)]) or on a
    goroutine of its own ([go f(key, value)]). *)
Inductive event (K V F : Type) : Type :=
  | Ran (f : F) (k : K) (v : V)
  | Spawned (f : F) (k : K) (v : V).
Arguments Ran {K V F} f k v.
Arguments Spawned {K V F} f k v.

Definition event_key {K V F} (e : event K V F) : K :=
  match e with Ran _ k _ | Spawned _ k _ => k end.

Definition event_value {K V F} (e : event K V F) : V :=
  match e with Ran _ _ v | Spawned _ _ v => v end.

(** A method with receiver state [S] and result [A]: it returns the result,
    the new state, and the callback invocations it made, in order. *)
Definition M (E S A : Type) : Type := S -> A * S * list E.

Definition ret {E S A} (a : A) : M E S A := fun s => (a, s, []).

Definition bind {E S A B} (m : M E S A) (k : A -> M E S B) : M E S B :=
  fun s =>
    let '(a, s1, t1) := m s in
    let '(b, s2, t2) := k a s1 in
    (b, s2, t1 ++ t2).

Definition get {E S} : M E S S := fun s => (s, s, []).
Definition put {E S} (s : S) : M E S unit := fun _ => (tt, s, []).
Definition modify {E S} (f : S -> S) : M E S unit := fun s => (tt, f s, []).
Definition emit {E S} (e : E) : M E S unit := fun s => (tt, s, [e]).

(** Run a method of a field: [proj] reads the field, [upd] writes it back. *)
Definition zoom {E S T A} (proj : S -> T) (upd : T -> S -> S)
    (m : M E T A) : M E S A :=
  fun s => let '(a, t, tr) := m (proj s) in (a, upd t s, tr).

Definition result {E S A} (r : A * S * list E) : A := fst (fst r).
Definition state {E S A} (r : A * S * list E) : S := snd (fst r).
Definition trace {E S A} (r : A * S * list E) : list E := snd r.
Arguments result {E S A} !r /.
Arguments state {E S A} !r /.
Arguments trace {E S A} !r /.

Declare Scope go_scope.
Delimit Scope go_scope with go.
Notation "'do' x <- m ; k" := (bind m (fun x => k))
  (at level 10, x name, m at level 100, k at level 200,
   format "'[v' 'do'  x  <-  m ; '/' k ']'") : go_scope.
Notation "'do' ' p <- m ; k" := (bind m (fun x => let p := x in k))
  (at level 10, p pattern, m at level 100, k at level 200) : go_scope.
Notation "m ;; k" := (bind m (fun _ => k))
  (at level 100, k at level 200, right associativity) : go_scope.
Local Open Scope go_scope.

(** Iterating a method [n] times (a counted [for] loop). *)
Fixpoint repeat_m {E S} (n : nat) (m : M E S unit) : M E S unit :=
  match n with
  | O => ret tt
  | S n' => m ;; repeat_m n' m
  end.

(** ** The base engine: [unsafeCache] *)
Module Base.
Section Engine.

Context {K : Type} `{Countable K} `{GoZero K} {V : Type} `{GoZero V} {F : Type}.

Definition defaultSize : Z := 128.

Record entry : Type := Entry { key : K; value : V }.

(** A handle on a list node ([*list.Element]).  The index only ever maps a
    key to the node whose entry carries that key, so a node is named by
    the key of its entry. *)
Abbreviation Element := K (only parsing).

(** *** The recency list *)

(** Modelled from the spec: the package [list] (the generic doubly linked
    list behind [entries]) is not among the sources.  Following the spec's
    Recency List (push-to-front, move-to-front, removal of a node, access
    to the back node, length), a list is the sequence of its entries from
    the front (newest) to the back (oldest). *)
Definition List : Type := list entry.

Definition list_New : List := [].
Definition list_Init (l : List) : List := [].
Definition list_Len (l : List) : Z := Z.of_nat (length l).
Definition list_PushFront (ent : entry) (l : List) : List := ent :: l.
Definition list_Back (l : List) : option Element := key <$> last l.

(** [elem.Value] for a node of the list. *)
Fixpoint list_Value (elem : Element) (l : List) : option entry :=
  match l with
  | [] => None
  | e :: l' => if decide (key e = elem) then Some e else list_Value elem l'
  end.

Fixpoint list_Remove (elem : Element) (l : List) : List :=
  match l with
  | [] => []
  | e :: l' => if decide (key e = elem) then l' else e :: list_Remove elem l'
  end.

Definition list_MoveToFront (elem : Element) (l : List) : List :=
  match list_Value elem l with
  | Some e => e :: list_Remove elem l
  | None => l
  end.

(** [elem.Value.value = v]: the entry of a node is updated in place. *)
Fixpoint list_SetValue (elem : Element) (v : V) (l : List) : List :=
  match l with
  | [] => []
  | e :: l' =>
      if decide (key e = elem) then Entry (key e) v :: l'
      else e :: list_SetValue elem v l'
  end.

(** *** The cache *)

Record unsafeCache : Type := UnsafeCache {
  maxEntries : Z;
  onEvicted : option F;
  async : bool;
  entries : List;
  bucket : gmap K Element
}.

Definition set_maxEntries (n : Z) (c : unsafeCache) : unsafeCache :=
  UnsafeCache n (onEvicted c) (async c) (entries c) (bucket c).
Definition set_onEvicted (f : option F) (c : unsafeCache) : unsafeCache :=
  UnsafeCache (maxEntries c) f (async c) (entries c) (bucket c).
Definition set_async (b : bool) (c : unsafeCache) : unsafeCache :=
  UnsafeCache (maxEntries c) (onEvicted c) b (entries c) (bucket c).
Definition set_entries (l : List) (c : unsafeCache) : unsafeCache :=
  UnsafeCache (maxEntries c) (onEvicted c) (async c) l (bucket c).
Definition set_bucket (b : gmap K Element) (c : unsafeCache) : unsafeCache :=
  UnsafeCache (maxEntries c) (onEvicted c) (async c) (entries c) b.

Definition ev : Type := event K V F.
Definition Engine (A : Type) : Type := M ev unsafeCache A.

(** An option of the constructors; [NilOption] is a nil function value. *)
Inductive Option : Type :=
  | WithOnEvicted (f : F)
  | WithOnEvictedAsync (f : F)
  | NilOption.

Definition apply_Option (o : Option) (c : unsafeCache) : unsafeCache :=
  match o with
  | WithOnEvicted f => set_async false (set_onEvicted (Some f) c)
  | WithOnEvictedAsync f => set_async true (set_onEvicted (Some f) c)
  | NilOption => c
  end.

Definition NewUnsafeLru (maxEntries : Z) (opts : list Option) : unsafeCache :=
  let maxEntries := if decide (maxEntries <= 0) then defaultSize else maxEntries in
  let c := UnsafeCache maxEntries None false list_New ∅ in
  foldl (fun c fn => apply_Option fn c) c opts.

(** [evicting], entered only behind the [c.onEvicted != nil] test, which
    hands it the function [f]. *)
Definition evicting (f : F) (k : K) (v : V) : Engine unit :=
  do c <- get;
  if async c then emit (Spawned f k v) else emit (Ran f k v).

Definition removeElement (elem : Element) : Engine unit :=
  do c <- get;
  match list_Value elem (entries c) with
  | None => ret tt
  | Some ent =>
      modify (set_entries (list_Remove elem (entries c))) ;;
      modify (fun c => set_bucket (delete (key ent) (bucket c)) c) ;;
      match onEvicted c with
      | None => ret tt
      | Some f => evicting f (key ent) (value ent)
      end
  end.

Definition removeOldest : Engine unit :=
  do c <- get;
  match list_Back (entries c) with
  | Some ent => removeElement ent
  | None => ret tt
  end.

Definition Add (k : K) (v : V) : Engine bool :=
  do c <- get;
  match bucket c !! k with
  | Some elem =>
      modify (set_entries (list_SetValue elem v (list_MoveToFront elem (entries c)))) ;;
      ret false
  | None =>
      let ent := Entry k v in
      modify (set_entries (list_PushFront ent (entries c))) ;;
      modify (fun c => set_bucket (<[k := key ent]> (bucket c)) c) ;;
      do c <- get;
      let evicted := bool_decide (list_Len (entries c) > maxEntries c) in
      (if evicted then removeOldest else ret tt) ;;
      ret evicted
  end.

Definition Get (k : K) : Engine (V * bool) :=
  do c <- get;
  match bucket c !! k with
  | None => ret (zero, false)
  | Some elem =>
      modify (set_entries (list_MoveToFront elem (entries c))) ;;
      do c <- get;
      match list_Value elem (entries c) with
      | None => ret (zero, false)
      | Some ent => ret (value ent, true)
      end
  end.

Definition Contains (k : K) : Engine bool :=
  do c <- get;
  ret (bool_decide (is_Some (bucket c !! k))).

Definition Peek (k : K) : Engine (V * bool) :=
  do c <- get;
  match bucket c !! k with
  | None => ret (zero, false)
  | Some elem =>
      match list_Value elem (entries c) with
      | None => ret (zero, false)
      | Some ent => ret (value ent, true)
      end
  end.

Definition Remove (k : K) : Engine bool :=
  do c <- get;
  match bucket c !! k with
  | None => ret false
  | Some elem => removeElement elem ;; ret true
  end.

Definition RemoveOldest : Engine (K * V * bool) :=
  do c <- get;
  match list_Back (entries c) with
  | None => ret (zero, zero, false)
  | Some elem =>
      removeElement elem ;;
      match list_Value elem (entries c) with
      | None => ret (zero, zero, false)
      | Some ent => ret (key ent, value ent, true)
      end
  end.

Definition GetOldest : Engine (K * V * bool) :=
  do c <- get;
  match list_Back (entries c) with
  | None => ret (zero, zero, false)
  | Some elem =>
      match list_Value elem (entries c) with
      | None => ret (zero, zero, false)
      | Some ent => ret (key ent, value ent, true)
      end
  end.

(** The loop walks from the back node along [Prev]. *)
Definition Keys : Engine (list K) :=
  do c <- get;
  ret (reverse (key <$> entries c)).

Definition Len : Engine Z :=
  do c <- get;
  ret (list_Len (entries c)).

Definition Resize (size : Z) : Engine Z :=
  do len <- Len;
  let diff := Int.sub len size in
  let diff := if decide (diff < 0) then 0 else diff in
  repeat_m (Z.to_nat diff) removeOldest ;;
  modify (set_maxEntries size) ;;
  ret diff.

(** One round of the [range c.bucket] loop of [Clear]. *)
Definition Clear_step (kv : K * Element) : Engine unit :=
  do c <- get;
  match onEvicted c with
  | None => ret tt
  | Some f =>
      match list_Value kv.2 (entries c) with
      | None => ret tt
      | Some ent => evicting f kv.1 (value ent)
      end
  end ;;
  modify (fun c => set_bucket (delete kv.1 (bucket c)) c).

Fixpoint for_each {A} (l : list A) (body : A -> Engine unit) : Engine unit :=
  match l with
  | [] => ret tt
  | a :: l' => body a ;; for_each l' body
  end.

(** Go leaves the order of a [range] over a map unspecified; the model
    visits the index in the order of [map_to_list], and no result below
    depends on that order. *)
Definition Clear : Engine unit :=
  do c <- get;
  for_each (map_to_list (bucket c)) Clear_step ;;
  modify (fun c => set_entries (list_Init (entries c)) c).

End Engine.

Arguments entry : clear implicits.
Arguments unsafeCache K {_ _} V F.
Arguments Option : clear implicits.
Arguments ev : clear implicits.

End Base.

(** ** The locked wrapper: [Cache]

    Every method takes the lock, calls the method of the wrapped engine and
    releases the lock; in a sequential run the lock changes nothing. *)
Module Wrapper.
Section Cache.

Context {K : Type} `{Countable K} `{GoZero K} {V : Type} `{GoZero V} {F : Type}.

Record Cache : Type := MkCache { lru : Base.unsafeCache K V F }.

Definition set_lru (l : Base.unsafeCache K V F) (c : Cache) : Cache := MkCache l.

Definition Method (A : Type) : Type := M (Base.ev K V F) Cache A.
Definition on_lru {A} (m : Base.Engine A) : Method A := zoom lru set_lru m.

Definition New (maxEntries : Z) (opts : list (Base.Option F)) : Cache :=
  MkCache (Base.NewUnsafeLru maxEntries opts).

Definition Add (k : K) (v : V) : Method bool := on_lru (Base.Add k v).
Definition Get (k : K) : Method (V * bool) := on_lru (Base.Get k).
Definition Contains (k : K) : Method bool := on_lru (Base.Contains k).
Definition Peek (k : K) : Method (V * bool) := on_lru (Base.Peek k).
Definition Remove (k : K) : Method bool := on_lru (Base.Remove k).
Definition RemoveOldest : Method (K * V * bool) := on_lru Base.RemoveOldest.
Definition GetOldest : Method (K * V * bool) := on_lru Base.GetOldest.
Definition Keys : Method (list K) := on_lru Base.Keys.
Definition Len : Method Z := on_lru Base.Len.
Definition Resize (size : Z) : Method Z := on_lru (Base.Resize size).
Definition Clear : Method unit := on_lru Base.Clear.

End Cache.
Arguments Cache K {_ _} V F.
End Wrapper.

(** ** [float64]

    The two ratios of the two-queue cache are IEEE 754 binary64 numbers,
    and the sub-sizes are computed in binary64: the model uses the
    specification of the format ([spec_float], 53 bits of precision). *)
Module Float64.

Definition prec : Z := 53.
Definition emax : Z := 1024.

Definition float64 : Type := spec_float.

(** The binary64 number nearest to [m * 2 ^ e] (ties to even). *)
Definition of_scaled (m e : Z) : float64 := binary_normalize prec emax m e false.

(** [float64(n)] for an [int] [n]. *)
Definition of_int (n : Z) : float64 := of_scaled n 0.

Definition mul (x y : float64) : float64 := SFmul prec emax x y.
Definition ltb (x y : float64) : bool := SFltb x y.

(** [int(x)]: the fraction is discarded (truncation toward zero).  For a
    NaN, an infinity or a value outside of [int], the Go specification
    leaves the result to the implementation; the model takes the amd64
    answer, the least [int]. *)
Definition to_int (x : float64) : Z :=
  match x with
  | S754_zero _ => 0
  | S754_finite s m e =>
      let a := match e with
               | Z0 => Zpos m
               | Zpos k => Zpos m * 2 ^ Zpos k
               | Zneg k => Zpos m / 2 ^ Zpos k
               end in
      let v := if s then - a else a in
      if decide (Int.min_int <= v <= Int.max_int) then v else Int.min_int
  | _ => Int.min_int
  end.

(** The real value of a finite binary64 number is [num / den]. *)
Definition num_den (x : float64) : option (Z * Z) :=
  match x with
  | S754_zero _ => Some (0, 1)
  | S754_finite s m e =>
      let sm := if s then Zneg m else Zpos m in
      match e with
      | Z0 => Some (sm, 1)
      | Zpos k => Some (sm * 2 ^ Zpos k, 1)
      | Zneg k => Some (sm, 2 ^ Zpos k)
      end
  | _ => None
  end.

Definition zero_f : float64 := S754_zero false.
Definition one_f : float64 := of_int 1.

End Float64.

(** ** The two-queue cache: [TwoQueueCache] *)
Module TwoQ.
Section TwoQueue.

Context {K : Type} `{Countable K} `{GoZero K} {V : Type} `{GoZero V} {F : Type}.

Definition default2QRecentRatio : Float64.float64 := Float64.of_scaled 1 (-2).
Definition default2QGhostEntries : Float64.float64 := Float64.of_scaled 1 (-1).

Record TwoQueueCache : Type := MkTwoQueueCache {
  maxEntries : Z;
  recentEntries : Z;
  recent : Base.unsafeCache K V F;
  frequent : Base.unsafeCache K V F;
  recentEvict : Base.unsafeCache K V F
}.

Definition set_recent (e : Base.unsafeCache K V F) (c : TwoQueueCache) :=
  MkTwoQueueCache (maxEntries c) (recentEntries c) e (frequent c) (recentEvict c).
Definition set_frequent (e : Base.unsafeCache K V F) (c : TwoQueueCache) :=
  MkTwoQueueCache (maxEntries c) (recentEntries c) (recent c) e (recentEvict c).
Definition set_recentEvict (e : Base.unsafeCache K V F) (c : TwoQueueCache) :=
  MkTwoQueueCache (maxEntries c) (recentEntries c) (recent c) (frequent c) e.

Definition Method (A : Type) : Type := M (Base.ev K V F) TwoQueueCache A.
Definition on_recent {A} (m : Base.Engine A) : Method A := zoom recent set_recent m.
Definition on_frequent {A} (m : Base.Engine A) : Method A := zoom frequent set_frequent m.
Definition on_recentEvict {A} (m : Base.Engine A) : Method A :=
  zoom recentEvict set_recentEvict m.

Definition New2QParams (maxEntries : Z) (recentRatio ghostRatio : Float64.float64)
    (opts : list (Base.Option F)) : TwoQueueCache :=
  let maxEntries :=
    if decide (maxEntries <= 0) then Base.defaultSize else maxEntries in
  let recentRatio :=
    if Float64.ltb recentRatio Float64.zero_f || Float64.ltb Float64.one_f recentRatio
    then default2QRecentRatio else recentRatio in
  let ghostRatio :=
    if Float64.ltb ghostRatio Float64.zero_f || Float64.ltb Float64.one_f ghostRatio
    then default2QGhostEntries else ghostRatio in
  let recentEntries := Float64.to_int (Float64.mul (Float64.of_int maxEntries) recentRatio) in
  let evictEntries := Float64.to_int (Float64.mul (Float64.of_int maxEntries) ghostRatio) in
  MkTwoQueueCache maxEntries recentEntries
    (Base.NewUnsafeLru maxEntries opts)
    (Base.NewUnsafeLru maxEntries opts)
    (Base.NewUnsafeLru evictEntries opts).

Definition New2Q (maxEntries : Z) (opts : list (Base.Option F)) : TwoQueueCache :=
  New2QParams maxEntries default2QRecentRatio default2QGhostEntries opts.

Definition ensureSpace (recentEvict : bool) : Method unit :=
  do recentLen <- on_recent Base.Len;
  do freqLen <- on_frequent Base.Len;
  do c <- get;
  if decide (Int.add recentLen freqLen < maxEntries c) then ret tt
  else if decide (recentLen > 0 ∧
                  (recentLen > recentEntries c ∨
                   (recentLen = recentEntries c ∧ recentEvict = false)))
  then
    do r <- on_recent Base.RemoveOldest;
    let k := r.1.1 in
    on_recentEvict (Base.Add k zero) ;;
    ret tt
  else
    on_frequent Base.RemoveOldest ;;
    ret tt.

Definition Add (k : K) (v : V) : Method unit :=
  do inFrequent <- on_frequent (Base.Contains k);
  if inFrequent then on_frequent (Base.Add k v) ;; ret tt
  else
    do inRecent <- on_recent (Base.Contains k);
    if inRecent then
      on_recent (Base.Remove k) ;;
      on_frequent (Base.Add k v) ;;
      ret tt
    else
      do inGhost <- on_recentEvict (Base.Contains k);
      if inGhost then
        ensureSpace true ;;
        on_recentEvict (Base.Remove k) ;;
        on_frequent (Base.Add k v) ;;
        ret tt
      else
        ensureSpace false ;;
        on_recent (Base.Add k v) ;;
        ret tt.

Definition Get (k : K) : Method (V * bool) :=
  do r <- on_frequent (Base.Get k);
  if r.2 then ret r
  else
    do r <- on_recent (Base.Peek k);
    if r.2 then
      on_recent (Base.Remove k) ;;
      on_frequent (Base.Add k r.1) ;;
      ret r
    else ret (r.1, false).

Definition Contains (k : K) : Method bool :=
  do a <- on_frequent (Base.Contains k);
  if a then ret true else on_recent (Base.Contains k).

Definition Peek (k : K) : Method (V * bool) :=
  do r <- on_frequent (Base.Peek k);
  if r.2 then ret r else on_recent (Base.Peek k).

(** The named result [ok] is never assigned: every path returns [false]. *)
Definition Remove (k : K) : Method bool :=
  do a <- on_frequent (Base.Remove k);
  if a then ret false
  else
    do b <- on_recent (Base.Remove k);
    if b then ret false
    else
      do c <- on_recentEvict (Base.Remove k);
      if c then ret false else ret false.

Definition Keys : Method (list K) :=
  do k1 <- on_frequent Base.Keys;
  do k2 <- on_recent Base.Keys;
  ret (k1 ++ k2).

Definition Len : Method Z :=
  do a <- on_recent Base.Len;
  do b <- on_frequent Base.Len;
  ret (Int.add a b).

Definition Clear : Method unit :=
  on_recent Base.Clear ;;
  on_frequent Base.Clear ;;
  on_recentEvict Base.Clear.

End TwoQueue.
Arguments TwoQueueCache K {_ _} V F.
End TwoQ.

(** ** The adaptive replacement cache: [ARCCache] *)
Module ARC.
Section Arc.

Context {K : Type} `{Countable K} `{GoZero K} {V : Type} `{GoZero V} {F : Type}.

Record ARCCache : Type := MkARCCache {
  maxEntries : Z;
  p : Z;
  t1 : Base.unsafeCache K V F;
  b1 : Base.unsafeCache K V F;
  t2 : Base.unsafeCache K V F;
  b2 : Base.unsafeCache K V F
}.

Definition set_p (n : Z) (c : ARCCache) :=
  MkARCCache (maxEntries c) n (t1 c) (b1 c) (t2 c) (b2 c).
Definition set_t1 (e : Base.unsafeCache K V F) (c : ARCCache) :=
  MkARCCache (maxEntries c) (p c) e (b1 c) (t2 c) (b2 c).
Definition set_b1 (e : Base.unsafeCache K V F) (c : ARCCache) :=
  MkARCCache (maxEntries c) (p c) (t1 c) e (t2 c) (b2 c).
Definition set_t2 (e : Base.unsafeCache K V F) (c : ARCCache) :=
  MkARCCache (maxEntries c) (p c) (t1 c) (b1 c) e (b2 c).
Definition set_b2 (e : Base.unsafeCache K V F) (c : ARCCache) :=
  MkARCCache (maxEntries c) (p c) (t1 c) (b1 c) (t2 c) e.

Definition Method (A : Type) : Type := M (Base.ev K V F) ARCCache A.
Definition on_t1 {A} (m : Base.Engine A) : Method A := zoom t1 set_t1 m.
Definition on_b1 {A} (m : Base.Engine A) : Method A := zoom b1 set_b1 m.
Definition on_t2 {A} (m : Base.Engine A) : Method A := zoom t2 set_t2 m.
Definition on_b2 {A} (m : Base.Engine A) : Method A := zoom b2 set_b2 m.

Definition NewARC (maxEntries : Z) (opts : list (Base.Option F)) : ARCCache :=
  let maxEntries :=
    if decide (maxEntries <= 0) then Base.defaultSize else maxEntries in
  MkARCCache maxEntries 0
    (Base.NewUnsafeLru maxEntries opts)
    (Base.NewUnsafeLru maxEntries opts)
    (Base.NewUnsafeLru maxEntries opts)
    (Base.NewUnsafeLru maxEntries opts).

Definition replace (b2ContainsKey : bool) : Method unit :=
  do t1Len <- on_t1 Base.Len;
  do c <- get;
  if decide (t1Len > 0 ∧ (t1Len > p c ∨ (t1Len = p c ∧ b2ContainsKey = true)))
  then
    do r <- on_t1 Base.RemoveOldest;
    if r.2 then on_b1 (Base.Add r.1.1 zero) ;; ret tt else ret tt
  else
    do r <- on_t2 Base.RemoveOldest;
    if r.2 then on_b2 (Base.Add r.1.1 zero) ;; ret tt else ret tt.

(** The room-making step shared by three branches of [Add]. *)
Definition make_room (b2ContainsKey : bool) : Method unit :=
  do n1 <- on_t1 Base.Len;
  do n2 <- on_t2 Base.Len;
  do c <- get;
  if decide (Int.add n1 n2 >= maxEntries c) then replace b2ContainsKey else ret tt.

Definition Add (k : K) (v : V) : Method unit :=
  do inT1 <- on_t1 (Base.Contains k);
  if inT1 then
    on_t1 (Base.Remove k) ;;
    on_t2 (Base.Add k v) ;;
    ret tt
  else
  do inT2 <- on_t2 (Base.Contains k);
  if inT2 then on_t2 (Base.Add k v) ;; ret tt
  else
  do inB1 <- on_b1 (Base.Contains k);
  if inB1 then
    do b1Len <- on_b1 Base.Len;
    do b2Len <- on_b2 Base.Len;
    let delta := if decide (b2Len > b1Len) then Int.div b2Len b1Len else 1 in
    do c <- get;
    (if decide (Int.add (p c) delta >= maxEntries c)
     then modify (set_p (maxEntries c))
     else modify (set_p (Int.add (p c) delta))) ;;
    make_room false ;;
    on_b1 (Base.Remove k) ;;
    on_t2 (Base.Add k v) ;;
    ret tt
  else
  do inB2 <- on_b2 (Base.Contains k);
  if inB2 then
    do b1Len <- on_b1 Base.Len;
    do b2Len <- on_b2 Base.Len;
    let delta := if decide (b1Len > b2Len) then Int.div b1Len b2Len else 1 in
    do c <- get;
    (if decide (delta >= p c)
     then modify (set_p 0)
     else modify (set_p (Int.sub (p c) delta))) ;;
    make_room true ;;
    on_b2 (Base.Remove k) ;;
    on_t2 (Base.Add k v) ;;
    ret tt
  else
    make_room false ;;
    do b1Len <- on_b1 Base.Len;
    do c <- get;
    (if decide (b1Len > Int.sub (maxEntries c) (p c))
     then on_b1 Base.RemoveOldest ;; ret tt else ret tt) ;;
    do b2Len <- on_b2 Base.Len;
    do c <- get;
    (if decide (b2Len > p c)
     then on_b2 Base.RemoveOldest ;; ret tt else ret tt) ;;
    on_t1 (Base.Add k v) ;;
    ret tt.

Definition Get (k : K) : Method (V * bool) :=
  do r <- on_t1 (Base.Peek k);
  if r.2 then
    on_t1 (Base.Remove k) ;;
    on_t2 (Base.Add k r.1) ;;
    ret r
  else
    do r <- on_t2 (Base.Get k);
    if r.2 then ret r else ret (r.1, false).

Definition Contains (k : K) : Method bool :=
  do a <- on_t1 (Base.Contains k);
  if a then ret true else on_t2 (Base.Contains k).

Definition Peek (k : K) : Method (V * bool) :=
  do r <- on_t1 (Base.Peek k);
  if r.2 then ret r else on_t2 (Base.Peek k).

(** The named result [ok] is never assigned: every path returns [false]. *)
Definition Remove (k : K) : Method bool :=
  do a <- on_t1 (Base.Remove k);
  if a then ret false
  else
    do b <- on_t2 (Base.Remove k);
    if b then ret false
    else
      do c <- on_b1 (Base.Remove k);
      if c then ret false
      else
        do d <- on_b2 (Base.Remove k);
        if d then ret false else ret false.

Definition Keys : Method (list K) :=
  do k1 <- on_t1 Base.Keys;
  do k2 <- on_t2 Base.Keys;
  ret (k1 ++ k2).

Definition Len : Method Z :=
  do a <- on_t1 Base.Len;
  do b <- on_t2 Base.Len;
  ret (Int.add a b).

Definition Clear : Method unit :=
  on_t1 Base.Clear ;;
  on_t2 Base.Clear ;;
  on_b1 Base.Clear ;;
  on_b2 Base.Clear.

End Arc.
Arguments ARCCache K {_ _} V F.
End ARC.

(** * Properties *)

(** ** Machine integers *)
Module IntFacts.

Lemma wrap_id z : Int.in_range z -> Int.wrap z = z.
Proof.
  unfold Int.in_range, Int.wrap, Int.min_int, Int.max_int. intros Hz.
  rewrite Z.mod_small; lia.
Qed.

Lemma wrap_in_range z : Int.in_range (Int.wrap z).
Proof.
  unfold Int.in_range, Int.wrap, Int.min_int, Int.max_int.
  pose proof (Z.mod_pos_bound (z + 2 ^ 63) (2 ^ 64) ltac:(lia)). lia.
Qed.

Lemma add_id a b : Int.in_range (a + b) -> Int.add a b = a + b.
Proof. apply wrap_id. Qed.

Lemma sub_id a b : Int.in_range (a - b) -> Int.sub a b = a - b.
Proof. apply wrap_id. Qed.

End IntFacts.

(** ** The monad *)
Section MonadFacts.

Context {E S : Type}.

Lemma bind_run {A B} (m : M E S A) (k : A -> M E S B) s :
  bind m k s =
  (result (k (result (m s)) (state (m s))),
   state (k (result (m s)) (state (m s))),
   trace (m s) ++ trace (k (result (m s)) (state (m s)))).
Proof.
  unfold bind, result, state, trace.
  destruct (m s) as [[a s1] t1]; simpl.
  destruct (k a s1) as [[b s2] t2]; reflexivity.
Qed.

Lemma run_eta {A} (r : A * S * list E) : r = (result r, state r, trace r).
Proof. destruct r as [[a s] t]; reflexivity. Qed.

Lemma zoom_run {T A} (proj : S -> T) (upd : T -> S -> S) (m : M E T A) s :
  zoom proj upd m s =
  (result (m (proj s)), upd (state (m (proj s))) s, trace (m (proj s))).
Proof.
  unfold zoom, result, state, trace.
  destruct (m (proj s)) as [[a t] tr]; reflexivity.
Qed.

End MonadFacts.

(** ** The recency list *)
Module ListFacts.
Section ListFacts.

Context {K : Type} `{Countable K} {V : Type}.

Implicit Types (l : list (Base.entry K V)) (e : Base.entry K V) (k : K).

Definition keys l : list K := Base.key <$> l.

(** Removal of the first occurrence of a key from a list of keys. *)
Fixpoint remove_key k (ks : list K) : list K :=
  match ks with
  | [] => []
  | x :: ks' => if decide (x = k) then ks' else x :: remove_key k ks'
  end.

Lemma Value_Some k l e :
  Base.list_Value k l = Some e -> Base.key e = k ∧ e ∈ l.
Proof.
  induction l as [|x l IH]; simpl; [done|].
  destruct (decide (Base.key x = k)) as [Hk|Hk].
  - intros [= <-]. split; [done|]. left.
  - intros He. destruct (IH He) as [? ?]. split; [done|]. by right.
Qed.

Lemma Value_None k l : Base.list_Value k l = None <-> k ∉ keys l.
Proof.
  unfold keys. induction l as [|x l IH]; simpl.
  - split; [intros _; apply not_elem_of_nil | done].
  - rewrite not_elem_of_cons. destruct (decide (Base.key x = k)) as [Hk|Hk].
    + split; [done | intros [? _]; congruence].
    + rewrite IH. split; [intros; split; [congruence|done] | tauto].
Qed.

Lemma Value_elem k l : k ∈ keys l -> ∃ e, Base.list_Value k l = Some e.
Proof.
  intros Hin. destruct (Base.list_Value k l) as [e|] eqn:He; [eauto|].
  apply Value_None in He. done.
Qed.

Lemma Value_head e l : Base.list_Value (Base.key e) (e :: l) = Some e.
Proof. simpl. by rewrite decide_True. Qed.

Lemma Value_snoc l e :
  Base.key e ∉ keys l -> Base.list_Value (Base.key e) (l ++ [e]) = Some e.
Proof.
  unfold keys. induction l as [|x l IH]; simpl; intros Hn.
  - by rewrite decide_True.
  - apply not_elem_of_cons in Hn as [Hne Hn].
    rewrite decide_False by congruence. auto.
Qed.

Lemma Remove_snoc l e :
  Base.key e ∉ keys l -> Base.list_Remove (Base.key e) (l ++ [e]) = l.
Proof.
  unfold keys. induction l as [|x l IH]; simpl; intros Hn.
  - by rewrite decide_True.
  - apply not_elem_of_cons in Hn as [Hne Hn].
    rewrite decide_False by congruence. f_equal. auto.
Qed.

Lemma keys_Remove k l : keys (Base.list_Remove k l) = remove_key k (keys l).
Proof.
  unfold keys. induction l as [|x l IH]; simpl; [done|].
  destruct (decide (Base.key x = k)); simpl; [done|]. f_equal. apply IH.
Qed.

Lemma Remove_absent k l : k ∉ keys l -> Base.list_Remove k l = l.
Proof.
  unfold keys. induction l as [|x l IH]; simpl; intros Hn; [done|].
  apply not_elem_of_cons in Hn as [Hne Hn].
  rewrite decide_False by congruence. f_equal. auto.
Qed.

Lemma remove_key_absent k (ks : list K) : k ∉ ks -> remove_key k ks = ks.
Proof.
  induction ks as [|x ks IH]; simpl; intros Hn; [done|].
  apply not_elem_of_cons in Hn as [Hne Hn].
  rewrite decide_False by congruence. f_equal. auto.
Qed.

Lemma elem_of_remove_key k k' (ks : list K) :
  NoDup ks -> k' ∈ remove_key k ks <-> k' ∈ ks ∧ k' ≠ k.
Proof.
  induction ks as [|x ks IH]; simpl; intros Hnd.
  - split; [intros Hin | intros [Hin _]]; by apply elem_of_nil in Hin.
  - apply NoDup_cons in Hnd as [Hx Hnd].
    destruct (decide (x = k)) as [->|Hne].
    + rewrite elem_of_cons. split.
      * intros Hin. split; [by right|]. intros ->. done.
      * intros [[->|Hin] Hne]; done.
    + rewrite !elem_of_cons, IH by done. intuition congruence.
Qed.

Lemma remove_key_sublist k (ks : list K) : remove_key k ks `sublist_of` ks.
Proof.
  induction ks as [|x ks IH]; simpl; [done|].
  destruct (decide (x = k)); [by apply sublist_cons | by apply sublist_skip].
Qed.

Lemma NoDup_remove_key k (ks : list K) : NoDup ks -> NoDup (remove_key k ks).
Proof. intros Hnd. by eapply sublist_NoDup, remove_key_sublist. Qed.

Lemma length_remove_key k (ks : list K) :
  k ∈ ks -> S (length (remove_key k ks)) = length ks.
Proof.
  induction ks as [|x ks IH]; simpl; intros Hin.
  - by apply elem_of_nil in Hin.
  - destruct (decide (x = k)) as [->|Hne]; [done|].
    apply elem_of_cons in Hin as [->|Hin]; [done|]. simpl. by rewrite IH.
Qed.

Lemma MoveToFront_SetValue k v l :
  k ∈ keys l ->
  Base.list_SetValue k v (Base.list_MoveToFront k l) =
  Base.Entry k v :: Base.list_Remove k l.
Proof.
  intros Hin. unfold Base.list_MoveToFront.
  destruct (Value_elem _ _ Hin) as [e He]. rewrite He.
  destruct (Value_Some _ _ _ He) as [Hk _]. simpl.
  rewrite decide_True by done. by rewrite Hk.
Qed.

Lemma MoveToFront_elem k l e :
  Base.list_Value k l = Some e ->
  Base.list_MoveToFront k l = e :: Base.list_Remove k l.
Proof. intros He. unfold Base.list_MoveToFront. by rewrite He. Qed.

Lemma Back_nil : Base.list_Back (V:=V) (K:=K) [] = None.
Proof. done. Qed.

Lemma Back_snoc l e : Base.list_Back (l ++ [e]) = Some (Base.key e).
Proof. unfold Base.list_Back. by rewrite last_snoc. Qed.

Lemma keys_snoc l e : keys (l ++ [e]) = keys l ++ [Base.key e].
Proof. unfold keys. by rewrite fmap_app. Qed.

Lemma NoDup_keys_snoc l e :
  NoDup (keys (l ++ [e])) -> Base.key e ∉ keys l ∧ NoDup (keys l).
Proof.
  rewrite keys_snoc. intros Hnd. apply NoDup_app in Hnd as (Hl & Hd & _).
  split; [|done]. intros Hin. apply (Hd _ Hin). left.
Qed.

End ListFacts.
End ListFacts.

(** ** The base engine *)
Module BaseFacts.
Section BaseFacts.

Context {K : Type} `{Countable K} `{GoZero K} {V : Type} `{GoZero V} {F : Type}.

Import ListFacts.

Implicit Types (c : Base.unsafeCache K V F) (k : K) (v : V).

(** The keys of the resident entries, newest first. *)
Definition keys_of c : list K := keys (Base.entries c).

(** The invariant of the data structure: the nodes of the list carry
    distinct keys, and the index maps exactly those keys, each to its
    node. *)
Definition wf c : Prop :=
  NoDup (keys_of c) ∧
  ∀ k, Base.bucket c !! k = if decide (k ∈ keys_of c) then Some k else None.

(** The invocations that the eviction of the pair [(k, v)] makes. *)
Definition callback c k v : list (Base.ev K V F) :=
  match Base.onEvicted c with
  | None => []
  | Some f => [if Base.async c then Spawned f k v else Ran f k v]
  end.

(** The state after the node of [e] left the list and the index. *)
Definition without c (e : Base.entry K V) : Base.unsafeCache K V F :=
  Base.set_bucket (delete (Base.key e) (Base.bucket c))
    (Base.set_entries (Base.list_Remove (Base.key e) (Base.entries c)) c).

Lemma wf_lookup c k : wf c -> k ∈ keys_of c -> Base.bucket c !! k = Some k.
Proof. intros [_ Hb] Hin. rewrite Hb. by rewrite decide_True. Qed.

Lemma wf_lookup_None c k : wf c -> k ∉ keys_of c -> Base.bucket c !! k = None.
Proof. intros [_ Hb] Hin. rewrite Hb. by rewrite decide_False. Qed.

Lemma wf_lookup_Some c k elem :
  wf c -> Base.bucket c !! k = Some elem -> elem = k ∧ k ∈ keys_of c.
Proof.
  intros [_ Hb]. rewrite Hb. case_decide; [|done]. by intros [= <-].
Qed.

Lemma wf_ext c c' :
  wf c -> wf c' ->
  Base.maxEntries c = Base.maxEntries c' ->
  Base.onEvicted c = Base.onEvicted c' ->
  Base.async c = Base.async c' ->
  Base.entries c = Base.entries c' ->
  c = c'.
Proof.
  intros [_ Hb] [_ Hb'] Hm Ho Ha He.
  destruct c as [m o a l b], c' as [m' o' a' l' b']; simpl in *. subst.
  f_equal. apply map_eq. intros k. rewrite Hb, Hb'. done.
Qed.

Lemma wf_New n opts : wf (Base.NewUnsafeLru (K:=K) (V:=V) (F:=F) n opts).
Proof.
  unfold Base.NewUnsafeLru.
  set (c0 := Base.UnsafeCache _ _ _ _ _).
  assert (Hc0 : wf c0).
  { unfold wf, keys_of, c0; simpl. split; [apply NoDup_nil_2|].
    intros k. by rewrite lookup_empty. }
  clearbody c0. revert c0 Hc0.
  induction opts as [|o opts IH]; intros c0 Hc0; simpl; [done|].
  apply IH. destruct o; simpl; done.
Qed.

Lemma New_entries n opts :
  Base.entries (Base.NewUnsafeLru (K:=K) (V:=V) (F:=F) n opts) = [].
Proof.
  unfold Base.NewUnsafeLru.
  set (c0 := Base.UnsafeCache _ _ _ _ _).
  assert (Hc0 : Base.entries c0 = []) by done.
  clearbody c0. revert c0 Hc0.
  induction opts as [|o opts IH]; intros c0 Hc0; simpl; [done|].
  apply IH. destruct o; simpl; done.
Qed.

Lemma New_maxEntries n opts :
  Base.maxEntries (Base.NewUnsafeLru (K:=K) (V:=V) (F:=F) n opts) =
  if decide (n <= 0) then Base.defaultSize else n.
Proof.
  unfold Base.NewUnsafeLru.
  set (c0 := Base.UnsafeCache _ _ _ _ _).
  assert (Hc0 : Base.maxEntries c0 = if decide (n <= 0) then Base.defaultSize else n)
    by done.
  clearbody c0. revert c0 Hc0.
  induction opts as [|o opts IH]; intros c0 Hc0; simpl; [done|].
  apply IH. destruct o; simpl; done.
Qed.

(** *** Removal of a node *)

Lemma removeElement_run c elem e :
  Base.list_Value elem (Base.entries c) = Some e ->
  Base.removeElement elem c = (tt, without c e, callback c (Base.key e) (Base.value e)).
Proof.
  intros He. destruct (Value_Some _ _ _ He) as [Hk _].
  unfold Base.removeElement, without, callback, Base.evicting.
  unfold bind, get, modify, ret, emit. rewrite He. simpl.
  rewrite Hk.
  destruct (Base.onEvicted c) as [f|]; simpl; [|done].
  destruct (Base.async c); done.
Qed.

Lemma wf_without c e : wf c -> wf (without c e).
Proof.
  intros [Hnd Hb]. unfold wf, without, keys_of in *. simpl.
  rewrite keys_Remove. split; [by apply NoDup_remove_key|].
  intros k. destruct (decide (k = Base.key e)) as [->|Hne].
  - rewrite lookup_delete_eq. rewrite decide_False; [done|].
    rewrite elem_of_remove_key by done. tauto.
  - rewrite lookup_delete_ne by done. rewrite Hb.
    destruct (decide (k ∈ keys (Base.entries c))) as [Hin|Hin].
    + rewrite decide_True; [done|]. by apply elem_of_remove_key.
    + rewrite decide_False; [done|]. rewrite elem_of_remove_key by done. tauto.
Qed.

Lemma without_snoc c l e :
  wf c -> Base.entries c = l ++ [e] ->
  Base.entries (without c e) = l.
Proof.
  intros [Hnd _] He. unfold without; simpl. rewrite He.
  unfold keys_of in Hnd. rewrite He in Hnd.
  apply NoDup_keys_snoc in Hnd as [Hn _]. by apply Remove_snoc.
Qed.

Lemma removeOldest_nil c :
  Base.entries c = [] -> Base.removeOldest c = (tt, c, []).
Proof.
  intros He. unfold Base.removeOldest, bind, get, ret. simpl. by rewrite He.
Qed.

Lemma removeOldest_snoc c l e :
  wf c -> Base.entries c = l ++ [e] ->
  Base.removeOldest c = (tt, without c e, callback c (Base.key e) (Base.value e)).
Proof.
  intros Hwf He.
  assert (Hv : Base.list_Value (Base.key e) (Base.entries c) = Some e).
  { destruct Hwf as [Hnd _]. unfold keys_of in Hnd. rewrite He in *.
    apply NoDup_keys_snoc in Hnd as [Hn _]. by apply Value_snoc. }
  unfold Base.removeOldest, bind, get. simpl.
  rewrite He, Back_snoc.
  rewrite (removeElement_run _ _ _ Hv). done.
Qed.


(** *** Queries *)

Lemma Contains_run c k :
  wf c -> Base.Contains k c = (bool_decide (k ∈ keys_of c), c, []).
Proof.
  intros [_ Hb]. unfold Base.Contains, bind, get, ret. cbv beta iota.
  rewrite Hb. repeat f_equal.
  destruct (decide (k ∈ keys_of c)) as [Hin|Hin].
  - rewrite !bool_decide_eq_true_2; [done|done|eauto].
  - rewrite !bool_decide_eq_false_2; [done|done|]. by intros [? ?].
Qed.

Lemma Len_run c : Base.Len c = (Z.of_nat (length (Base.entries c)), c, []).
Proof. done. Qed.

Lemma Keys_run c : Base.Keys c = (reverse (keys_of c), c, []).
Proof. done. Qed.

Lemma Peek_hit c k e :
  wf c -> Base.list_Value k (Base.entries c) = Some e ->
  Base.Peek k c = ((Base.value e, true), c, []).
Proof.
  intros Hwf He. destruct (Value_Some _ _ _ He) as [Hk Hin].
  unfold Base.Peek, bind, get, ret. cbv beta iota.
  rewrite (wf_lookup c k Hwf), He; [done|].
  unfold keys_of, keys. rewrite <- Hk. by apply list_elem_of_fmap_2.
Qed.

Lemma Peek_miss c k :
  wf c -> k ∉ keys_of c -> Base.Peek k c = ((zero, false), c, []).
Proof.
  intros Hwf Hn. unfold Base.Peek, bind, get, ret. cbv beta iota.
  by rewrite (wf_lookup_None c k Hwf Hn).
Qed.

(** *** Refreshing a node *)

(** The state after the node of [e] moved to the front, carrying [e']. *)
Definition touched c (e' : Base.entry K V) : Base.unsafeCache K V F :=
  Base.set_entries (e' :: Base.list_Remove (Base.key e') (Base.entries c)) c.

Lemma keys_touched c e' :
  keys_of (touched c e') = Base.key e' :: remove_key (Base.key e') (keys_of c).
Proof. unfold keys_of, touched; simpl. unfold keys at 1. simpl. f_equal. apply keys_Remove. Qed.

Lemma wf_touched c e' : wf c -> Base.key e' ∈ keys_of c -> wf (touched c e').
Proof.
  intros [Hnd Hb] Hin. split.
  - rewrite keys_touched. apply NoDup_cons. split; [|by apply NoDup_remove_key].
    rewrite elem_of_remove_key by done. tauto.
  - intros k. rewrite keys_touched. change (Base.bucket (touched c e')) with (Base.bucket c).
    rewrite Hb. destruct (decide (k = Base.key e')) as [->|Hne].
    + rewrite !decide_True; [done|left|done].
    + destruct (decide (k ∈ keys_of c)) as [Hk|Hk].
      * rewrite decide_True; [done|]. right. by apply elem_of_remove_key.
      * rewrite decide_False; [done|]. intros [?|Hk']%elem_of_cons; [done|].
        apply elem_of_remove_key in Hk'; tauto.
Qed.

Lemma Get_hit c k e :
  wf c -> Base.list_Value k (Base.entries c) = Some e ->
  Base.Get k c = ((Base.value e, true), touched c e, []).
Proof.
  intros Hwf He. destruct (Value_Some _ _ _ He) as [Hk Hin].
  assert (Hkin : k ∈ keys_of c).
  { unfold keys_of, keys. rewrite <- Hk. by apply list_elem_of_fmap_2. }
  unfold Base.Get, bind, get, ret, modify. cbv beta iota.
  rewrite (wf_lookup c k Hwf Hkin). simpl.
  rewrite (MoveToFront_elem _ _ _ He). simpl.
  rewrite decide_True by done. unfold touched. by rewrite Hk.
Qed.

Lemma Get_miss c k :
  wf c -> k ∉ keys_of c -> Base.Get k c = ((zero, false), c, []).
Proof.
  intros Hwf Hn. unfold Base.Get, bind, get, ret. cbv beta iota.
  by rewrite (wf_lookup_None c k Hwf Hn).
Qed.

(** *** Removal by key and of the oldest entry *)

Lemma Remove_hit c k e :
  wf c -> Base.list_Value k (Base.entries c) = Some e ->
  Base.Remove k c = (true, without c e, callback c k (Base.value e)).
Proof.
  intros Hwf He. destruct (Value_Some _ _ _ He) as [Hk Hin].
  assert (Hkin : k ∈ keys_of c).
  { unfold keys_of, keys. rewrite <- Hk. by apply list_elem_of_fmap_2. }
  unfold Base.Remove, bind, get, ret. cbv beta iota.
  rewrite (wf_lookup c k Hwf Hkin). simpl.
  rewrite (removeElement_run _ _ _ He). simpl. rewrite app_nil_r. by rewrite Hk.
Qed.

Lemma Remove_miss c k :
  wf c -> k ∉ keys_of c -> Base.Remove k c = (false, c, []).
Proof.
  intros Hwf Hn. unfold Base.Remove, bind, get, ret. cbv beta iota.
  by rewrite (wf_lookup_None c k Hwf Hn).
Qed.

Lemma RemoveOldest_nil c :
  Base.entries c = [] -> Base.RemoveOldest c = ((zero, zero, false), c, []).
Proof.
  intros He. unfold Base.RemoveOldest, bind, get, ret. cbv beta iota. by rewrite He.
Qed.

Lemma RemoveOldest_snoc c l e :
  wf c -> Base.entries c = l ++ [e] ->
  Base.RemoveOldest c =
  ((Base.key e, Base.value e, true), without c e,
   callback c (Base.key e) (Base.value e)).
Proof.
  intros Hwf He.
  assert (Hv : Base.list_Value (Base.key e) (Base.entries c) = Some e).
  { destruct Hwf as [Hnd _]. unfold keys_of in Hnd. rewrite He in *.
    apply NoDup_keys_snoc in Hnd as [Hn _]. by apply Value_snoc. }
  assert (Hb : Base.list_Back (Base.entries c) = Some (Base.key e))
    by (rewrite He; apply Back_snoc).
  unfold Base.RemoveOldest, bind, get, ret. cbv beta iota. rewrite Hb.
  rewrite (removeElement_run _ _ _ Hv). simpl. rewrite Hv. simpl.
  by rewrite app_nil_r.
Qed.

(** *** Insertion *)

(** The state after a new node for [(k, v)] entered the list and the
    index. *)
Definition pushed c k v : Base.unsafeCache K V F :=
  Base.set_bucket (<[k := k]> (Base.bucket c))
    (Base.set_entries (Base.Entry k v :: Base.entries c) c).

Lemma wf_pushed c k v : wf c -> k ∉ keys_of c -> wf (pushed c k v).
Proof.
  intros [Hnd Hb] Hn. unfold wf, pushed, keys_of in *. simpl.
  split; [by apply NoDup_cons|].
  intros k'. destruct (decide (k' = k)) as [->|Hne].
  - rewrite lookup_insert_eq. rewrite decide_True; [done|left].
  - rewrite lookup_insert_ne by done. rewrite Hb.
    destruct (decide (k' ∈ keys (Base.entries c))) as [Hin|Hin].
    + rewrite decide_True; [done|by right].
    + rewrite decide_False; [done|]. by intros [?|?]%elem_of_cons.
Qed.

Lemma Add_hit c k v :
  wf c -> k ∈ keys_of c ->
  Base.Add k v c = (false, touched c (Base.Entry k v), []).
Proof.
  intros Hwf Hin. unfold Base.Add, bind, get, ret, modify. cbv beta iota.
  rewrite (wf_lookup c k Hwf Hin). simpl.
  by rewrite MoveToFront_SetValue.
Qed.

Lemma Add_miss c k v :
  wf c -> k ∉ keys_of c ->
  Base.Add k v c =
  if decide (Z.of_nat (length (Base.entries c)) + 1 > Base.maxEntries c)
  then (true, state (Base.removeOldest (pushed c k v)),
        trace (Base.removeOldest (pushed c k v)))
  else (false, pushed c k v, []).
Proof.
  intros Hwf Hn. unfold Base.Add, bind, get, ret, modify. cbv beta iota.
rewrite (wf_lookup_None c k Hwf Hn). cbv beta iota zeta.
change (Base.set_bucket _ _) with (pushed c k v).
change (Base.maxEntries (pushed c k v)) with (Base.maxEntries c).
assert (Hlen : Base.list_Len (Base.entries (pushed c k v)) =
               Z.of_nat (length (Base.entries c)) + 1).
{ unfold Base.list_Len, pushed; simpl. lia. }
rewrite Hlen.
destruct (decide (Z.of_nat (length (Base.entries c)) + 1 > Base.maxEntries c)) as [Hgt|Hle].
- rewrite bool_decide_eq_true_2 by done.
  destruct (Base.removeOldest (pushed c k v)) as [[[] c'] tr]. simpl.
  by rewrite app_nil_r.
- rewrite bool_decide_eq_false_2 by done. done.
Qed.


(** The configuration that only [Resize] and the options touch. *)
Definition same_config c c' : Prop :=
  Base.maxEntries c' = Base.maxEntries c ∧
  Base.onEvicted c' = Base.onEvicted c ∧
  Base.async c' = Base.async c.

Lemma same_config_refl c : same_config c c.
Proof. done. Qed.

Lemma same_config_trans c1 c2 c3 :
  same_config c1 c2 -> same_config c2 c3 -> same_config c1 c3.
Proof. unfold same_config. intros (-> & -> & ->) (-> & -> & ->). done. Qed.

Lemma callback_config c c' k v : same_config c c' -> callback c' k v = callback c k v.
Proof. unfold callback. by intros (_ & -> & ->). Qed.

(** The invocations for a sequence of evicted entries. *)
Definition evictions c (es : list (Base.entry K V)) : list (Base.ev K V F) :=
  es ≫= (fun e => callback c (Base.key e) (Base.value e)).

Lemma evictions_config c c' es : same_config c c' -> evictions c' es = evictions c es.
Proof.
  intros Hc. unfold evictions. induction es as [|e es IH]; [done|].
  rewrite !bind_cons, IH. by rewrite (callback_config c c').
Qed.

Lemma evictions_app c es1 es2 :
  evictions c (es1 ++ es2) = evictions c es1 ++ evictions c es2.
Proof. unfold evictions. apply bind_app. Qed.

Lemma length_evictions c es :
  length (evictions c es) =
  match Base.onEvicted c with Some _ => length es | None => 0%nat end.
Proof.
  unfold evictions, callback. induction es as [|e es IH].
  - by destruct (Base.onEvicted c).
  - rewrite bind_cons, length_app, IH. by destruct (Base.onEvicted c).
Qed.

Lemma entries_nonempty_snoc (l : list (Base.entry K V)) :
  l ≠ [] -> ∃ l' e, l = l' ++ [e].
Proof.
  destruct l as [|x l] using rev_ind; [done|]. intros _. eauto.
Qed.

Lemma Add_evict_snoc c k v l e :
  wf c -> k ∉ keys_of c -> Base.entries c = l ++ [e] ->
  Z.of_nat (length (Base.entries c)) + 1 > Base.maxEntries c ->
  Base.Add k v c =
  (true, without (pushed c k v) e, callback c (Base.key e) (Base.value e)) ∧
  Base.entries (without (pushed c k v) e) = Base.Entry k v :: l.
Proof.
  intros Hwf Hn He Hgt. rewrite Add_miss by done. rewrite decide_True by done.
  assert (Hp : Base.entries (pushed c k v) = (Base.Entry k v :: l) ++ [e])
    by (unfold pushed; simpl; by rewrite He).
  pose proof (wf_pushed c k v Hwf Hn) as Hwp.
  rewrite (removeOldest_snoc _ _ _ Hwp Hp). split; [done|].
  by apply without_snoc.
Qed.

Lemma Add_evict_nil c k v :
  wf c -> Base.entries c = [] -> 1 > Base.maxEntries c ->
  Base.Add k v c = (true, without (pushed c k v) (Base.Entry k v), callback c k v) ∧
  Base.entries (without (pushed c k v) (Base.Entry k v)) = [].
Proof.
  intros Hwf He Hgt.
  assert (Hn : k ∉ keys_of c).
  { unfold keys_of. rewrite He. apply not_elem_of_nil. }
  rewrite Add_miss by done. rewrite decide_True by (rewrite He; simpl; lia).
  assert (Hp : Base.entries (pushed c k v) = [] ++ [Base.Entry k v])
    by (unfold pushed; simpl; by rewrite He).
  pose proof (wf_pushed c k v Hwf Hn) as Hwp.
  rewrite (removeOldest_snoc _ _ _ Hwp Hp). split; [done|].
  by apply without_snoc.
Qed.

Lemma Add_fit c k v :
  wf c -> k ∉ keys_of c ->
  Z.of_nat (length (Base.entries c)) + 1 <= Base.maxEntries c ->
  Base.Add k v c = (false, pushed c k v, []).
Proof.
  intros Hwf Hn Hle. rewrite Add_miss by done. by rewrite decide_False by lia.
Qed.

(** Every method keeps the invariant and, [Resize] apart, the
    configuration. *)
Lemma Add_wf c k v :
  wf c -> wf (state (Base.Add k v c)) ∧ same_config c (state (Base.Add k v c)).
Proof.
  intros Hwf. destruct (decide (k ∈ keys_of c)) as [Hin|Hn].
  - rewrite Add_hit by done. split; [|done]. by apply wf_touched.
  - pose proof (wf_pushed c k v Hwf Hn) as Hwp.
    destruct (decide (Z.of_nat (length (Base.entries c)) + 1 > Base.maxEntries c)) as [Hgt|Hle].
    + destruct (decide (Base.entries c = [])) as [He|He].
      * destruct (Add_evict_nil c k v Hwf He) as [-> _]; [rewrite He in Hgt; simpl in Hgt; lia|].
        split; [|done]. by apply wf_without.
      * destruct (entries_nonempty_snoc _ He) as (l & e & Hl).
        destruct (Add_evict_snoc c k v l e Hwf Hn Hl Hgt) as [-> _].
        split; [|done]. by apply wf_without.
    + rewrite Add_fit by (done || lia). done.
Qed.

Lemma Get_wf c k :
  wf c -> wf (state (Base.Get k c)) ∧ same_config c (state (Base.Get k c)).
Proof.
  intros Hwf. destruct (Base.list_Value k (Base.entries c)) as [e|] eqn:He.
  - rewrite (Get_hit c k e) by done. split; [|done].
    destruct (Value_Some _ _ _ He) as [Hk Hin]. apply wf_touched; [done|].
    unfold keys_of, keys. by apply list_elem_of_fmap_2.
  - apply Value_None in He. rewrite Get_miss by done. done.
Qed.

Lemma Remove_wf c k :
  wf c -> wf (state (Base.Remove k c)) ∧ same_config c (state (Base.Remove k c)).
Proof.
  intros Hwf. destruct (Base.list_Value k (Base.entries c)) as [e|] eqn:He.
  - rewrite (Remove_hit c k e) by done. split; [|done]. by apply wf_without.
  - apply Value_None in He. rewrite Remove_miss by done. done.
Qed.

Lemma RemoveOldest_wf c :
  wf c -> wf (state (Base.RemoveOldest c)) ∧ same_config c (state (Base.RemoveOldest c)).
Proof.
  intros Hwf. destruct (decide (Base.entries c = [])) as [He|He].
  - rewrite RemoveOldest_nil by done. done.
  - destruct (entries_nonempty_snoc _ He) as (l & e & Hl).
    rewrite (RemoveOldest_snoc c l e) by done. split; [|done]. by apply wf_without.
Qed.

(** *** Resize *)

Lemma repeat_removeOldest c n :
  wf c ->
  let r := repeat_m n Base.removeOldest c in
  wf (state r) ∧ same_config c (state r) ∧
  Base.entries (state r) =
    take (length (Base.entries c) - n) (Base.entries c) ∧
  trace r =
    evictions c (reverse (drop (length (Base.entries c) - n) (Base.entries c))).
Proof.
  revert c. induction n as [|n IH]; intros c Hwf; simpl.
  - rewrite Nat.sub_0_r, take_ge, drop_ge by lia. done.
  - rewrite bind_run.
    destruct (decide (Base.entries c = [])) as [He|He].
    + rewrite (removeOldest_nil c He). simpl.
      destruct (IH c Hwf) as (Hw & Hc & Hen & Htr).
      rewrite He in *. simpl in *. rewrite Hen, Htr. done.
    + destruct (entries_nonempty_snoc _ He) as (l & e & Hl).
      rewrite (removeOldest_snoc c l e Hwf Hl). simpl.
      pose proof (wf_without c e Hwf) as Hw'.
      pose proof (without_snoc c l e Hwf Hl) as Hl'.
      destruct (IH _ Hw') as (Hw & Hc & Hen & Htr).
      split; [done|]. split; [eapply same_config_trans; [|exact Hc]; done|].
      rewrite Hen, Htr, Hl', Hl. rewrite length_app. simpl.
      replace (length l + 1 - S n)%nat with (length l - n)%nat by lia.
      split.
      * by rewrite take_app_le by lia.
      * rewrite (evictions_config c (without c e)) by done.
        rewrite drop_app_le by lia. rewrite reverse_app, reverse_singleton.
        rewrite evictions_app. f_equal. unfold evictions. simpl. by rewrite app_nil_r.
Qed.

Lemma Resize_run c size :
  let diff0 := Int.sub (Z.of_nat (length (Base.entries c))) size in
  let diff := if decide (diff0 < 0) then 0 else diff0 in
  let r := repeat_m (Z.to_nat diff) Base.removeOldest c in
  Base.Resize size c = (diff, Base.set_maxEntries size (state r), trace r).
Proof.
  intros diff0 diff r. unfold Base.Resize. rewrite bind_run, Len_run.
  unfold result, state, trace; simpl fst; simpl snd.
  fold diff0. fold diff. rewrite bind_run. fold r.
  unfold bind, modify, ret; simpl. by rewrite !app_nil_r.
Qed.


(** *** Clear *)

(** The invocation made by one round of the loop of [Clear]. *)
Definition clear_call c (kv : K * K) : list (Base.ev K V F) :=
  match Base.onEvicted c with
  | None => []
  | Some f =>
      match Base.list_Value kv.2 (Base.entries c) with
      | None => []
      | Some ent =>
          [if Base.async c then Spawned f kv.1 (Base.value ent)
           else Ran f kv.1 (Base.value ent)]
      end
  end.

(** The empty cache with the configuration of [c]. *)
Definition cleared c : Base.unsafeCache K V F :=
  Base.set_entries [] (Base.set_bucket ∅ c).

Lemma for_each_Clear_step c (kvs : list (K * K)) :
  Base.for_each kvs Base.Clear_step c =
  (tt, Base.set_bucket (foldl (fun b kv => delete kv.1 b) (Base.bucket c) kvs) c,
   kvs ≫= clear_call c).
Proof.
  revert c. induction kvs as [|kv kvs IH]; intros c.
  - by destruct c.
  - simpl. rewrite bind_run.
    assert (Hstep : Base.Clear_step kv c =
      (tt, Base.set_bucket (delete kv.1 (Base.bucket c)) c, clear_call c kv)).
    { unfold Base.Clear_step, clear_call, Base.evicting, bind, get, ret, modify, emit.
      cbv beta iota.
      destruct (Base.onEvicted c) as [f|]; [|done].
      destruct (Base.list_Value kv.2 (Base.entries c)) as [ent|]; [|done].
      destruct (Base.async c); done. }
    rewrite Hstep. simpl. rewrite IH. simpl. done.
Qed.

Lemma lookup_foldl_delete (b : gmap K K) (kvs : list (K * K)) k :
  foldl (fun b kv => delete kv.1 b) b kvs !! k =
  if decide (k ∈ kvs.*1) then None else b !! k.
Proof.
  revert b. induction kvs as [|kv kvs IH]; intros b; [done|].
  cbn [foldl]. rewrite IH, fmap_cons.
  destruct (decide (k ∈ kvs.*1)) as [Hin|Hin];
    destruct (decide (k ∈ kv.1 :: kvs.*1)) as [Hin'|Hin']; try done.
  - exfalso. apply Hin'. by right.
  - apply elem_of_cons in Hin' as [->|?]; [|done]. apply lookup_delete_eq.
  - apply lookup_delete_ne. intros Heq. apply Hin'. rewrite Heq. left.
Qed.

Lemma Value_of_elem (l : list (Base.entry K V)) e :
  NoDup (keys l) -> e ∈ l -> Base.list_Value (Base.key e) l = Some e.
Proof.
  unfold keys. induction l as [|x l IH]; intros Hnd Hin.
  - by apply elem_of_nil in Hin.
  - simpl in *. apply NoDup_cons in Hnd as [Hx Hnd].
    apply elem_of_cons in Hin as [->|Hin]; [by rewrite decide_True|].
    rewrite decide_False; [by apply IH|].
    intros Heq. apply Hx. rewrite Heq. by apply list_elem_of_fmap_2.
Qed.

Lemma index_Permutation c :
  wf c ->
  map_to_list (Base.bucket c) ≡ₚ (fun e => (Base.key e, Base.key e)) <$> Base.entries c.
Proof.
  intros [Hnd Hb]. apply NoDup_Permutation.
  - apply NoDup_map_to_list.
  - apply (NoDup_fmap_1 fst). rewrite <- list_fmap_compose. exact Hnd.
  - intros [i x]. rewrite elem_of_map_to_list, Hb, list_elem_of_fmap.
    unfold keys_of, keys. split.
    + case_decide as Hin; [|done]. intros [= <-].
      apply list_elem_of_fmap in Hin as (e & -> & Hin). eauto.
    + intros (e & [= -> ->] & Hin). rewrite decide_True; [done|].
      by apply list_elem_of_fmap_2.
Qed.

Lemma Clear_run c :
  wf c ->
  Base.Clear c = (tt, cleared c, trace (Base.Clear c)) ∧
  trace (Base.Clear c) ≡ₚ evictions c (Base.entries c).
Proof.
  intros Hwf. unfold Base.Clear. rewrite bind_run. unfold get at 1 2 3 4 5. simpl.
  rewrite bind_run, for_each_Clear_step. simpl. unfold modify. simpl.
  rewrite !app_nil_r. split.
  - f_equal. f_equal. unfold cleared, Base.set_entries, Base.set_bucket, Base.list_Init; simpl.
    f_equal. apply map_eq. intros k. rewrite lookup_foldl_delete, lookup_empty.
    case_decide as Hin; [done|].
    destruct (Base.bucket c !! k) as [x|] eqn:Hk; [|done].
    exfalso. apply Hin. apply elem_of_map_to_list in Hk.
    by apply (list_elem_of_fmap_2 fst) in Hk.
  - rewrite (index_Permutation c Hwf). destruct Hwf as [Hnd _].
    unfold evictions. clear -Hnd.
    assert (Hsub : ∀ e, e ∈ Base.entries c -> e ∈ Base.entries c) by done.
    revert Hsub. generalize (Base.entries c) at 1 3 4 as es.
    induction es as [|e es IH]; intros Hsub; [done|].
    rewrite fmap_cons, !bind_cons. rewrite IH by (intros; apply Hsub; by right).
    assert (Hhd : clear_call c (Base.key e, Base.key e) =
                  callback c (Base.key e) (Base.value e)).
    { unfold clear_call, callback. simpl.
      rewrite (Value_of_elem _ e Hnd) by (apply Hsub; left). done. }
    by rewrite Hhd.
Qed.

Lemma wf_cleared c : wf (cleared c).
Proof.
  unfold wf, cleared, keys_of; simpl. split; [apply NoDup_nil_2|].
  intros k. by rewrite lookup_empty.
Qed.

Lemma Clear_wf c :
  wf c -> wf (state (Base.Clear c)) ∧ same_config c (state (Base.Clear c)).
Proof.
  intros Hwf. destruct (Clear_run c Hwf) as [-> _]. simpl.
  split; [apply wf_cleared | done].
Qed.

Lemma Resize_wf c size : wf c -> wf (state (Base.Resize size c)).
Proof.
  intros Hwf. rewrite Resize_run. simpl.
  match goal with |- context [repeat_m ?n _ _] =>
    destruct (repeat_removeOldest c n Hwf) as (Hw & _) end.
  exact Hw.
Qed.

End BaseFacts.
End BaseFacts.

(** ** Recency order of the base engine *)
Module LruOrder.
Section LruOrder.

Context {K : Type} `{Countable K} `{GoZero K} {V : Type} `{GoZero V} {F : Type}.

Import ListFacts BaseFacts.

Implicit Types (c : Base.unsafeCache K V F) (k : K) (v : V) (h D : list K).

(** The operations of the claim. *)
Inductive op : Type :=
  | OpAdd (k : K) (v : V)
  | OpGet (k : K).

Definition step (o : op) c : Base.unsafeCache K V F :=
  match o with
  | OpAdd k v => state (Base.Add k v c)
  | OpGet k => state (Base.Get k c)
  end.

Definition run (ops : list op) c : Base.unsafeCache K V F := foldl (fun c o => step o c) c ops.

(** The last [n] elements of a list. *)
Definition lastn {A} (n : nat) (l : list A) : list A := drop (length l - n) l.

(** The [n] most recently accessed distinct keys of a history, oldest
    first: [remove_dups] keeps the last access of every key. *)
Definition most_recent (n : nat) h : list K := lastn n (remove_dups h).

(** Follows the spec's words.  The access an operation makes at capacity
    [n] after the accesses [h]: an [Add] accesses its key; a [Get] accesses
    its key when it hits, that is when the key is resident, one of the [n]
    most recently accessed keys. *)
Definition accessed (n : nat) h (o : op) : list K :=
  match o with
  | OpAdd k _ => [k]
  | OpGet k => if decide (k ∈ most_recent n h) then [k] else []
  end.

(** The accesses after a run, in the order they happen. *)
Fixpoint history (n : nat) h (ops : list op) : list K :=
  match ops with
  | [] => h
  | o :: ops' => history n (h ++ accessed n h o) ops'
  end.

Lemma remove_key_app k (l1 l2 : list K) :
  remove_key k (l1 ++ l2) =
  if decide (k ∈ l1) then remove_key k l1 ++ l2 else l1 ++ remove_key k l2.
Proof.
  induction l1 as [|x l1 IH]; simpl.
  - done.
  - destruct (decide (x = k)) as [->|Hne].
    + rewrite decide_True; [done|left].
    + rewrite IH. destruct (decide (k ∈ l1)) as [Hin|Hin].
      * rewrite decide_True; [done|by right].
      * rewrite decide_False; [done|]. intros [?|?]%elem_of_cons; congruence.
Qed.

Lemma remove_key_reverse k (l : list K) :
  NoDup l -> remove_key k (reverse l) = reverse (remove_key k l).
Proof.
  induction l as [|x l IH]; intros Hnd; [done|].
  apply NoDup_cons in Hnd as [Hx Hnd]. rewrite reverse_cons, remove_key_app.
  simpl. destruct (decide (x = k)) as [->|Hne].
  - rewrite decide_False by (by rewrite elem_of_reverse). by rewrite app_nil_r.
  - rewrite reverse_cons, <- IH by done.
    destruct (decide (k ∈ reverse l)) as [Hin|Hin]; [done|].
    by rewrite remove_key_absent.
Qed.

Lemma remove_dups_snoc h k :
  remove_dups (h ++ [k]) = remove_key k (remove_dups h) ++ [k].
Proof.
  induction h as [|x h IH]; [done|].
  change ((x :: h) ++ [k]) with (x :: (h ++ [k])).
  cbn [remove_dups]. rewrite IH.
  destruct (decide (x = k)) as [->|Hne].
  - destruct (decide_rel (∈) k (h ++ [k])) as [_|Hn];
      [|exfalso; apply Hn, elem_of_app; right; left].
    destruct (decide_rel (∈) k h) as [Hin|Hin]; [done|].
    simpl. rewrite decide_True by done.
    rewrite remove_key_absent; [done|]. by rewrite elem_of_remove_dups.
  - destruct (decide_rel (∈) x (h ++ [k])) as [Hin|Hin];
      destruct (decide_rel (∈) x h) as [Hin'|Hin']; simpl.
    + done.
    + apply elem_of_app in Hin as [?|Hin]; [done|].
      apply list_elem_of_singleton in Hin. done.
    + exfalso. apply Hin. apply elem_of_app. by left.
    + by rewrite decide_False.
Qed.

(** The stack of distinct keys, most recently accessed first. *)
Definition stack h : list K := reverse (remove_dups h).

Lemma stack_snoc h k : stack (h ++ [k]) = k :: remove_key k (stack h).
Proof.
  unfold stack. rewrite remove_dups_snoc, reverse_snoc. f_equal.
  symmetry. apply remove_key_reverse, NoDup_remove_dups.
Qed.

Lemma NoDup_stack h : NoDup (stack h).
Proof. unfold stack. rewrite reverse_Permutation. apply NoDup_remove_dups. Qed.

Lemma take_remove_key_in k D n :
  k ∈ take (S n) D -> take n (remove_key k D) = remove_key k (take (S n) D).
Proof.
  revert n. induction D as [|x D IH]; intros n Hin.
  - by apply elem_of_nil in Hin.
  - simpl in *. destruct (decide (x = k)) as [->|Hne]; [done|].
    apply elem_of_cons in Hin as [->|Hin]; [done|].
    destruct n as [|n]; [by apply elem_of_nil in Hin|].
    simpl. f_equal. by apply IH.
Qed.

Lemma take_remove_key_out k D n :
  k ∉ take (S n) D -> take n (remove_key k D) = take n D.
Proof.
  revert n. induction D as [|x D IH]; intros n Hn; [done|].
  simpl in *. apply not_elem_of_cons in Hn as [Hne Hn].
  rewrite decide_False by done.
  destruct n as [|n]; [done|]. simpl. f_equal. by apply IH.
Qed.


(** The invariant of a run at capacity [n] after the accesses [h]: the
    list holds the first [n] keys of the stack. *)
Definition inv (n : nat) c h : Prop :=
  wf c ∧ Base.maxEntries c = Z.of_nat n ∧ keys_of c = take n (stack h).

Lemma inv_touch n c h e :
  inv (S n) c h -> Base.key e ∈ keys_of c ->
  inv (S n) (touched c e) (h ++ [Base.key e]).
Proof.
  intros (Hwf & Hmax & Hkeys) Hin. split; [by apply wf_touched|]. split; [done|].
  rewrite keys_touched, stack_snoc, Hkeys. simpl. f_equal.
  symmetry. apply take_remove_key_in. by rewrite <- Hkeys.
Qed.

Lemma inv_Add n c h k v :
  inv (S n) c h -> inv (S n) (state (Base.Add k v c)) (h ++ [k]).
Proof.
  intros Hinv. pose proof Hinv as (Hwf & Hmax & Hkeys).
  assert (Hlen : length (Base.entries c) = length (keys_of c))
    by (unfold keys_of, keys; by rewrite length_fmap).
  destruct (decide (k ∈ keys_of c)) as [Hin|Hn].
  - rewrite Add_hit by done. by apply (inv_touch n c h (Base.Entry k v)).
  - assert (Hout : take n (remove_key k (stack h)) = take n (stack h)).
    { apply take_remove_key_out. by rewrite <- Hkeys. }
    destruct (decide (Z.of_nat (length (Base.entries c)) + 1 > Base.maxEntries c)) as [Hgt|Hle].
    + assert (Hfull : length (keys_of c) = S n).
      { pose proof (length_take_le (stack h) (S n)) as Hle.
        rewrite Hkeys in *. rewrite length_take in *. lia. }
      destruct (decide (Base.entries c = [])) as [He|He].
      { rewrite Hlen in *. unfold keys_of in Hfull. rewrite He in Hfull. done. }
      destruct (entries_nonempty_snoc _ He) as (l & e & Hl).
      destruct (Add_evict_snoc c k v l e Hwf Hn Hl Hgt) as [-> Hent]. simpl.
      split; [by apply wf_without, wf_pushed|]. split; [done|].
      unfold keys_of. rewrite Hent. rewrite stack_snoc. simpl. f_equal.
      rewrite Hout.
      assert (Hkl : keys l = take (length l) (keys_of c)).
      { unfold keys_of. rewrite Hl, keys_snoc. unfold keys.
        by rewrite <- (length_fmap Base.key l), take_app_length. }
      rewrite Hkl, Hkeys, take_take.
      unfold keys_of in Hfull. rewrite Hl, keys_snoc, length_app in Hfull.
      unfold keys in Hfull. rewrite length_fmap in Hfull. simpl in Hfull.
      f_equal. lia.
    + rewrite Add_fit by (done || lia). split; [by apply wf_pushed|]. split; [done|].
      unfold keys_of, pushed; simpl. fold (keys_of c).
      rewrite stack_snoc. simpl. f_equal. rewrite Hout.
      assert (Hshort : (length (take (S n) (stack h)) <= n)%nat)
        by (rewrite <- Hkeys; lia).
      rewrite length_take in Hshort.
      rewrite Hkeys, !take_ge by lia. done.
Qed.

Lemma most_recent_stack n h : most_recent n h = reverse (take n (stack h)).
Proof.
  unfold most_recent, lastn, stack.
  by rewrite reverse_take, reverse_involutive, length_reverse.
Qed.

Lemma inv_resident n c h k :
  inv n c h -> k ∈ most_recent n h <-> k ∈ keys_of c.
Proof.
  intros (_ & _ & ->). by rewrite most_recent_stack, elem_of_reverse.
Qed.

Lemma inv_step n c h o :
  inv (S n) c h -> inv (S n) (step o c) (h ++ accessed (S n) h o).
Proof.
  intros Hinv. destruct o as [k v|k]; simpl.
  - by apply inv_Add.
  - pose proof Hinv as (Hwf & Hmax & Hkeys).
    destruct (decide (k ∈ most_recent (S n) h)) as [Hin|Hn].
    + apply (inv_resident _ c) in Hin; [|done].
      destruct (Value_elem _ _ Hin) as [e He].
      rewrite (Get_hit c k e) by done. simpl.
      destruct (Value_Some _ _ _ He) as [Hk _]. rewrite <- Hk.
      apply inv_touch; [done|]. by rewrite Hk.
    + rewrite (inv_resident _ c) in Hn by done.
      rewrite Get_miss by done. simpl. by rewrite app_nil_r.
Qed.

Lemma inv_run n ops c h :
  inv (S n) c h -> inv (S n) (run ops c) (history (S n) h ops).
Proof.
  revert c h. induction ops as [|o ops IH]; intros c h Hinv; simpl; [done|].
  apply IH. by apply inv_step.
Qed.

Lemma inv_New (n : Z) opts :
  inv (Z.to_nat (if decide (n <= 0) then Base.defaultSize else n))
    (Base.NewUnsafeLru (K:=K) (V:=V) (F:=F) n opts) [].
Proof.
  split; [apply wf_New|]. split.
  - rewrite New_maxEntries. unfold Base.defaultSize. case_decide; lia.
  - unfold keys_of. rewrite New_entries. by destruct (Z.to_nat _).
Qed.

End LruOrder.
End LruOrder.

(** C6.  On a base engine built by [NewUnsafeLru n] (capacity [cap], which
    is [n], or 128 when [n <= 0], hence at least 1), after every sequence
    of [Add] and [Get]: [Len()] is at most [cap]; [Keys()] lists, oldest
    first, exactly the [cap] most recently accessed distinct keys, where an
    access is an [Add] or a [Get] of a key that is resident; a [Get] finds
    exactly the keys of [Keys()]; and an [Add] that reports an eviction
    leaves exactly [cap] entries.  With capacity 10, adding the keys 0..9
    and then 10..19 gives [Len() = 10] and [Keys() = [10; ...; 19]]; with
    capacity 3, [Add] of 1, 2, 3, [Get(1)] and [Add] of 4 give
    [Keys() = [3; 1; 4]]. *)
Theorem lru_keeps_most_recent :
  (∀ (K : Type) `(Countable K) `(GoZero K) (V : Type) `(GoZero V) (F : Type)
     (n : Z) (opts : list (Base.Option F)) (ops : list (LruOrder.op (K:=K) (V:=V))),
     let c0 : Base.unsafeCache K V F := Base.NewUnsafeLru n opts in
     let cap := Base.maxEntries c0 in
     let c := LruOrder.run ops c0 in
     cap = (if decide (n <= 0) then 128 else n) ∧ 1 <= cap ∧
     result (Base.Len c) <= cap ∧
     result (Base.Keys c) =
       LruOrder.most_recent (Z.to_nat cap) (LruOrder.history (Z.to_nat cap) [] ops) ∧
     (∀ k, (result (Base.Get k c)).2 = bool_decide (k ∈ result (Base.Keys c))) ∧
     (∀ k v, result (Base.Add k v c) = true ->
             result (Base.Len (state (Base.Add k v c))) = cap)) ∧
  (let c0 : Base.unsafeCache Z Z unit := Base.NewUnsafeLru 10 [] in
   let c := LruOrder.run ((fun i => LruOrder.OpAdd i i) <$> seqZ 0 20) c0 in
   result (Base.Len c) = 10 ∧ result (Base.Keys c) = seqZ 10 10) ∧
  (let c0 : Base.unsafeCache Z Z unit := Base.NewUnsafeLru 3 [] in
   let c := LruOrder.run [LruOrder.OpAdd 1 1; LruOrder.OpAdd 2 2; LruOrder.OpAdd 3 3;
                          LruOrder.OpGet 1; LruOrder.OpAdd 4 4] c0 in
   result (Base.Keys c) = [3; 1; 4]).
Proof.
  split; [|by vm_compute].
  intros K ? ? ? V ? F n opts ops c0 cap c.
  pose proof (LruOrder.inv_New (K:=K) (V:=V) (F:=F) n opts) as Hinv0.
  assert (Hcap : cap = if decide (n <= 0) then 128 else n)
    by apply BaseFacts.New_maxEntries.
  assert (Hpos : 1 <= cap) by (rewrite Hcap; case_decide; lia).
  fold Base.defaultSize in Hcap. rewrite <- Hcap in Hinv0.
  destruct (Z.to_nat cap) as [|m] eqn:Hm; [lia|].
  pose proof (LruOrder.inv_run m ops c0 [] Hinv0) as (Hwf & Hmax & Hkeys).
  fold c in Hwf, Hmax, Hkeys.
  assert (Hlen : length (Base.entries c) = length (BaseFacts.keys_of c))
    by (unfold BaseFacts.keys_of, ListFacts.keys; by rewrite length_fmap).
  assert (Hle : (length (Base.entries c) <= S m)%nat).
  { rewrite Hlen, Hkeys, length_take. lia. }
  split; [done|]. split; [done|]. split; [|split; [|split]].
  - rewrite BaseFacts.Len_run. simpl. lia.
  - rewrite BaseFacts.Keys_run. simpl. rewrite Hkeys.
    by rewrite LruOrder.most_recent_stack.
  - intros k. rewrite BaseFacts.Keys_run. cbn [result fst snd].
    destruct (Base.list_Value k (Base.entries c)) as [e|] eqn:He.
    + rewrite (BaseFacts.Get_hit c k e Hwf He). cbn [result fst snd].
      symmetry. apply bool_decide_eq_true_2. rewrite elem_of_reverse.
      destruct (ListFacts.Value_Some _ _ _ He) as [<- Hin].
      unfold BaseFacts.keys_of, ListFacts.keys. by apply list_elem_of_fmap_2.
    + apply ListFacts.Value_None in He.
      rewrite (BaseFacts.Get_miss c k Hwf He). cbn [result fst snd].
      symmetry. apply bool_decide_eq_false_2. by rewrite elem_of_reverse.
  - intros k v Hev. rewrite BaseFacts.Len_run. simpl.
    destruct (decide (k ∈ BaseFacts.keys_of c)) as [Hin|Hn].
    { rewrite BaseFacts.Add_hit in Hev by done. done. }
    destruct (decide (Z.of_nat (length (Base.entries c)) + 1 > Base.maxEntries c)) as [Hgt|Hngt].
    + destruct (decide (Base.entries c = [])) as [He|He].
      { rewrite He in Hgt. simpl in Hgt. lia. }
      destruct (BaseFacts.entries_nonempty_snoc _ He) as (l & e & Hl).
      destruct (BaseFacts.Add_evict_snoc c k v l e Hwf Hn Hl Hgt) as [-> Hent].
      change (Z.of_nat (length (Base.entries
                (BaseFacts.without (BaseFacts.pushed c k v) e))) = cap).
      rewrite Hent. rewrite Hl, length_app in Hgt, Hle. simpl in *. lia.
    + rewrite BaseFacts.Add_fit in Hev by (done || lia). done.
Qed.

(** ** Resize and the round trip on the base engine *)
Section BaseClaims.

Context {K : Type} `{Countable K} `{GoZero K} {V : Type} `{GoZero V} {F : Type}.

Import ListFacts BaseFacts.

Implicit Types (c : Base.unsafeCache K V F) (k : K) (v : V).

(** After an insertion at a capacity of at least one, the new entry is the
    front node. *)
Lemma Add_front c k v :
  wf c -> 1 <= Base.maxEntries c ->
  ∃ l, Base.entries (state (Base.Add k v c)) = Base.Entry k v :: l.
Proof.
  intros Hwf Hcap. destruct (decide (k ∈ keys_of c)) as [Hin|Hn].
  - rewrite Add_hit by done. simpl. eauto.
  - destruct (decide (Z.of_nat (length (Base.entries c)) + 1 > Base.maxEntries c)) as [Hgt|Hle].
    + destruct (decide (Base.entries c = [])) as [He|He].
      { rewrite He in Hgt. simpl in Hgt. lia. }
      destruct (entries_nonempty_snoc _ He) as (l & e & Hl).
      destruct (Add_evict_snoc c k v l e Hwf Hn Hl Hgt) as [-> Hent].
      exists l. exact Hent.
    + rewrite Add_fit by (done || lia). simpl. eauto.
Qed.

(** At a capacity below one, with nothing resident, an insertion is
    undone at once. *)
Lemma Add_discard c k v :
  wf c -> Base.entries c = [] -> Base.maxEntries c <= 0 ->
  Base.Add k v c = (true, c, callback c k v).
Proof.
  intros Hwf He Hcap.
  destruct (Add_evict_nil c k v Hwf He) as [-> Hent]; [lia|].
  f_equal. f_equal. apply wf_ext; try done.
  - apply wf_without, wf_pushed; [done|].
    unfold keys_of. rewrite He. apply not_elem_of_nil.
  - by rewrite Hent.
Qed.

(** [Resize] when the subtraction [c.Len() - size] does not wrap around. *)
Lemma Resize_spec c size :
  wf c -> Int.in_range (Z.of_nat (length (Base.entries c)) - size) ->
  let len := Z.of_nat (length (Base.entries c)) in
  let keep := Z.to_nat (Z.min len (Z.max size 0)) in
  let r := Base.Resize size c in
  wf (state r) ∧
  result r = Z.max (len - size) 0 ∧
  Base.maxEntries (state r) = size ∧
  Base.onEvicted (state r) = Base.onEvicted c ∧
  Base.async (state r) = Base.async c ∧
  Base.entries (state r) = take keep (Base.entries c) ∧
  trace r = evictions c (reverse (drop keep (Base.entries c))).
Proof.
  intros Hwf Hrange len keep r.
  split; [by apply Resize_wf|].
  subst r. rewrite Resize_run. simpl.
  rewrite IntFacts.sub_id by done. fold len.
  set (diff := if decide (len - size < 0) then 0 else len - size).
  assert (Hdiff : diff = Z.max (len - size) 0) by (unfold diff; case_decide; lia).
  destruct (repeat_removeOldest c (Z.to_nat diff) Hwf) as (_ & (Hm & Ho & Ha) & Hen & Htr).
  assert (Hkeep : (length (Base.entries c) - Z.to_nat diff)%nat = keep)
    by (unfold keep; lia).
  rewrite Hkeep in Hen, Htr. done.
Qed.


(** C5 (as amended).  On every base engine state for which [c.Len() - size]
    fits an [int], [Resize(size)] keeps the [min(len, max(size, 0))] newest
    entries and evicts the others one at a time, oldest first, each with
    its callback; an eviction request on an empty list changes nothing; the
    capacity becomes [size] whatever its sign; the result is
    [max(len - size, 0)], the number of eviction requests, of which
    [min(result, len)] evict an entry; and [Len()] afterwards is
    [min(len, max(size, 0))]. *)
Theorem Resize_evicts_oldest c size :
  wf c -> Int.in_range (Z.of_nat (length (Base.entries c)) - size) ->
  let len := Z.of_nat (length (Base.entries c)) in
  let keep := Z.to_nat (Z.min len (Z.max size 0)) in
  let r := Base.Resize size c in
  Base.entries (state r) = take keep (Base.entries c) ∧
  trace r = evictions c (reverse (drop keep (Base.entries c))) ∧
  (∀ c', Base.entries c' = [] -> Base.removeOldest c' = (tt, c', [])) ∧
  Base.maxEntries (state r) = size ∧
  result r = Z.max (len - size) 0 ∧
  result (Base.Len (state r)) = Z.min len (Z.max size 0) ∧
  len - result (Base.Len (state r)) = Z.min (result r) len.
Proof.
  intros Hwf Hrange len keep r.
  destruct (Resize_spec c size Hwf Hrange) as (_ & Hres & Hmax & _ & _ & Hen & Htr).
  fold len keep r in Hres, Hen, Htr, Hmax.
  assert (Hlen : result (Base.Len (state r)) = Z.min len (Z.max size 0)).
  { rewrite Len_run. simpl. rewrite Hen, length_take. unfold keep, len. lia. }
  repeat split; try done.
  - apply removeOldest_nil.
  - rewrite Hlen, Hres. lia.
Qed.

(** C9 (as amended).  On a base engine whose capacity is at least one,
    [Add(k, v)] followed by [Peek(k)] returns [(v, true)] and changes
    nothing, so [Keys()] is the same before and after the [Peek];
    [Get(k)] right after returns [(v, true)] and leaves [k] on the front
    node, the last key of [Keys()]. *)
Theorem Add_Peek_Get c k v :
  wf c -> 1 <= Base.maxEntries c ->
  let c1 := state (Base.Add k v c) in
  let c2 := state (Base.Get k c1) in
  Base.Peek k c1 = ((v, true), c1, []) ∧
  result (Base.Keys (state (Base.Peek k c1))) = result (Base.Keys c1) ∧
  result (Base.Get k c1) = (v, true) ∧
  (∃ l, Base.entries c2 = Base.Entry k v :: l ∧
        result (Base.Keys c2) = reverse (keys l) ++ [k]).
Proof.
  intros Hwf Hcap c1 c2.
  destruct (Add_front c k v Hwf Hcap) as [l Hl]. fold c1 in Hl.
  assert (Hwf1 : wf c1) by apply Add_wf, Hwf.
  assert (Hv : Base.list_Value k (Base.entries c1) = Some (Base.Entry k v)).
  { rewrite Hl. apply (Value_head (Base.Entry k v)). }
  assert (Hpeek : Base.Peek k c1 = ((v, true), c1, [])) by exact (Peek_hit c1 k (Base.Entry k v) Hwf1 Hv).
  assert (Hget : Base.Get k c1 = ((v, true), touched c1 (Base.Entry k v), []))
    by exact (Get_hit c1 k (Base.Entry k v) Hwf1 Hv).
  split; [done|]. split; [by rewrite Hpeek|]. split; [by rewrite Hget|].
  exists l. unfold c2. rewrite Hget. unfold touched. simpl. rewrite Hl. simpl.
  rewrite decide_True by done. split; [done|].
  unfold Base.Keys, bind, get, ret. simpl. by rewrite reverse_cons.
Qed.

(** Non-positive capacity with no wrap-around in [Resize]: the engine is
    emptied, and from then on every [Add] inserts, evicts what it inserted
    and reports the eviction. *)
Lemma write_through_discard c size :
  wf c -> size <= 0 ->
  Int.in_range (Z.of_nat (length (Base.entries c)) - size) ->
  let c' := state (Base.Resize size c) in
  result (Base.Len c') = 0 ∧
  ∀ k v, Base.Add k v c' = (true, c', callback c' k v).
Proof.
  intros Hwf Hsize Hrange c'.
  destruct (Resize_spec c size Hwf Hrange) as (Hwf' & _ & Hmax & _ & _ & Hen & _).
  fold c' in Hwf', Hmax, Hen.
  replace (Z.to_nat _) with 0%nat in Hen by lia. rewrite take_0 in Hen.
  split; [by rewrite Len_run, Hen|].
  intros k v. apply Add_discard; [done|done|lia].
Qed.

End BaseClaims.

(** A sample state: three entries in an engine of capacity three, with a
    callback. *)
Definition sample : Base.unsafeCache Z Z unit :=
  state (Base.Add 3 30 (state (Base.Add 2 20 (state (Base.Add 1 10
    (Base.NewUnsafeLru 3 [Base.WithOnEvicted tt])))))).

Lemma wf_sample : BaseFacts.wf sample.
Proof. apply BaseFacts.Add_wf, BaseFacts.Add_wf, BaseFacts.Add_wf, BaseFacts.wf_New. Qed.

(** The amended C5 on the sample state, resized to one entry. *)
Lemma Resize_evicts_oldest_witness :
  Base.entries (state (Base.Resize 1 sample)) = [Base.Entry 3 30] ∧
  trace (Base.Resize 1 sample) = [Ran tt 1 10; Ran tt 2 20] ∧
  result (Base.Resize 1 sample) = 2.
Proof.
  assert (Hrange : Int.in_range (Z.of_nat (length (Base.entries sample)) - 1))
    by (vm_compute; split; discriminate).
  destruct (Resize_evicts_oldest sample 1 wf_sample Hrange)
    as (Hen & Htr & _ & _ & Hres & _).
  split; [exact Hen|]. split; [exact Htr|exact Hres].
Defined.

(** C5, counterexample: on an engine with one entry, [Resize(-1)] returns
    2 although a single entry is evicted (one callback, and [Len()] goes
    from 1 to 0). *)
Lemma Resize_count_counterexample :
  let c : Base.unsafeCache Z Z unit :=
    state (Base.Add 1 10 (Base.NewUnsafeLru 1 [Base.WithOnEvicted tt])) in
  let r := Base.Resize (-1) c in
  result r = 2 ∧ trace r = [Ran tt 1 10] ∧
  result (Base.Len c) = 1 ∧ result (Base.Len (state r)) = 0 ∧
  result r ≠ result (Base.Len c) - result (Base.Len (state r)).
Proof. vm_compute. repeat split; discriminate. Qed.

(** C4, the failing input: [Resize] to the least [int] on an engine with
    one entry.  [c.Len() - size] wraps around to a negative number, nothing
    is evicted, and the next [Add] of a new key evicts the old entry and
    keeps the new one: [Len()] is 1, not 0. *)
Lemma Resize_min_int_keeps_entries :
  let c : Base.unsafeCache Z Z unit :=
    state (Base.Add 1 10 (Base.NewUnsafeLru 1 [Base.WithOnEvicted tt])) in
  let r := Base.Resize Int.min_int c in
  let a := Base.Add 2 20 (state r) in
  Int.sub (result (Base.Len c)) Int.min_int = Int.min_int + 1 ∧
  result r = 0 ∧ trace r = [] ∧
  Base.maxEntries (state r) = Int.min_int ∧
  result (Base.Keys (state r)) = [1] ∧
  result a = true ∧ trace a = [Ran tt 1 10] ∧
  result (Base.Keys (state a)) = [2] ∧
  result (Base.Len (state a)) = 1.
Proof. vm_compute. repeat split. Qed.

(** The amended C9 on the sample state. *)
Lemma Add_Peek_Get_witness :
  Base.Peek 4 (state (Base.Add 4 40 sample)) =
    ((40, true), state (Base.Add 4 40 sample), []) ∧
  result (Base.Get 4 (state (Base.Add 4 40 sample))) = (40, true).
Proof.
  assert (Hcap : 1 <= Base.maxEntries sample) by (vm_compute; discriminate).
  destruct (Add_Peek_Get sample 4 40 wf_sample Hcap) as (Hpeek & _ & Hget & _).
  split; [exact Hpeek | exact Hget].
Defined.

(** C9, counterexample: at capacity 0 the entry is gone as soon as it is
    added, and [Peek] misses. *)
Lemma Add_Peek_counterexample :
  let c : Base.unsafeCache Z Z unit :=
    state (Base.Resize 0 (Base.NewUnsafeLru 1 [])) in
  BaseFacts.wf c ∧
  result (Base.Peek 1 (state (Base.Add 1 10 c))) = (0, false) ∧
  result (Base.Peek 1 (state (Base.Add 1 10 c))) ≠ (10, true).
Proof.
  intros c. split; [apply BaseFacts.Resize_wf, BaseFacts.wf_New|].
  vm_compute. split; [reflexivity | discriminate].
Qed.

(** ** The sub-sizes of the two-queue cache *)
Module TwoQSizes.

Import BaseFacts.

(** A ratio that [New2QParams] takes as it is: a number from 0 to 1. *)
Definition in_unit (r : Float64.float64) : Prop :=
  SFleb Float64.zero_f r = true ∧ SFleb r Float64.one_f = true.







(** The binary64 product [float64(n) * r] is exact: its value [a' / b'] is
    [n] times the value [a / b] of [r]. *)
Definition exact (n : Z) (r : Float64.float64) : Prop :=
  match Float64.num_den r, Float64.num_den (Float64.mul (Float64.of_int n) r) with
  | Some (a, b), Some (a', b') => a' * b = n * a * b'
  | _, _ => False
  end.





End TwoQSizes.




(** ** More on the monad *)
Section MonadSteps.

Context {E S : Type}.

Lemma bind_get {B} (k : S -> M E S B) s : bind get k s = k s s.
Proof. unfold bind, get. by destruct (k s s) as [[b s2] t2]. Qed.

Lemma bind_pure {A B} (m : M E S A) (k : A -> M E S B) s a :
  m s = (a, s, []) -> bind m k s = k a s.
Proof. intros Hm. unfold bind. rewrite Hm. by destruct (k a s) as [[b s2] t2]. Qed.

Lemma bind_step {A B} (m : M E S A) (k : A -> M E S B) s a s1 t1 :
  m s = (a, s1, t1) ->
  bind m k s = (result (k a s1), state (k a s1), t1 ++ trace (k a s1)).
Proof. intros Hm. unfold bind. rewrite Hm. by destruct (k a s1) as [[b s2] t2]. Qed.

Lemma bind_ret_tt {A} (m : M E S A) s :
  bind m (fun _ => ret tt) s = (tt, state (m s), trace (m s)).
Proof. unfold bind, ret. destruct (m s) as [[a s1] t1]. simpl. by rewrite app_nil_r. Qed.

Lemma bind_ret {A B} (m : M E S A) (b : B) s :
  bind m (fun _ => ret b) s = (b, state (m s), trace (m s)).
Proof. unfold bind, ret. destruct (m s) as [[a s1] t1]. simpl. by rewrite app_nil_r. Qed.

(** [m] keeps the property [P] of the state. *)
Definition preserves {A} (P : S -> Prop) (m : M E S A) : Prop :=
  ∀ s, P s -> P (state (m s)).

Lemma preserves_ret {A} (P : S -> Prop) (a : A) : preserves P (ret a).
Proof. by intros s Hs. Qed.

Lemma preserves_get (P : S -> Prop) : preserves P get.
Proof. by intros s Hs. Qed.

Lemma preserves_bind {A B} (P : S -> Prop) (m : M E S A) (k : A -> M E S B) :
  preserves P m -> (∀ a, preserves P (k a)) -> preserves P (bind m k).
Proof.
  intros Hm Hk s Hs. rewrite bind_run. cbn [state fst snd].
  apply Hk, Hm, Hs.
Qed.

Lemma preserves_if {A} (P : S -> Prop) (b : bool) (m1 m2 : M E S A) :
  preserves P m1 -> preserves P m2 -> preserves P (if b then m1 else m2).
Proof. by destruct b. Qed.

Lemma preserves_decide {A} (P : S -> Prop) (Q : Prop) `{Decision Q} (m1 m2 : M E S A) :
  preserves P m1 -> preserves P m2 -> preserves P (if decide Q then m1 else m2).
Proof. by destruct (decide Q). Qed.

Lemma preserves_modify (P : S -> Prop) (f : S -> S) :
  (∀ s, P s -> P (f s)) -> preserves P (modify f).
Proof. intros Hf s Hs. by apply Hf. Qed.

End MonadSteps.

(** ** What the methods of the base engine keep *)
Module BaseKeeps.
Section BaseKeeps.

Context {K : Type} `{Countable K} `{GoZero K} {V : Type} `{GoZero V} {F : Type}.

Import ListFacts BaseFacts.

Implicit Types (k : K) (v : V).

Lemma preserves_Add k v : preserves (E:=Base.ev K V F) BaseFacts.wf (Base.Add k v).
Proof. intros e He. by apply Add_wf. Qed.
Lemma preserves_Get k : preserves (E:=Base.ev K V F) BaseFacts.wf (Base.Get k).
Proof. intros e He. by apply Get_wf. Qed.
Lemma preserves_Remove k : preserves (E:=Base.ev K V F) BaseFacts.wf (Base.Remove k).
Proof. intros e He. by apply Remove_wf. Qed.
Lemma preserves_RemoveOldest :
  preserves (E:=Base.ev K V F) BaseFacts.wf Base.RemoveOldest.
Proof. intros e He. by apply RemoveOldest_wf. Qed.
Lemma preserves_Clear : preserves (E:=Base.ev K V F) BaseFacts.wf Base.Clear.
Proof. intros e He. by apply Clear_wf. Qed.
Lemma preserves_Contains k : preserves (E:=Base.ev K V F) BaseFacts.wf (Base.Contains k).
Proof. intros e He. by rewrite BaseFacts.Contains_run. Qed.
Lemma preserves_Len : preserves (E:=Base.ev K V F) BaseFacts.wf Base.Len.
Proof. by intros e He. Qed.
Lemma preserves_Keys : preserves (E:=Base.ev K V F) BaseFacts.wf Base.Keys.
Proof. by intros e He. Qed.
Lemma preserves_Peek k : preserves (E:=Base.ev K V F) BaseFacts.wf (Base.Peek k).
Proof.
  intros e He. destruct (Base.list_Value k (Base.entries e)) as [x|] eqn:Hx.
  - by rewrite (Peek_hit e k x).
  - apply Value_None in Hx. by rewrite Peek_miss.
Qed.

(** After an insertion into an engine of capacity at least one, the key is
    there. *)
Lemma Add_resident (e0 : Base.unsafeCache K V F) k v :
  BaseFacts.wf e0 -> 1 <= Base.maxEntries e0 ->
  k ∈ keys_of (state (Base.Add k v e0)).
Proof.
  intros Hwf Hcap. destruct (Add_front e0 k v Hwf Hcap) as [l Hl].
  unfold keys_of. rewrite Hl. left.
Qed.

End BaseKeeps.
End BaseKeeps.

(** ** The two-queue cache *)
Module TwoQFacts.
Section TwoQFacts.

Context {K : Type} `{Countable K} `{GoZero K} {V : Type} `{GoZero V} {F : Type}.

Import ListFacts BaseFacts BaseKeeps.

Implicit Types (c : TwoQ.TwoQueueCache K V F) (k : K) (v : V).

(** The three engines are well formed. *)
Definition wf_2q c : Prop :=
  BaseFacts.wf (TwoQ.recent c) ∧ BaseFacts.wf (TwoQ.frequent c) ∧
  BaseFacts.wf (TwoQ.recentEvict c).

Lemma set_recent_id c : TwoQ.set_recent (TwoQ.recent c) c = c.
Proof. by destruct c. Qed.
Lemma set_frequent_id c : TwoQ.set_frequent (TwoQ.frequent c) c = c.
Proof. by destruct c. Qed.
Lemma set_recentEvict_id c : TwoQ.set_recentEvict (TwoQ.recentEvict c) c = c.
Proof. by destruct c. Qed.

Lemma on_recent_run {A} (m : Base.Engine A) c :
  TwoQ.on_recent m c =
  (result (m (TwoQ.recent c)), TwoQ.set_recent (state (m (TwoQ.recent c))) c,
   trace (m (TwoQ.recent c))).
Proof. apply zoom_run. Qed.

Lemma on_frequent_run {A} (m : Base.Engine A) c :
  TwoQ.on_frequent m c =
  (result (m (TwoQ.frequent c)), TwoQ.set_frequent (state (m (TwoQ.frequent c))) c,
   trace (m (TwoQ.frequent c))).
Proof. apply zoom_run. Qed.

Lemma on_recentEvict_run {A} (m : Base.Engine A) c :
  TwoQ.on_recentEvict m c =
  (result (m (TwoQ.recentEvict c)),
   TwoQ.set_recentEvict (state (m (TwoQ.recentEvict c))) c,
   trace (m (TwoQ.recentEvict c))).
Proof. apply zoom_run. Qed.

(** The condition under which [ensureSpace] takes its victim from
    [recent]. *)
Definition evict_recent (isGhostPromotion : bool) c : Prop :=
  let recentLen := Z.of_nat (length (Base.entries (TwoQ.recent c))) in
  recentLen > 0 ∧
  (recentLen > TwoQ.recentEntries c ∨
   (recentLen = TwoQ.recentEntries c ∧ isGhostPromotion = false)).

Lemma on_recent_Len c :
  TwoQ.on_recent Base.Len c = (Z.of_nat (length (Base.entries (TwoQ.recent c))), c, []).
Proof. rewrite on_recent_run, BaseFacts.Len_run. cbn [result state trace fst snd]. by rewrite set_recent_id. Qed.

Lemma on_frequent_Len c :
  TwoQ.on_frequent Base.Len c = (Z.of_nat (length (Base.entries (TwoQ.frequent c))), c, []).
Proof. rewrite on_frequent_run, BaseFacts.Len_run. cbn [result state trace fst snd]. by rewrite set_frequent_id. Qed.

Lemma on_recent_Contains c k :
  BaseFacts.wf (TwoQ.recent c) ->
  TwoQ.on_recent (Base.Contains k) c = (bool_decide (k ∈ keys_of (TwoQ.recent c)), c, []).
Proof.
  intros Hw. rewrite on_recent_run, (BaseFacts.Contains_run _ k Hw).
  cbn [result state trace fst snd]. by rewrite set_recent_id.
Qed.

Lemma on_frequent_Contains c k :
  BaseFacts.wf (TwoQ.frequent c) ->
  TwoQ.on_frequent (Base.Contains k) c = (bool_decide (k ∈ keys_of (TwoQ.frequent c)), c, []).
Proof.
  intros Hw. rewrite on_frequent_run, (BaseFacts.Contains_run _ k Hw).
  cbn [result state trace fst snd]. by rewrite set_frequent_id.
Qed.

Lemma on_recentEvict_Contains c k :
  BaseFacts.wf (TwoQ.recentEvict c) ->
  TwoQ.on_recentEvict (Base.Contains k) c =
  (bool_decide (k ∈ keys_of (TwoQ.recentEvict c)), c, []).
Proof.
  intros Hw. rewrite on_recentEvict_run, (BaseFacts.Contains_run _ k Hw).
  cbn [result state trace fst snd]. by rewrite set_recentEvict_id.
Qed.

Lemma ensureSpace_run (b : bool) c :
  let recentLen := Z.of_nat (length (Base.entries (TwoQ.recent c))) in
  let freqLen := Z.of_nat (length (Base.entries (TwoQ.frequent c))) in
  TwoQ.ensureSpace b c =
  if decide (Int.add recentLen freqLen < TwoQ.maxEntries c) then (tt, c, [])
  else if decide (evict_recent b c) then
    let r := Base.RemoveOldest (TwoQ.recent c) in
    let c1 := TwoQ.set_recent (state r) c in
    let a := Base.Add (result r).1.1 zero (TwoQ.recentEvict c1) in
    (tt, TwoQ.set_recentEvict (state a) c1, trace r ++ trace a)
  else
    let r := Base.RemoveOldest (TwoQ.frequent c) in
    (tt, TwoQ.set_frequent (state r) c, trace r).
Proof.
  intros recentLen freqLen. unfold TwoQ.ensureSpace.
  rewrite (bind_pure _ _ _ _ (on_recent_Len c)).
  rewrite (bind_pure _ _ _ _ (on_frequent_Len c)).
  rewrite bind_get. fold recentLen freqLen.
  destruct (decide (Int.add recentLen freqLen < TwoQ.maxEntries c)) as [Hlt|Hge]; [done|].
  unfold evict_recent. fold recentLen.
  destruct (decide (recentLen > 0 ∧
    (recentLen > TwoQ.recentEntries c ∨ recentLen = TwoQ.recentEntries c ∧ b = false)))
    as [Hc|Hc].
  - rewrite (bind_step _ _ _ _ _ _ (on_recent_run _ c)).
    rewrite bind_ret_tt, on_recentEvict_run. done.
  - rewrite bind_ret_tt, on_frequent_run. done.
Qed.

Lemma TwoQ_Contains_run c k :
  wf_2q c ->
  TwoQ.Contains k c =
  (bool_decide (k ∈ keys_of (TwoQ.frequent c) ∨ k ∈ keys_of (TwoQ.recent c)), c, []).
Proof.
  intros (Hr & Hf & _). unfold TwoQ.Contains.
  rewrite (bind_pure _ _ _ _ (on_frequent_Contains c k Hf)).
  destruct (decide (k ∈ keys_of (TwoQ.frequent c))) as [Hin|Hn].
  - rewrite (bool_decide_eq_true_2 _ Hin). unfold ret.
    by rewrite bool_decide_eq_true_2 by (by left).
  - rewrite (bool_decide_eq_false_2 _ Hn), (on_recent_Contains c k Hr).
    do 2 f_equal. apply bool_decide_ext. tauto.
Qed.

Lemma TwoQ_Len_run c :
  TwoQ.Len c =
  (Int.add (Z.of_nat (length (Base.entries (TwoQ.recent c))))
           (Z.of_nat (length (Base.entries (TwoQ.frequent c)))), c, []).
Proof.
  unfold TwoQ.Len.
  rewrite (bind_pure _ _ _ _ (on_recent_Len c)).
  by rewrite (bind_pure _ _ _ _ (on_frequent_Len c)).
Qed.

Lemma TwoQ_Keys_run c :
  TwoQ.Keys c =
  (reverse (keys_of (TwoQ.frequent c)) ++ reverse (keys_of (TwoQ.recent c)), c, []).
Proof.
  unfold TwoQ.Keys.
  assert (Hs1 : TwoQ.on_frequent Base.Keys c = (reverse (keys_of (TwoQ.frequent c)), c, [])).
  { rewrite on_frequent_run, BaseFacts.Keys_run. cbn [result state trace fst snd].
    by rewrite set_frequent_id. }
  assert (Hs2 : TwoQ.on_recent Base.Keys c = (reverse (keys_of (TwoQ.recent c)), c, [])).
  { rewrite on_recent_run, BaseFacts.Keys_run. cbn [result state trace fst snd].
    by rewrite set_recent_id. }
  rewrite (bind_pure _ _ _ _ Hs1). by rewrite (bind_pure _ _ _ _ Hs2).
Qed.

(** A hit in [recent] moves the entry to [frequent]; its removal from
    [recent] goes through [removeElement], callback included. *)
Lemma TwoQ_Get_promotes c k e :
  wf_2q c -> k ∉ keys_of (TwoQ.frequent c) ->
  Base.list_Value k (Base.entries (TwoQ.recent c)) = Some e ->
  let a := Base.Add k (Base.value e) (TwoQ.frequent c) in
  TwoQ.Get k c =
  ((Base.value e, true),
   TwoQ.set_frequent (state a) (TwoQ.set_recent (without (TwoQ.recent c) e) c),
   callback (TwoQ.recent c) k (Base.value e) ++ trace a).
Proof.
  intros (Hr & Hf & _) Hn He a. unfold TwoQ.Get.
  assert (Hs1 : TwoQ.on_frequent (Base.Get k) c = ((zero, false), c, [])).
  { rewrite on_frequent_run, (Get_miss _ k Hf Hn). cbn [result state trace fst snd].
    by rewrite set_frequent_id. }
  assert (Hs2 : TwoQ.on_recent (Base.Peek k) c = ((Base.value e, true), c, [])).
  { rewrite on_recent_run, (Peek_hit _ k e Hr He). cbn [result state trace fst snd].
    by rewrite set_recent_id. }
  assert (Hs3 : TwoQ.on_recent (Base.Remove k) c =
    (true, TwoQ.set_recent (without (TwoQ.recent c) e) c,
     callback (TwoQ.recent c) k (Base.value e))).
  { by rewrite on_recent_run, (Remove_hit _ k e Hr He). }
  rewrite (bind_pure _ _ _ _ Hs1). cbn [snd].
  rewrite (bind_pure _ _ _ _ Hs2). cbn [snd fst].
  rewrite (bind_step _ _ _ _ _ _ Hs3).
  rewrite bind_ret, on_frequent_run. done.
Qed.

Lemma TwoQ_Add_promotes c k v e :
  wf_2q c -> k ∉ keys_of (TwoQ.frequent c) ->
  Base.list_Value k (Base.entries (TwoQ.recent c)) = Some e ->
  let a := Base.Add k v (TwoQ.frequent c) in
  TwoQ.Add k v c =
  (tt,
   TwoQ.set_frequent (state a) (TwoQ.set_recent (without (TwoQ.recent c) e) c),
   callback (TwoQ.recent c) k (Base.value e) ++ trace a).
Proof.
  intros (Hr & Hf & _) Hn He a. unfold TwoQ.Add.
  assert (Hin : k ∈ keys_of (TwoQ.recent c)).
  { destruct (Value_Some _ _ _ He) as [Hk Hin]. unfold keys_of, keys.
    rewrite <- Hk. by apply list_elem_of_fmap_2. }
  assert (Hs3 : TwoQ.on_recent (Base.Remove k) c =
    (true, TwoQ.set_recent (without (TwoQ.recent c) e) c,
     callback (TwoQ.recent c) k (Base.value e))).
  { by rewrite on_recent_run, (Remove_hit _ k e Hr He). }
  rewrite (bind_pure _ _ _ _ (on_frequent_Contains c k Hf)).
  rewrite (bool_decide_eq_false_2 _ Hn).
  rewrite (bind_pure _ _ _ _ (on_recent_Contains c k Hr)).
  rewrite (bool_decide_eq_true_2 _ Hin).
  rewrite (bind_step _ _ _ _ _ _ Hs3).
  rewrite bind_ret_tt, on_frequent_run. done.
Qed.

Lemma TwoQ_Clear_run c :
  wf_2q c ->
  TwoQ.Clear c =
  (tt,
   TwoQ.MkTwoQueueCache (TwoQ.maxEntries c) (TwoQ.recentEntries c)
     (cleared (TwoQ.recent c)) (cleared (TwoQ.frequent c))
     (cleared (TwoQ.recentEvict c)),
   trace (Base.Clear (TwoQ.recent c)) ++ trace (Base.Clear (TwoQ.frequent c)) ++
   trace (Base.Clear (TwoQ.recentEvict c))).
Proof.
  intros (Hr & Hf & Hg). unfold TwoQ.Clear.
  assert (Hc1 : state (Base.Clear (TwoQ.recent c)) = cleared (TwoQ.recent c))
    by (destruct (BaseFacts.Clear_run _ Hr) as [-> _]; done).
  assert (Hc2 : state (Base.Clear (TwoQ.frequent c)) = cleared (TwoQ.frequent c))
    by (destruct (BaseFacts.Clear_run _ Hf) as [-> _]; done).
  assert (Hc3 : state (Base.Clear (TwoQ.recentEvict c)) = cleared (TwoQ.recentEvict c))
    by (destruct (BaseFacts.Clear_run _ Hg) as [-> _]; done).
  rewrite (bind_step _ _ _ _ _ _ (on_recent_run _ c)).
  set (c1 := TwoQ.set_recent _ c).
  rewrite (bind_step _ _ _ _ _ _ (on_frequent_run _ c1)).
  set (c2 := TwoQ.set_frequent _ c1).
  rewrite on_recentEvict_run. cbn [result state trace fst snd].
  unfold c2, c1. cbn [TwoQ.recentEvict TwoQ.frequent TwoQ.set_recent TwoQ.set_frequent
    TwoQ.set_recentEvict TwoQ.recent TwoQ.maxEntries TwoQ.recentEntries].
  rewrite Hc1, Hc2, Hc3.
  by destruct (Base.Clear (TwoQ.recent c)) as [[[] ?] ?],
     (Base.Clear (TwoQ.frequent c)) as [[[] ?] ?],
     (Base.Clear (TwoQ.recentEvict c)) as [[[] ?] ?].
Qed.

(** *** The methods keep the engines well formed *)

Lemma preserves_on_recent {A} (m : Base.Engine A) :
  preserves BaseFacts.wf m -> preserves wf_2q (TwoQ.on_recent m).
Proof.
  intros Hm c (Hr & Hf & Hg). rewrite on_recent_run. cbn [state fst snd].
  split; [|done]. by apply Hm.
Qed.

Lemma preserves_on_frequent {A} (m : Base.Engine A) :
  preserves BaseFacts.wf m -> preserves wf_2q (TwoQ.on_frequent m).
Proof.
  intros Hm c (Hr & Hf & Hg). rewrite on_frequent_run. cbn [state fst snd].
  split; [done|]. split; [|done]. by apply Hm.
Qed.

Lemma preserves_on_recentEvict {A} (m : Base.Engine A) :
  preserves BaseFacts.wf m -> preserves wf_2q (TwoQ.on_recentEvict m).
Proof.
  intros Hm c (Hr & Hf & Hg). rewrite on_recentEvict_run. cbn [state fst snd].
  split; [done|]. split; [done|]. by apply Hm.
Qed.

Lemma wf_New2QParams n rr gr opts :
  wf_2q (TwoQ.New2QParams (K:=K) (V:=V) (F:=F) n rr gr opts).
Proof. unfold TwoQ.New2QParams. repeat split; apply wf_New. Qed.

Lemma preserves_ensureSpace b : preserves wf_2q (TwoQ.ensureSpace b).
Proof.
  unfold TwoQ.ensureSpace.
  apply preserves_bind; [apply preserves_on_recent, preserves_Len|]. intros rl.
  apply preserves_bind; [apply preserves_on_frequent, preserves_Len|]. intros fl.
  apply preserves_bind; [apply preserves_get|]. intros c.
  apply preserves_decide; [apply preserves_ret|].
  apply preserves_decide.
  - apply preserves_bind; [apply preserves_on_recent, preserves_RemoveOldest|]. intros r.
    apply preserves_bind; [apply preserves_on_recentEvict, preserves_Add|]. intros _.
    apply preserves_ret.
  - apply preserves_bind; [apply preserves_on_frequent, preserves_RemoveOldest|]. intros _.
    apply preserves_ret.
Qed.

Lemma preserves_TwoQ_Add k v : preserves wf_2q (TwoQ.Add k v).
Proof.
  unfold TwoQ.Add.
  apply preserves_bind; [apply preserves_on_frequent, preserves_Contains|]. intros b1.
  apply preserves_if.
  { apply preserves_bind; [apply preserves_on_frequent, preserves_Add|]. intros _.
    apply preserves_ret. }
  apply preserves_bind; [apply preserves_on_recent, preserves_Contains|]. intros b2.
  apply preserves_if.
  { apply preserves_bind; [apply preserves_on_recent, preserves_Remove|]. intros _.
    apply preserves_bind; [apply preserves_on_frequent, preserves_Add|]. intros _.
    apply preserves_ret. }
  apply preserves_bind; [apply preserves_on_recentEvict, preserves_Contains|]. intros b3.
  apply preserves_if.
  { apply preserves_bind; [apply preserves_ensureSpace|]. intros _.
    apply preserves_bind; [apply preserves_on_recentEvict, preserves_Remove|]. intros _.
    apply preserves_bind; [apply preserves_on_frequent, preserves_Add|]. intros _.
    apply preserves_ret. }
  apply preserves_bind; [apply preserves_ensureSpace|]. intros _.
  apply preserves_bind; [apply preserves_on_recent, preserves_Add|]. intros _.
  apply preserves_ret.
Qed.

Lemma preserves_TwoQ_Get k : preserves wf_2q (TwoQ.Get k).
Proof.
  unfold TwoQ.Get.
  apply preserves_bind; [apply preserves_on_frequent, preserves_Get|]. intros r.
  apply preserves_if; [apply preserves_ret|].
  apply preserves_bind; [apply preserves_on_recent, preserves_Peek|]. intros r'.
  apply preserves_if; [|apply preserves_ret].
  apply preserves_bind; [apply preserves_on_recent, preserves_Remove|]. intros _.
  apply preserves_bind; [apply preserves_on_frequent, preserves_Add|]. intros _.
  apply preserves_ret.
Qed.

Lemma preserves_TwoQ_Remove k : preserves wf_2q (TwoQ.Remove k).
Proof.
  unfold TwoQ.Remove.
  apply preserves_bind; [apply preserves_on_frequent, preserves_Remove|]. intros a.
  apply preserves_if; [apply preserves_ret|].
  apply preserves_bind; [apply preserves_on_recent, preserves_Remove|]. intros b.
  apply preserves_if; [apply preserves_ret|].
  apply preserves_bind; [apply preserves_on_recentEvict, preserves_Remove|]. intros d.
  apply preserves_if; apply preserves_ret.
Qed.

Lemma preserves_TwoQ_Clear : preserves wf_2q TwoQ.Clear.
Proof.
  unfold TwoQ.Clear.
  apply preserves_bind; [apply preserves_on_recent, preserves_Clear|]. intros _.
  apply preserves_bind; [apply preserves_on_frequent, preserves_Clear|]. intros _.
  apply preserves_on_recentEvict, preserves_Clear.
Qed.


End TwoQFacts.
End TwoQFacts.


(** ** Which keys the methods of the base engine leave *)
Module BaseKeys.
Section BaseKeys.

Context {K : Type} `{Countable K} `{GoZero K} {V : Type} `{GoZero V} {F : Type}.

Import ListFacts BaseFacts.

Implicit Types (c : Base.unsafeCache K V F) (k : K) (v : V).

Lemma keys_without c e :
  keys_of (without c e) = remove_key (Base.key e) (keys_of c).
Proof. unfold keys_of, without. simpl. apply keys_Remove. Qed.

Lemma elem_of_without c e k :
  wf c -> k ∈ keys_of (without c e) <-> k ∈ keys_of c ∧ k ≠ Base.key e.
Proof. intros [Hnd _]. rewrite keys_without. by apply elem_of_remove_key. Qed.

Lemma elem_of_touched c e k :
  wf c -> Base.key e ∈ keys_of c -> k ∈ keys_of (touched c e) <-> k ∈ keys_of c.
Proof.
  intros [Hnd _] Hin. rewrite keys_touched, elem_of_cons, elem_of_remove_key by done.
  destruct (decide (k = Base.key e)) as [->|Hne]; tauto.
Qed.

Lemma Remove_keys c k k' :
  wf c -> k' ∈ keys_of (state (Base.Remove k c)) <-> k' ∈ keys_of c ∧ k' ≠ k.
Proof.
  intros Hwf. destruct (Base.list_Value k (Base.entries c)) as [e|] eqn:He.
  - rewrite (Remove_hit c k e Hwf He). cbn [state fst snd].
    destruct (Value_Some _ _ _ He) as [<- _]. by apply elem_of_without.
  - apply Value_None in He. rewrite (Remove_miss c k Hwf He). cbn [state fst snd].
    split; [|tauto]. intros Hin. split; [done|]. by intros ->.
Qed.

Lemma RemoveOldest_keys c k :
  wf c -> k ∈ keys_of (state (Base.RemoveOldest c)) ->
  k ∈ keys_of c ∧ ((result (Base.RemoveOldest c)).2 = true -> k ≠ (result (Base.RemoveOldest c)).1.1).
Proof.
  intros Hwf. destruct (decide (Base.entries c = [])) as [He|He].
  - rewrite (RemoveOldest_nil c He). cbn [state result fst snd]. by intros Hin.
  - destruct (entries_nonempty_snoc _ He) as (l & e & Hl).
    rewrite (RemoveOldest_snoc c l e Hwf Hl). cbn [state result fst snd].
    intros [Hin Hne]%elem_of_without; done.
Qed.

Lemma RemoveOldest_result c :
  wf c -> (result (Base.RemoveOldest c)).2 = true ->
  (result (Base.RemoveOldest c)).1.1 ∈ keys_of c.
Proof.
  intros Hwf. destruct (decide (Base.entries c = [])) as [He|He].
  - by rewrite (RemoveOldest_nil c He).
  - destruct (entries_nonempty_snoc _ He) as (l & e & Hl).
    rewrite (RemoveOldest_snoc c l e Hwf Hl). cbn [result fst snd]. intros _.
    unfold keys_of. rewrite Hl, keys_snoc. apply elem_of_app. right. left.
Qed.

Lemma Add_keys c k v k' :
  wf c -> k' ∈ keys_of (state (Base.Add k v c)) -> k' = k ∨ k' ∈ keys_of c.
Proof.
  intros Hwf. destruct (decide (k ∈ keys_of c)) as [Hin|Hn].
  - rewrite (Add_hit c k v Hwf Hin). cbn [state fst snd].
    rewrite (elem_of_touched c (Base.Entry k v) k' Hwf Hin). tauto.
  - pose proof (wf_pushed c k v Hwf Hn) as Hwp.
    assert (Hpk : ∀ x, x ∈ keys_of (pushed c k v) -> x = k ∨ x ∈ keys_of c).
    { intros x. unfold keys_of, pushed. simpl. by rewrite elem_of_cons. }
    rewrite (Add_miss c k v Hwf Hn).
    destruct (decide _) as [Hgt|Hle]; cbn [state fst snd]; [|apply Hpk].
    destruct (decide (Base.entries (pushed c k v) = [])) as [He|He]; [done|].
    destruct (entries_nonempty_snoc _ He) as (l & e & Hl).
    rewrite (removeOldest_snoc _ l e Hwp Hl). cbn [state fst snd].
    intros [Hin _]%elem_of_without; [|done]. by apply Hpk.
Qed.

Lemma Get_keys c k k' :
  wf c -> k' ∈ keys_of (state (Base.Get k c)) <-> k' ∈ keys_of c.
Proof.
  intros Hwf. destruct (Base.list_Value k (Base.entries c)) as [e|] eqn:He.
  - rewrite (Get_hit c k e Hwf He). cbn [state fst snd].
    apply elem_of_touched; [done|]. destruct (Value_Some _ _ _ He) as [Hk Hin].
    unfold keys_of, keys. by apply list_elem_of_fmap_2.
  - apply Value_None in He. by rewrite (Get_miss c k Hwf He).
Qed.

Lemma Clear_keys c : wf c -> keys_of (state (Base.Clear c)) = [].
Proof. intros Hwf. destruct (BaseFacts.Clear_run c Hwf) as [-> _]. done. Qed.

End BaseKeys.
End BaseKeys.

(** ** The adaptive replacement cache *)
Module ARCFacts.
Section ARCFacts.

Context {K : Type} `{Countable K} `{GoZero K} {V : Type} `{GoZero V} {F : Type}.

Import ListFacts BaseFacts BaseKeeps BaseKeys.

Implicit Types (c : ARC.ARCCache K V F) (k : K) (v : V).

(** The four engines are well formed. *)
Definition wf_arc c : Prop :=
  BaseFacts.wf (ARC.t1 c) ∧ BaseFacts.wf (ARC.b1 c) ∧
  BaseFacts.wf (ARC.t2 c) ∧ BaseFacts.wf (ARC.b2 c).

Lemma set_t1_id c : ARC.set_t1 (ARC.t1 c) c = c.
Proof. by destruct c. Qed.
Lemma set_b1_id c : ARC.set_b1 (ARC.b1 c) c = c.
Proof. by destruct c. Qed.
Lemma set_t2_id c : ARC.set_t2 (ARC.t2 c) c = c.
Proof. by destruct c. Qed.
Lemma set_b2_id c : ARC.set_b2 (ARC.b2 c) c = c.
Proof. by destruct c. Qed.

Lemma on_t1_run {A} (m : Base.Engine A) c :
  ARC.on_t1 m c =
  (result (m (ARC.t1 c)), ARC.set_t1 (state (m (ARC.t1 c))) c, trace (m (ARC.t1 c))).
Proof. apply zoom_run. Qed.
Lemma on_b1_run {A} (m : Base.Engine A) c :
  ARC.on_b1 m c =
  (result (m (ARC.b1 c)), ARC.set_b1 (state (m (ARC.b1 c))) c, trace (m (ARC.b1 c))).
Proof. apply zoom_run. Qed.
Lemma on_t2_run {A} (m : Base.Engine A) c :
  ARC.on_t2 m c =
  (result (m (ARC.t2 c)), ARC.set_t2 (state (m (ARC.t2 c))) c, trace (m (ARC.t2 c))).
Proof. apply zoom_run. Qed.
Lemma on_b2_run {A} (m : Base.Engine A) c :
  ARC.on_b2 m c =
  (result (m (ARC.b2 c)), ARC.set_b2 (state (m (ARC.b2 c))) c, trace (m (ARC.b2 c))).
Proof. apply zoom_run. Qed.

Lemma on_t1_Len c :
  ARC.on_t1 Base.Len c = (Z.of_nat (length (Base.entries (ARC.t1 c))), c, []).
Proof. rewrite on_t1_run, BaseFacts.Len_run. cbn [result state trace fst snd]. by rewrite set_t1_id. Qed.
Lemma on_t2_Len c :
  ARC.on_t2 Base.Len c = (Z.of_nat (length (Base.entries (ARC.t2 c))), c, []).
Proof. rewrite on_t2_run, BaseFacts.Len_run. cbn [result state trace fst snd]. by rewrite set_t2_id. Qed.
Lemma on_b1_Len c :
  ARC.on_b1 Base.Len c = (Z.of_nat (length (Base.entries (ARC.b1 c))), c, []).
Proof. rewrite on_b1_run, BaseFacts.Len_run. cbn [result state trace fst snd]. by rewrite set_b1_id. Qed.
Lemma on_b2_Len c :
  ARC.on_b2 Base.Len c = (Z.of_nat (length (Base.entries (ARC.b2 c))), c, []).
Proof. rewrite on_b2_run, BaseFacts.Len_run. cbn [result state trace fst snd]. by rewrite set_b2_id. Qed.

Lemma on_t1_Contains c k :
  BaseFacts.wf (ARC.t1 c) ->
  ARC.on_t1 (Base.Contains k) c = (bool_decide (k ∈ keys_of (ARC.t1 c)), c, []).
Proof.
  intros Hw. rewrite on_t1_run, (BaseFacts.Contains_run _ k Hw).
  cbn [result state trace fst snd]. by rewrite set_t1_id.
Qed.
Lemma on_t2_Contains c k :
  BaseFacts.wf (ARC.t2 c) ->
  ARC.on_t2 (Base.Contains k) c = (bool_decide (k ∈ keys_of (ARC.t2 c)), c, []).
Proof.
  intros Hw. rewrite on_t2_run, (BaseFacts.Contains_run _ k Hw).
  cbn [result state trace fst snd]. by rewrite set_t2_id.
Qed.
Lemma on_b1_Contains c k :
  BaseFacts.wf (ARC.b1 c) ->
  ARC.on_b1 (Base.Contains k) c = (bool_decide (k ∈ keys_of (ARC.b1 c)), c, []).
Proof.
  intros Hw. rewrite on_b1_run, (BaseFacts.Contains_run _ k Hw).
  cbn [result state trace fst snd]. by rewrite set_b1_id.
Qed.
Lemma on_b2_Contains c k :
  BaseFacts.wf (ARC.b2 c) ->
  ARC.on_b2 (Base.Contains k) c = (bool_decide (k ∈ keys_of (ARC.b2 c)), c, []).
Proof.
  intros Hw. rewrite on_b2_run, (BaseFacts.Contains_run _ k Hw).
  cbn [result state trace fst snd]. by rewrite set_b2_id.
Qed.

(** The condition under which [replace] takes its victim from [t1]. *)
Definition victim_t1 (b2ContainsKey : bool) c : Prop :=
  let t1Len := Z.of_nat (length (Base.entries (ARC.t1 c))) in
  t1Len > 0 ∧ (t1Len > ARC.p c ∨ (t1Len = ARC.p c ∧ b2ContainsKey = true)).

Lemma replace_run (b : bool) c :
  ARC.replace b c =
  if decide (victim_t1 b c) then
    let r := Base.RemoveOldest (ARC.t1 c) in
    let c1 := ARC.set_t1 (state r) c in
    if (result r).2 then
      let a := Base.Add (result r).1.1 zero (ARC.b1 c1) in
      (tt, ARC.set_b1 (state a) c1, trace r ++ trace a)
    else (tt, c1, trace r)
  else
    let r := Base.RemoveOldest (ARC.t2 c) in
    let c1 := ARC.set_t2 (state r) c in
    if (result r).2 then
      let a := Base.Add (result r).1.1 zero (ARC.b2 c1) in
      (tt, ARC.set_b2 (state a) c1, trace r ++ trace a)
    else (tt, c1, trace r).
Proof.
  unfold ARC.replace.
  rewrite (bind_pure _ _ _ _ (on_t1_Len c)), bind_get.
  unfold victim_t1.
  destruct (decide (_ ∧ _)) as [Hc|Hc].
  - rewrite (bind_step _ _ _ _ _ _ (on_t1_run _ c)).
    destruct (result (Base.RemoveOldest (ARC.t1 c))).2.
    + rewrite bind_ret_tt, on_b1_run. done.
    + unfold ret. cbn [result state trace fst snd]. by rewrite app_nil_r.
  - rewrite (bind_step _ _ _ _ _ _ (on_t2_run _ c)).
    destruct (result (Base.RemoveOldest (ARC.t2 c))).2.
    + rewrite bind_ret_tt, on_b2_run. done.
    + unfold ret. cbn [result state trace fst snd]. by rewrite app_nil_r.
Qed.

Lemma make_room_run (b : bool) c :
  ARC.make_room b c =
  if decide (Int.add (Z.of_nat (length (Base.entries (ARC.t1 c))))
                     (Z.of_nat (length (Base.entries (ARC.t2 c)))) >= ARC.maxEntries c)
  then ARC.replace b c else (tt, c, []).
Proof.
  unfold ARC.make_room.
  rewrite (bind_pure _ _ _ _ (on_t1_Len c)), (bind_pure _ _ _ _ (on_t2_Len c)), bind_get.
  by destruct (decide _).
Qed.

(** *** The methods keep the engines well formed *)

Lemma preserves_on_t1 {A} (m : Base.Engine A) :
  preserves BaseFacts.wf m -> preserves wf_arc (ARC.on_t1 m).
Proof.
  intros Hm c (Ht1 & Hb1 & Ht2 & Hb2). rewrite on_t1_run. cbn [state fst snd].
  split; [by apply Hm | done].
Qed.
Lemma preserves_on_b1 {A} (m : Base.Engine A) :
  preserves BaseFacts.wf m -> preserves wf_arc (ARC.on_b1 m).
Proof.
  intros Hm c (Ht1 & Hb1 & Ht2 & Hb2). rewrite on_b1_run. cbn [state fst snd].
  split; [done|]. split; [by apply Hm | done].
Qed.
Lemma preserves_on_t2 {A} (m : Base.Engine A) :
  preserves BaseFacts.wf m -> preserves wf_arc (ARC.on_t2 m).
Proof.
  intros Hm c (Ht1 & Hb1 & Ht2 & Hb2). rewrite on_t2_run. cbn [state fst snd].
  split; [done|]. split; [done|]. split; [by apply Hm | done].
Qed.
Lemma preserves_on_b2 {A} (m : Base.Engine A) :
  preserves BaseFacts.wf m -> preserves wf_arc (ARC.on_b2 m).
Proof.
  intros Hm c (Ht1 & Hb1 & Ht2 & Hb2). rewrite on_b2_run. cbn [state fst snd].
  split; [done|]. split; [done|]. split; [done|]. by apply Hm.
Qed.

Lemma wf_NewARC n opts : wf_arc (ARC.NewARC (K:=K) (V:=V) (F:=F) n opts).
Proof. unfold ARC.NewARC. repeat split; apply wf_New. Qed.

Lemma preserves_replace b : preserves wf_arc (ARC.replace b).
Proof.
  unfold ARC.replace.
  apply preserves_bind; [apply preserves_on_t1, preserves_Len|]. intros n.
  apply preserves_bind; [apply preserves_get|]. intros c.
  apply preserves_decide.
  - apply preserves_bind; [apply preserves_on_t1, preserves_RemoveOldest|]. intros r.
    apply preserves_if; [|apply preserves_ret].
    apply preserves_bind; [apply preserves_on_b1, preserves_Add|]. intros _.
    apply preserves_ret.
  - apply preserves_bind; [apply preserves_on_t2, preserves_RemoveOldest|]. intros r.
    apply preserves_if; [|apply preserves_ret].
    apply preserves_bind; [apply preserves_on_b2, preserves_Add|]. intros _.
    apply preserves_ret.
Qed.

Lemma preserves_make_room b : preserves wf_arc (ARC.make_room b).
Proof.
  unfold ARC.make_room.
  apply preserves_bind; [apply preserves_on_t1, preserves_Len|]. intros n1.
  apply preserves_bind; [apply preserves_on_t2, preserves_Len|]. intros n2.
  apply preserves_bind; [apply preserves_get|]. intros c.
  apply preserves_decide; [apply preserves_replace | apply preserves_ret].
Qed.

Lemma wf_set_p n c : wf_arc c -> wf_arc (ARC.set_p n c).
Proof. done. Qed.

Lemma preserves_ARC_Add k v : preserves wf_arc (ARC.Add k v).
Proof.
  unfold ARC.Add.
  apply preserves_bind; [apply preserves_on_t1, preserves_Contains|]. intros inT1.
  apply preserves_if.
  { apply preserves_bind; [apply preserves_on_t1, preserves_Remove|]. intros _.
    apply preserves_bind; [apply preserves_on_t2, preserves_Add|]. intros _.
    apply preserves_ret. }
  apply preserves_bind; [apply preserves_on_t2, preserves_Contains|]. intros inT2.
  apply preserves_if.
  { apply preserves_bind; [apply preserves_on_t2, preserves_Add|]. intros _.
    apply preserves_ret. }
  apply preserves_bind; [apply preserves_on_b1, preserves_Contains|]. intros inB1.
  apply preserves_if.
  { apply preserves_bind; [apply preserves_on_b1, preserves_Len|]. intros b1Len.
    apply preserves_bind; [apply preserves_on_b2, preserves_Len|]. intros b2Len.
    apply preserves_bind; [apply preserves_get|]. intros c.
    apply preserves_bind.
    { apply preserves_decide; apply preserves_modify; intros; by apply wf_set_p. }
    intros _.
    apply preserves_bind; [apply preserves_make_room|]. intros _.
    apply preserves_bind; [apply preserves_on_b1, preserves_Remove|]. intros _.
    apply preserves_bind; [apply preserves_on_t2, preserves_Add|]. intros _.
    apply preserves_ret. }
  apply preserves_bind; [apply preserves_on_b2, preserves_Contains|]. intros inB2.
  apply preserves_if.
  { apply preserves_bind; [apply preserves_on_b1, preserves_Len|]. intros b1Len.
    apply preserves_bind; [apply preserves_on_b2, preserves_Len|]. intros b2Len.
    apply preserves_bind; [apply preserves_get|]. intros c.
    apply preserves_bind.
    { apply preserves_decide; apply preserves_modify; intros; by apply wf_set_p. }
    intros _.
    apply preserves_bind; [apply preserves_make_room|]. intros _.
    apply preserves_bind; [apply preserves_on_b2, preserves_Remove|]. intros _.
    apply preserves_bind; [apply preserves_on_t2, preserves_Add|]. intros _.
    apply preserves_ret. }
  apply preserves_bind; [apply preserves_make_room|]. intros _.
  apply preserves_bind; [apply preserves_on_b1, preserves_Len|]. intros b1Len.
  apply preserves_bind; [apply preserves_get|]. intros c.
  apply preserves_bind.
  { apply preserves_decide; [|apply preserves_ret].
    apply preserves_bind; [apply preserves_on_b1, preserves_RemoveOldest|]. intros _.
    apply preserves_ret. }
  intros _.
  apply preserves_bind; [apply preserves_on_b2, preserves_Len|]. intros b2Len.
  apply preserves_bind; [apply preserves_get|]. intros c'.
  apply preserves_bind.
  { apply preserves_decide; [|apply preserves_ret].
    apply preserves_bind; [apply preserves_on_b2, preserves_RemoveOldest|]. intros _.
    apply preserves_ret. }
  intros _.
  apply preserves_bind; [apply preserves_on_t1, preserves_Add|]. intros _.
  apply preserves_ret.
Qed.

Lemma preserves_ARC_Get k : preserves wf_arc (ARC.Get k).
Proof.
  unfold ARC.Get.
  apply preserves_bind; [apply preserves_on_t1, preserves_Peek|]. intros r.
  apply preserves_if.
  { apply preserves_bind; [apply preserves_on_t1, preserves_Remove|]. intros _.
    apply preserves_bind; [apply preserves_on_t2, preserves_Add|]. intros _.
    apply preserves_ret. }
  apply preserves_bind; [apply preserves_on_t2, preserves_Get|]. intros r'.
  apply preserves_if; apply preserves_ret.
Qed.

Lemma preserves_ARC_Remove k : preserves wf_arc (ARC.Remove k).
Proof.
  unfold ARC.Remove.
  apply preserves_bind; [apply preserves_on_t1, preserves_Remove|]. intros a.
  apply preserves_if; [apply preserves_ret|].
  apply preserves_bind; [apply preserves_on_t2, preserves_Remove|]. intros b.
  apply preserves_if; [apply preserves_ret|].
  apply preserves_bind; [apply preserves_on_b1, preserves_Remove|]. intros d.
  apply preserves_if; [apply preserves_ret|].
  apply preserves_bind; [apply preserves_on_b2, preserves_Remove|]. intros d'.
  apply preserves_if; apply preserves_ret.
Qed.

Lemma preserves_ARC_Clear : preserves wf_arc ARC.Clear.
Proof.
  unfold ARC.Clear.
  apply preserves_bind; [apply preserves_on_t1, preserves_Clear|]. intros _.
  apply preserves_bind; [apply preserves_on_t2, preserves_Clear|]. intros _.
  apply preserves_bind; [apply preserves_on_b1, preserves_Clear|]. intros _.
  apply preserves_on_b2, preserves_Clear.
Qed.

(** *** What [replace] leaves alone *)

Lemma replace_keeps (b : bool) c :
  wf_arc c ->
  let c' := state (ARC.replace b c) in
  ARC.p c' = ARC.p c ∧ ARC.maxEntries c' = ARC.maxEntries c ∧
  Base.maxEntries (ARC.t2 c') = Base.maxEntries (ARC.t2 c) ∧
  (∀ k, k ∈ keys_of (ARC.t1 c') -> k ∈ keys_of (ARC.t1 c)) ∧
  (∀ k, k ∈ keys_of (ARC.t2 c') -> k ∈ keys_of (ARC.t2 c)).
Proof.
  intros (Ht1 & Hb1 & Ht2 & Hb2) c'. unfold c'. rewrite replace_run.
  destruct (decide (victim_t1 b c)) as [Hv|Hv]; cbv zeta.
  - destruct (RemoveOldest_wf (ARC.t1 c) Ht1) as [_ (Hm & _)].
    destruct (result (Base.RemoveOldest (ARC.t1 c))).2;
      cbn [state fst snd]; (repeat split; [done..| |done]);
      intros k Hk; by apply (RemoveOldest_keys (ARC.t1 c) k Ht1).
  - destruct (RemoveOldest_wf (ARC.t2 c) Ht2) as [_ (Hm & _)].
    destruct (result (Base.RemoveOldest (ARC.t2 c))).2;
      cbn [state fst snd]; (repeat split; [done..|]);
      intros k Hk; by apply (RemoveOldest_keys (ARC.t2 c) k Ht2).
Qed.

Lemma modify_run {E S} (f : S -> S) (s : S) : modify (E:=E) f s = (tt, f s, []).
Proof. done. Qed.

(** C7.  [Add(key, value)] with [key] in neither [t1] nor [t2] but in [b1]:
    [p] becomes [min(p + delta, maxEntries)] with
    [delta = max(1, |b2| / |b1|)]; then [replace(false)] runs exactly when
    [|t1| + |t2| >= maxEntries]; then the key leaves [b1] and the entry is
    added to [t2].  So [p] grows by at least one when it was below
    [maxEntries], and afterwards the key is in [t2], not in [t1], not in
    [b1]. *)
Theorem Add_hit_in_b1 c k v :
  wf_arc c ->
  k ∉ keys_of (ARC.t1 c) -> k ∉ keys_of (ARC.t2 c) -> k ∈ keys_of (ARC.b1 c) ->
  1 <= Base.maxEntries (ARC.t2 c) ->
  let t1Len := Z.of_nat (length (Base.entries (ARC.t1 c))) in
  let t2Len := Z.of_nat (length (Base.entries (ARC.t2 c))) in
  let b1Len := Z.of_nat (length (Base.entries (ARC.b1 c))) in
  let b2Len := Z.of_nat (length (Base.entries (ARC.b2 c))) in
  0 <= ARC.p c -> ARC.p c + Z.max 1 b2Len <= Int.max_int ->
  t1Len + t2Len <= Int.max_int ->
  let delta := Z.max 1 (b2Len `div` b1Len) in
  let p' := Z.min (ARC.p c + delta) (ARC.maxEntries c) in
  let c1 := ARC.set_p p' c in
  let c2 := if decide (t1Len + t2Len >= ARC.maxEntries c)
            then state (ARC.replace false c1) else c1 in
  let c' := state (ARC.Add k v c) in
  c' = ARC.set_t2 (state (Base.Add k v (ARC.t2 c2)))
         (ARC.set_b1 (state (Base.Remove k (ARC.b1 c2))) c2) ∧
  trace (ARC.Add k v c) =
    (if decide (t1Len + t2Len >= ARC.maxEntries c)
     then trace (ARC.replace false c1) else []) ++
    trace (Base.Remove k (ARC.b1 c2)) ++ trace (Base.Add k v (ARC.t2 c2)) ∧
  ARC.p c' = p' ∧
  (ARC.p c < ARC.maxEntries c -> ARC.p c + 1 <= ARC.p c') ∧
  k ∈ keys_of (ARC.t2 c') ∧ k ∉ keys_of (ARC.t1 c') ∧ k ∉ keys_of (ARC.b1 c').
Proof.
  intros Hwf Hn1 Hn2 Hin1 Hcap t1Len t2Len b1Len b2Len Hp Hpb Hsum delta p' c1 c2 c'.
  pose proof Hwf as (Ht1 & Hb1 & Ht2 & Hb2).
  assert (Hb1pos : 1 <= b1Len).
  { unfold b1Len. unfold keys_of, keys in Hin1.
    destruct (Base.entries (ARC.b1 c)); [by apply elem_of_nil in Hin1 | simpl; lia]. }
  assert (Hquot : 0 <= b2Len `div` b1Len <= b2Len).
  { split; [apply Z.div_pos; lia|]. apply Z.div_le_upper_bound; [lia|]. nia. }
  assert (Hdelta : (if decide (b2Len > b1Len) then Int.div b2Len b1Len else 1) = delta).
  { unfold delta, Int.div. rewrite Z.quot_div_nonneg by lia.
    rewrite IntFacts.wrap_id by (unfold Int.in_range, Int.min_int, Int.max_int in *; lia).
    case_decide as Hgt.
    - assert (1 <= b2Len `div` b1Len) by (apply Z.div_le_lower_bound; lia). lia.
    - assert (b2Len `div` b1Len <= 1); [|lia].
      destruct (decide (b2Len = b1Len)) as [->|Hne]; [rewrite Z.div_same; lia|].
      rewrite Z.div_small; lia. }
  assert (Hpadd : Int.add (ARC.p c) delta = ARC.p c + delta).
  { apply IntFacts.add_id. unfold Int.in_range, Int.min_int, Int.max_int, delta in *. lia. }
  assert (Hrun : ARC.Add k v c =
    (tt, ARC.set_t2 (state (Base.Add k v (ARC.t2 c2)))
           (ARC.set_b1 (state (Base.Remove k (ARC.b1 c2))) c2),
     (if decide (t1Len + t2Len >= ARC.maxEntries c)
      then trace (ARC.replace false c1) else []) ++
     trace (Base.Remove k (ARC.b1 c2)) ++ trace (Base.Add k v (ARC.t2 c2)))).
  { unfold ARC.Add.
    rewrite (bind_pure _ _ _ _ (on_t1_Contains c k Ht1)), (bool_decide_eq_false_2 _ Hn1).
    rewrite (bind_pure _ _ _ _ (on_t2_Contains c k Ht2)), (bool_decide_eq_false_2 _ Hn2).
    rewrite (bind_pure _ _ _ _ (on_b1_Contains c k Hb1)), (bool_decide_eq_true_2 _ Hin1).
    rewrite (bind_pure _ _ _ _ (on_b1_Len c)), (bind_pure _ _ _ _ (on_b2_Len c)).
    fold b1Len b2Len. rewrite Hdelta, bind_get, Hpadd.
    assert (Hset : (if decide (ARC.p c + delta >= ARC.maxEntries c)
                    then modify (E:=Base.ev K V F) (S:=ARC.ARCCache K V F)
                           (ARC.set_p (ARC.maxEntries c))
                    else modify (ARC.set_p (ARC.p c + delta))) =
                   modify (ARC.set_p p')).
    { unfold p'. destruct (decide (ARC.p c + delta >= ARC.maxEntries c));
        f_equal; f_equal; lia. }
    rewrite Hset. rewrite (bind_step _ _ _ _ _ _ (modify_run _ c)). fold c1.
    assert (Hroom : ARC.make_room false c1 =
      (tt, c2, if decide (t1Len + t2Len >= ARC.maxEntries c)
               then trace (ARC.replace false c1) else [])).
    { rewrite make_room_run. change (ARC.t1 c1) with (ARC.t1 c).
      change (ARC.t2 c1) with (ARC.t2 c). change (ARC.maxEntries c1) with (ARC.maxEntries c).
      fold t1Len t2Len.
      rewrite IntFacts.add_id
        by (unfold Int.in_range, Int.min_int, Int.max_int, t1Len, t2Len in *; lia).
      unfold c2. destruct (decide (t1Len + t2Len >= ARC.maxEntries c)); [|done].
      by destruct (ARC.replace false c1) as [[[] ?] ?]. }
    rewrite (bind_step _ _ _ _ _ _ Hroom).
    rewrite (bind_step _ _ _ _ _ _ (on_b1_run _ c2)).
    rewrite bind_ret_tt, on_t2_run. cbn [result state trace fst snd].
    by rewrite app_nil_l. }
  assert (Hc2 : wf_arc c2 ∧ ARC.p c2 = p' ∧
                Base.maxEntries (ARC.t2 c2) = Base.maxEntries (ARC.t2 c) ∧
                (∀ x, x ∈ keys_of (ARC.t1 c2) -> x ∈ keys_of (ARC.t1 c))).
  { unfold c2. destruct (decide (t1Len + t2Len >= ARC.maxEntries c)); [|done].
    destruct (replace_keeps false c1 Hwf) as (Hp' & _ & Hm & Hk1 & _).
    split; [by apply preserves_replace|]. done. }
  destruct Hc2 as ((Ht1' & Hb1' & Ht2' & Hb2') & Hp2 & Hm2 & Hk2).
  unfold c'. rewrite Hrun. cbn [state trace fst snd].
  split; [done|]. split; [done|].
  cbn [ARC.p ARC.t1 ARC.t2 ARC.b1 ARC.set_t2 ARC.set_b1].
  split; [done|]. split; [rewrite Hp2; unfold p', delta; lia|].
  split; [apply Add_resident; [done|lia]|].
  split; [intros Hx; by apply Hn1, Hk2|].
  rewrite Remove_keys by done. tauto.
Qed.

Lemma ARC_Contains_run c k :
  wf_arc c ->
  ARC.Contains k c =
  (bool_decide (k ∈ keys_of (ARC.t1 c) ∨ k ∈ keys_of (ARC.t2 c)), c, []).
Proof.
  intros (Ht1 & Hb1 & Ht2 & Hb2). unfold ARC.Contains.
  rewrite (bind_pure _ _ _ _ (on_t1_Contains c k Ht1)).
  destruct (decide (k ∈ keys_of (ARC.t1 c))) as [Hin|Hn].
  - rewrite (bool_decide_eq_true_2 _ Hin). unfold ret.
    by rewrite bool_decide_eq_true_2 by (by left).
  - rewrite (bool_decide_eq_false_2 _ Hn), (on_t2_Contains c k Ht2).
    do 2 f_equal. apply bool_decide_ext. tauto.
Qed.

Lemma ARC_Len_run c :
  ARC.Len c =
  (Int.add (Z.of_nat (length (Base.entries (ARC.t1 c))))
           (Z.of_nat (length (Base.entries (ARC.t2 c)))), c, []).
Proof.
  unfold ARC.Len.
  rewrite (bind_pure _ _ _ _ (on_t1_Len c)).
  by rewrite (bind_pure _ _ _ _ (on_t2_Len c)).
Qed.

Lemma ARC_Keys_run c :
  ARC.Keys c = (reverse (keys_of (ARC.t1 c)) ++ reverse (keys_of (ARC.t2 c)), c, []).
Proof.
  unfold ARC.Keys.
  assert (Hk1 : ARC.on_t1 Base.Keys c = (reverse (keys_of (ARC.t1 c)), c, [])).
  { rewrite on_t1_run, BaseFacts.Keys_run. cbn [result state trace fst snd].
    by rewrite set_t1_id. }
  assert (Hk2 : ARC.on_t2 Base.Keys c = (reverse (keys_of (ARC.t2 c)), c, [])).
  { rewrite on_t2_run, BaseFacts.Keys_run. cbn [result state trace fst snd].
    by rewrite set_t2_id. }
  rewrite (bind_pure _ _ _ _ Hk1). by rewrite (bind_pure _ _ _ _ Hk2).
Qed.

(** A hit in [t1] moves the entry to [t2]; its removal from [t1] goes
    through [removeElement], callback included. *)
Lemma ARC_Add_promotes c k v e :
  wf_arc c -> Base.list_Value k (Base.entries (ARC.t1 c)) = Some e ->
  let a := Base.Add k v (ARC.t2 c) in
  ARC.Add k v c =
  (tt, ARC.set_t2 (state a) (ARC.set_t1 (without (ARC.t1 c) e) c),
   callback (ARC.t1 c) k (Base.value e) ++ trace a).
Proof.
  intros (Ht1 & Hb1 & Ht2 & Hb2) He a. unfold ARC.Add.
  assert (Hin : k ∈ keys_of (ARC.t1 c)).
  { destruct (Value_Some _ _ _ He) as [Hk Hin]. unfold keys_of, keys.
    rewrite <- Hk. by apply list_elem_of_fmap_2. }
  assert (Hrm : ARC.on_t1 (Base.Remove k) c =
    (true, ARC.set_t1 (without (ARC.t1 c) e) c, callback (ARC.t1 c) k (Base.value e))).
  { by rewrite on_t1_run, (Remove_hit _ k e Ht1 He). }
  rewrite (bind_pure _ _ _ _ (on_t1_Contains c k Ht1)), (bool_decide_eq_true_2 _ Hin).
  rewrite (bind_step _ _ _ _ _ _ Hrm).
  rewrite bind_ret_tt, on_t2_run. done.
Qed.

Lemma ARC_Get_promotes c k e :
  wf_arc c -> Base.list_Value k (Base.entries (ARC.t1 c)) = Some e ->
  let a := Base.Add k (Base.value e) (ARC.t2 c) in
  ARC.Get k c =
  ((Base.value e, true),
   ARC.set_t2 (state a) (ARC.set_t1 (without (ARC.t1 c) e) c),
   callback (ARC.t1 c) k (Base.value e) ++ trace a).
Proof.
  intros (Ht1 & Hb1 & Ht2 & Hb2) He a. unfold ARC.Get.
  assert (Hpk : ARC.on_t1 (Base.Peek k) c = ((Base.value e, true), c, [])).
  { rewrite on_t1_run, (Peek_hit _ k e Ht1 He). cbn [result state trace fst snd].
    by rewrite set_t1_id. }
  assert (Hrm : ARC.on_t1 (Base.Remove k) c =
    (true, ARC.set_t1 (without (ARC.t1 c) e) c, callback (ARC.t1 c) k (Base.value e))).
  { by rewrite on_t1_run, (Remove_hit _ k e Ht1 He). }
  rewrite (bind_pure _ _ _ _ Hpk). cbn [fst snd].
  rewrite (bind_step _ _ _ _ _ _ Hrm).
  rewrite bind_ret, on_t2_run. done.
Qed.

Lemma ARC_Clear_run c :
  wf_arc c ->
  ARC.Clear c =
  (tt,
   ARC.MkARCCache (ARC.maxEntries c) (ARC.p c)
     (cleared (ARC.t1 c)) (cleared (ARC.b1 c)) (cleared (ARC.t2 c)) (cleared (ARC.b2 c)),
   trace (Base.Clear (ARC.t1 c)) ++ trace (Base.Clear (ARC.t2 c)) ++
   trace (Base.Clear (ARC.b1 c)) ++ trace (Base.Clear (ARC.b2 c))).
Proof.
  intros (Ht1 & Hb1 & Ht2 & Hb2). unfold ARC.Clear.
  assert (Hc1 : state (Base.Clear (ARC.t1 c)) = cleared (ARC.t1 c))
    by (destruct (BaseFacts.Clear_run _ Ht1) as [-> _]; done).
  assert (Hc2 : state (Base.Clear (ARC.t2 c)) = cleared (ARC.t2 c))
    by (destruct (BaseFacts.Clear_run _ Ht2) as [-> _]; done).
  assert (Hc3 : state (Base.Clear (ARC.b1 c)) = cleared (ARC.b1 c))
    by (destruct (BaseFacts.Clear_run _ Hb1) as [-> _]; done).
  assert (Hc4 : state (Base.Clear (ARC.b2 c)) = cleared (ARC.b2 c))
    by (destruct (BaseFacts.Clear_run _ Hb2) as [-> _]; done).
  rewrite (bind_step _ _ _ _ _ _ (on_t1_run _ c)).
  set (c1 := ARC.set_t1 _ c).
  rewrite (bind_step _ _ _ _ _ _ (on_t2_run _ c1)).
  set (c2 := ARC.set_t2 _ c1).
  rewrite (bind_step _ _ _ _ _ _ (on_b1_run _ c2)).
  set (c3 := ARC.set_b1 _ c2).
  rewrite on_b2_run. cbn [result state trace fst snd].
  unfold c3, c2, c1. cbn [ARC.t1 ARC.t2 ARC.b1 ARC.b2 ARC.set_t1 ARC.set_t2 ARC.set_b1
    ARC.set_b2 ARC.maxEntries ARC.p].
  rewrite Hc1, Hc2, Hc3, Hc4.
  by destruct (Base.Clear (ARC.t1 c)) as [[[] ?] ?],
     (Base.Clear (ARC.t2 c)) as [[[] ?] ?],
     (Base.Clear (ARC.b1 c)) as [[[] ?] ?],
     (Base.Clear (ARC.b2 c)) as [[[] ?] ?].
Qed.

End ARCFacts.
End ARCFacts.

(** A sample ARC state of capacity 2: the keys 3 and 2 in [t1], the key 1
    in [b1]. *)
Definition arc_sample : ARC.ARCCache Z Z unit :=
  state (ARC.Add 3 30 (state (ARC.Add 2 20 (state (ARC.Add 1 10
    (ARC.NewARC 2 [Base.WithOnEvicted tt])))))).

Lemma wf_arc_sample : ARCFacts.wf_arc arc_sample.
Proof.
  apply ARCFacts.preserves_ARC_Add, ARCFacts.preserves_ARC_Add,
    ARCFacts.preserves_ARC_Add, ARCFacts.wf_NewARC.
Qed.

(** C7 on the sample state: the key 1 comes back from [b1]. *)
Lemma Add_hit_in_b1_witness :
  ARC.p arc_sample = 0 ∧
  ARC.p (state (ARC.Add 1 11 arc_sample)) = 1 ∧
  1 ∈ BaseFacts.keys_of (ARC.t2 (state (ARC.Add 1 11 arc_sample))).
Proof.
  assert (Hn1 : 1 ∉ BaseFacts.keys_of (ARC.t1 arc_sample))
    by (apply (bool_decide_unpack _); vm_compute; exact I).
  assert (Hn2 : 1 ∉ BaseFacts.keys_of (ARC.t2 arc_sample))
    by (apply (bool_decide_unpack _); vm_compute; exact I).
  assert (Hin : 1 ∈ BaseFacts.keys_of (ARC.b1 arc_sample))
    by (apply (bool_decide_unpack _); vm_compute; exact I).
  assert (Hcap : 1 <= Base.maxEntries (ARC.t2 arc_sample)) by (vm_compute; discriminate).
  assert (Hp : 0 <= ARC.p arc_sample) by (vm_compute; discriminate).
  assert (Hpb : ARC.p arc_sample +
                Z.max 1 (Z.of_nat (length (Base.entries (ARC.b2 arc_sample)))) <= Int.max_int)
    by (vm_compute; discriminate).
  assert (Hsum : Z.of_nat (length (Base.entries (ARC.t1 arc_sample))) +
                 Z.of_nat (length (Base.entries (ARC.t2 arc_sample))) <= Int.max_int)
    by (vm_compute; discriminate).
  destruct (ARCFacts.Add_hit_in_b1 arc_sample 1 11 wf_arc_sample Hn1 Hn2 Hin Hcap Hp Hpb Hsum)
    as (_ & _ & Hp' & _ & Ht2 & _).
  split; [reflexivity|]. split; [exact Hp' | exact Ht2].
Defined.

(** ** Clear and promotion across the cache variants *)
Module Variants.
Section Variants.

Context {K : Type} `{Countable K} `{GoZero K} {V : Type} `{GoZero V} {F : Type}.

Import ListFacts BaseFacts BaseKeeps BaseKeys.

Implicit Types (k : K) (v : V) (f : F).

(** The invocation of the callback [f] for the pair [(k, v)]. *)
Definition invocation f (async : bool) k v : Base.ev K V F :=
  if async then Spawned f k v else Ran f k v.

(** One invocation for each entry of a list. *)
Definition calls f (async : bool) (es : list (Base.entry K V)) : list (Base.ev K V F) :=
  (fun e => invocation f async (Base.key e) (Base.value e)) <$> es.

Lemma callback_Some (c : Base.unsafeCache K V F) f k v :
  Base.onEvicted c = Some f -> callback c k v = [invocation f (Base.async c) k v].
Proof. unfold callback, invocation. by intros ->. Qed.

Lemma evictions_Some (c : Base.unsafeCache K V F) f es :
  Base.onEvicted c = Some f -> evictions c es = calls f (Base.async c) es.
Proof.
  intros Hf. unfold evictions, calls. induction es as [|e es IH]; [done|].
  rewrite bind_cons, fmap_cons, IH, (callback_Some c f) by done. done.
Qed.

Lemma Clear_base (c : Base.unsafeCache K V F) f :
  BaseFacts.wf c -> Base.onEvicted c = Some f ->
  trace (Base.Clear c) ≡ₚ calls f (Base.async c) (Base.entries c) ∧
  state (Base.Clear c) = cleared c.
Proof.
  intros Hwf Hf. destruct (BaseFacts.Clear_run c Hwf) as [Hrun Hperm].
  split; [by rewrite Hperm, (evictions_Some c f)|]. by rewrite Hrun.
Qed.

Lemma Contains_cleared (c : Base.unsafeCache K V F) k :
  Base.Contains k (cleared c) = (false, cleared c, []).
Proof.
  rewrite BaseFacts.Contains_run by apply wf_cleared.
  rewrite bool_decide_eq_false_2; [done|]. apply not_elem_of_nil.
Qed.

End Variants.
End Variants.

(** C3 (as amended).  On each cache variant with engines in a well-formed
    state and the callback configured, [Clear()] invokes the callback
    exactly once for every entry of every engine.  For the base engine and
    the locked wrapper these are the resident entries: the trace is a
    rearrangement of one invocation per entry, and there are [Len()] of
    them.  For the two-queue cache and ARC the trace starts with a
    rearrangement of one invocation per resident entry ([Len()] of them),
    and goes on with one invocation per entry of the ghost engines, so
    that there are [Len()] plus the number of ghost entries in all.
    Afterwards [Len()] is 0 and [Contains(k)] is false for every key. *)
Theorem Clear_invokes_once_per_entry
    (K : Type) `(Countable K) `(GoZero K) (V : Type) `(GoZero V) (F : Type) (f : F) :
  (∀ c : Base.unsafeCache K V F,
     BaseFacts.wf c -> Base.onEvicted c = Some f ->
     let r := Base.Clear c in
     trace r ≡ₚ Variants.calls f (Base.async c) (Base.entries c) ∧
     Z.of_nat (length (trace r)) = result (Base.Len c) ∧
     result (Base.Len (state r)) = 0 ∧
     ∀ k, result (Base.Contains k (state r)) = false) ∧
  (∀ c : Wrapper.Cache K V F,
     BaseFacts.wf (Wrapper.lru c) -> Base.onEvicted (Wrapper.lru c) = Some f ->
     let r := Wrapper.Clear c in
     trace r ≡ₚ Variants.calls f (Base.async (Wrapper.lru c)) (Base.entries (Wrapper.lru c)) ∧
     Z.of_nat (length (trace r)) = result (Wrapper.Len c) ∧
     result (Wrapper.Len (state r)) = 0 ∧
     ∀ k, result (Wrapper.Contains k (state r)) = false) ∧
  (∀ c : TwoQ.TwoQueueCache K V F,
     TwoQFacts.wf_2q c ->
     Base.onEvicted (TwoQ.recent c) = Some f ->
     Base.onEvicted (TwoQ.frequent c) = Some f ->
     Base.onEvicted (TwoQ.recentEvict c) = Some f ->
     Z.of_nat (length (Base.entries (TwoQ.recent c))) +
       Z.of_nat (length (Base.entries (TwoQ.frequent c))) <= Int.max_int ->
     let r := TwoQ.Clear c in
     (∃ live ghost,
        trace r = live ++ ghost ∧
        live ≡ₚ Variants.calls f (Base.async (TwoQ.recent c)) (Base.entries (TwoQ.recent c)) ++
                Variants.calls f (Base.async (TwoQ.frequent c)) (Base.entries (TwoQ.frequent c)) ∧
        Z.of_nat (length live) = result (TwoQ.Len c) ∧
        ghost ≡ₚ Variants.calls f (Base.async (TwoQ.recentEvict c))
                   (Base.entries (TwoQ.recentEvict c))) ∧
     Z.of_nat (length (trace r)) =
       result (TwoQ.Len c) + Z.of_nat (length (Base.entries (TwoQ.recentEvict c))) ∧
     result (TwoQ.Len (state r)) = 0 ∧
     ∀ k, result (TwoQ.Contains k (state r)) = false) ∧
  (∀ c : ARC.ARCCache K V F,
     ARCFacts.wf_arc c ->
     Base.onEvicted (ARC.t1 c) = Some f ->
     Base.onEvicted (ARC.t2 c) = Some f ->
     Base.onEvicted (ARC.b1 c) = Some f ->
     Base.onEvicted (ARC.b2 c) = Some f ->
     Z.of_nat (length (Base.entries (ARC.t1 c))) +
       Z.of_nat (length (Base.entries (ARC.t2 c))) <= Int.max_int ->
     let r := ARC.Clear c in
     (∃ live ghost,
        trace r = live ++ ghost ∧
        live ≡ₚ Variants.calls f (Base.async (ARC.t1 c)) (Base.entries (ARC.t1 c)) ++
                Variants.calls f (Base.async (ARC.t2 c)) (Base.entries (ARC.t2 c)) ∧
        Z.of_nat (length live) = result (ARC.Len c) ∧
        ghost ≡ₚ Variants.calls f (Base.async (ARC.b1 c)) (Base.entries (ARC.b1 c)) ++
                 Variants.calls f (Base.async (ARC.b2 c)) (Base.entries (ARC.b2 c))) ∧
     Z.of_nat (length (trace r)) =
       result (ARC.Len c) + Z.of_nat (length (Base.entries (ARC.b1 c))) +
       Z.of_nat (length (Base.entries (ARC.b2 c))) ∧
     result (ARC.Len (state r)) = 0 ∧
     ∀ k, result (ARC.Contains k (state r)) = false).
Proof.
  assert (Hbase : ∀ c : Base.unsafeCache K V F,
     BaseFacts.wf c -> Base.onEvicted c = Some f ->
     let r := Base.Clear c in
     trace r ≡ₚ Variants.calls f (Base.async c) (Base.entries c) ∧
     Z.of_nat (length (trace r)) = result (Base.Len c) ∧
     result (Base.Len (state r)) = 0 ∧
     ∀ k, result (Base.Contains k (state r)) = false).
  { intros c Hwf Hf r. destruct (Variants.Clear_base c f Hwf Hf) as [Hperm Hst].
    fold r in Hperm, Hst. split; [done|]. split; [|split].
    - rewrite Hperm. unfold Variants.calls. by rewrite length_fmap.
    - by rewrite Hst.
    - intros k. by rewrite Hst, Variants.Contains_cleared. }
  split; [exact Hbase|]. split; [|split].
  - intros [l] Hwf Hf r. simpl in Hwf, Hf.
    destruct (Hbase l Hwf Hf) as (Hperm & Hlen & Hzero & Hcont).
    unfold r, Wrapper.Clear, Wrapper.Len, Wrapper.Contains, Wrapper.on_lru.
    rewrite !zoom_run. cbn [result state trace fst snd Wrapper.lru Wrapper.set_lru].
    split; [done|]. split; [done|]. split; [done|].
    intros k. rewrite zoom_run. cbn [result fst snd Wrapper.lru]. apply Hcont.
  - intros c Hwf Hfr Hff Hfg Hsum r. pose proof Hwf as (Hr & Hfq & Hg).
    unfold r. rewrite (TwoQFacts.TwoQ_Clear_run c Hwf). cbn [result state trace fst snd].
    destruct (Variants.Clear_base _ f Hr Hfr) as [Hp1 _].
    destruct (Variants.Clear_base _ f Hfq Hff) as [Hp2 _].
    destruct (Variants.Clear_base _ f Hg Hfg) as [Hp3 _].
    assert (Hlen : Z.of_nat (length (trace (Base.Clear (TwoQ.recent c)) ++
                                     trace (Base.Clear (TwoQ.frequent c)))) =
                   result (TwoQ.Len c)).
    { rewrite TwoQFacts.TwoQ_Len_run. cbn [result fst snd].
      rewrite IntFacts.add_id
        by (unfold Int.in_range, Int.min_int, Int.max_int in *; lia).
      rewrite length_app, Hp1, Hp2. unfold Variants.calls. rewrite !length_fmap. lia. }
    split; [|split; [|split]].
    + exists (trace (Base.Clear (TwoQ.recent c)) ++ trace (Base.Clear (TwoQ.frequent c))),
        (trace (Base.Clear (TwoQ.recentEvict c))).
      split; [by rewrite app_assoc|]. split; [by rewrite Hp1, Hp2|]. by split.
    + rewrite app_assoc, length_app, Nat2Z.inj_add, Hlen, Hp3.
      unfold Variants.calls. by rewrite length_fmap.
    + by rewrite TwoQFacts.TwoQ_Len_run.
    + intros k. rewrite TwoQFacts.TwoQ_Contains_run
        by (repeat split; apply BaseFacts.wf_cleared).
      cbn [result fst snd]. apply bool_decide_eq_false_2.
      intros [Hin|Hin]; by apply elem_of_nil in Hin.
  - intros c Hwf Hf1 Hf2 Hf3 Hf4 Hsum r. pose proof Hwf as (Ht1 & Hb1 & Ht2 & Hb2).
    unfold r. rewrite (ARCFacts.ARC_Clear_run c Hwf). cbn [result state trace fst snd].
    destruct (Variants.Clear_base _ f Ht1 Hf1) as [Hp1 _].
    destruct (Variants.Clear_base _ f Ht2 Hf2) as [Hp2 _].
    destruct (Variants.Clear_base _ f Hb1 Hf3) as [Hp3 _].
    destruct (Variants.Clear_base _ f Hb2 Hf4) as [Hp4 _].
    assert (Hlen : Z.of_nat (length (trace (Base.Clear (ARC.t1 c)) ++
                                     trace (Base.Clear (ARC.t2 c)))) =
                   result (ARC.Len c)).
    { rewrite ARCFacts.ARC_Len_run. cbn [result fst snd].
      rewrite IntFacts.add_id
        by (unfold Int.in_range, Int.min_int, Int.max_int in *; lia).
      rewrite length_app, Hp1, Hp2. unfold Variants.calls. rewrite !length_fmap. lia. }
    split; [|split; [|split]].
    + exists (trace (Base.Clear (ARC.t1 c)) ++ trace (Base.Clear (ARC.t2 c))),
        (trace (Base.Clear (ARC.b1 c)) ++ trace (Base.Clear (ARC.b2 c))).
      split; [by rewrite <- !app_assoc|]. split; [by rewrite Hp1, Hp2|].
      split; [done|by rewrite Hp3, Hp4].
    + rewrite app_assoc, length_app, Nat2Z.inj_add, Hlen, length_app, Hp3, Hp4.
      unfold Variants.calls. rewrite !length_fmap. lia.
    + by rewrite ARCFacts.ARC_Len_run.
    + intros k. rewrite ARCFacts.ARC_Contains_run
        by (repeat split; apply BaseFacts.wf_cleared).
      cbn [result fst snd]. apply bool_decide_eq_false_2.
      intros [Hin|Hin]; by apply elem_of_nil in Hin.
Qed.

(** The amended C3 on the sample ARC state, which holds the keys 3 and 2 in
    [t1] and remembers the key 1 in [b1]: three invocations for a [Len()]
    of 2. *)
Lemma Clear_invokes_once_per_entry_witness :
  result (ARC.Len arc_sample) = 2 ∧
  Z.of_nat (length (trace (ARC.Clear arc_sample))) = 3 ∧
  result (ARC.Len (state (ARC.Clear arc_sample))) = 0 ∧
  result (ARC.Contains 2 (state (ARC.Clear arc_sample))) = false.
Proof.
  destruct (Clear_invokes_once_per_entry Z _ _ Z _ unit tt) as (_ & _ & _ & Harc).
  assert (Hf1 : Base.onEvicted (ARC.t1 arc_sample) = Some tt) by (vm_compute; reflexivity).
  assert (Hf2 : Base.onEvicted (ARC.t2 arc_sample) = Some tt) by (vm_compute; reflexivity).
  assert (Hf3 : Base.onEvicted (ARC.b1 arc_sample) = Some tt) by (vm_compute; reflexivity).
  assert (Hf4 : Base.onEvicted (ARC.b2 arc_sample) = Some tt) by (vm_compute; reflexivity).
  assert (Hsum : Z.of_nat (length (Base.entries (ARC.t1 arc_sample))) +
                 Z.of_nat (length (Base.entries (ARC.t2 arc_sample))) <= Int.max_int)
    by (vm_compute; discriminate).
  destruct (Harc arc_sample wf_arc_sample Hf1 Hf2 Hf3 Hf4 Hsum)
    as (_ & Hlen & Hzero & Hcont).
  split; [vm_compute; reflexivity|]. split; [|split; [exact Hzero | exact (Hcont 2)]].
  rewrite Hlen. vm_compute. reflexivity.
Defined.

(** C3, counterexample.  With a callback configured, [Clear()] of the
    two-queue cache and of ARC invokes it more often than there are
    resident entries.  ARC of capacity 2 after [Add] of the keys 1, 2 and
    3: [Len()] is 2 and [Clear()] makes three invocations, the third for
    the key 1 that [b1] remembers, with the zero value.  The two-queue
    cache of capacity 2 after the same calls: [Len()] is 2 and [Clear()]
    makes three invocations, the third for the key 1 of the ghost
    engine. *)
Lemma Clear_invokes_counterexample :
  let q : TwoQ.TwoQueueCache Z Z unit :=
    state (TwoQ.Add 3 30 (state (TwoQ.Add 2 20 (state (TwoQ.Add 1 10
      (TwoQ.New2Q 2 [Base.WithOnEvicted tt])))))) in
  (result (ARC.Len arc_sample) = 2 ∧
   trace (ARC.Clear arc_sample) = [Ran tt 3 30; Ran tt 2 20; Ran tt 1 0]) ∧
  (result (TwoQ.Len q) = 2 ∧
   trace (TwoQ.Clear q) = [Ran tt 3 30; Ran tt 2 20; Ran tt 1 0]).
Proof. vm_compute. repeat split. Qed.

(** C10.  With the callback configured, a promotion from the recency arm
    invokes the callback with the key and the value stored for it, and the
    key is still resident afterwards: in the two-queue cache for [Get] and
    [Add] on a key of [recent] (that is not in [frequent]), in ARC for
    [Add] and [Get] on a key of [t1]. *)
Theorem promotion_invokes_callback
    (K : Type) `(Countable K) `(GoZero K) (V : Type) `(GoZero V) (F : Type)
    (f : F) (k : K) (v : V) (e : Base.entry K V) :
  (∀ c : TwoQ.TwoQueueCache K V F,
     TwoQFacts.wf_2q c ->
     Base.onEvicted (TwoQ.recent c) = Some f ->
     1 <= Base.maxEntries (TwoQ.frequent c) ->
     k ∉ BaseFacts.keys_of (TwoQ.frequent c) ->
     Base.list_Value k (Base.entries (TwoQ.recent c)) = Some e ->
     let call := Variants.invocation f (Base.async (TwoQ.recent c)) k (Base.value e) in
     result (TwoQ.Get k c) = (Base.value e, true) ∧
     call ∈ trace (TwoQ.Get k c) ∧
     result (TwoQ.Contains k (state (TwoQ.Get k c))) = true ∧
     call ∈ trace (TwoQ.Add k v c) ∧
     result (TwoQ.Contains k (state (TwoQ.Add k v c))) = true) ∧
  (∀ c : ARC.ARCCache K V F,
     ARCFacts.wf_arc c ->
     Base.onEvicted (ARC.t1 c) = Some f ->
     1 <= Base.maxEntries (ARC.t2 c) ->
     Base.list_Value k (Base.entries (ARC.t1 c)) = Some e ->
     let call := Variants.invocation f (Base.async (ARC.t1 c)) k (Base.value e) in
     result (ARC.Get k c) = (Base.value e, true) ∧
     call ∈ trace (ARC.Get k c) ∧
     result (ARC.Contains k (state (ARC.Get k c))) = true ∧
     call ∈ trace (ARC.Add k v c) ∧
     result (ARC.Contains k (state (ARC.Add k v c))) = true).
Proof.
  split.
  - intros c Hwf Hf Hcap Hn He call. pose proof Hwf as (Hr & Hfq & Hg).
    assert (Hres : ∀ x, result (TwoQ.Contains k
      (TwoQ.set_frequent (state (Base.Add k x (TwoQ.frequent c)))
         (TwoQ.set_recent (BaseFacts.without (TwoQ.recent c) e) c))) = true).
    { intros x. rewrite TwoQFacts.TwoQ_Contains_run.
      - cbn [result fst snd]. apply bool_decide_eq_true_2. left.
        cbn [TwoQ.frequent TwoQ.set_frequent]. by apply BaseKeeps.Add_resident.
      - split; [by apply BaseFacts.wf_without|]. split; [|done].
        by apply BaseFacts.Add_wf. }
    rewrite (TwoQFacts.TwoQ_Get_promotes c k e Hwf Hn He),
      (TwoQFacts.TwoQ_Add_promotes c k v e Hwf Hn He).
    cbn [result state trace fst snd].
    rewrite (Variants.callback_Some _ f k _ Hf). fold call.
    split; [done|]. split; [left|]. split; [apply Hres|]. split; [left | apply Hres].
  - intros c Hwf Hf Hcap He call. pose proof Hwf as (Ht1 & Hb1 & Ht2 & Hb2).
    assert (Hres : ∀ x, result (ARC.Contains k
      (ARC.set_t2 (state (Base.Add k x (ARC.t2 c)))
         (ARC.set_t1 (BaseFacts.without (ARC.t1 c) e) c))) = true).
    { intros x. rewrite ARCFacts.ARC_Contains_run.
      - cbn [result fst snd]. apply bool_decide_eq_true_2. right.
        cbn [ARC.t2 ARC.set_t2]. by apply BaseKeeps.Add_resident.
      - split; [by apply BaseFacts.wf_without|]. split; [done|].
        split; [|done]. by apply BaseFacts.Add_wf. }
    rewrite (ARCFacts.ARC_Get_promotes c k e Hwf He), (ARCFacts.ARC_Add_promotes c k v e Hwf He).
    cbn [result state trace fst snd].
    rewrite (Variants.callback_Some _ f k _ Hf). fold call.
    split; [done|]. split; [left|]. split; [apply Hres|]. split; [left | apply Hres].
Qed.

(** C10 on the sample ARC state: [Get] on the key 3 of [t1]. *)
Lemma promotion_invokes_callback_witness :
  Ran tt 3 30 ∈ trace (ARC.Get 3 arc_sample) ∧
  result (ARC.Contains 3 (state (ARC.Get 3 arc_sample))) = true.
Proof.
  destruct (promotion_invokes_callback Z _ _ Z _ unit tt 3 0 (Base.Entry 3 30)) as [_ Harc].
  assert (Hcap : 1 <= Base.maxEntries (ARC.t2 arc_sample)) by (vm_compute; discriminate).
  destruct (Harc arc_sample wf_arc_sample eq_refl Hcap eq_refl) as (_ & Hcall & Hres & _).
  split; [exact Hcall | exact Hres].
Defined.

(** C1, the failing input: capacity 1, then [Add(1)], [Add(2)], [Add(1)].
    The second [Add] moves the key 1 from [t1] to [b1]; the third finds it
    there, raises [p] to 1, and calls [replace(false)], which turns to
    [t2] because [|t1| = p] and finds [t2] empty: nothing is evicted, and
    the key 1 is added to [t2] beside the key 2 in [t1]. *)
Lemma ARC_exceeds_maxEntries :
  let c0 : ARC.ARCCache Z Z unit := ARC.NewARC 1 [] in
  let c2 := state (ARC.Add 2 20 (state (ARC.Add 1 10 c0))) in
  let c3 := state (ARC.Add 1 11 c2) in
  ARC.maxEntries c3 = 1 ∧
  BaseFacts.keys_of (ARC.t1 c2) = [2] ∧ BaseFacts.keys_of (ARC.b1 c2) = [1] ∧
  ARC.p c3 = 1 ∧
  BaseFacts.keys_of (ARC.t1 c3) = [2] ∧ BaseFacts.keys_of (ARC.t2 c3) = [1] ∧
  result (ARC.Len c3) = 2 ∧ result (ARC.Keys c3) = [2; 1].
Proof. vm_compute. repeat split. Qed.

(** * Further properties of the code *)

(** ** Runs of the base engine *)
Module BaseRun.
Section BaseRun.

Context {K : Type} `{Countable K} `{GoZero K} {V : Type} `{GoZero V} {F : Type}.

Import ListFacts BaseFacts BaseKeeps BaseKeys.

Implicit Types (c : Base.unsafeCache K V F) (k : K) (v : V).

(** A call of a method of the [Lru] interface. *)
Inductive call : Type :=
  | CAdd (k : K) (v : V)
  | CGet (k : K)
  | CContains (k : K)
  | CPeek (k : K)
  | CRemove (k : K)
  | CRemoveOldest
  | CGetOldest
  | CKeys
  | CLen
  | CResize (size : Z)
  | CClear.

(** The state and the callback invocations a call leaves. *)
Definition exec (o : call) c : Base.unsafeCache K V F * list (Base.ev K V F) :=
  match o with
  | CAdd k v => let r := Base.Add k v c in (state r, trace r)
  | CGet k => let r := Base.Get k c in (state r, trace r)
  | CContains k => let r := Base.Contains k c in (state r, trace r)
  | CPeek k => let r := Base.Peek k c in (state r, trace r)
  | CRemove k => let r := Base.Remove k c in (state r, trace r)
  | CRemoveOldest => let r := Base.RemoveOldest c in (state r, trace r)
  | CGetOldest => let r := Base.GetOldest c in (state r, trace r)
  | CKeys => let r := Base.Keys c in (state r, trace r)
  | CLen => let r := Base.Len c in (state r, trace r)
  | CResize size => let r := Base.Resize size c in (state r, trace r)
  | CClear => let r := Base.Clear c in (state r, trace r)
  end.

(** The state after a sequence of calls, and all the invocations made. *)
Fixpoint run (os : list call) c : Base.unsafeCache K V F * list (Base.ev K V F) :=
  match os with
  | [] => (c, [])
  | o :: os' =>
      let '(c1, t1) := exec o c in
      let '(c2, t2) := run os' c1 in
      (c2, t1 ++ t2)
  end.

(** A state reached from the constructor. *)
Definition reached (n : Z) (opts : list (Base.Option F)) (os : list call) :
    Base.unsafeCache K V F :=
  (run os (Base.NewUnsafeLru n opts)).1.

Lemma GetOldest_run c :
  wf c ->
  Base.GetOldest c =
  (match last (Base.entries c) with
   | Some e => (Base.key e, Base.value e, true)
   | None => (zero, zero, false)
   end, c, []).
Proof.
  intros Hwf. unfold Base.GetOldest. rewrite bind_get.
  destruct (decide (Base.entries c = [])) as [He|He].
  - by rewrite He.
  - destruct (entries_nonempty_snoc _ He) as (l & e & Hl).
    rewrite Hl, Back_snoc, last_snoc, <- Hl.
    destruct Hwf as [Hnd _]. unfold keys_of in Hnd. rewrite Hl in Hnd.
    apply NoDup_keys_snoc in Hnd as [Hn _].
    by rewrite Hl, (Value_snoc l e Hn).
Qed.

Lemma exec_wf o c : wf c -> wf (exec o c).1.
Proof.
  intros Hwf. destruct o; cbn [exec fst].
  - by apply Add_wf.
  - by apply Get_wf.
  - by apply preserves_Contains.
  - by apply preserves_Peek.
  - by apply Remove_wf.
  - by apply RemoveOldest_wf.
  - by rewrite GetOldest_run.
  - done.
  - done.
  - by apply Resize_wf.
  - by apply Clear_wf.
Qed.

Lemma run_wf os c : wf c -> wf (run os c).1.
Proof.
  revert c. induction os as [|o os IH]; intros c Hwf; [done|].
  cbn [run]. pose proof (exec_wf o c Hwf) as Hw.
  destruct (exec o c) as [c1 t1]. specialize (IH c1 Hw).
  by destruct (run os c1) as [c2 t2].
Qed.

Lemma reached_wf n opts os : wf (reached n opts os).
Proof. apply run_wf, wf_New. Qed.

Lemma wf_size c : wf c -> size (Base.bucket c) = length (Base.entries c).
Proof.
  intros Hwf. rewrite <- (length_fmap (fun e => (Base.key e, Base.key e))).
  rewrite <- (index_Permutation c Hwf). by rewrite length_map_to_list.
Qed.

Lemma remove_key_middle k (l1 l2 : list K) :
  k ∉ l1 -> remove_key k (l1 ++ k :: l2) = l1 ++ l2.
Proof.
  intros Hn. rewrite LruOrder.remove_key_app, decide_False by done.
  simpl. by rewrite decide_True.
Qed.

Lemma Keys_without c e (l1 l2 : list K) :
  wf c -> result (Base.Keys c) = l1 ++ Base.key e :: l2 ->
  result (Base.Keys (without c e)) = l1 ++ l2.
Proof.
  intros Hwf. rewrite !Keys_run. cbn [result fst snd]. intros Hk.
  destruct Hwf as [Hnd _].
  rewrite keys_without, <- LruOrder.remove_key_reverse, Hk by done.
  apply remove_key_middle.
  assert (Hnd' : NoDup (l1 ++ Base.key e :: l2)).
  { rewrite <- Hk. by rewrite reverse_Permutation. }
  apply NoDup_app in Hnd' as (_ & Hd & _). intros Hin. apply (Hd _ Hin). left.
Qed.

Lemma Contains_Keys c k :
  wf c -> result (Base.Contains k c) = true <-> k ∈ result (Base.Keys c).
Proof.
  intros Hwf. rewrite (BaseFacts.Contains_run c k Hwf), Keys_run. cbn [result fst snd].
  by rewrite bool_decide_eq_true, elem_of_reverse.
Qed.

Lemma Contains_false c k :
  wf c -> result (Base.Contains k c) = false <-> k ∉ keys_of c.
Proof.
  intros Hwf. rewrite (BaseFacts.Contains_run c k Hwf). cbn [result fst snd].
  by rewrite bool_decide_eq_false.
Qed.

Lemma Peek_found c k v :
  wf c -> result (Base.Peek k c) = (v, true) ->
  ∃ e, Base.list_Value k (Base.entries c) = Some e ∧ Base.value e = v ∧ Base.key e = k.
Proof.
  intros Hwf. destruct (Base.list_Value k (Base.entries c)) as [e|] eqn:He.
  - rewrite (Peek_hit c k e Hwf He). cbn [result fst snd]. intros [= <-].
    exists e. destruct (Value_Some _ _ _ He) as [Hk _]. done.
  - apply Value_None in He. by rewrite (Peek_miss c k Hwf He).
Qed.

Lemma Keys_head_last c k (ks : list K) :
  result (Base.Keys c) = k :: ks ->
  ∃ l e, Base.entries c = l ++ [e] ∧ Base.key e = k ∧ reverse (keys l) = ks.
Proof.
  rewrite Keys_run. cbn [result fst snd]. intros Hk.
  destruct (decide (Base.entries c = [])) as [He|He].
  { unfold keys_of in Hk. by rewrite He in Hk. }
  destruct (entries_nonempty_snoc _ He) as (l & e & Hl).
  exists l, e. unfold keys_of in Hk. rewrite Hl, keys_snoc, reverse_snoc in Hk.
  by injection Hk as -> ->.
Qed.

End BaseRun.
End BaseRun.

(** X1.  In every state of a base engine reached from [NewUnsafeLru] by
    calls of its methods, the index and the list agree: they have the same
    number of entries, [Keys()] has no duplicate and as many keys as
    [Len()] says, and [Contains(k)] holds exactly for the keys of
    [Keys()]. *)
Theorem index_and_list_agree :
  ∀ (K : Type) `(Countable K) `(GoZero K) (V : Type) `(GoZero V) (F : Type)
    (n : Z) (opts : list (Base.Option F)) (os : list (BaseRun.call (K:=K) (V:=V))),
    let c : Base.unsafeCache K V F := BaseRun.reached n opts os in
    size (Base.bucket c) = length (Base.entries c) ∧
    NoDup (result (Base.Keys c)) ∧
    Z.of_nat (length (result (Base.Keys c))) = result (Base.Len c) ∧
    ∀ k, result (Base.Contains k c) = true <-> k ∈ result (Base.Keys c).
Proof.
  intros K ? ? ? V ? F n opts os c.
  assert (Hwf : BaseFacts.wf c) by apply BaseRun.reached_wf.
  split; [by apply BaseRun.wf_size|]. split; [|split].
  - rewrite BaseFacts.Keys_run. cbn [result fst snd].
    rewrite reverse_Permutation. apply Hwf.
  - rewrite BaseFacts.Keys_run, BaseFacts.Len_run. cbn [result fst snd].
    unfold BaseFacts.keys_of, ListFacts.keys. by rewrite length_reverse, length_fmap.
  - intros k. by apply BaseRun.Contains_Keys.
Qed.

(** X2.  [Remove(k)] in a reached state.  When [k] is not cached it returns
    false, changes nothing and invokes nothing.  When [k] is cached with
    the value [v] it returns true, invokes the callback (if any) once, with
    [(k, v)], the key is no longer contained, [Len()] drops by one and the
    other keys keep their order. *)
Theorem Remove_present_or_absent :
  ∀ (K : Type) `(Countable K) `(GoZero K) (V : Type) `(GoZero V) (F : Type)
    (n : Z) (opts : list (Base.Option F)) (os : list (BaseRun.call (K:=K) (V:=V))) (k : K),
    let c : Base.unsafeCache K V F := BaseRun.reached n opts os in
    let r := Base.Remove k c in
    (result (Base.Contains k c) = false -> r = (false, c, [])) ∧
    (∀ v, result (Base.Peek k c) = (v, true) ->
       result r = true ∧ trace r = BaseFacts.callback c k v ∧
       result (Base.Contains k (state r)) = false ∧
       result (Base.Len (state r)) = result (Base.Len c) - 1 ∧
       ∀ l1 l2, result (Base.Keys c) = l1 ++ k :: l2 ->
                result (Base.Keys (state r)) = l1 ++ l2).
Proof.
  intros K ? ? ? V ? F n opts os k c r.
  assert (Hwf : BaseFacts.wf c) by apply BaseRun.reached_wf.
  split.
  - intros Hc. apply BaseRun.Contains_false in Hc; [|done].
    by apply BaseFacts.Remove_miss.
  - intros v Hp. destruct (BaseRun.Peek_found c k v Hwf Hp) as (e & He & Hv & Hk).
    unfold r. rewrite (BaseFacts.Remove_hit c k e Hwf He). cbn [result state trace fst snd].
    rewrite Hv. split; [done|]. split; [done|]. split; [|split].
    + apply BaseRun.Contains_false; [by apply BaseFacts.wf_without|].
      rewrite BaseKeys.elem_of_without by done. rewrite Hk. tauto.
    + rewrite !BaseFacts.Len_run. cbn [result fst snd].
      assert (Hin : k ∈ BaseFacts.keys_of c).
      { destruct (ListFacts.Value_Some _ _ _ He) as [_ Hin]. rewrite <- Hk.
        unfold BaseFacts.keys_of, ListFacts.keys. by apply list_elem_of_fmap_2. }
      pose proof (ListFacts.length_remove_key k _ Hin) as Hlen.
      rewrite <- Hk, <- BaseKeys.keys_without in Hlen.
      unfold BaseFacts.keys_of, ListFacts.keys in Hlen. rewrite !length_fmap in Hlen. lia.
    + intros l1 l2 Hkeys. rewrite <- Hk in Hkeys. by apply BaseRun.Keys_without.
Qed.

(** X2 on the sample engine: the key 2 is removed. *)
Lemma Remove_present_or_absent_witness :
  result (Base.Remove 2 sample) = true ∧ trace (Base.Remove 2 sample) = [Ran tt 2 20] ∧
  result (Base.Keys (state (Base.Remove 2 sample))) = [1; 3].
Proof.
  destruct (Remove_present_or_absent Z _ _ Z _ unit 3 [Base.WithOnEvicted tt]
    [BaseRun.CAdd 1 10; BaseRun.CAdd 2 20; BaseRun.CAdd 3 30] 2) as [_ Hhit].
  destruct (Hhit 20 eq_refl) as (Hres & Htr & _ & _ & Hkeys).
  split; [exact Hres|]. split; [exact Htr|]. exact (Hkeys [1] [3] eq_refl).
Defined.

(** X3.  The oldest entry in a reached state.  On an empty engine
    [GetOldest] and [RemoveOldest] return the zero key, the zero value and
    false, and change nothing.  Otherwise, with [k] the first key of
    [Keys()] and [v] its value, [GetOldest] returns [(k, v, true)] and
    changes nothing, and [RemoveOldest] returns the same, invokes the
    callback (if any) with [(k, v)], and leaves the other keys in their
    order. *)
Theorem oldest_entry :
  ∀ (K : Type) `(Countable K) `(GoZero K) (V : Type) `(GoZero V) (F : Type)
    (n : Z) (opts : list (Base.Option F)) (os : list (BaseRun.call (K:=K) (V:=V))),
    let c : Base.unsafeCache K V F := BaseRun.reached n opts os in
    (result (Base.Keys c) = [] ->
       Base.GetOldest c = ((zero, zero, false), c, []) ∧
       Base.RemoveOldest c = ((zero, zero, false), c, [])) ∧
    (∀ k ks, result (Base.Keys c) = k :: ks ->
       ∃ v, result (Base.Peek k c) = (v, true) ∧
            Base.GetOldest c = ((k, v, true), c, []) ∧
            result (Base.RemoveOldest c) = (k, v, true) ∧
            trace (Base.RemoveOldest c) = BaseFacts.callback c k v ∧
            result (Base.Keys (state (Base.RemoveOldest c))) = ks ∧
            result (Base.Contains k (state (Base.RemoveOldest c))) = false).
Proof.
  intros K ? ? ? V ? F n opts os c.
  assert (Hwf : BaseFacts.wf c) by apply BaseRun.reached_wf.
  split.
  - rewrite BaseFacts.Keys_run. cbn [result fst snd]. intros Hk.
    assert (He : Base.entries c = []).
    { apply (f_equal reverse) in Hk. rewrite reverse_involutive in Hk.
      unfold BaseFacts.keys_of, ListFacts.keys in Hk. by apply fmap_nil_inv in Hk. }
    split; [|by apply BaseFacts.RemoveOldest_nil].
    rewrite (BaseRun.GetOldest_run c Hwf). by rewrite He.
  - intros k ks Hk. destruct (BaseRun.Keys_head_last c k ks Hk) as (l & e & Hl & Hke & Hks).
    assert (Hn : Base.key e ∉ ListFacts.keys l).
    { destruct Hwf as [Hnd _]. unfold BaseFacts.keys_of in Hnd. rewrite Hl in Hnd.
      by apply ListFacts.NoDup_keys_snoc in Hnd as [Hn _]. }
    assert (Hv : Base.list_Value k (Base.entries c) = Some e).
    { rewrite Hl, <- Hke. by apply ListFacts.Value_snoc. }
    exists (Base.value e).
    split; [by rewrite (BaseFacts.Peek_hit c k e Hwf Hv)|].
    split; [by rewrite (BaseRun.GetOldest_run c Hwf), Hl, last_snoc, Hke|].
    rewrite (BaseFacts.RemoveOldest_snoc c l e Hwf Hl). cbn [result state trace fst snd].
    rewrite Hke. split; [done|]. split; [done|]. split.
    + rewrite BaseFacts.Keys_run. cbn [result fst snd]. unfold BaseFacts.keys_of.
      by rewrite (BaseFacts.without_snoc c l e Hwf Hl).
    + apply BaseRun.Contains_false; [by apply BaseFacts.wf_without|].
      rewrite BaseKeys.elem_of_without by done. rewrite Hke. tauto.
Qed.

(** X3 on the sample engine, whose oldest entry is [(1, 10)]. *)
Lemma oldest_entry_witness :
  Base.GetOldest sample = ((1, 10, true), sample, []) ∧
  result (Base.Keys (state (Base.RemoveOldest sample))) = [2; 3].
Proof.
  destruct (oldest_entry Z _ _ Z _ unit 3 [Base.WithOnEvicted tt]
    [BaseRun.CAdd 1 10; BaseRun.CAdd 2 20; BaseRun.CAdd 3 30]) as [_ Hne].
  destruct (Hne 1 [2; 3] eq_refl) as (v & Hp & Hg & _ & _ & Hk & _).
  injection Hp as <-. split; [exact Hg | exact Hk].
Defined.

(** X4.  The queries in a reached state: [Contains], [Peek], [Len], [Keys]
    and [GetOldest] leave the state as it is and invoke no callback; [Get]
    invokes no callback either, returns what [Peek] returns, and changes
    nothing when it misses; the found flag of [Peek] is [Contains], and a
    miss comes with the zero value. *)
Theorem queries_do_not_evict :
  ∀ (K : Type) `(Countable K) `(GoZero K) (V : Type) `(GoZero V) (F : Type)
    (n : Z) (opts : list (Base.Option F)) (os : list (BaseRun.call (K:=K) (V:=V))) (k : K),
    let c : Base.unsafeCache K V F := BaseRun.reached n opts os in
    (state (Base.Contains k c) = c ∧ trace (Base.Contains k c) = []) ∧
    (state (Base.Peek k c) = c ∧ trace (Base.Peek k c) = []) ∧
    (state (Base.Len c) = c ∧ trace (Base.Len c) = []) ∧
    (state (Base.Keys c) = c ∧ trace (Base.Keys c) = []) ∧
    (state (Base.GetOldest c) = c ∧ trace (Base.GetOldest c) = []) ∧
    trace (Base.Get k c) = [] ∧
    result (Base.Get k c) = result (Base.Peek k c) ∧
    (result (Base.Peek k c)).2 = result (Base.Contains k c) ∧
    (result (Base.Contains k c) = false ->
       state (Base.Get k c) = c ∧ result (Base.Peek k c) = (zero, false)).
Proof.
  intros K ? ? ? V ? F n opts os k c.
  assert (Hwf : BaseFacts.wf c) by apply BaseRun.reached_wf.
  rewrite (BaseFacts.Contains_run c k Hwf), (BaseRun.GetOldest_run c Hwf).
  cbn [result state trace fst snd].
  destruct (Base.list_Value k (Base.entries c)) as [e|] eqn:He.
  - rewrite (BaseFacts.Peek_hit c k e Hwf He), (BaseFacts.Get_hit c k e Hwf He).
    cbn [result state trace fst snd].
    assert (Hin : k ∈ BaseFacts.keys_of c).
    { destruct (ListFacts.Value_Some _ _ _ He) as [Hk Hin]. rewrite <- Hk.
      unfold BaseFacts.keys_of, ListFacts.keys. by apply list_elem_of_fmap_2. }
    rewrite (bool_decide_eq_true_2 _ Hin). by repeat split.
  - apply ListFacts.Value_None in He.
    rewrite (BaseFacts.Peek_miss c k Hwf He), (BaseFacts.Get_miss c k Hwf He).
    cbn [result state trace fst snd].
    rewrite (bool_decide_eq_false_2 _ He). by repeat split.
Qed.

(** X5.  [Add(k, v)] in a reached state on a key that is cached: it returns
    false, invokes no callback, keeps [Len()] and the capacity, stores the
    new value, and makes [k] the newest key, the others keeping their
    order. *)
Theorem Add_existing_key :
  ∀ (K : Type) `(Countable K) `(GoZero K) (V : Type) `(GoZero V) (F : Type)
    (n : Z) (opts : list (Base.Option F)) (os : list (BaseRun.call (K:=K) (V:=V)))
    (k : K) (v : V),
    let c : Base.unsafeCache K V F := BaseRun.reached n opts os in
    let r := Base.Add k v c in
    result (Base.Contains k c) = true ->
    result r = false ∧ trace r = [] ∧
    result (Base.Len (state r)) = result (Base.Len c) ∧
    Base.maxEntries (state r) = Base.maxEntries c ∧
    result (Base.Peek k (state r)) = (v, true) ∧
    ∀ l1 l2, result (Base.Keys c) = l1 ++ k :: l2 ->
             result (Base.Keys (state r)) = l1 ++ l2 ++ [k].
Proof.
  intros K ? ? ? V ? F n opts os k v c r Hc.
  assert (Hwf : BaseFacts.wf c) by apply BaseRun.reached_wf.
  rewrite (BaseFacts.Contains_run c k Hwf) in Hc. cbn [result fst snd] in Hc.
  apply bool_decide_eq_true in Hc.
  unfold r. rewrite (BaseFacts.Add_hit c k v Hwf Hc). cbn [result state trace fst snd].
  assert (Hwt : BaseFacts.wf (BaseFacts.touched c (Base.Entry k v)))
    by by apply BaseFacts.wf_touched.
  split; [done|]. split; [done|]. split; [|split; [done|split]].
  - rewrite !BaseFacts.Len_run. cbn [result fst snd].
    pose proof (ListFacts.length_remove_key k _ Hc) as Hlen.
    assert (Hl : length (Base.entries (BaseFacts.touched c (Base.Entry k v))) =
                 length (BaseFacts.keys_of (BaseFacts.touched c (Base.Entry k v))))
      by (unfold BaseFacts.keys_of, ListFacts.keys; by rewrite length_fmap).
    rewrite Hl, BaseFacts.keys_touched. cbn [length Base.key].
    unfold BaseFacts.keys_of, ListFacts.keys in *. rewrite length_fmap in Hlen. lia.
  - rewrite (BaseFacts.Peek_hit _ k (Base.Entry k v) Hwt); [done|].
    apply (ListFacts.Value_head (Base.Entry k v)).
  - intros l1 l2 Hk. rewrite BaseFacts.Keys_run in *. cbn [result fst snd] in *.
    rewrite BaseFacts.keys_touched. cbn [Base.key]. rewrite reverse_cons.
    destruct Hwf as [Hnd _].
    rewrite <- LruOrder.remove_key_reverse, Hk by done.
    rewrite BaseRun.remove_key_middle; [by rewrite app_assoc|].
    assert (Hnd' : NoDup (l1 ++ k :: l2)) by (rewrite <- Hk; by rewrite reverse_Permutation).
    apply NoDup_app in Hnd' as (_ & Hd & _). intros Hin. apply (Hd _ Hin). left.
Qed.

(** X5 on the sample engine: the key 1 gets a new value and becomes the
    newest. *)
Lemma Add_existing_key_witness :
  result (Base.Add 1 11 sample) = false ∧
  result (Base.Keys (state (Base.Add 1 11 sample))) = [2; 3; 1].
Proof.
  assert (Hc : result (Base.Contains 1 (BaseRun.reached (V:=Z) (F:=unit) 3
    [Base.WithOnEvicted tt]
    [BaseRun.CAdd 1 10; BaseRun.CAdd 2 20; BaseRun.CAdd 3 30])) = true)
    by (vm_compute; reflexivity).
  destruct (Add_existing_key Z _ _ Z _ unit 3 [Base.WithOnEvicted tt]
    [BaseRun.CAdd 1 10; BaseRun.CAdd 2 20; BaseRun.CAdd 3 30] 1 11 Hc)
    as (Hres & _ & _ & _ & _ & Hk).
  split; [exact Hres | exact (Hk [] [2; 3] eq_refl)].
Defined.

(** X6.  [Add(k, v)] in a reached state on a key that is not cached.  When
    one more entry fits the capacity, it returns false, invokes nothing and
    appends [k] to [Keys()].  When it does not and the engine is not empty,
    it returns true, evicts the oldest entry (the first key [k0] of
    [Keys()], invoking the callback, if any, with that entry) and appends
    [k] to the remaining keys.  In both cases the new value is stored when
    the capacity is positive. *)
Theorem Add_new_key :
  ∀ (K : Type) `(Countable K) `(GoZero K) (V : Type) `(GoZero V) (F : Type)
    (n : Z) (opts : list (Base.Option F)) (os : list (BaseRun.call (K:=K) (V:=V)))
    (k : K) (v : V),
    let c : Base.unsafeCache K V F := BaseRun.reached n opts os in
    let r := Base.Add k v c in
    result (Base.Contains k c) = false ->
    (result (Base.Len c) + 1 <= Base.maxEntries c ->
       result r = false ∧ trace r = [] ∧
       result (Base.Keys (state r)) = result (Base.Keys c) ++ [k]) ∧
    (result (Base.Len c) + 1 > Base.maxEntries c ->
       ∀ k0 ks, result (Base.Keys c) = k0 :: ks ->
         result r = true ∧
         (∃ v0, result (Base.Peek k0 c) = (v0, true) ∧
                trace r = BaseFacts.callback c k0 v0) ∧
         result (Base.Keys (state r)) = ks ++ [k]) ∧
    (1 <= Base.maxEntries c -> result (Base.Peek k (state r)) = (v, true)).
Proof.
  intros K ? ? ? V ? F n opts os k v c r Hc.
  assert (Hwf : BaseFacts.wf c) by apply BaseRun.reached_wf.
  apply BaseRun.Contains_false in Hc; [|done].
  rewrite BaseFacts.Len_run. cbn [result fst snd].
  split; [|split].
  - intros Hfit. unfold r. rewrite (BaseFacts.Add_fit c k v Hwf Hc Hfit).
    cbn [result state trace fst snd]. split; [done|]. split; [done|].
    rewrite !BaseFacts.Keys_run. cbn [result fst snd].
    unfold BaseFacts.keys_of, BaseFacts.pushed. simpl. by rewrite reverse_cons.
  - intros Hfull k0 ks Hk.
    destruct (BaseRun.Keys_head_last c k0 ks Hk) as (l & e & Hl & Hke & Hks).
    destruct (BaseFacts.Add_evict_snoc c k v l e Hwf Hc Hl Hfull) as [Hrun Hent].
    unfold r. rewrite Hrun. cbn [result state trace fst snd].
    split; [done|]. split.
    + exists (Base.value e). rewrite <- Hke. split; [|done].
      rewrite (BaseFacts.Peek_hit c (Base.key e) e Hwf); [done|].
      rewrite Hl. apply ListFacts.Value_snoc.
      destruct Hwf as [Hnd _]. unfold BaseFacts.keys_of in Hnd. rewrite Hl in Hnd.
      by apply ListFacts.NoDup_keys_snoc in Hnd as [Hn _].
    + rewrite BaseFacts.Keys_run. cbn [result fst snd]. unfold BaseFacts.keys_of.
      rewrite Hent. unfold ListFacts.keys. rewrite fmap_cons, reverse_cons. cbn [Base.key].
      by f_equal.
  - intros Hcap. destruct (Add_front c k v Hwf Hcap) as [l Hl]. fold r in Hl.
    rewrite (BaseFacts.Peek_hit _ k (Base.Entry k v)); [done|by apply BaseFacts.Add_wf|].
    rewrite Hl. apply (ListFacts.Value_head (Base.Entry k v)).
Qed.

(** X6 on the sample engine, which is full: the key 4 evicts the key 1. *)
Lemma Add_new_key_witness :
  result (Base.Add 4 40 sample) = true ∧
  result (Base.Keys (state (Base.Add 4 40 sample))) = [2; 3; 4].
Proof.
  assert (Hc : result (Base.Contains 4 (BaseRun.reached (V:=Z) (F:=unit) 3
    [Base.WithOnEvicted tt]
    [BaseRun.CAdd 1 10; BaseRun.CAdd 2 20; BaseRun.CAdd 3 30])) = false)
    by (vm_compute; reflexivity).
  destruct (Add_new_key Z _ _ Z _ unit 3 [Base.WithOnEvicted tt]
    [BaseRun.CAdd 1 10; BaseRun.CAdd 2 20; BaseRun.CAdd 3 30] 4 40 Hc)
    as (_ & Hfull & _).
  assert (Hgt : result (Base.Len sample) + 1 > Base.maxEntries sample)
    by (vm_compute; reflexivity).
  destruct (Hfull Hgt 1 [2; 3] eq_refl) as (Hres & _ & Hk).
  split; [exact Hres | exact Hk].
Defined.

(** ** The options and the callback invocations *)
Module Callbacks.
Section Callbacks.

Context {K : Type} `{Countable K} `{GoZero K} {V : Type} `{GoZero V} {F : Type}.

Import ListFacts BaseFacts BaseKeeps BaseKeys.

Implicit Types (c : Base.unsafeCache K V F) (k : K) (v : V).

(** What a list of options configures: the callback of the last option that
    is not nil, and whether it runs on a goroutine of its own. *)
Definition configured (opts : list (Base.Option F)) : option (F * bool) :=
  foldl (fun acc o =>
           match o with
           | Base.WithOnEvicted f => Some (f, false)
           | Base.WithOnEvictedAsync f => Some (f, true)
           | Base.NilOption => acc
           end) None opts.

(** The engine [c] is configured as [cfg] says. *)
Definition has_config (cfg : option (F * bool)) c : Prop :=
  match cfg with
  | None => Base.onEvicted c = None
  | Some (f, a) => Base.onEvicted c = Some f ∧ Base.async c = a
  end.

(** Every invocation of a trace is the one [cfg] prescribes. *)
Definition obeys (cfg : option (F * bool)) (tr : list (Base.ev K V F)) : Prop :=
  match cfg with
  | None => tr = []
  | Some (f, a) => ∀ e, e ∈ tr -> ∃ k v, e = if a then Spawned f k v else Ran f k v
  end.

Lemma New_has_config n opts :
  has_config (configured opts) (Base.NewUnsafeLru (K:=K) (V:=V) n opts).
Proof.
  unfold Base.NewUnsafeLru, configured.
  set (c0 := Base.UnsafeCache _ _ _ _ _).
  assert (H0' : has_config None c0) by done.
  clearbody c0. revert H0'. generalize (@None (F * bool)) as acc. revert c0.
  induction opts as [|o opts IH]; intros c0 acc Hacc; [done|].
  cbn [foldl]. apply IH. destruct o; cbn [Base.apply_Option]; done.
Qed.

Lemma obeys_nil cfg : obeys cfg [].
Proof.
  destruct cfg as [[f a]|]; [|done]. intros e He. by apply elem_of_nil in He.
Qed.

Lemma obeys_app cfg tr1 tr2 : obeys cfg tr1 -> obeys cfg tr2 -> obeys cfg (tr1 ++ tr2).
Proof.
  destruct cfg as [[f a]|]; cbn [obeys].
  - intros H1' H2' e [He|He]%elem_of_app; auto.
  - by intros -> ->.
Qed.

Lemma obeys_callback cfg c k v : has_config cfg c -> obeys cfg (callback c k v).
Proof.
  unfold callback. destruct cfg as [[f a]|]; cbn [has_config obeys].
  - intros [-> ->] e He. apply list_elem_of_singleton in He. eauto.
  - by intros ->.
Qed.

Lemma obeys_evictions cfg c es : has_config cfg c -> obeys cfg (evictions c es).
Proof.
  intros Hc. unfold evictions. induction es as [|e es IH]; [apply obeys_nil|].
  rewrite bind_cons. apply obeys_app; [by apply obeys_callback | done].
Qed.

Lemma obeys_Permutation cfg tr1 tr2 : tr1 ≡ₚ tr2 -> obeys cfg tr2 -> obeys cfg tr1.
Proof.
  intros Hp. destruct cfg as [[f a]|]; cbn [obeys].
  - intros Hall e He. apply Hall. by rewrite <- Hp.
  - intros ->. by apply Permutation_nil_r.
Qed.

Lemma has_config_same cfg c c' :
  Base.onEvicted c' = Base.onEvicted c -> Base.async c' = Base.async c ->
  has_config cfg c -> has_config cfg c'.
Proof. destruct cfg as [[f a]|]; cbn [has_config]; intros Ho Ha; rewrite Ho, ?Ha; done. Qed.

Lemma exec_obeys cfg o c :
  wf c -> has_config cfg c ->
  has_config cfg (BaseRun.exec o c).1 ∧ obeys cfg (BaseRun.exec o c).2.
Proof.
  intros Hwf Hcfg. destruct o; cbn [BaseRun.exec fst snd].
  - destruct (decide (k ∈ keys_of c)) as [Hin|Hn].
    { rewrite (Add_hit c k v Hwf Hin). split; [done | apply obeys_nil]. }
    destruct (decide (Z.of_nat (length (Base.entries c)) + 1 > Base.maxEntries c)) as [Hgt|Hle].
    + destruct (decide (Base.entries c = [])) as [He|He].
      * destruct (Add_evict_nil c k v Hwf He) as [-> _];
          [rewrite He in Hgt; simpl in Hgt; lia|].
        split; [done | by apply obeys_callback].
      * destruct (entries_nonempty_snoc _ He) as (l & e & Hl).
        destruct (Add_evict_snoc c k v l e Hwf Hn Hl Hgt) as [-> _].
        split; [done | by apply obeys_callback].
    + rewrite Add_fit by (done || lia). split; [done | apply obeys_nil].
  - destruct (Base.list_Value k (Base.entries c)) as [e|] eqn:He.
    + rewrite (Get_hit c k e Hwf He). split; [done | apply obeys_nil].
    + apply Value_None in He. rewrite (Get_miss c k Hwf He).
      split; [done | apply obeys_nil].
  - rewrite (BaseFacts.Contains_run c k Hwf). split; [done | apply obeys_nil].
  - destruct (Base.list_Value k (Base.entries c)) as [e|] eqn:He.
    + rewrite (Peek_hit c k e Hwf He). split; [done | apply obeys_nil].
    + apply Value_None in He. rewrite (Peek_miss c k Hwf He).
      split; [done | apply obeys_nil].
  - destruct (Base.list_Value k (Base.entries c)) as [e|] eqn:He.
    + rewrite (Remove_hit c k e Hwf He). split; [done | by apply obeys_callback].
    + apply Value_None in He. rewrite (Remove_miss c k Hwf He).
      split; [done | apply obeys_nil].
  - destruct (decide (Base.entries c = [])) as [He|He].
    + rewrite (RemoveOldest_nil c He). split; [done | apply obeys_nil].
    + destruct (entries_nonempty_snoc _ He) as (l & e & Hl).
      rewrite (RemoveOldest_snoc c l e Hwf Hl). split; [done | by apply obeys_callback].
  - rewrite (BaseRun.GetOldest_run c Hwf). split; [done | apply obeys_nil].
  - split; [done | apply obeys_nil].
  - split; [done | apply obeys_nil].
  - rewrite Resize_run. cbn [state trace fst snd].
    match goal with |- context [repeat_m ?m _ _] =>
      destruct (repeat_removeOldest c m Hwf) as (_ & (_ & Ho & Ha) & _ & Htr) end.
    split; [by apply (has_config_same cfg c)|].
    rewrite Htr. by apply obeys_evictions.
  - destruct (BaseFacts.Clear_run c Hwf) as [Hrun Hperm].
    split; [rewrite Hrun; done|].
    eapply obeys_Permutation; [exact Hperm|]. by apply obeys_evictions.
Qed.

Lemma run_obeys cfg os c :
  wf c -> has_config cfg c -> obeys cfg (BaseRun.run os c).2.
Proof.
  revert c. induction os as [|o os IH]; intros c Hwf Hcfg; [apply obeys_nil|].
  cbn [BaseRun.run].
  pose proof (BaseRun.exec_wf o c Hwf) as Hw.
  destruct (exec_obeys cfg o c Hwf Hcfg) as [Hc Ho].
  destruct (BaseRun.exec o c) as [c1 t1]. cbn [fst snd] in *.
  specialize (IH c1 Hw Hc).
  destruct (BaseRun.run os c1) as [c2 t2]. cbn [fst snd] in *.
  by apply obeys_app.
Qed.

End Callbacks.
End Callbacks.

(** X7.  The options decide every invocation.  With [configured opts] the
    callback of the last option that is not nil and its mode: when there is
    none, no sequence of calls on an engine built by [NewUnsafeLru]
    invokes anything; when it is [WithOnEvicted f], every invocation runs
    [f] inline; when it is [WithOnEvictedAsync f], every invocation starts
    [f] on a goroutine. *)
Theorem options_decide_invocations :
  ∀ (K : Type) `(Countable K) `(GoZero K) (V : Type) `(GoZero V) (F : Type)
    (n : Z) (opts : list (Base.Option F)) (os : list (BaseRun.call (K:=K) (V:=V))),
    let tr := (BaseRun.run os (Base.NewUnsafeLru (F:=F) n opts)).2 in
    match Callbacks.configured opts with
    | None => tr = []
    | Some (f, a) => ∀ e, e ∈ tr -> ∃ k v, e = if a then Spawned f k v else Ran f k v
    end.
Proof.
  intros K ? ? ? V ? F n opts os tr.
  apply (Callbacks.run_obeys (Callbacks.configured opts)).
  - apply BaseFacts.wf_New.
  - apply Callbacks.New_has_config.
Qed.

(** ** The capacity along a run *)
Module Capacity.
Section Capacity.

Context {K : Type} `{Countable K} `{GoZero K} {V : Type} `{GoZero V} {F : Type}.

Import ListFacts BaseFacts BaseKeeps BaseKeys.

Implicit Types (c : Base.unsafeCache K V F) (k : K) (v : V).

(** The number of entries, as a natural number. *)
Definition count c : nat := length (Base.entries c).

Lemma count_keys c : count c = length (keys_of c).
Proof. unfold count, keys_of, keys. by rewrite length_fmap. Qed.

Lemma count_touched c e :
  wf c -> Base.key e ∈ keys_of c -> count (touched c e) = count c.
Proof.
  intros Hwf Hin. rewrite !count_keys, keys_touched. cbn [length].
  by rewrite (length_remove_key _ _ Hin).
Qed.

Lemma count_without c e :
  Base.key e ∈ keys_of c -> S (count (without c e)) = count c.
Proof.
  intros Hin. rewrite !count_keys, keys_without. by apply length_remove_key.
Qed.

Lemma count_without_le c e : (count (without c e) <= count c)%nat.
Proof.
  rewrite !count_keys, keys_without.
  apply sublist_length, remove_key_sublist.
Qed.

(** A method never adds more than one entry, and only [Add] adds one. *)
Lemma count_Add c k v : wf c -> (count (state (Base.Add k v c)) <= S (count c))%nat.
Proof.
  intros Hwf. destruct (decide (k ∈ keys_of c)) as [Hin|Hn].
  - rewrite (Add_hit c k v Hwf Hin). cbn [state fst snd].
    rewrite count_touched by done. lia.
  - rewrite (Add_miss c k v Hwf Hn). destruct (decide _) as [Hgt|Hle]; cbn [state fst snd].
    + pose proof (wf_pushed c k v Hwf Hn) as Hwp.
      assert (Hpe : Base.entries (pushed c k v) ≠ []) by done.
      destruct (entries_nonempty_snoc _ Hpe) as (l & e & Hl).
      rewrite (removeOldest_snoc _ l e Hwp Hl). cbn [state fst snd].
      pose proof (count_without_le (pushed c k v) e). unfold count in *.
      simpl in *. lia.
    + unfold count, pushed. simpl. lia.
Qed.

Lemma count_Add_bounded c k v :
  wf c -> 0 <= Base.maxEntries c -> Z.of_nat (count c) <= Base.maxEntries c ->
  Z.of_nat (count (state (Base.Add k v c))) <= Base.maxEntries c.
Proof.
  intros Hwf Hcap Hle. destruct (decide (k ∈ keys_of c)) as [Hin|Hn].
  - rewrite (Add_hit c k v Hwf Hin). cbn [state fst snd].
    by rewrite count_touched.
  - destruct (decide (Z.of_nat (length (Base.entries c)) + 1 > Base.maxEntries c)) as [Hgt|Hfit].
    + destruct (decide (Base.entries c = [])) as [He|He].
      * destruct (Add_evict_nil c k v Hwf He) as [-> Hent];
          [rewrite He in Hgt; simpl in Hgt; lia|].
        cbn [state fst snd]. unfold count. rewrite Hent. simpl. lia.
      * destruct (entries_nonempty_snoc _ He) as (l & e & Hl).
        destruct (Add_evict_snoc c k v l e Hwf Hn Hl Hgt) as [-> Hent].
        cbn [state fst snd]. unfold count in *. rewrite Hent.
        rewrite Hl, length_app in Hle. simpl in *. lia.
    + rewrite Add_fit by (done || lia). cbn [state fst snd].
      unfold count, pushed in *. simpl. lia.
Qed.

Lemma count_Get c k : wf c -> count (state (Base.Get k c)) = count c.
Proof.
  intros Hwf. destruct (Base.list_Value k (Base.entries c)) as [e|] eqn:He.
  - rewrite (Get_hit c k e Hwf He). cbn [state fst snd]. apply count_touched; [done|].
    destruct (Value_Some _ _ _ He) as [Hk Hin]. unfold keys_of, keys.
    by apply list_elem_of_fmap_2.
  - apply Value_None in He. by rewrite (Get_miss c k Hwf He).
Qed.

Lemma count_Remove c k : wf c -> (count (state (Base.Remove k c)) <= count c)%nat.
Proof.
  intros Hwf. destruct (Base.list_Value k (Base.entries c)) as [e|] eqn:He.
  - rewrite (Remove_hit c k e Hwf He). cbn [state fst snd]. apply count_without_le.
  - apply Value_None in He. by rewrite (Remove_miss c k Hwf He).
Qed.

Lemma count_RemoveOldest c :
  wf c -> (count (state (Base.RemoveOldest c)) <= count c)%nat.
Proof.
  intros Hwf. destruct (decide (Base.entries c = [])) as [He|He].
  - by rewrite (RemoveOldest_nil c He).
  - destruct (entries_nonempty_snoc _ He) as (l & e & Hl).
    rewrite (RemoveOldest_snoc c l e Hwf Hl). cbn [state fst snd].
    apply count_without_le.
Qed.

Lemma count_RemoveOldest_ok c :
  wf c -> (result (Base.RemoveOldest c)).2 = true ->
  S (count (state (Base.RemoveOldest c))) = count c.
Proof.
  intros Hwf. destruct (decide (Base.entries c = [])) as [He|He].
  - by rewrite (RemoveOldest_nil c He).
  - destruct (entries_nonempty_snoc _ He) as (l & e & Hl).
    rewrite (RemoveOldest_snoc c l e Hwf Hl). cbn [result state fst snd]. intros _.
    unfold count. rewrite (without_snoc c l e Hwf Hl), Hl, length_app. simpl. lia.
Qed.

Lemma RemoveOldest_ok c :
  wf c -> (result (Base.RemoveOldest c)).2 = true <-> Base.entries c ≠ [].
Proof.
  intros Hwf. destruct (decide (Base.entries c = [])) as [He|He].
  - rewrite (RemoveOldest_nil c He). cbn [result fst snd]. split; done.
  - destruct (entries_nonempty_snoc _ He) as (l & e & Hl).
    rewrite (RemoveOldest_snoc c l e Hwf Hl). cbn [result fst snd]. split; done.
Qed.

Lemma count_Clear c : wf c -> count (state (Base.Clear c)) = 0%nat.
Proof. intros Hwf. destruct (BaseFacts.Clear_run c Hwf) as [-> _]. done. Qed.

(** The calls of a run that resize do so to a capacity from 0 to the
    greatest [int]. *)
Definition resizes_nonneg (o : BaseRun.call (K:=K) (V:=V)) : Prop :=
  match o with
  | BaseRun.CResize size => 0 <= size <= Int.max_int
  | _ => True
  end.

Definition bounded c : Prop :=
  wf c ∧ 0 <= Base.maxEntries c <= Int.max_int ∧ Z.of_nat (count c) <= Base.maxEntries c.

Lemma exec_bounded o c : resizes_nonneg o -> bounded c -> bounded (BaseRun.exec o c).1.
Proof.
  intros Ho (Hwf & Hcap & Hle).
  split; [by apply BaseRun.exec_wf|].
  destruct o; cbn [BaseRun.exec fst].
  - destruct (Add_wf c k v Hwf) as [_ (-> & _)]. split; [done|].
    apply count_Add_bounded; [done|lia|done].
  - destruct (Get_wf c k Hwf) as [_ (-> & _)]. by rewrite count_Get.
  - by rewrite (BaseFacts.Contains_run c k Hwf).
  - destruct (Base.list_Value k (Base.entries c)) as [e|] eqn:He.
    + by rewrite (Peek_hit c k e Hwf He).
    + apply Value_None in He. by rewrite (Peek_miss c k Hwf He).
  - destruct (Remove_wf c k Hwf) as [_ (-> & _)]. split; [done|].
    pose proof (count_Remove c k Hwf). lia.
  - destruct (RemoveOldest_wf c Hwf) as [_ (-> & _)]. split; [done|].
    pose proof (count_RemoveOldest c Hwf). lia.
  - by rewrite (BaseRun.GetOldest_run c Hwf).
  - done.
  - done.
  - cbn [resizes_nonneg] in Ho.
    assert (Hrange : Int.in_range (Z.of_nat (length (Base.entries c)) - size)).
    { unfold Int.in_range, Int.min_int, Int.max_int, count in *. lia. }
    destruct (Resize_spec c size Hwf Hrange) as (_ & _ & Hm & _ & _ & Hen & _).
    rewrite Hm. split; [done|]. unfold count. rewrite Hen, length_take. lia.
  - destruct (Clear_wf c Hwf) as [_ (-> & _)]. split; [done|].
    rewrite count_Clear by done. simpl. lia.
Qed.

Lemma run_bounded os c : Forall resizes_nonneg os -> bounded c -> bounded (BaseRun.run os c).1.
Proof.
  revert c. induction os as [|o os IH]; intros c Hos Hb; [done|].
  apply Forall_cons in Hos as [Ho Hos]. cbn [BaseRun.run].
  pose proof (exec_bounded o c Ho Hb) as Hb1.
  destruct (BaseRun.exec o c) as [c1 t1]. cbn [fst] in Hb1.
  specialize (IH c1 Hos Hb1). by destruct (BaseRun.run os c1) as [c2 t2].
Qed.

End Capacity.
End Capacity.

(** X8.  An engine built by [NewUnsafeLru] never holds more entries than
    its capacity, whatever methods are called, as long as every [Resize]
    is to a capacity that is not negative: in every reached state
    [0 <= Len() <= maxEntries]. *)
Theorem Len_within_capacity :
  ∀ (K : Type) `(Countable K) `(GoZero K) (V : Type) `(GoZero V) (F : Type)
    (n : Z) (opts : list (Base.Option F)) (os : list (BaseRun.call (K:=K) (V:=V))),
    n <= Int.max_int ->
    Forall Capacity.resizes_nonneg os ->
    let c : Base.unsafeCache K V F := BaseRun.reached n opts os in
    0 <= result (Base.Len c) <= Base.maxEntries c.
Proof.
  intros K ? ? ? V ? F n opts os Hn Hos c.
  assert (Hb : Capacity.bounded (Base.NewUnsafeLru (K:=K) (V:=V) (F:=F) n opts)).
  { split; [apply BaseFacts.wf_New|]. unfold Capacity.count.
    rewrite BaseFacts.New_maxEntries, BaseFacts.New_entries.
    unfold Base.defaultSize, Int.max_int in *. simpl. case_decide; lia. }
  destruct (Capacity.run_bounded os _ Hos Hb) as (_ & _ & Hle).
  rewrite BaseFacts.Len_run. cbn [result fst snd].
  change (Z.of_nat (length (Base.entries c)) <= Base.maxEntries c) in Hle. lia.
Qed.

(** X8 on a run that resizes an engine of capacity 3 to 1. *)
Lemma Len_within_capacity_witness :
  0 <= result (Base.Len (BaseRun.reached (K:=Z) (V:=Z) (F:=unit) 3 []
         [BaseRun.CAdd 1 10; BaseRun.CAdd 2 20; BaseRun.CResize 1; BaseRun.CAdd 3 30])) <= 1.
Proof.
  assert (Hn : 3 <= Int.max_int) by (vm_compute; discriminate).
  assert (Hos : Forall (Capacity.resizes_nonneg (K:=Z) (V:=Z))
    [BaseRun.CAdd 1 10; BaseRun.CAdd 2 20; BaseRun.CResize 1; BaseRun.CAdd 3 30])
    by (repeat constructor; vm_compute; discriminate).
  exact (Len_within_capacity Z _ _ Z _ unit 3 [] _ Hn Hos).
Defined.

(** ** The sets of keys of the engines *)
Module KeySets.
Section KeySets.

Context {K : Type} `{Countable K} `{GoZero K} {V : Type} `{GoZero V} {F : Type}.

Import ListFacts BaseFacts BaseKeeps BaseKeys.

Implicit Types (c : Base.unsafeCache K V F) (k : K) (v : V).

(** The set of the keys an engine holds. *)
Definition ks c : gset K := list_to_set (keys_of c).

Lemma elem_of_ks c k : k ∈ ks c <-> k ∈ keys_of c.
Proof. unfold ks. by rewrite elem_of_list_to_set. Qed.

Lemma ks_Add c k v : wf c -> ks (state (Base.Add k v c)) ⊆ {[k]} ∪ ks c.
Proof.
  intros Hwf x. rewrite elem_of_union, elem_of_singleton, !elem_of_ks.
  by apply Add_keys.
Qed.

Lemma ks_Add_in c k v :
  wf c -> 1 <= Base.maxEntries c -> k ∈ ks (state (Base.Add k v c)).
Proof. intros Hwf Hcap. apply elem_of_ks. by apply Add_resident. Qed.

Lemma ks_Remove c k : wf c -> ks (state (Base.Remove k c)) = ks c ∖ {[k]}.
Proof.
  intros Hwf. apply set_eq. intros x.
  rewrite elem_of_difference, elem_of_singleton, !elem_of_ks.
  by apply Remove_keys.
Qed.

Lemma ks_Get c k : wf c -> ks (state (Base.Get k c)) = ks c.
Proof.
  intros Hwf. apply set_eq. intros x. rewrite !elem_of_ks. by apply Get_keys.
Qed.

Lemma ks_Clear c : wf c -> ks (state (Base.Clear c)) = ∅.
Proof. intros Hwf. unfold ks. by rewrite Clear_keys. Qed.

Lemma ks_RemoveOldest c :
  wf c ->
  let r := Base.RemoveOldest c in
  ks (state r) ⊆ ks c ∧
  ((result r).2 = true -> (result r).1.1 ∈ ks c ∧ (result r).1.1 ∉ ks (state r)).
Proof.
  intros Hwf r. split.
  - intros x. rewrite !elem_of_ks. intros Hx.
    by apply (RemoveOldest_keys c x Hwf).
  - intros Hok. split.
    + apply elem_of_ks. by apply RemoveOldest_result.
    + rewrite elem_of_ks. intros Hin.
      destruct (RemoveOldest_keys c _ Hwf Hin) as [_ Hne]. by apply Hne.
Qed.

Lemma ks_New n opts : ks (Base.NewUnsafeLru (K:=K) (V:=V) (F:=F) n opts) = ∅.
Proof. unfold ks, keys_of. by rewrite New_entries. Qed.

Lemma ks_empty c : ks c = ∅ <-> Base.entries c = [].
Proof.
  unfold ks, keys_of, keys. split.
  - intros He. destruct (Base.entries c) as [|e l]; [done|].
    exfalso. assert (Hin : Base.key e ∈ (∅ : gset K)); [|set_solver].
    rewrite <- He. apply elem_of_list_to_set. left.
  - by intros ->.
Qed.

End KeySets.

(** Solving goals about the key sets: the hypotheses on the lists and the
    indexes are put aside first. *)
Ltac keys_solver :=
  repeat match goal with H : context [ks _] |- _ => revert H end;
  repeat match goal with |- context [ks ?e] => generalize (ks e); intro end;
  repeat match goal with H : ?T |- _ => lazymatch type of T with Prop => clear H end end;
  intros; subst; set_solver.

End KeySets.

(** ** Engines of a given capacity *)
Module BaseCaps.
Section BaseCaps.

Context {K : Type} `{Countable K} `{GoZero K} {V : Type} `{GoZero V} {F : Type}.

Import ListFacts BaseFacts BaseKeeps Capacity.

Implicit Types (k : K) (v : V).

(** A well-formed engine of capacity [m]. *)
Definition wfm (m : Z) (e : Base.unsafeCache K V F) : Prop :=
  wf e ∧ Base.maxEntries e = m.

Lemma wfm_Add m k v : preserves (E:=Base.ev K V F) (wfm m) (Base.Add k v).
Proof. intros e [Hwf <-]. destruct (Add_wf e k v Hwf) as [? (? & _)]. by split. Qed.

Lemma wfm_Get m k : preserves (E:=Base.ev K V F) (wfm m) (Base.Get k).
Proof. intros e [Hwf <-]. destruct (Get_wf e k Hwf) as [? (? & _)]. by split. Qed.

Lemma wfm_Remove m k : preserves (E:=Base.ev K V F) (wfm m) (Base.Remove k).
Proof. intros e [Hwf <-]. destruct (Remove_wf e k Hwf) as [? (? & _)]. by split. Qed.

Lemma wfm_RemoveOldest m : preserves (E:=Base.ev K V F) (wfm m) Base.RemoveOldest.
Proof. intros e [Hwf <-]. destruct (RemoveOldest_wf e Hwf) as [? (? & _)]. by split. Qed.

Lemma wfm_Clear m : preserves (E:=Base.ev K V F) (wfm m) Base.Clear.
Proof. intros e [Hwf <-]. destruct (Clear_wf e Hwf) as [? (? & _)]. by split. Qed.

Lemma wfm_Contains m k : preserves (E:=Base.ev K V F) (wfm m) (Base.Contains k).
Proof. intros e [Hwf <-]. by rewrite (BaseFacts.Contains_run e k Hwf). Qed.

Lemma wfm_Len m : preserves (E:=Base.ev K V F) (wfm m) Base.Len.
Proof. by intros e He. Qed.

Lemma wfm_Peek m k : preserves (E:=Base.ev K V F) (wfm m) (Base.Peek k).
Proof.
  intros e [Hwf <-]. destruct (Base.list_Value k (Base.entries e)) as [x|] eqn:Hx.
  - by rewrite (Peek_hit e k x Hwf Hx).
  - apply Value_None in Hx. by rewrite (Peek_miss e k Hwf Hx).
Qed.

(** A well-formed engine of capacity [m] that holds at most [m] entries. *)
Definition sizedm (m : Z) (e : Base.unsafeCache K V F) : Prop :=
  wfm m e ∧ 0 <= m ∧ Z.of_nat (count e) <= m.

Lemma sizedm_Add m k v : preserves (E:=Base.ev K V F) (sizedm m) (Base.Add k v).
Proof.
  intros e (Hw & Hm & Hle). split; [by apply wfm_Add|]. split; [done|].
  destruct Hw as [Hwf <-]. by apply count_Add_bounded.
Qed.

Lemma sizedm_Get m k : preserves (E:=Base.ev K V F) (sizedm m) (Base.Get k).
Proof.
  intros e (Hw & Hm & Hle). split; [by apply wfm_Get|]. split; [done|].
  destruct Hw as [Hwf _]. by rewrite count_Get.
Qed.

Lemma sizedm_Remove m k : preserves (E:=Base.ev K V F) (sizedm m) (Base.Remove k).
Proof.
  intros e (Hw & Hm & Hle). split; [by apply wfm_Remove|]. split; [done|].
  destruct Hw as [Hwf _]. pose proof (count_Remove e k Hwf). lia.
Qed.

Lemma sizedm_RemoveOldest m :
  preserves (E:=Base.ev K V F) (sizedm m) Base.RemoveOldest.
Proof.
  intros e (Hw & Hm & Hle). split; [by apply wfm_RemoveOldest|]. split; [done|].
  destruct Hw as [Hwf _]. pose proof (count_RemoveOldest e Hwf). lia.
Qed.

Lemma sizedm_Clear m : preserves (E:=Base.ev K V F) (sizedm m) Base.Clear.
Proof.
  intros e (Hw & Hm & Hle). split; [by apply wfm_Clear|]. split; [done|].
  destruct Hw as [Hwf _]. rewrite count_Clear by done. simpl. lia.
Qed.

Lemma sizedm_Contains m k : preserves (E:=Base.ev K V F) (sizedm m) (Base.Contains k).
Proof. intros e Hs. pose proof Hs as ([Hwf _] & _). by rewrite (BaseFacts.Contains_run e k Hwf). Qed.

Lemma sizedm_Len m : preserves (E:=Base.ev K V F) (sizedm m) Base.Len.
Proof. by intros e He. Qed.

Lemma sizedm_Peek m k : preserves (E:=Base.ev K V F) (sizedm m) (Base.Peek k).
Proof.
  intros e Hs. pose proof Hs as ([Hwf _] & _).
  destruct (Base.list_Value k (Base.entries e)) as [x|] eqn:Hx.
  - by rewrite (Peek_hit e k x Hwf Hx).
  - apply Value_None in Hx. by rewrite (Peek_miss e k Hwf Hx).
Qed.

(** A property of an engine that the methods used by the composite caches
    keep. *)
Definition base_keeps (Q : Base.unsafeCache K V F -> Prop) : Prop :=
  (∀ k v, preserves (E:=Base.ev K V F) Q (Base.Add k v)) ∧
  (∀ k, preserves (E:=Base.ev K V F) Q (Base.Get k)) ∧
  (∀ k, preserves (E:=Base.ev K V F) Q (Base.Remove k)) ∧
  preserves (E:=Base.ev K V F) Q Base.RemoveOldest ∧
  preserves (E:=Base.ev K V F) Q Base.Clear ∧
  (∀ k, preserves (E:=Base.ev K V F) Q (Base.Contains k)) ∧
  preserves (E:=Base.ev K V F) Q Base.Len ∧
  (∀ k, preserves (E:=Base.ev K V F) Q (Base.Peek k)).

Lemma keeps_wf : base_keeps wf.
Proof.
  unfold base_keeps. split_and!; intros; first
    [apply preserves_Add|apply preserves_Get|apply preserves_Remove
    |apply preserves_RemoveOldest|apply preserves_Clear|apply preserves_Contains
    |apply preserves_Len|apply preserves_Peek].
Qed.

Lemma keeps_wfm m : base_keeps (wfm m).
Proof.
  unfold base_keeps. split_and!; intros; first
    [apply wfm_Add|apply wfm_Get|apply wfm_Remove|apply wfm_RemoveOldest
    |apply wfm_Clear|apply wfm_Contains|apply wfm_Len|apply wfm_Peek].
Qed.

Lemma keeps_sizedm m : base_keeps (sizedm m).
Proof.
  unfold base_keeps. split_and!; intros; first
    [apply sizedm_Add|apply sizedm_Get|apply sizedm_Remove|apply sizedm_RemoveOldest
    |apply sizedm_Clear|apply sizedm_Contains|apply sizedm_Len|apply sizedm_Peek].
Qed.

Lemma sizedm_New n opts :
  n <= Int.max_int ->
  let m := if decide (n <= 0) then Base.defaultSize else n in
  sizedm m (Base.NewUnsafeLru (K:=K) (V:=V) (F:=F) m opts) ∧ 1 <= m <= Int.max_int.
Proof.
  intros Hn m.
  assert (Hpos : 1 <= m <= Int.max_int).
  { unfold m, Base.defaultSize, Int.max_int in *. case_decide; lia. }
  split; [|done]. split; [split; [apply wf_New|]|].
  - rewrite New_maxEntries. destruct (decide (m <= 0)) as [Hle|_]; [lia|done].
  - unfold count. rewrite New_entries. simpl. lia.
Qed.

End BaseCaps.
End BaseCaps.

(** ** Runs of the two-queue cache *)
Module TwoQRun.
Section TwoQRun.

Context {K : Type} `{Countable K} `{GoZero K} {V : Type} `{GoZero V} {F : Type}.

Import ListFacts BaseFacts BaseKeeps BaseKeys KeySets BaseCaps TwoQFacts.

Implicit Types (c : TwoQ.TwoQueueCache K V F) (k : K) (v : V).

(** A call of a method that changes a two-queue cache. *)
Inductive call : Type :=
  | CAdd (k : K) (v : V)
  | CGet (k : K)
  | CRemove (k : K)
  | CClear.

Definition exec (o : call) c : TwoQ.TwoQueueCache K V F :=
  match o with
  | CAdd k v => state (TwoQ.Add k v c)
  | CGet k => state (TwoQ.Get k c)
  | CRemove k => state (TwoQ.Remove k c)
  | CClear => state (TwoQ.Clear c)
  end.

Definition run (os : list call) c : TwoQ.TwoQueueCache K V F :=
  foldl (fun c o => exec o c) c os.

(** No key is in two of the three engines. *)
Definition disjoint c : Prop :=
  ks (TwoQ.frequent c) ## ks (TwoQ.recent c) ∧
  ks (TwoQ.frequent c) ## ks (TwoQ.recentEvict c) ∧
  ks (TwoQ.recent c) ## ks (TwoQ.recentEvict c).

Definition inv c : Prop := wf_2q c ∧ disjoint c.

(** What [ensureSpace] does to the sets of keys: [recent] and [frequent]
    can only lose keys, and the ghost engine can only gain keys of
    [recent]. *)
Lemma ensureSpace_keys (b : bool) c :
  inv c ->
  let c' := state (TwoQ.ensureSpace b c) in
  inv c' ∧
  ks (TwoQ.recent c') ⊆ ks (TwoQ.recent c) ∧
  ks (TwoQ.frequent c') ⊆ ks (TwoQ.frequent c) ∧
  ks (TwoQ.recentEvict c') ⊆ ks (TwoQ.recentEvict c) ∪ ks (TwoQ.recent c).
Proof.
  intros [Hwf (Hd1 & Hd2 & Hd3)] c'.
  assert (Hwf' : wf_2q c') by by apply preserves_ensureSpace.
  pose proof Hwf as (Hr & Hf & Hg).
  unfold c' in *. clear c'. rewrite ensureSpace_run in *. cbv zeta in *.
  destruct (decide _) as [Hlt|Hge]; cbn [state fst snd] in *.
  { split; [by split|]. split; [done|]. split; [done|]. keys_solver. }
  destruct (decide (evict_recent b c)) as [Hc|Hc]; cbn [state fst snd] in *.
  - destruct (ks_RemoveOldest (TwoQ.recent c) Hr) as [Hsub Hok].
    assert (Hres : (result (Base.RemoveOldest (TwoQ.recent c))).2 = true).
    { apply Capacity.RemoveOldest_ok; [done|]. destruct Hc as [Hpos _].
      intros He. rewrite He in Hpos. simpl in Hpos. lia. }
    destruct (Hok Hres) as [Hin Hout].
    pose proof (ks_Add (TwoQ.recentEvict c)
      (result (Base.RemoveOldest (TwoQ.recent c))).1.1 zero Hg) as Hadd.
    unfold inv. split; [split; [exact Hwf'|]|]; unfold disjoint;
    cbn [TwoQ.recent TwoQ.frequent TwoQ.recentEvict TwoQ.set_recent TwoQ.set_recentEvict];
    clear Hok; keys_solver.
  - destruct (ks_RemoveOldest (TwoQ.frequent c) Hf) as [Hsub _].
    unfold inv. split; [split; [exact Hwf'|]|]; unfold disjoint;
    cbn [TwoQ.recent TwoQ.frequent TwoQ.recentEvict TwoQ.set_frequent];
    keys_solver.
Qed.

(** The state [Add] leaves, branch by branch. *)
Lemma Add_state c k v :
  wf_2q c ->
  state (TwoQ.Add k v c) =
  if decide (k ∈ keys_of (TwoQ.frequent c)) then
    TwoQ.set_frequent (state (Base.Add k v (TwoQ.frequent c))) c
  else if decide (k ∈ keys_of (TwoQ.recent c)) then
    TwoQ.set_frequent (state (Base.Add k v (TwoQ.frequent c)))
      (TwoQ.set_recent (state (Base.Remove k (TwoQ.recent c))) c)
  else if decide (k ∈ keys_of (TwoQ.recentEvict c)) then
    let c1 := state (TwoQ.ensureSpace true c) in
    let c2 := TwoQ.set_recentEvict (state (Base.Remove k (TwoQ.recentEvict c1))) c1 in
    TwoQ.set_frequent (state (Base.Add k v (TwoQ.frequent c2))) c2
  else
    let c1 := state (TwoQ.ensureSpace false c) in
    TwoQ.set_recent (state (Base.Add k v (TwoQ.recent c1))) c1.
Proof.
  intros (Hr & Hf & Hg). unfold TwoQ.Add.
  rewrite (bind_pure _ _ _ _ (on_frequent_Contains c k Hf)).
  destruct (decide (k ∈ keys_of (TwoQ.frequent c))) as [Hif|Hnf].
  { rewrite (bool_decide_eq_true_2 _ Hif). by rewrite bind_ret_tt, on_frequent_run. }
  rewrite (bool_decide_eq_false_2 _ Hnf).
  rewrite (bind_pure _ _ _ _ (on_recent_Contains c k Hr)).
  destruct (decide (k ∈ keys_of (TwoQ.recent c))) as [Hir|Hnr].
  { rewrite (bool_decide_eq_true_2 _ Hir).
    rewrite (bind_step _ _ _ _ _ _ (on_recent_run _ c)).
    by rewrite bind_ret_tt, on_frequent_run. }
  rewrite (bool_decide_eq_false_2 _ Hnr).
  rewrite (bind_pure _ _ _ _ (on_recentEvict_Contains c k Hg)).
  destruct (decide (k ∈ keys_of (TwoQ.recentEvict c))) as [Hig|Hng].
  { rewrite (bool_decide_eq_true_2 _ Hig).
    rewrite (bind_step _ _ _ _ _ _ (run_eta (TwoQ.ensureSpace true c))).
    rewrite (bind_step _ _ _ _ _ _ (on_recentEvict_run _ _)).
    by rewrite bind_ret_tt, on_frequent_run. }
  rewrite (bool_decide_eq_false_2 _ Hng).
  rewrite (bind_step _ _ _ _ _ _ (run_eta (TwoQ.ensureSpace false c))).
  by rewrite bind_ret_tt, on_recent_run.
Qed.

Lemma Add_inv c k v : inv c -> inv (state (TwoQ.Add k v c)).
Proof.
  intros Hinv. pose proof Hinv as [Hwf (Hd1 & Hd2 & Hd3)].
  pose proof Hwf as (Hr & Hf & Hg).
  split; [by apply preserves_TwoQ_Add|].
  rewrite (Add_state c k v Hwf).
  destruct (decide (k ∈ keys_of (TwoQ.frequent c))) as [Hif|Hnf];
    [|destruct (decide (k ∈ keys_of (TwoQ.recent c))) as [Hir|Hnr];
      [|destruct (decide (k ∈ keys_of (TwoQ.recentEvict c))) as [Hig|Hng]]].
  - pose proof (ks_Add (TwoQ.frequent c) k v Hf) as Ha.
    apply elem_of_ks in Hif. unfold disjoint.
    cbn [TwoQ.recent TwoQ.frequent TwoQ.recentEvict TwoQ.set_frequent]. keys_solver.
  - pose proof (ks_Add (TwoQ.frequent c) k v Hf) as Ha.
    pose proof (ks_Remove (TwoQ.recent c) k Hr) as Hrm.
    apply elem_of_ks in Hir. unfold disjoint.
    cbn [TwoQ.recent TwoQ.frequent TwoQ.recentEvict TwoQ.set_frequent TwoQ.set_recent].
    rewrite Hrm. keys_solver.
  - cbv zeta. destruct (ensureSpace_keys true c Hinv) as ([Hwf1 (He1 & He2 & He3)] & Hs1 & Hs2 & Hs3).
    set (c1 := state (TwoQ.ensureSpace true c)) in *.
    pose proof Hwf1 as (Hr1 & Hf1 & Hg1).
    pose proof (ks_Remove (TwoQ.recentEvict c1) k Hg1) as Hrm.
    pose proof (ks_Add (TwoQ.frequent c1) k v Hf1) as Ha.
    rewrite <- !elem_of_ks in Hnf, Hnr. unfold disjoint.
    cbn [TwoQ.recent TwoQ.frequent TwoQ.recentEvict TwoQ.set_frequent TwoQ.set_recentEvict].
    rewrite Hrm. keys_solver.
  - cbv zeta. destruct (ensureSpace_keys false c Hinv) as ([Hwf1 (He1 & He2 & He3)] & Hs1 & Hs2 & Hs3).
    set (c1 := state (TwoQ.ensureSpace false c)) in *.
    pose proof Hwf1 as (Hr1 & Hf1 & Hg1).
    pose proof (ks_Add (TwoQ.recent c1) k v Hr1) as Ha.
    rewrite <- !elem_of_ks in Hnf, Hnr, Hng. unfold disjoint.
    cbn [TwoQ.recent TwoQ.frequent TwoQ.recentEvict TwoQ.set_recent]. keys_solver.
Qed.

(** The state [Get] leaves, case by case. *)
Lemma Get_state c k :
  wf_2q c ->
  state (TwoQ.Get k c) =
  if decide (k ∈ keys_of (TwoQ.frequent c)) then
    TwoQ.set_frequent (state (Base.Get k (TwoQ.frequent c))) c
  else
    match Base.list_Value k (Base.entries (TwoQ.recent c)) with
    | Some e =>
        TwoQ.set_frequent (state (Base.Add k (Base.value e) (TwoQ.frequent c)))
          (TwoQ.set_recent (state (Base.Remove k (TwoQ.recent c))) c)
    | None => c
    end.
Proof.
  intros Hwf. pose proof Hwf as (Hr & Hf & Hg).
  destruct (decide (k ∈ keys_of (TwoQ.frequent c))) as [Hif|Hnf].
  - destruct (Value_elem _ _ Hif) as [e He]. unfold TwoQ.Get.
    rewrite (bind_step _ _ _ _ _ _ (on_frequent_run _ c)).
    by rewrite (Get_hit _ k e Hf He).
  - destruct (Base.list_Value k (Base.entries (TwoQ.recent c))) as [e|] eqn:He.
    + rewrite (TwoQ_Get_promotes c k e Hwf Hnf He). cbn [state fst snd].
      by rewrite (Remove_hit _ k e Hr He).
    + apply Value_None in He. unfold TwoQ.Get.
      rewrite (bind_step _ _ _ _ _ _ (on_frequent_run _ c)).
      rewrite (Get_miss _ k Hf Hnf). cbn [result state trace fst snd].
      rewrite set_frequent_id.
      rewrite (bind_step _ _ _ _ _ _ (on_recent_run _ c)).
      rewrite (Peek_miss _ k Hr He). cbn [result state trace fst snd].
      by rewrite set_recent_id.
Qed.

Lemma Get_inv c k : inv c -> inv (state (TwoQ.Get k c)).
Proof.
  intros Hinv. pose proof Hinv as [Hwf (Hd1 & Hd2 & Hd3)].
  pose proof Hwf as (Hr & Hf & Hg).
  split; [by apply preserves_TwoQ_Get|].
  rewrite (Get_state c k Hwf).
  destruct (decide (k ∈ keys_of (TwoQ.frequent c))) as [Hif|Hnf].
  - pose proof (ks_Get (TwoQ.frequent c) k Hf) as Hgk. unfold disjoint.
    cbn [TwoQ.recent TwoQ.frequent TwoQ.recentEvict TwoQ.set_frequent].
    rewrite Hgk. done.
  - destruct (Base.list_Value k (Base.entries (TwoQ.recent c))) as [e|] eqn:He; [|done].
    assert (Hir : k ∈ ks (TwoQ.recent c)).
    { apply elem_of_ks. destruct (Value_Some _ _ _ He) as [<- Hin].
      unfold keys_of, keys. by apply list_elem_of_fmap_2. }
    pose proof (ks_Add (TwoQ.frequent c) k (Base.value e) Hf) as Ha.
    pose proof (ks_Remove (TwoQ.recent c) k Hr) as Hrm. unfold disjoint.
    cbn [TwoQ.recent TwoQ.frequent TwoQ.recentEvict TwoQ.set_frequent TwoQ.set_recent].
    rewrite Hrm. keys_solver.
Qed.

(** A state whose engines are well formed and hold no more keys than those
    of [c0]. *)
Definition within c0 c : Prop :=
  wf_2q c ∧
  ks (TwoQ.recent c) ⊆ ks (TwoQ.recent c0) ∧
  ks (TwoQ.frequent c) ⊆ ks (TwoQ.frequent c0) ∧
  ks (TwoQ.recentEvict c) ⊆ ks (TwoQ.recentEvict c0).

Lemma within_refl c : wf_2q c -> within c c.
Proof. by intros Hwf. Qed.

Lemma within_inv c0 c : inv c0 -> within c0 c -> inv c.
Proof.
  intros [_ (Hd1 & Hd2 & Hd3)] (Hwf & Hs1 & Hs2 & Hs3). split; [done|].
  unfold disjoint. keys_solver.
Qed.

Lemma within_Remove c0 k : preserves (within c0) (TwoQ.Remove k).
Proof.
  assert (Hfr : preserves (within c0) (TwoQ.on_frequent (Base.Remove k))).
  { intros c (Hwf & Hs1 & Hs2 & Hs3). pose proof Hwf as (Hr & Hf & Hg).
    split; [by apply preserves_on_frequent; [apply preserves_Remove|]|].
    rewrite on_frequent_run. cbn [state fst snd].
    pose proof (ks_Remove (TwoQ.frequent c) k Hf) as Hrm.
    cbn [TwoQ.recent TwoQ.frequent TwoQ.recentEvict TwoQ.set_frequent].
    rewrite Hrm. keys_solver. }
  assert (Hre : preserves (within c0) (TwoQ.on_recent (Base.Remove k))).
  { intros c (Hwf & Hs1 & Hs2 & Hs3). pose proof Hwf as (Hr & Hf & Hg).
    split; [by apply preserves_on_recent; [apply preserves_Remove|]|].
    rewrite on_recent_run. cbn [state fst snd].
    pose proof (ks_Remove (TwoQ.recent c) k Hr) as Hrm.
    cbn [TwoQ.recent TwoQ.frequent TwoQ.recentEvict TwoQ.set_recent].
    rewrite Hrm. keys_solver. }
  assert (Hgh : preserves (within c0) (TwoQ.on_recentEvict (Base.Remove k))).
  { intros c (Hwf & Hs1 & Hs2 & Hs3). pose proof Hwf as (Hr & Hf & Hg).
    split; [by apply preserves_on_recentEvict; [apply preserves_Remove|]|].
    rewrite on_recentEvict_run. cbn [state fst snd].
    pose proof (ks_Remove (TwoQ.recentEvict c) k Hg) as Hrm.
    cbn [TwoQ.recent TwoQ.frequent TwoQ.recentEvict TwoQ.set_recentEvict].
    rewrite Hrm. keys_solver. }
  unfold TwoQ.Remove.
  apply preserves_bind; [done|]. intros a.
  apply preserves_if; [apply preserves_ret|].
  apply preserves_bind; [done|]. intros b.
  apply preserves_if; [apply preserves_ret|].
  apply preserves_bind; [done|]. intros d.
  apply preserves_if; apply preserves_ret.
Qed.

Lemma Remove_inv c k : inv c -> inv (state (TwoQ.Remove k c)).
Proof.
  intros Hinv. apply (within_inv c); [done|].
  apply within_Remove, within_refl, Hinv.
Qed.

Lemma Clear_inv c : inv c -> inv (state (TwoQ.Clear c)).
Proof.
  intros [Hwf _]. split; [by apply preserves_TwoQ_Clear|].
  pose proof Hwf as (Hr & Hf & Hg).
  rewrite (TwoQ_Clear_run c Hwf). cbn [state fst snd]. unfold disjoint.
  cbn [TwoQ.recent TwoQ.frequent TwoQ.recentEvict].
  assert (He : ∀ e : Base.unsafeCache K V F, ks (cleared e) = ∅) by done.
  rewrite !He. set_solver.
Qed.

Lemma New_inv n rr gr opts : inv (TwoQ.New2QParams (K:=K) (V:=V) (F:=F) n rr gr opts).
Proof.
  split; [apply wf_New2QParams|]. unfold disjoint, TwoQ.New2QParams.
  cbn [TwoQ.recent TwoQ.frequent TwoQ.recentEvict]. rewrite !ks_New. set_solver.
Qed.

Lemma exec_inv o c : inv c -> inv (exec o c).
Proof.
  destruct o; simpl; [apply Add_inv|apply Get_inv|apply Remove_inv|apply Clear_inv].
Qed.

Lemma run_inv os c : inv c -> inv (run os c).
Proof.
  unfold run. revert c. induction os as [|o os IH]; intros c Hc; [done|].
  simpl. by apply IH, exec_inv.
Qed.

(** *** The configuration never changes *)

Definition config m r c : Prop := TwoQ.maxEntries c = m ∧ TwoQ.recentEntries c = r.

Lemma config_on_recent {A} m r (e : Base.Engine A) :
  preserves (config m r) (TwoQ.on_recent e).
Proof. intros c Hc. by rewrite on_recent_run. Qed.

Lemma config_on_frequent {A} m r (e : Base.Engine A) :
  preserves (config m r) (TwoQ.on_frequent e).
Proof. intros c Hc. by rewrite on_frequent_run. Qed.

Lemma config_on_recentEvict {A} m r (e : Base.Engine A) :
  preserves (config m r) (TwoQ.on_recentEvict e).
Proof. intros c Hc. by rewrite on_recentEvict_run. Qed.

Lemma config_ensureSpace m r b : preserves (config m r) (TwoQ.ensureSpace b).
Proof.
  unfold TwoQ.ensureSpace.
  apply preserves_bind; [apply config_on_recent|]. intros rl.
  apply preserves_bind; [apply config_on_frequent|]. intros fl.
  apply preserves_bind; [apply preserves_get|]. intros c0.
  apply preserves_decide; [apply preserves_ret|].
  apply preserves_decide.
  - apply preserves_bind; [apply config_on_recent|]. intros x.
    apply preserves_bind; [apply config_on_recentEvict|]. intros _. apply preserves_ret.
  - apply preserves_bind; [apply config_on_frequent|]. intros _. apply preserves_ret.
Qed.

Lemma config_Add m r k v : preserves (config m r) (TwoQ.Add k v).
Proof.
  unfold TwoQ.Add.
  apply preserves_bind; [apply config_on_frequent|]. intros a.
  apply preserves_if.
  { apply preserves_bind; [apply config_on_frequent|]. intros _. apply preserves_ret. }
  apply preserves_bind; [apply config_on_recent|]. intros b.
  apply preserves_if.
  { apply preserves_bind; [apply config_on_recent|]. intros _.
    apply preserves_bind; [apply config_on_frequent|]. intros _. apply preserves_ret. }
  apply preserves_bind; [apply config_on_recentEvict|]. intros d.
  apply preserves_if.
  - apply preserves_bind; [apply config_ensureSpace|]. intros _.
    apply preserves_bind; [apply config_on_recentEvict|]. intros _.
    apply preserves_bind; [apply config_on_frequent|]. intros _. apply preserves_ret.
  - apply preserves_bind; [apply config_ensureSpace|]. intros _.
    apply preserves_bind; [apply config_on_recent|]. intros _. apply preserves_ret.
Qed.

Lemma config_Get m r k : preserves (config m r) (TwoQ.Get k).
Proof.
  unfold TwoQ.Get.
  apply preserves_bind; [apply config_on_frequent|]. intros a.
  apply preserves_if; [apply preserves_ret|].
  apply preserves_bind; [apply config_on_recent|]. intros b.
  apply preserves_if; [|apply preserves_ret].
  apply preserves_bind; [apply config_on_recent|]. intros _.
  apply preserves_bind; [apply config_on_frequent|]. intros _. apply preserves_ret.
Qed.

Lemma config_Remove m r k : preserves (config m r) (TwoQ.Remove k).
Proof.
  unfold TwoQ.Remove.
  apply preserves_bind; [apply config_on_frequent|]. intros a.
  apply preserves_if; [apply preserves_ret|].
  apply preserves_bind; [apply config_on_recent|]. intros b.
  apply preserves_if; [apply preserves_ret|].
  apply preserves_bind; [apply config_on_recentEvict|]. intros d.
  apply preserves_if; apply preserves_ret.
Qed.

Lemma config_Clear m r : preserves (config m r) TwoQ.Clear.
Proof.
  unfold TwoQ.Clear.
  apply preserves_bind; [apply config_on_recent|]. intros _.
  apply preserves_bind; [apply config_on_frequent|]. intros _.
  apply config_on_recentEvict.
Qed.

Lemma config_exec m r o c : config m r c -> config m r (exec o c).
Proof.
  destruct o; simpl;
    [apply config_Add|apply config_Get|apply config_Remove|apply config_Clear].
Qed.

Lemma config_run m r os c : config m r c -> config m r (run os c).
Proof.
  unfold run. revert c. induction os as [|o os IH]; intros c Hc; [done|].
  simpl. by apply IH, config_exec.
Qed.

(** *** The number of resident entries *)

Import Capacity.

(** The entries that [Len] counts. *)
Definition resident c : Z :=
  Z.of_nat (count (TwoQ.recent c)) + Z.of_nat (count (TwoQ.frequent c)).

Lemma count_size (e : Base.unsafeCache K V F) : wf e -> count e = size (ks e).
Proof.
  intros [Hnd _]. rewrite count_keys. unfold ks.
  by rewrite size_list_to_set.
Qed.

Lemma count_Add_hit (e : Base.unsafeCache K V F) k v :
  wf e -> k ∈ keys_of e -> count (state (Base.Add k v e)) = count e.
Proof.
  intros Hwf Hin. rewrite (Add_hit e k v Hwf Hin). cbn [state fst snd].
  by apply count_touched.
Qed.

Lemma count_Remove_hit (e : Base.unsafeCache K V F) k :
  wf e -> k ∈ keys_of e -> S (count (state (Base.Remove k e))) = count e.
Proof.
  intros Hwf Hin. destruct (Value_elem _ _ Hin) as [x Hx].
  rewrite (Remove_hit e k x Hwf Hx). cbn [state fst snd].
  apply count_without. destruct (Value_Some _ _ _ Hx) as [-> _]. done.
Qed.

(** A cache that holds no more than its capacity, with a target for
    [recent] below it. *)
Definition sized c : Prop :=
  wf_2q c ∧ 0 < TwoQ.maxEntries c <= Int.max_int ∧
  TwoQ.recentEntries c < TwoQ.maxEntries c ∧
  resident c <= TwoQ.maxEntries c.

(** [ensureSpace] leaves room for one entry. *)
Lemma ensureSpace_room (b : bool) c :
  sized c -> resident (state (TwoQ.ensureSpace b c)) < TwoQ.maxEntries c.
Proof.
  intros (Hwf & Hcap & Hre & Hle). pose proof Hwf as (Hr & Hf & Hg).
  rewrite ensureSpace_run. cbv zeta. unfold resident, count in *.
  rewrite IntFacts.add_id by (unfold Int.in_range, Int.min_int, Int.max_int in *; lia).
  destruct (decide _) as [Hlt|Hge]; cbn [state fst snd]; [done|].
  destruct (decide (evict_recent b c)) as [Hc|Hc]; cbn [state fst snd].
  - cbn [TwoQ.recent TwoQ.frequent TwoQ.set_recent TwoQ.set_recentEvict].
    assert (Hres : (result (Base.RemoveOldest (TwoQ.recent c))).2 = true).
    { apply RemoveOldest_ok; [done|]. destruct Hc as [Hpos _].
      intros He. rewrite He in Hpos. simpl in Hpos. lia. }
    pose proof (count_RemoveOldest_ok _ Hr Hres) as Hn. unfold count in Hn. lia.
  - cbn [TwoQ.recent TwoQ.frequent TwoQ.set_frequent].
    assert (Hres : (result (Base.RemoveOldest (TwoQ.frequent c))).2 = true).
    { apply RemoveOldest_ok; [done|]. intros He. rewrite He in *. simpl in *.
      apply Hc. unfold evict_recent. lia. }
    pose proof (count_RemoveOldest_ok _ Hf Hres) as Hn. unfold count in Hn. lia.
Qed.

Lemma Add_resident_le c k v :
  sized c -> resident (state (TwoQ.Add k v c)) <= TwoQ.maxEntries c.
Proof.
  intros Hs. pose proof Hs as (Hwf & Hcap & Hre & Hle).
  pose proof Hwf as (Hr & Hf & Hg).
  rewrite (Add_state c k v Hwf).
  destruct (decide (k ∈ keys_of (TwoQ.frequent c))) as [Hif|Hnf];
    [|destruct (decide (k ∈ keys_of (TwoQ.recent c))) as [Hir|Hnr];
      [|destruct (decide (k ∈ keys_of (TwoQ.recentEvict c))) as [Hig|Hng]]].
  - unfold resident in *. cbn [TwoQ.recent TwoQ.frequent TwoQ.set_frequent].
    by rewrite (count_Add_hit _ k v Hf Hif).
  - unfold resident in *.
    cbn [TwoQ.recent TwoQ.frequent TwoQ.set_frequent TwoQ.set_recent].
    pose proof (count_Remove_hit _ k Hr Hir). pose proof (count_Add _ k v Hf). lia.
  - cbv zeta. pose proof (ensureSpace_room true c Hs) as Hroom.
    pose proof (preserves_ensureSpace true c Hwf) as (Hr1 & Hf1 & Hg1).
    set (c1 := state (TwoQ.ensureSpace true c)) in *.
    unfold resident in *.
    cbn [TwoQ.recent TwoQ.frequent TwoQ.set_frequent TwoQ.set_recentEvict].
    pose proof (count_Add _ k v Hf1). lia.
  - cbv zeta. pose proof (ensureSpace_room false c Hs) as Hroom.
    pose proof (preserves_ensureSpace false c Hwf) as (Hr1 & Hf1 & Hg1).
    set (c1 := state (TwoQ.ensureSpace false c)) in *.
    unfold resident in *.
    cbn [TwoQ.recent TwoQ.frequent TwoQ.set_recent].
    pose proof (count_Add _ k v Hr1). lia.
Qed.

Lemma Get_resident_le c k :
  wf_2q c -> resident (state (TwoQ.Get k c)) <= resident c.
Proof.
  intros Hwf. pose proof Hwf as (Hr & Hf & Hg).
  rewrite (Get_state c k Hwf).
  destruct (decide (k ∈ keys_of (TwoQ.frequent c))) as [Hif|Hnf].
  - unfold resident. cbn [TwoQ.recent TwoQ.frequent TwoQ.set_frequent].
    rewrite (count_Get _ k Hf). lia.
  - destruct (Base.list_Value k (Base.entries (TwoQ.recent c))) as [e|] eqn:He; [|lia].
    assert (Hir : k ∈ keys_of (TwoQ.recent c)).
    { destruct (Value_Some _ _ _ He) as [<- Hin].
      unfold keys_of, keys. by apply list_elem_of_fmap_2. }
    unfold resident.
    cbn [TwoQ.recent TwoQ.frequent TwoQ.set_frequent TwoQ.set_recent].
    pose proof (count_Remove_hit _ k Hr Hir).
    pose proof (count_Add _ k (Base.value e) Hf). lia.
Qed.

Lemma within_resident c0 c : wf_2q c0 -> within c0 c -> resident c <= resident c0.
Proof.
  intros (Hr0 & Hf0 & _) ((Hr & Hf & _) & Hs1 & Hs2 & _). unfold resident.
  rewrite !count_size by done.
  apply subseteq_size in Hs1, Hs2. lia.
Qed.

Lemma Clear_resident c : wf_2q c -> resident (state (TwoQ.Clear c)) = 0.
Proof.
  intros Hwf. by rewrite (TwoQ_Clear_run c Hwf).
Qed.

Lemma exec_sized o c : sized c -> sized (exec o c).
Proof.
  intros Hs. pose proof Hs as (Hwf & Hcap & Hre & Hle).
  assert (Hcfg : config (TwoQ.maxEntries c) (TwoQ.recentEntries c) (exec o c))
    by by apply config_exec.
  destruct Hcfg as [Hm Hrr]. unfold sized. rewrite Hm, Hrr.
  split; [|split; [done|split; [done|]]].
  - destruct o; simpl;
      [by apply preserves_TwoQ_Add|by apply preserves_TwoQ_Get
      |by apply preserves_TwoQ_Remove|by apply preserves_TwoQ_Clear].
  - destruct o; simpl.
    + by apply Add_resident_le.
    + pose proof (Get_resident_le c k Hwf). lia.
    + pose proof (within_resident c _ Hwf (within_Remove c k c (within_refl c Hwf))). lia.
    + rewrite (Clear_resident c Hwf). lia.
Qed.

Lemma run_sized os c : sized c -> sized (run os c).
Proof.
  unfold run. revert c. induction os as [|o os IH]; intros c Hc; [done|].
  simpl. by apply IH, exec_sized.
Qed.

(** *** The capacities of the engines *)

(** [recent] and [frequent] have the capacity of the cache. *)
Definition caps m c : Prop :=
  wfm m (TwoQ.recent c) ∧ wfm m (TwoQ.frequent c) ∧ wf (TwoQ.recentEvict c).

Lemma caps_wf m c : caps m c -> wf_2q c.
Proof. intros ([? _] & [? _] & ?). by split. Qed.

Lemma caps_on_recent {A} m (e : Base.Engine A) :
  preserves (wfm m) e -> preserves (caps m) (TwoQ.on_recent e).
Proof.
  intros He c (Hr & Hf & Hg). rewrite on_recent_run. cbn [state fst snd].
  split; [|done]. by apply He.
Qed.

Lemma caps_on_frequent {A} m (e : Base.Engine A) :
  preserves (wfm m) e -> preserves (caps m) (TwoQ.on_frequent e).
Proof.
  intros He c (Hr & Hf & Hg). rewrite on_frequent_run. cbn [state fst snd].
  split; [done|]. split; [|done]. by apply He.
Qed.

Lemma caps_on_recentEvict {A} m (e : Base.Engine A) :
  preserves wf e -> preserves (caps m) (TwoQ.on_recentEvict e).
Proof.
  intros He c (Hr & Hf & Hg). rewrite on_recentEvict_run. cbn [state fst snd].
  split; [done|]. split; [done|]. by apply He.
Qed.

Lemma caps_ensureSpace m b : preserves (caps m) (TwoQ.ensureSpace b).
Proof.
  unfold TwoQ.ensureSpace.
  apply preserves_bind; [apply caps_on_recent, wfm_Len|]. intros rl.
  apply preserves_bind; [apply caps_on_frequent, wfm_Len|]. intros fl.
  apply preserves_bind; [apply preserves_get|]. intros c0.
  apply preserves_decide; [apply preserves_ret|].
  apply preserves_decide.
  - apply preserves_bind; [apply caps_on_recent, wfm_RemoveOldest|]. intros x.
    apply preserves_bind; [apply caps_on_recentEvict, preserves_Add|]. intros _.
    apply preserves_ret.
  - apply preserves_bind; [apply caps_on_frequent, wfm_RemoveOldest|]. intros _.
    apply preserves_ret.
Qed.

Lemma caps_Add m k v : preserves (caps m) (TwoQ.Add k v).
Proof.
  unfold TwoQ.Add.
  apply preserves_bind; [apply caps_on_frequent, wfm_Contains|]. intros a.
  apply preserves_if.
  { apply preserves_bind; [apply caps_on_frequent, wfm_Add|]. intros _. apply preserves_ret. }
  apply preserves_bind; [apply caps_on_recent, wfm_Contains|]. intros b.
  apply preserves_if.
  { apply preserves_bind; [apply caps_on_recent, wfm_Remove|]. intros _.
    apply preserves_bind; [apply caps_on_frequent, wfm_Add|]. intros _. apply preserves_ret. }
  apply preserves_bind; [apply caps_on_recentEvict, preserves_Contains|]. intros d.
  apply preserves_if.
  - apply preserves_bind; [apply caps_ensureSpace|]. intros _.
    apply preserves_bind; [apply caps_on_recentEvict, preserves_Remove|]. intros _.
    apply preserves_bind; [apply caps_on_frequent, wfm_Add|]. intros _. apply preserves_ret.
  - apply preserves_bind; [apply caps_ensureSpace|]. intros _.
    apply preserves_bind; [apply caps_on_recent, wfm_Add|]. intros _. apply preserves_ret.
Qed.

Lemma caps_Get m k : preserves (caps m) (TwoQ.Get k).
Proof.
  unfold TwoQ.Get.
  apply preserves_bind; [apply caps_on_frequent, wfm_Get|]. intros a.
  apply preserves_if; [apply preserves_ret|].
  apply preserves_bind; [apply caps_on_recent, wfm_Peek|]. intros b.
  apply preserves_if; [|apply preserves_ret].
  apply preserves_bind; [apply caps_on_recent, wfm_Remove|]. intros _.
  apply preserves_bind; [apply caps_on_frequent, wfm_Add|]. intros _. apply preserves_ret.
Qed.

Lemma caps_Remove m k : preserves (caps m) (TwoQ.Remove k).
Proof.
  unfold TwoQ.Remove.
  apply preserves_bind; [apply caps_on_frequent, wfm_Remove|]. intros a.
  apply preserves_if; [apply preserves_ret|].
  apply preserves_bind; [apply caps_on_recent, wfm_Remove|]. intros b.
  apply preserves_if; [apply preserves_ret|].
  apply preserves_bind; [apply caps_on_recentEvict, preserves_Remove|]. intros d.
  apply preserves_if; apply preserves_ret.
Qed.

Lemma caps_Clear m : preserves (caps m) TwoQ.Clear.
Proof.
  unfold TwoQ.Clear.
  apply preserves_bind; [apply caps_on_recent, wfm_Clear|]. intros _.
  apply preserves_bind; [apply caps_on_frequent, wfm_Clear|]. intros _.
  apply caps_on_recentEvict, preserves_Clear.
Qed.

Lemma caps_exec m o c : caps m c -> caps m (exec o c).
Proof.
  destruct o; simpl; [apply caps_Add|apply caps_Get|apply caps_Remove|apply caps_Clear].
Qed.

Lemma caps_run m os c : caps m c -> caps m (run os c).
Proof.
  unfold run. revert c. induction os as [|o os IH]; intros c Hc; [done|].
  simpl. by apply IH, caps_exec.
Qed.

Lemma caps_New n rr gr opts :
  let c := TwoQ.New2QParams (K:=K) (V:=V) (F:=F) n rr gr opts in
  caps (TwoQ.maxEntries c) c ∧ 1 <= TwoQ.maxEntries c ∧
  TwoQ.maxEntries c = (if decide (n <= 0) then Base.defaultSize else n).
Proof.
  cbv zeta. unfold TwoQ.New2QParams. cbn [TwoQ.maxEntries TwoQ.recent TwoQ.frequent TwoQ.recentEvict].
  assert (Hpos : 1 <= (if decide (n <= 0) then Base.defaultSize else n)).
  { unfold Base.defaultSize. case_decide; lia. }
  set (m := if decide (n <= 0) then Base.defaultSize else n) in *.
  assert (Hm : Base.maxEntries (Base.NewUnsafeLru (K:=K) (V:=V) (F:=F) m opts) = m).
  { rewrite New_maxEntries. destruct (decide (m <= 0)) as [Hle|_]; [lia|done]. }
  split; [|done]. split; [|split]; [by split; [apply wf_New|]..|apply wf_New].
Qed.

(** *** Where [Add] leaves the key *)

Lemma front_Peek (e : Base.unsafeCache K V F) k v l :
  wf e -> Base.entries e = Base.Entry k v :: l ->
  Base.Peek k e = ((v, true), e, []) ∧ k ∈ keys_of e.
Proof.
  intros Hwf Hl. split.
  - apply (Peek_hit e k (Base.Entry k v) Hwf). rewrite Hl.
    apply (Value_head (Base.Entry k v)).
  - unfold keys_of. rewrite Hl. left.
Qed.

(** After [Add k v] the key is at the front of [frequent], or it is new to
    the cache, absent from [frequent] and at the front of [recent]. *)
Lemma Add_placed m c k v :
  1 <= m -> caps m c -> inv c ->
  let c' := state (TwoQ.Add k v c) in
  ((k ∈ keys_of (TwoQ.frequent c) ∨ k ∈ keys_of (TwoQ.recent c) ∨
    k ∈ keys_of (TwoQ.recentEvict c)) ∧
   ∃ l, Base.entries (TwoQ.frequent c') = Base.Entry k v :: l) ∨
  ((k ∉ keys_of (TwoQ.frequent c) ∧ k ∉ keys_of (TwoQ.recent c) ∧
    k ∉ keys_of (TwoQ.recentEvict c)) ∧
   k ∉ keys_of (TwoQ.frequent c') ∧
   ∃ l, Base.entries (TwoQ.recent c') = Base.Entry k v :: l).
Proof.
  intros Hm Hcaps Hinv c'. unfold c'. clear c'.
  pose proof (caps_wf m c Hcaps) as Hwf.
  pose proof Hcaps as ([Hr Hrm] & [Hf Hfm] & Hg).
  rewrite (Add_state c k v Hwf).
  destruct (decide (k ∈ keys_of (TwoQ.frequent c))) as [Hif|Hnf];
    [|destruct (decide (k ∈ keys_of (TwoQ.recent c))) as [Hir|Hnr];
      [|destruct (decide (k ∈ keys_of (TwoQ.recentEvict c))) as [Hig|Hng]]].
  - left. split; [by left|]. cbn [TwoQ.frequent TwoQ.set_frequent].
    apply Add_front; [done|lia].
  - left. split; [by right; left|]. cbn [TwoQ.frequent TwoQ.set_frequent TwoQ.set_recent].
    apply Add_front; [done|lia].
  - left. split; [by right; right|]. cbv zeta.
    pose proof (caps_ensureSpace m true c Hcaps) as ([Hr1 Hrm1] & [Hf1 Hfm1] & Hg1).
    cbn [TwoQ.frequent TwoQ.set_frequent TwoQ.set_recentEvict].
    apply Add_front; [done|lia].
  - right. split; [done|]. cbv zeta.
    pose proof (caps_ensureSpace m false c Hcaps) as ([Hr1 Hrm1] & [Hf1 Hfm1] & Hg1).
    destruct (ensureSpace_keys false c Hinv) as (_ & _ & Hs2 & _).
    cbn [TwoQ.frequent TwoQ.recent TwoQ.set_recent]. split.
    + rewrite <- elem_of_ks in Hnf |- *. keys_solver.
    + apply Add_front; [done|lia].
Qed.

(** The state [Remove] leaves: the first engine that holds the key loses
    it. *)
Lemma Remove_state c k :
  wf_2q c ->
  state (TwoQ.Remove k c) =
  if decide (k ∈ keys_of (TwoQ.frequent c)) then
    TwoQ.set_frequent (state (Base.Remove k (TwoQ.frequent c))) c
  else if decide (k ∈ keys_of (TwoQ.recent c)) then
    TwoQ.set_recent (state (Base.Remove k (TwoQ.recent c))) c
  else
    TwoQ.set_recentEvict (state (Base.Remove k (TwoQ.recentEvict c))) c.
Proof.
  intros (Hr & Hf & Hg). unfold TwoQ.Remove.
  rewrite (bind_step _ _ _ _ _ _ (on_frequent_run _ c)).
  destruct (decide (k ∈ keys_of (TwoQ.frequent c))) as [Hif|Hnf].
  { destruct (Value_elem _ _ Hif) as [e He]. by rewrite (Remove_hit _ k e Hf He). }
  rewrite (Remove_miss _ k Hf Hnf). cbn [result state trace fst snd].
  rewrite set_frequent_id.
  rewrite (bind_step _ _ _ _ _ _ (on_recent_run _ c)).
  destruct (decide (k ∈ keys_of (TwoQ.recent c))) as [Hir|Hnr].
  { destruct (Value_elem _ _ Hir) as [e He]. by rewrite (Remove_hit _ k e Hr He). }
  rewrite (Remove_miss _ k Hr Hnr). cbn [result state trace fst snd].
  rewrite set_recent_id.
  rewrite (bind_step _ _ _ _ _ _ (on_recentEvict_run _ c)).
  by destruct (result (Base.Remove k (TwoQ.recentEvict c))).
Qed.

Lemma Remove_result c k : result (TwoQ.Remove k c) = false.
Proof.
  unfold TwoQ.Remove, bind, ret.
  destruct (TwoQ.on_frequent (Base.Remove k) c) as [[a s1] t1]. destruct a; [done|].
  destruct (TwoQ.on_recent (Base.Remove k) s1) as [[b s2] t2]. destruct b; [done|].
  destruct (TwoQ.on_recentEvict (Base.Remove k) s2) as [[d s3] t3]. by destruct d.
Qed.

Lemma Remove_gone c k :
  inv c ->
  let c' := state (TwoQ.Remove k c) in
  k ∉ keys_of (TwoQ.frequent c') ∧ k ∉ keys_of (TwoQ.recent c') ∧
  k ∉ keys_of (TwoQ.recentEvict c').
Proof.
  intros [Hwf (Hd1 & Hd2 & Hd3)] c'.
  cut (k ∉ ks (TwoQ.frequent c') ∧ k ∉ ks (TwoQ.recent c') ∧
       k ∉ ks (TwoQ.recentEvict c')).
  { intros (Ha & Hb & Hd). split; [|split]; by rewrite <- elem_of_ks. }
  unfold c'. clear c'. pose proof Hwf as (Hr & Hf & Hg).
  rewrite (Remove_state c k Hwf).
  destruct (decide (k ∈ keys_of (TwoQ.frequent c))) as [Hif|Hnf];
    [|destruct (decide (k ∈ keys_of (TwoQ.recent c))) as [Hir|Hnr]].
  - pose proof (ks_Remove _ k Hf) as Hrm. apply elem_of_ks in Hif.
    cbn [TwoQ.recent TwoQ.frequent TwoQ.recentEvict TwoQ.set_frequent].
    rewrite Hrm. keys_solver.
  - pose proof (ks_Remove _ k Hr) as Hrm. apply elem_of_ks in Hir.
    rewrite <- elem_of_ks in Hnf.
    cbn [TwoQ.recent TwoQ.frequent TwoQ.recentEvict TwoQ.set_recent].
    rewrite Hrm. keys_solver.
  - pose proof (ks_Remove _ k Hg) as Hrm. rewrite <- elem_of_ks in Hnf, Hnr.
    cbn [TwoQ.recent TwoQ.frequent TwoQ.recentEvict TwoQ.set_recentEvict].
    rewrite Hrm. keys_solver.
Qed.

(** *** The queries *)

Lemma Peek_run c k :
  wf_2q c ->
  TwoQ.Peek k c =
  (if decide (k ∈ keys_of (TwoQ.frequent c)) then result (Base.Peek k (TwoQ.frequent c))
   else result (Base.Peek k (TwoQ.recent c)), c, []).
Proof.
  intros (Hr & Hf & Hg). unfold TwoQ.Peek.
  destruct (decide (k ∈ keys_of (TwoQ.frequent c))) as [Hif|Hnf].
  - destruct (Value_elem _ _ Hif) as [e He].
    rewrite (bind_step _ _ _ _ _ _ (on_frequent_run _ c)).
    rewrite (Peek_hit _ k e Hf He). cbn [result state trace fst snd].
    by rewrite set_frequent_id.
  - rewrite (bind_step _ _ _ _ _ _ (on_frequent_run _ c)).
    rewrite (Peek_miss _ k Hf Hnf). cbn [result state trace fst snd].
    rewrite set_frequent_id, on_recent_run.
    destruct (Base.list_Value k (Base.entries (TwoQ.recent c))) as [e|] eqn:He.
    + rewrite (Peek_hit _ k e Hr He). cbn [result state trace fst snd].
      by rewrite set_recent_id.
    + apply Value_None in He. rewrite (Peek_miss _ k Hr He).
      cbn [result state trace fst snd]. by rewrite set_recent_id.
Qed.

Lemma Get_miss_run c k :
  wf_2q c -> k ∉ keys_of (TwoQ.frequent c) -> k ∉ keys_of (TwoQ.recent c) ->
  TwoQ.Get k c = ((zero, false), c, []).
Proof.
  intros (Hr & Hf & Hg) Hnf Hnr. unfold TwoQ.Get.
  rewrite (bind_step _ _ _ _ _ _ (on_frequent_run _ c)).
  rewrite (Get_miss _ k Hf Hnf). cbn [result state trace fst snd].
  rewrite set_frequent_id.
  rewrite (bind_step _ _ _ _ _ _ (on_recent_run _ c)).
  rewrite (Peek_miss _ k Hr Hnr). cbn [result state trace fst snd].
  by rewrite set_recent_id.
Qed.

(** What the queries answer just after [Add k v]. *)
Lemma Add_then_query m c k v :
  1 <= m -> caps m c -> inv c ->
  let c1 := state (TwoQ.Add k v c) in
  TwoQ.Peek k c1 = ((v, true), c1, []) ∧
  TwoQ.Contains k c1 = (true, c1, []) ∧
  result (TwoQ.Get k c1) = (v, true).
Proof.
  intros Hm Hcaps Hinv c1.
  assert (Hwf1 : wf_2q c1) by (apply preserves_TwoQ_Add; apply Hinv).
  pose proof Hwf1 as (Hr1 & Hf1 & Hg1).
  destruct (Add_placed m c k v Hm Hcaps Hinv) as [(_ & l & Hl)|(_ & Hnf & l & Hl)];
    fold c1 in Hl.
  - destruct (front_Peek _ k v l Hf1 Hl) as [Hp Hin].
    split; [|split].
    + rewrite (Peek_run c1 k Hwf1), decide_True by done. by rewrite Hp.
    + rewrite (TwoQ_Contains_run c1 k Hwf1). f_equal. f_equal.
      apply bool_decide_eq_true_2. by left.
    + unfold TwoQ.Get. rewrite (bind_step _ _ _ _ _ _ (on_frequent_run _ c1)).
      rewrite (Get_hit _ k (Base.Entry k v) Hf1); [done|].
      rewrite Hl. apply (Value_head (Base.Entry k v)).
  - fold c1 in Hnf. destruct (front_Peek _ k v l Hr1 Hl) as [Hp Hin].
    split; [|split].
    + rewrite (Peek_run c1 k Hwf1), decide_False by done. by rewrite Hp.
    + rewrite (TwoQ_Contains_run c1 k Hwf1). f_equal. f_equal.
      apply bool_decide_eq_true_2. by right.
    + rewrite (TwoQ_Get_promotes c1 k (Base.Entry k v) Hwf1 Hnf); [done|].
      rewrite Hl. apply (Value_head (Base.Entry k v)).
Qed.

(** *** The states reached from the constructor *)

Definition reached n rr gr opts (os : list call) : TwoQ.TwoQueueCache K V F :=
  run os (TwoQ.New2QParams n rr gr opts).

Lemma reached_inv n rr gr opts os : inv (reached n rr gr opts os).
Proof. apply run_inv, New_inv. Qed.

Lemma reached_caps n rr gr opts os :
  ∃ m, 1 <= m ∧ caps m (reached n rr gr opts os).
Proof.
  destruct (caps_New n rr gr opts) as (Hc & Hm & _).
  eexists. split; [exact Hm|]. by apply caps_run.
Qed.

Lemma reached_config n rr gr opts os :
  config (TwoQ.maxEntries (TwoQ.New2QParams (K:=K) (V:=V) (F:=F) n rr gr opts))
         (TwoQ.recentEntries (TwoQ.New2QParams (K:=K) (V:=V) (F:=F) n rr gr opts))
         (reached n rr gr opts os).
Proof. by apply config_run. Qed.

End TwoQRun.
End TwoQRun.

(** X9.  In every state of a two-queue cache reached from [New2QParams] by
    [Add], [Get], [Remove] and [Clear], a key is in at most one of
    [frequent], [recent] and the ghost engine [recentEvict], and [Keys()]
    lists no key twice. *)
Theorem TwoQ_key_in_one_engine :
  ∀ (K : Type) `(Countable K) `(GoZero K) (V : Type) `(GoZero V) (F : Type)
    (n : Z) (rr gr : Float64.float64) (opts : list (Base.Option F))
    (os : list (TwoQRun.call (K:=K) (V:=V))),
    let c : TwoQ.TwoQueueCache K V F := TwoQRun.reached n rr gr opts os in
    (∀ k,
       ¬ (k ∈ BaseFacts.keys_of (TwoQ.frequent c) ∧ k ∈ BaseFacts.keys_of (TwoQ.recent c)) ∧
       ¬ (k ∈ BaseFacts.keys_of (TwoQ.frequent c) ∧
          k ∈ BaseFacts.keys_of (TwoQ.recentEvict c)) ∧
       ¬ (k ∈ BaseFacts.keys_of (TwoQ.recent c) ∧
          k ∈ BaseFacts.keys_of (TwoQ.recentEvict c))) ∧
    NoDup (result (TwoQ.Keys c)).
Proof.
  intros K ? ? ? V ? F n rr gr opts os c.
  destruct (TwoQRun.reached_inv n rr gr opts os) as [Hwf (Hd1 & Hd2 & Hd3)].
  fold c in Hwf, Hd1, Hd2, Hd3. destruct Hwf as ([Hnr _] & [Hnf _] & _).
  assert (Hk : ∀ k, ¬ (k ∈ BaseFacts.keys_of (TwoQ.frequent c) ∧
                       k ∈ BaseFacts.keys_of (TwoQ.recent c))).
  { intros k [Ha Hb]. apply KeySets.elem_of_ks in Ha, Hb. by apply (Hd1 k). }
  split.
  - intros k. split; [apply Hk|]. split.
    + intros [Ha Hb]. apply KeySets.elem_of_ks in Ha, Hb. by apply (Hd2 k).
    + intros [Ha Hb]. apply KeySets.elem_of_ks in Ha, Hb. by apply (Hd3 k).
  - rewrite TwoQFacts.TwoQ_Keys_run. cbn [result fst snd].
    apply NoDup_app. split; [by rewrite reverse_Permutation|].
    split; [|by rewrite reverse_Permutation].
    intros k Ha Hb. rewrite elem_of_reverse in Ha. rewrite elem_of_reverse in Hb.
    by apply (Hk k).
Qed.

(** X10.  [Remove(k)] of a two-queue cache answers false whatever the
    cache holds, since the named result is never assigned; all the same,
    in a reached state it leaves the key in none of the three engines, so
    that [Contains(k)] is false afterwards. *)
Theorem TwoQ_Remove_answers_false :
  ∀ (K : Type) `(Countable K) `(GoZero K) (V : Type) `(GoZero V) (F : Type)
    (n : Z) (rr gr : Float64.float64) (opts : list (Base.Option F))
    (os : list (TwoQRun.call (K:=K) (V:=V))) (k : K),
    let c : TwoQ.TwoQueueCache K V F := TwoQRun.reached n rr gr opts os in
    let r := TwoQ.Remove k c in
    result r = false ∧
    result (TwoQ.Contains k (state r)) = false ∧
    k ∉ BaseFacts.keys_of (TwoQ.recentEvict (state r)).
Proof.
  intros K ? ? ? V ? F n rr gr opts os k c r.
  pose proof (TwoQRun.reached_inv n rr gr opts os) as Hinv. fold c in Hinv.
  destruct (TwoQRun.Remove_gone c k Hinv) as (Hf & Hr & Hg). fold r in Hf, Hr, Hg.
  split; [apply TwoQRun.Remove_result|]. split; [|done].
  assert (Hwf : TwoQFacts.wf_2q (state r))
    by (apply TwoQFacts.preserves_TwoQ_Remove; apply Hinv).
  rewrite (TwoQFacts.TwoQ_Contains_run _ k Hwf). cbn [result fst snd].
  apply bool_decide_eq_false_2. tauto.
Qed.

(** X11.  When the target size of [recent] is below the capacity, the
    number of resident entries that [Len()] reports never exceeds the
    capacity, in any state reached from [New2QParams]. *)
Theorem TwoQ_Len_within_capacity :
  ∀ (K : Type) `(Countable K) `(GoZero K) (V : Type) `(GoZero V) (F : Type)
    (n : Z) (rr gr : Float64.float64) (opts : list (Base.Option F))
    (os : list (TwoQRun.call (K:=K) (V:=V))),
    n <= Int.max_int ->
    TwoQ.recentEntries (TwoQ.New2QParams (K:=K) (V:=V) (F:=F) n rr gr opts) <
      TwoQ.maxEntries (TwoQ.New2QParams (K:=K) (V:=V) (F:=F) n rr gr opts) ->
    let c : TwoQ.TwoQueueCache K V F := TwoQRun.reached n rr gr opts os in
    0 <= result (TwoQ.Len c) <= TwoQ.maxEntries c.
Proof.
  intros K ? ? ? V ? F n rr gr opts os Hn Hre c.
  set (c0 := TwoQ.New2QParams (K:=K) (V:=V) (F:=F) n rr gr opts) in *.
  destruct (TwoQRun.caps_New (K:=K) (V:=V) (F:=F) n rr gr opts) as (Hcaps & Hpos & Hmax).
  fold c0 in Hcaps, Hpos, Hmax.
  assert (Hs0 : TwoQRun.sized c0).
  { split; [by apply (TwoQRun.caps_wf _ _ Hcaps)|]. split; [|split; [done|]].
    - rewrite Hmax. unfold Base.defaultSize, Int.max_int in *. case_decide; lia.
    - unfold TwoQRun.resident, Capacity.count, c0, TwoQ.New2QParams.
      cbn [TwoQ.recent TwoQ.frequent]. rewrite !BaseFacts.New_entries. simpl. lia. }
  destruct (TwoQRun.run_sized os c0 Hs0) as (Hwf & Hcap & _ & Hle).
  change (TwoQRun.run os c0) with c in Hwf, Hcap, Hle.
  rewrite TwoQFacts.TwoQ_Len_run. cbn [result fst snd].
  unfold TwoQRun.resident, Capacity.count in Hle.
  rewrite IntFacts.add_id by (unfold Int.in_range, Int.min_int, Int.max_int in *; lia).
  lia.
Qed.

(** X11, witness: capacity 4 with the default ratios, after five
    insertions. *)
Lemma TwoQ_Len_within_capacity_witness :
  0 <= result (TwoQ.Len (TwoQRun.reached (K:=Z) (V:=Z) (F:=unit) 4
         TwoQ.default2QRecentRatio TwoQ.default2QGhostEntries []
         [TwoQRun.CAdd 1 10; TwoQRun.CAdd 2 20; TwoQRun.CAdd 3 30; TwoQRun.CGet 1;
          TwoQRun.CAdd 4 40; TwoQRun.CAdd 5 50])) <= 4.
Proof.
  assert (Hn : 4 <= Int.max_int) by (vm_compute; discriminate).
  assert (Hre : TwoQ.recentEntries (TwoQ.New2QParams (K:=Z) (V:=Z) (F:=unit) 4
                  TwoQ.default2QRecentRatio TwoQ.default2QGhostEntries []) <
                TwoQ.maxEntries (TwoQ.New2QParams (K:=Z) (V:=Z) (F:=unit) 4
                  TwoQ.default2QRecentRatio TwoQ.default2QGhostEntries []))
    by (vm_compute; reflexivity).
  exact (TwoQ_Len_within_capacity Z _ _ Z _ unit 4 _ _ [] _ Hn Hre).
Defined.

(** X12.  In every reached state of a two-queue cache, whatever capacity
    was asked for, [Add(k, v)] followed by [Peek(k)] gives [(v, true)]
    without changing the cache or invoking a callback, [Contains(k)]
    holds, and [Get(k)] gives [(v, true)]. *)
Theorem TwoQ_Add_then_Peek :
  ∀ (K : Type) `(Countable K) `(GoZero K) (V : Type) `(GoZero V) (F : Type)
    (n : Z) (rr gr : Float64.float64) (opts : list (Base.Option F))
    (os : list (TwoQRun.call (K:=K) (V:=V))) (k : K) (v : V),
    let c : TwoQ.TwoQueueCache K V F := TwoQRun.reached n rr gr opts os in
    let c1 := state (TwoQ.Add k v c) in
    TwoQ.Peek k c1 = ((v, true), c1, []) ∧
    TwoQ.Contains k c1 = (true, c1, []) ∧
    result (TwoQ.Get k c1) = (v, true).
Proof.
  intros K ? ? ? V ? F n rr gr opts os k v c c1.
  destruct (TwoQRun.reached_caps (K:=K) (V:=V) (F:=F) n rr gr opts os) as (m & Hm & Hcaps).
  exact (TwoQRun.Add_then_query m c k v Hm Hcaps (TwoQRun.reached_inv n rr gr opts os)).
Qed.

(** X13.  Admission of the two-queue cache, in a reached state.  [Add(k, v)]
    of a key that is in [frequent], in [recent] or remembered by the ghost
    engine puts the entry at the front of [frequent]; [Add(k, v)] of a key
    that is in none of them puts it at the front of [recent] and not in
    [frequent]. *)
Theorem TwoQ_Add_admission :
  ∀ (K : Type) `(Countable K) `(GoZero K) (V : Type) `(GoZero V) (F : Type)
    (n : Z) (rr gr : Float64.float64) (opts : list (Base.Option F))
    (os : list (TwoQRun.call (K:=K) (V:=V))) (k : K) (v : V),
    let c : TwoQ.TwoQueueCache K V F := TwoQRun.reached n rr gr opts os in
    let c' := state (TwoQ.Add k v c) in
    ((k ∈ BaseFacts.keys_of (TwoQ.frequent c) ∨ k ∈ BaseFacts.keys_of (TwoQ.recent c) ∨
      k ∈ BaseFacts.keys_of (TwoQ.recentEvict c)) ∧
     ∃ l, Base.entries (TwoQ.frequent c') = Base.Entry k v :: l) ∨
    ((k ∉ BaseFacts.keys_of (TwoQ.frequent c) ∧ k ∉ BaseFacts.keys_of (TwoQ.recent c) ∧
      k ∉ BaseFacts.keys_of (TwoQ.recentEvict c)) ∧
     k ∉ BaseFacts.keys_of (TwoQ.frequent c') ∧
     ∃ l, Base.entries (TwoQ.recent c') = Base.Entry k v :: l).
Proof.
  intros K ? ? ? V ? F n rr gr opts os k v c c'.
  destruct (TwoQRun.reached_caps (K:=K) (V:=V) (F:=F) n rr gr opts os) as (m & Hm & Hcaps).
  exact (TwoQRun.Add_placed m c k v Hm Hcaps (TwoQRun.reached_inv n rr gr opts os)).
Qed.

(** X14.  The queries of a two-queue cache.  In a reached state [Contains],
    [Peek], [Keys] and [Len] leave the cache as it is and invoke no
    callback; so does [Get] of a key that is neither in [frequent] nor in
    [recent], which answers the zero value and false even when the ghost
    engine remembers the key. *)
Theorem TwoQ_queries_change_nothing :
  ∀ (K : Type) `(Countable K) `(GoZero K) (V : Type) `(GoZero V) (F : Type)
    (n : Z) (rr gr : Float64.float64) (opts : list (Base.Option F))
    (os : list (TwoQRun.call (K:=K) (V:=V))) (k : K),
    let c : TwoQ.TwoQueueCache K V F := TwoQRun.reached n rr gr opts os in
    (state (TwoQ.Contains k c) = c ∧ trace (TwoQ.Contains k c) = []) ∧
    (state (TwoQ.Peek k c) = c ∧ trace (TwoQ.Peek k c) = []) ∧
    (state (TwoQ.Keys c) = c ∧ trace (TwoQ.Keys c) = []) ∧
    (state (TwoQ.Len c) = c ∧ trace (TwoQ.Len c) = []) ∧
    (result (TwoQ.Contains k c) = false -> TwoQ.Get k c = ((zero, false), c, [])).
Proof.
  intros K ? ? ? V ? F n rr gr opts os k c.
  destruct (TwoQRun.reached_inv n rr gr opts os) as [Hwf _]. fold c in Hwf.
  rewrite (TwoQFacts.TwoQ_Contains_run c k Hwf), (TwoQRun.Peek_run c k Hwf),
    TwoQFacts.TwoQ_Keys_run, TwoQFacts.TwoQ_Len_run.
  cbn [result state trace fst snd]. repeat (split; [done|]).
  intros Hn. apply bool_decide_eq_false in Hn.
  apply TwoQRun.Get_miss_run; [done|tauto..].
Qed.

(** X14, witness: after five insertions into a cache of capacity 4 the
    ghost engine remembers key 1, and [Get(1)] is a miss that changes
    nothing. *)
Lemma TwoQ_queries_change_nothing_witness :
  let c : TwoQ.TwoQueueCache Z Z unit :=
    TwoQRun.reached 4 TwoQ.default2QRecentRatio TwoQ.default2QGhostEntries []
      [TwoQRun.CAdd 1 10; TwoQRun.CAdd 2 20; TwoQRun.CAdd 3 30; TwoQRun.CAdd 4 40;
       TwoQRun.CAdd 5 50] in
  BaseFacts.keys_of (TwoQ.recentEvict c) = [1] ∧ TwoQ.Get 1 c = ((0, false), c, []).
Proof.
  intros c. split; [vm_compute; reflexivity|].
  assert (Hn : result (TwoQ.Contains 1 c) = false) by (vm_compute; reflexivity).
  destruct (TwoQ_queries_change_nothing Z _ _ Z _ unit 4
              TwoQ.default2QRecentRatio TwoQ.default2QGhostEntries []
              [TwoQRun.CAdd 1 10; TwoQRun.CAdd 2 20; TwoQRun.CAdd 3 30; TwoQRun.CAdd 4 40;
               TwoQRun.CAdd 5 50] 1) as (_ & _ & _ & _ & Hget).
  exact (Hget Hn).
Defined.

(** X15.  The bound on [Len()] needs the target of [recent] to be below the
    capacity.  With capacity 2 and the recent ratio 1, which
    [New2QParams] accepts, the target is 2; after [Add] of the keys 1, 2, 3
    and 1 again, the last one a ghost hit for which [ensureSpace] finds
    [frequent] empty and evicts nothing, [Len()] is 3. *)
Theorem TwoQ_Len_exceeds_capacity :
  let c : TwoQ.TwoQueueCache Z Z unit :=
    TwoQRun.reached 2 Float64.one_f TwoQ.default2QGhostEntries []
      [TwoQRun.CAdd 1 10; TwoQRun.CAdd 2 20; TwoQRun.CAdd 3 30; TwoQRun.CAdd 1 11] in
  TwoQSizes.in_unit Float64.one_f ∧
  TwoQ.maxEntries c = 2 ∧ TwoQ.recentEntries c = 2 ∧
  result (TwoQ.Len c) = 3 ∧ result (TwoQ.Keys c) = [1; 2; 3].
Proof. vm_compute. repeat split. Qed.

(** ** Runs of the adaptive replacement cache *)
Module ARCRun.
Section ARCRun.

Context {K : Type} `{Countable K} `{GoZero K} {V : Type} `{GoZero V} {F : Type}.

Import ListFacts BaseFacts BaseKeeps BaseKeys KeySets Capacity BaseCaps ARCFacts.

Implicit Types (c : ARC.ARCCache K V F) (k : K) (v : V).

(** A call of a method that changes an adaptive replacement cache. *)
Inductive call : Type :=
  | CAdd (k : K) (v : V)
  | CGet (k : K)
  | CRemove (k : K)
  | CClear.

Definition exec (o : call) c : ARC.ARCCache K V F :=
  match o with
  | CAdd k v => state (ARC.Add k v c)
  | CGet k => state (ARC.Get k c)
  | CRemove k => state (ARC.Remove k c)
  | CClear => state (ARC.Clear c)
  end.

Definition run (os : list call) c : ARC.ARCCache K V F :=
  foldl (fun c o => exec o c) c os.

Definition reached n opts (os : list call) : ARC.ARCCache K V F :=
  run os (ARC.NewARC n opts).

(** No key is in two of the four engines. *)
Definition disjoint c : Prop :=
  ks (ARC.t1 c) ## ks (ARC.t2 c) ∧ ks (ARC.t1 c) ## ks (ARC.b1 c) ∧
  ks (ARC.t1 c) ## ks (ARC.b2 c) ∧ ks (ARC.t2 c) ## ks (ARC.b1 c) ∧
  ks (ARC.t2 c) ## ks (ARC.b2 c) ∧ ks (ARC.b1 c) ## ks (ARC.b2 c).

Definition inv c : Prop := wf_arc c ∧ disjoint c.

(** What [replace] does to the sets of keys: [t1] and [t2] can only lose
    keys, and a ghost engine can only gain keys of its live engine. *)
Definition shrunk c c' : Prop :=
  ks (ARC.t1 c') ⊆ ks (ARC.t1 c) ∧ ks (ARC.t2 c') ⊆ ks (ARC.t2 c) ∧
  ks (ARC.b1 c') ⊆ ks (ARC.b1 c) ∪ ks (ARC.t1 c) ∧
  ks (ARC.b2 c') ⊆ ks (ARC.b2 c) ∪ ks (ARC.t2 c).

Lemma shrunk_refl c : shrunk c c.
Proof. unfold shrunk. keys_solver. Qed.

Lemma replace_keys (b : bool) c :
  inv c -> inv (state (ARC.replace b c)) ∧ shrunk c (state (ARC.replace b c)).
Proof.
  intros [Hwf (Hd1 & Hd2 & Hd3 & Hd4 & Hd5 & Hd6)].
  assert (Hwf' : wf_arc (state (ARC.replace b c))) by by apply preserves_replace.
  pose proof Hwf as (Ht1 & Hb1 & Ht2 & Hb2).
  rewrite replace_run in *.
  destruct (decide (victim_t1 b c)) as [Hv|Hv]; cbv zeta in *.
  - destruct (ks_RemoveOldest (ARC.t1 c) Ht1) as [Hsub Hok].
    destruct (result (Base.RemoveOldest (ARC.t1 c))).2 eqn:Hres;
      cbn [state fst snd] in *.
    + destruct (Hok eq_refl) as [Hin Hout]. clear Hok.
      pose proof (ks_Add (ARC.b1 c) (result (Base.RemoveOldest (ARC.t1 c))).1.1 zero Hb1)
        as Hadd.
      split; [split; [exact Hwf'|]|]; unfold disjoint, shrunk;
        cbn [ARC.t1 ARC.t2 ARC.b1 ARC.b2 ARC.set_t1 ARC.set_b1]; keys_solver.
    + clear Hok. split; [split; [exact Hwf'|]|]; unfold disjoint, shrunk;
        cbn [ARC.t1 ARC.t2 ARC.b1 ARC.b2 ARC.set_t1]; keys_solver.
  - destruct (ks_RemoveOldest (ARC.t2 c) Ht2) as [Hsub Hok].
    destruct (result (Base.RemoveOldest (ARC.t2 c))).2 eqn:Hres;
      cbn [state fst snd] in *.
    + destruct (Hok eq_refl) as [Hin Hout]. clear Hok.
      pose proof (ks_Add (ARC.b2 c) (result (Base.RemoveOldest (ARC.t2 c))).1.1 zero Hb2)
        as Hadd.
      split; [split; [exact Hwf'|]|]; unfold disjoint, shrunk;
        cbn [ARC.t1 ARC.t2 ARC.b1 ARC.b2 ARC.set_t2 ARC.set_b2]; keys_solver.
    + clear Hok. split; [split; [exact Hwf'|]|]; unfold disjoint, shrunk;
        cbn [ARC.t1 ARC.t2 ARC.b1 ARC.b2 ARC.set_t2]; keys_solver.
Qed.

Lemma make_room_keys (b : bool) c :
  inv c -> inv (state (ARC.make_room b c)) ∧ shrunk c (state (ARC.make_room b c)).
Proof.
  intros Hinv. rewrite make_room_run. destruct (decide _) as [Hge|Hlt].
  - by apply replace_keys.
  - split; [done|apply shrunk_refl].
Qed.

(** The adaptation of [p] on a hit in [b1] and on a hit in [b2]. *)
Definition grow_p c : ARC.ARCCache K V F :=
  let b1Len := Z.of_nat (length (Base.entries (ARC.b1 c))) in
  let b2Len := Z.of_nat (length (Base.entries (ARC.b2 c))) in
  let delta := if decide (b2Len > b1Len) then Int.div b2Len b1Len else 1 in
  if decide (Int.add (ARC.p c) delta >= ARC.maxEntries c)
  then ARC.set_p (ARC.maxEntries c) c
  else ARC.set_p (Int.add (ARC.p c) delta) c.

Definition shrink_p c : ARC.ARCCache K V F :=
  let b1Len := Z.of_nat (length (Base.entries (ARC.b1 c))) in
  let b2Len := Z.of_nat (length (Base.entries (ARC.b2 c))) in
  let delta := if decide (b1Len > b2Len) then Int.div b1Len b2Len else 1 in
  if decide (delta >= ARC.p c)
  then ARC.set_p 0 c
  else ARC.set_p (Int.sub (ARC.p c) delta) c.

(** The trimming of the ghost engines before a new key enters [t1]. *)
Definition trim_b1 c : ARC.ARCCache K V F :=
  if decide (Z.of_nat (length (Base.entries (ARC.b1 c))) >
             Int.sub (ARC.maxEntries c) (ARC.p c))
  then ARC.set_b1 (state (Base.RemoveOldest (ARC.b1 c))) c else c.

Definition trim_b2 c : ARC.ARCCache K V F :=
  if decide (Z.of_nat (length (Base.entries (ARC.b2 c))) > ARC.p c)
  then ARC.set_b2 (state (Base.RemoveOldest (ARC.b2 c))) c else c.

(** The state [Add] leaves, branch by branch. *)
Lemma ARC_Add_state c k v :
  wf_arc c ->
  state (ARC.Add k v c) =
  if decide (k ∈ keys_of (ARC.t1 c)) then
    ARC.set_t2 (state (Base.Add k v (ARC.t2 c)))
      (ARC.set_t1 (state (Base.Remove k (ARC.t1 c))) c)
  else if decide (k ∈ keys_of (ARC.t2 c)) then
    ARC.set_t2 (state (Base.Add k v (ARC.t2 c))) c
  else if decide (k ∈ keys_of (ARC.b1 c)) then
    let c1 := state (ARC.make_room false (grow_p c)) in
    let c2 := ARC.set_b1 (state (Base.Remove k (ARC.b1 c1))) c1 in
    ARC.set_t2 (state (Base.Add k v (ARC.t2 c2))) c2
  else if decide (k ∈ keys_of (ARC.b2 c)) then
    let c1 := state (ARC.make_room true (shrink_p c)) in
    let c2 := ARC.set_b2 (state (Base.Remove k (ARC.b2 c1))) c1 in
    ARC.set_t2 (state (Base.Add k v (ARC.t2 c2))) c2
  else
    let c3 := trim_b2 (trim_b1 (state (ARC.make_room false c))) in
    ARC.set_t1 (state (Base.Add k v (ARC.t1 c3))) c3.
Proof.
  intros (Ht1 & Hb1 & Ht2 & Hb2). unfold ARC.Add.
  rewrite (bind_pure _ _ _ _ (on_t1_Contains c k Ht1)).
  destruct (decide (k ∈ keys_of (ARC.t1 c))) as [Hi1|Hn1].
  { rewrite (bool_decide_eq_true_2 _ Hi1).
    rewrite (bind_step _ _ _ _ _ _ (on_t1_run _ c)).
    by rewrite bind_ret_tt, on_t2_run. }
  rewrite (bool_decide_eq_false_2 _ Hn1).
  rewrite (bind_pure _ _ _ _ (on_t2_Contains c k Ht2)).
  destruct (decide (k ∈ keys_of (ARC.t2 c))) as [Hi2|Hn2].
  { rewrite (bool_decide_eq_true_2 _ Hi2). by rewrite bind_ret_tt, on_t2_run. }
  rewrite (bool_decide_eq_false_2 _ Hn2).
  rewrite (bind_pure _ _ _ _ (on_b1_Contains c k Hb1)).
  destruct (decide (k ∈ keys_of (ARC.b1 c))) as [Hi3|Hn3].
  { rewrite (bool_decide_eq_true_2 _ Hi3).
    rewrite (bind_pure _ _ _ _ (on_b1_Len c)), (bind_pure _ _ _ _ (on_b2_Len c)).
    rewrite bind_get.
    assert (Hp : (if decide (Int.add (ARC.p c)
                     (if decide (Z.of_nat (length (Base.entries (ARC.b2 c))) >
                                 Z.of_nat (length (Base.entries (ARC.b1 c))))
                      then Int.div (Z.of_nat (length (Base.entries (ARC.b2 c))))
                                   (Z.of_nat (length (Base.entries (ARC.b1 c))))
                      else 1) >= ARC.maxEntries c)
                  then modify (E:=Base.ev K V F) (ARC.set_p (ARC.maxEntries c))
                  else modify (ARC.set_p (Int.add (ARC.p c)
                     (if decide (Z.of_nat (length (Base.entries (ARC.b2 c))) >
                                 Z.of_nat (length (Base.entries (ARC.b1 c))))
                      then Int.div (Z.of_nat (length (Base.entries (ARC.b2 c))))
                                   (Z.of_nat (length (Base.entries (ARC.b1 c))))
                      else 1)))) c = (tt, grow_p c, [])).
    { unfold grow_p. cbv zeta. by destruct (decide (Int.add _ _ >= _)). }
    rewrite (bind_step _ _ _ _ _ _ Hp).
    rewrite (bind_step _ _ _ _ _ _ (run_eta (ARC.make_room false (grow_p c)))).
    rewrite (bind_step _ _ _ _ _ _ (on_b1_run _ _)).
    by rewrite bind_ret_tt, on_t2_run. }
  rewrite (bool_decide_eq_false_2 _ Hn3).
  rewrite (bind_pure _ _ _ _ (on_b2_Contains c k Hb2)).
  destruct (decide (k ∈ keys_of (ARC.b2 c))) as [Hi4|Hn4].
  { rewrite (bool_decide_eq_true_2 _ Hi4).
    rewrite (bind_pure _ _ _ _ (on_b1_Len c)), (bind_pure _ _ _ _ (on_b2_Len c)).
    rewrite bind_get.
    assert (Hp : (if decide ((if decide (Z.of_nat (length (Base.entries (ARC.b1 c))) >
                                         Z.of_nat (length (Base.entries (ARC.b2 c))))
                      then Int.div (Z.of_nat (length (Base.entries (ARC.b1 c))))
                                   (Z.of_nat (length (Base.entries (ARC.b2 c))))
                      else 1) >= ARC.p c)
                  then modify (E:=Base.ev K V F) (ARC.set_p 0)
                  else modify (ARC.set_p (Int.sub (ARC.p c)
                     (if decide (Z.of_nat (length (Base.entries (ARC.b1 c))) >
                                 Z.of_nat (length (Base.entries (ARC.b2 c))))
                      then Int.div (Z.of_nat (length (Base.entries (ARC.b1 c))))
                                   (Z.of_nat (length (Base.entries (ARC.b2 c))))
                      else 1)))) c = (tt, shrink_p c, [])).
    { unfold shrink_p. cbv zeta. by destruct (decide (_ >= ARC.p c)). }
    rewrite (bind_step _ _ _ _ _ _ Hp).
    rewrite (bind_step _ _ _ _ _ _ (run_eta (ARC.make_room true (shrink_p c)))).
    rewrite (bind_step _ _ _ _ _ _ (on_b2_run _ _)).
    by rewrite bind_ret_tt, on_t2_run. }
  rewrite (bool_decide_eq_false_2 _ Hn4).
  rewrite (bind_step _ _ _ _ _ _ (run_eta (ARC.make_room false c))).
  set (c1 := state (ARC.make_room false c)).
  rewrite (bind_pure _ _ _ _ (on_b1_Len c1)), bind_get.
  assert (Hb : (if decide (Z.of_nat (length (Base.entries (ARC.b1 c1))) >
                           Int.sub (ARC.maxEntries c1) (ARC.p c1))
                then ARC.on_b1 Base.RemoveOldest ;; ret tt else ret tt) c1 =
               (tt, trim_b1 c1, trace ((if decide (Z.of_nat (length (Base.entries (ARC.b1 c1))) >
                           Int.sub (ARC.maxEntries c1) (ARC.p c1))
                then ARC.on_b1 Base.RemoveOldest ;; ret tt else ret tt) c1))).
  { unfold trim_b1. destruct (decide (_ > Int.sub _ _)); [|done].
    by rewrite bind_ret_tt, on_b1_run. }
  rewrite (bind_step _ _ _ _ _ _ Hb).
  set (c2 := trim_b1 c1).
  rewrite (bind_pure _ _ _ _ (on_b2_Len c2)), bind_get.
  assert (Hb' : (if decide (Z.of_nat (length (Base.entries (ARC.b2 c2))) > ARC.p c2)
                then ARC.on_b2 Base.RemoveOldest ;; ret tt else ret tt) c2 =
               (tt, trim_b2 c2, trace ((if decide (Z.of_nat (length (Base.entries (ARC.b2 c2))) > ARC.p c2)
                then ARC.on_b2 Base.RemoveOldest ;; ret tt else ret tt) c2))).
  { unfold trim_b2. destruct (decide (_ > ARC.p c2)); [|done].
    by rewrite bind_ret_tt, on_b2_run. }
  rewrite (bind_step _ _ _ _ _ _ Hb').
  by rewrite bind_ret_tt, on_t1_run.
Qed.

Lemma grow_p_set c : ∃ n, grow_p c = ARC.set_p n c.
Proof. unfold grow_p. cbv zeta. destruct (decide (Int.add _ _ >= _)); eauto. Qed.

Lemma shrink_p_set c : ∃ n, shrink_p c = ARC.set_p n c.
Proof. unfold shrink_p. cbv zeta. destruct (decide (_ >= ARC.p c)); eauto. Qed.

Lemma inv_set_p n c : inv c -> inv (ARC.set_p n c).
Proof. done. Qed.

(** A state whose engines are well formed and hold no more keys than those
    of [c0]. *)
Definition within c0 c : Prop :=
  wf_arc c ∧
  ks (ARC.t1 c) ⊆ ks (ARC.t1 c0) ∧ ks (ARC.t2 c) ⊆ ks (ARC.t2 c0) ∧
  ks (ARC.b1 c) ⊆ ks (ARC.b1 c0) ∧ ks (ARC.b2 c) ⊆ ks (ARC.b2 c0).

Lemma ARC_within_refl c : wf_arc c -> within c c.
Proof. by intros Hwf. Qed.

Lemma ARC_within_inv c0 c : inv c0 -> within c0 c -> inv c.
Proof.
  intros [_ (Hd1 & Hd2 & Hd3 & Hd4 & Hd5 & Hd6)] (Hwf & Hs1 & Hs2 & Hs3 & Hs4).
  split; [done|]. unfold disjoint. keys_solver.
Qed.

Lemma within_trim_b1 c : wf_arc c -> within c (trim_b1 c).
Proof.
  intros Hwf. pose proof Hwf as (Ht1 & Hb1 & Ht2 & Hb2). unfold trim_b1.
  destruct (decide _) as [Hgt|Hle]; [|by apply ARC_within_refl].
  destruct (ks_RemoveOldest (ARC.b1 c) Hb1) as [Hsub _].
  destruct (RemoveOldest_wf (ARC.b1 c) Hb1) as [Hw _].
  split; [exact (conj Ht1 (conj Hw (conj Ht2 Hb2)))|].
  cbn [ARC.t1 ARC.t2 ARC.b1 ARC.b2 ARC.set_b1]. keys_solver.
Qed.

Lemma within_trim_b2 c : wf_arc c -> within c (trim_b2 c).
Proof.
  intros Hwf. pose proof Hwf as (Ht1 & Hb1 & Ht2 & Hb2). unfold trim_b2.
  destruct (decide _) as [Hgt|Hle]; [|by apply ARC_within_refl].
  destruct (ks_RemoveOldest (ARC.b2 c) Hb2) as [Hsub _].
  destruct (RemoveOldest_wf (ARC.b2 c) Hb2) as [Hw _].
  split; [exact (conj Ht1 (conj Hb1 (conj Ht2 Hw)))|].
  cbn [ARC.t1 ARC.t2 ARC.b1 ARC.b2 ARC.set_b2]. keys_solver.
Qed.

Lemma ARC_Add_inv c k v : inv c -> inv (state (ARC.Add k v c)).
Proof.
  intros Hinv. pose proof Hinv as [Hwf (Hd1 & Hd2 & Hd3 & Hd4 & Hd5 & Hd6)].
  pose proof Hwf as (Ht1 & Hb1 & Ht2 & Hb2).
  split; [by apply preserves_ARC_Add|].
  rewrite (ARC_Add_state c k v Hwf).
  destruct (decide (k ∈ keys_of (ARC.t1 c))) as [Hi1|Hn1];
    [|destruct (decide (k ∈ keys_of (ARC.t2 c))) as [Hi2|Hn2];
      [|destruct (decide (k ∈ keys_of (ARC.b1 c))) as [Hi3|Hn3];
        [|destruct (decide (k ∈ keys_of (ARC.b2 c))) as [Hi4|Hn4]]]].
  - pose proof (ks_Add (ARC.t2 c) k v Ht2) as Ha.
    pose proof (ks_Remove (ARC.t1 c) k Ht1) as Hrm.
    apply elem_of_ks in Hi1. unfold disjoint.
    cbn [ARC.t1 ARC.t2 ARC.b1 ARC.b2 ARC.set_t1 ARC.set_t2].
    rewrite Hrm. keys_solver.
  - pose proof (ks_Add (ARC.t2 c) k v Ht2) as Ha.
    apply elem_of_ks in Hi2. unfold disjoint.
    cbn [ARC.t1 ARC.t2 ARC.b1 ARC.b2 ARC.set_t2]. keys_solver.
  - cbv zeta. destruct (grow_p_set c) as [n Hn]. rewrite Hn.
    destruct (make_room_keys false _ (inv_set_p n c Hinv))
      as ([Hwf1 (He1 & He2 & He3 & He4 & He5 & He6)] & Hs1 & Hs2 & Hs3 & Hs4).
    set (c1 := state (ARC.make_room false (ARC.set_p n c))) in *.
    cbn [ARC.t1 ARC.t2 ARC.b1 ARC.b2 ARC.set_p] in Hs1, Hs2, Hs3, Hs4.
    pose proof Hwf1 as (Ht1' & Hb1' & Ht2' & Hb2').
    pose proof (ks_Remove (ARC.b1 c1) k Hb1') as Hrm.
    pose proof (ks_Add (ARC.t2 c1) k v Ht2') as Ha.
    rewrite <- !elem_of_ks in Hn1, Hn2. apply elem_of_ks in Hi3. unfold disjoint.
    cbn [ARC.t1 ARC.t2 ARC.b1 ARC.b2 ARC.set_b1 ARC.set_t2].
    rewrite Hrm. keys_solver.
  - cbv zeta. destruct (shrink_p_set c) as [n Hn]. rewrite Hn.
    destruct (make_room_keys true _ (inv_set_p n c Hinv))
      as ([Hwf1 (He1 & He2 & He3 & He4 & He5 & He6)] & Hs1 & Hs2 & Hs3 & Hs4).
    set (c1 := state (ARC.make_room true (ARC.set_p n c))) in *.
    cbn [ARC.t1 ARC.t2 ARC.b1 ARC.b2 ARC.set_p] in Hs1, Hs2, Hs3, Hs4.
    pose proof Hwf1 as (Ht1' & Hb1' & Ht2' & Hb2').
    pose proof (ks_Remove (ARC.b2 c1) k Hb2') as Hrm.
    pose proof (ks_Add (ARC.t2 c1) k v Ht2') as Ha.
    rewrite <- !elem_of_ks in Hn1, Hn2, Hn3. apply elem_of_ks in Hi4. unfold disjoint.
    cbn [ARC.t1 ARC.t2 ARC.b1 ARC.b2 ARC.set_b2 ARC.set_t2].
    rewrite Hrm. keys_solver.
  - cbv zeta.
    destruct (make_room_keys false c Hinv) as ([Hwf1 Hdis1] & Hs1 & Hs2 & Hs3 & Hs4).
    set (c1 := state (ARC.make_room false c)) in *.
    destruct (within_trim_b1 c1 Hwf1) as (Hwf2 & Hu1 & Hu2 & Hu3 & Hu4).
    set (c2 := trim_b1 c1) in *.
    destruct (within_trim_b2 c2 Hwf2) as (Hwf3 & Hv1 & Hv2 & Hv3 & Hv4).
    set (c3 := trim_b2 c2) in *.
    assert (Hinv3 : inv c3).
    { apply (ARC_within_inv c2); [|by split].
      apply (ARC_within_inv c1); [by split|by split]. }
    destruct Hinv3 as [_ (He1 & He2 & He3 & He4 & He5 & He6)].
    pose proof Hwf3 as (Ht1' & Hb1' & Ht2' & Hb2').
    pose proof (ks_Add (ARC.t1 c3) k v Ht1') as Ha.
    rewrite <- !elem_of_ks in Hn1, Hn2, Hn3, Hn4. unfold disjoint.
    cbn [ARC.t1 ARC.t2 ARC.b1 ARC.b2 ARC.set_t1]. keys_solver.
Qed.

(** The state [Get] leaves. *)
Lemma ARC_Get_state c k :
  wf_arc c ->
  state (ARC.Get k c) =
  match Base.list_Value k (Base.entries (ARC.t1 c)) with
  | Some e =>
      ARC.set_t2 (state (Base.Add k (Base.value e) (ARC.t2 c)))
        (ARC.set_t1 (state (Base.Remove k (ARC.t1 c))) c)
  | None => ARC.set_t2 (state (Base.Get k (ARC.t2 c))) c
  end.
Proof.
  intros Hwf. pose proof Hwf as (Ht1 & Hb1 & Ht2 & Hb2).
  destruct (Base.list_Value k (Base.entries (ARC.t1 c))) as [e|] eqn:He.
  - rewrite (ARC_Get_promotes c k e Hwf He). cbn [state fst snd].
    by rewrite (Remove_hit _ k e Ht1 He).
  - apply Value_None in He. unfold ARC.Get.
    rewrite (bind_step _ _ _ _ _ _ (on_t1_run _ c)).
    rewrite (Peek_miss _ k Ht1 He). cbn [result state trace fst snd].
    rewrite set_t1_id.
    rewrite (bind_step _ _ _ _ _ _ (on_t2_run _ c)).
    by destruct (result (Base.Get k (ARC.t2 c))).2.
Qed.

Lemma ARC_Get_inv c k : inv c -> inv (state (ARC.Get k c)).
Proof.
  intros Hinv. pose proof Hinv as [Hwf (Hd1 & Hd2 & Hd3 & Hd4 & Hd5 & Hd6)].
  pose proof Hwf as (Ht1 & Hb1 & Ht2 & Hb2).
  split; [by apply preserves_ARC_Get|].
  rewrite (ARC_Get_state c k Hwf).
  destruct (Base.list_Value k (Base.entries (ARC.t1 c))) as [e|] eqn:He.
  - assert (Hi1 : k ∈ ks (ARC.t1 c)).
    { apply elem_of_ks. destruct (Value_Some _ _ _ He) as [<- Hin].
      unfold keys_of, keys. by apply list_elem_of_fmap_2. }
    pose proof (ks_Add (ARC.t2 c) k (Base.value e) Ht2) as Ha.
    pose proof (ks_Remove (ARC.t1 c) k Ht1) as Hrm. unfold disjoint.
    cbn [ARC.t1 ARC.t2 ARC.b1 ARC.b2 ARC.set_t1 ARC.set_t2].
    rewrite Hrm. keys_solver.
  - pose proof (ks_Get (ARC.t2 c) k Ht2) as Hg. unfold disjoint.
    cbn [ARC.t1 ARC.t2 ARC.b1 ARC.b2 ARC.set_t2]. by rewrite Hg.
Qed.

Lemma ARC_within_Remove c0 k : preserves (within c0) (ARC.Remove k).
Proof.
  assert (H1' : preserves (within c0) (ARC.on_t1 (Base.Remove k))).
  { intros c (Hwf & Hs1 & Hs2 & Hs3 & Hs4). pose proof Hwf as (Ht1 & Hb1 & Ht2 & Hb2).
    split; [by apply preserves_on_t1; [apply preserves_Remove|]|].
    rewrite on_t1_run. cbn [state fst snd].
    pose proof (ks_Remove (ARC.t1 c) k Ht1) as Hrm.
    cbn [ARC.t1 ARC.t2 ARC.b1 ARC.b2 ARC.set_t1]. rewrite Hrm. keys_solver. }
  assert (H2' : preserves (within c0) (ARC.on_t2 (Base.Remove k))).
  { intros c (Hwf & Hs1 & Hs2 & Hs3 & Hs4). pose proof Hwf as (Ht1 & Hb1 & Ht2 & Hb2).
    split; [by apply preserves_on_t2; [apply preserves_Remove|]|].
    rewrite on_t2_run. cbn [state fst snd].
    pose proof (ks_Remove (ARC.t2 c) k Ht2) as Hrm.
    cbn [ARC.t1 ARC.t2 ARC.b1 ARC.b2 ARC.set_t2]. rewrite Hrm. keys_solver. }
  assert (H3' : preserves (within c0) (ARC.on_b1 (Base.Remove k))).
  { intros c (Hwf & Hs1 & Hs2 & Hs3 & Hs4). pose proof Hwf as (Ht1 & Hb1 & Ht2 & Hb2).
    split; [by apply preserves_on_b1; [apply preserves_Remove|]|].
    rewrite on_b1_run. cbn [state fst snd].
    pose proof (ks_Remove (ARC.b1 c) k Hb1) as Hrm.
    cbn [ARC.t1 ARC.t2 ARC.b1 ARC.b2 ARC.set_b1]. rewrite Hrm. keys_solver. }
  assert (H4' : preserves (within c0) (ARC.on_b2 (Base.Remove k))).
  { intros c (Hwf & Hs1 & Hs2 & Hs3 & Hs4). pose proof Hwf as (Ht1 & Hb1 & Ht2 & Hb2).
    split; [by apply preserves_on_b2; [apply preserves_Remove|]|].
    rewrite on_b2_run. cbn [state fst snd].
    pose proof (ks_Remove (ARC.b2 c) k Hb2) as Hrm.
    cbn [ARC.t1 ARC.t2 ARC.b1 ARC.b2 ARC.set_b2]. rewrite Hrm. keys_solver. }
  unfold ARC.Remove.
  apply preserves_bind; [done|]. intros a.
  apply preserves_if; [apply preserves_ret|].
  apply preserves_bind; [done|]. intros b.
  apply preserves_if; [apply preserves_ret|].
  apply preserves_bind; [done|]. intros d.
  apply preserves_if; [apply preserves_ret|].
  apply preserves_bind; [done|]. intros d'.
  apply preserves_if; apply preserves_ret.
Qed.

Lemma ARC_Remove_inv c k : inv c -> inv (state (ARC.Remove k c)).
Proof.
  intros Hinv. apply (ARC_within_inv c); [done|].
  apply ARC_within_Remove, ARC_within_refl, Hinv.
Qed.

Lemma ARC_Clear_inv c : inv c -> inv (state (ARC.Clear c)).
Proof.
  intros [Hwf _]. split; [by apply preserves_ARC_Clear|].
  rewrite (ARC_Clear_run c Hwf). cbn [state fst snd]. unfold disjoint.
  cbn [ARC.t1 ARC.t2 ARC.b1 ARC.b2].
  assert (He : ∀ e : Base.unsafeCache K V F, ks (cleared e) = ∅) by done.
  rewrite !He. set_solver.
Qed.

Lemma ARC_New_inv n opts : inv (ARC.NewARC (K:=K) (V:=V) (F:=F) n opts).
Proof.
  split; [apply wf_NewARC|]. unfold disjoint, ARC.NewARC.
  cbn [ARC.t1 ARC.t2 ARC.b1 ARC.b2]. rewrite !ks_New. set_solver.
Qed.

Lemma ARC_exec_inv o c : inv c -> inv (exec o c).
Proof.
  destruct o; simpl; [apply ARC_Add_inv|apply ARC_Get_inv|apply ARC_Remove_inv|apply ARC_Clear_inv].
Qed.

Lemma ARC_run_inv os c : inv c -> inv (run os c).
Proof.
  unfold run. revert c. induction os as [|o os IH]; intros c Hc; [done|].
  simpl. by apply IH, ARC_exec_inv.
Qed.

Lemma ARC_reached_inv n opts os : inv (reached n opts os).
Proof. apply ARC_run_inv, ARC_New_inv. Qed.

(** *** Properties of the four engines *)

(** A property that each of the four engines has. *)
Definition lift (Q : Base.unsafeCache K V F -> Prop) c : Prop :=
  Q (ARC.t1 c) ∧ Q (ARC.b1 c) ∧ Q (ARC.t2 c) ∧ Q (ARC.b2 c).

Lemma lift_on_t1 {A} Q (m : Base.Engine A) :
  preserves Q m -> preserves (lift Q) (ARC.on_t1 m).
Proof.
  intros Hm c (H1' & H2' & H3' & H4'). rewrite on_t1_run. cbn [state fst snd].
  split; [by apply Hm|done].
Qed.

Lemma lift_on_b1 {A} Q (m : Base.Engine A) :
  preserves Q m -> preserves (lift Q) (ARC.on_b1 m).
Proof.
  intros Hm c (H1' & H2' & H3' & H4'). rewrite on_b1_run. cbn [state fst snd].
  split; [done|]. split; [by apply Hm|done].
Qed.

Lemma lift_on_t2 {A} Q (m : Base.Engine A) :
  preserves Q m -> preserves (lift Q) (ARC.on_t2 m).
Proof.
  intros Hm c (H1' & H2' & H3' & H4'). rewrite on_t2_run. cbn [state fst snd].
  split; [done|]. split; [done|]. split; [by apply Hm|done].
Qed.

Lemma lift_on_b2 {A} Q (m : Base.Engine A) :
  preserves Q m -> preserves (lift Q) (ARC.on_b2 m).
Proof.
  intros Hm c (H1' & H2' & H3' & H4'). rewrite on_b2_run. cbn [state fst snd].
  split; [done|]. split; [done|]. split; [done|]. by apply Hm.
Qed.

Lemma lift_set_p Q n : preserves (E:=Base.ev K V F) (lift Q) (modify (ARC.set_p n)).
Proof. by intros c Hc. Qed.

(** Going through a method step by step, with the facts on the base
    engine at hand. *)
Ltac lift_steps :=
  repeat first
    [ apply preserves_ret | apply preserves_get | apply lift_set_p
    | apply lift_on_t1 | apply lift_on_b1 | apply lift_on_t2 | apply lift_on_b2
    | assumption
    | match goal with H : ∀ _, preserves _ _ |- _ => apply H end
    | match goal with H : ∀ _ _, preserves _ _ |- _ => apply H end
    | apply preserves_bind; [|intros ?]
    | apply preserves_if | apply preserves_decide ].

Lemma lift_replace Q b : base_keeps Q -> preserves (lift Q) (ARC.replace b).
Proof.
  intros (HAdd & HGet & HRemove & HRO & HClear & HContains & HLen & HPeek).
  unfold ARC.replace. lift_steps.
Qed.

Lemma lift_make_room Q b : base_keeps Q -> preserves (lift Q) (ARC.make_room b).
Proof.
  intros HQ. pose proof (lift_replace Q b HQ) as Hrep.
  destruct HQ as (HAdd & HGet & HRemove & HRO & HClear & HContains & HLen & HPeek).
  unfold ARC.make_room. lift_steps.
Qed.

Lemma lift_Add Q k v : base_keeps Q -> preserves (lift Q) (ARC.Add k v).
Proof.
  intros HQ. pose proof (lift_make_room Q false HQ) as Hmf.
  pose proof (lift_make_room Q true HQ) as Hmt.
  destruct HQ as (HAdd & HGet & HRemove & HRO & HClear & HContains & HLen & HPeek).
  unfold ARC.Add. lift_steps.
Qed.

Lemma lift_Get Q k : base_keeps Q -> preserves (lift Q) (ARC.Get k).
Proof.
  intros (HAdd & HGet & HRemove & HRO & HClear & HContains & HLen & HPeek).
  unfold ARC.Get. lift_steps.
Qed.

Lemma lift_Remove Q k : base_keeps Q -> preserves (lift Q) (ARC.Remove k).
Proof.
  intros (HAdd & HGet & HRemove & HRO & HClear & HContains & HLen & HPeek).
  unfold ARC.Remove. lift_steps.
Qed.

Lemma lift_Clear Q : base_keeps Q -> preserves (lift Q) ARC.Clear.
Proof.
  intros (HAdd & HGet & HRemove & HRO & HClear & HContains & HLen & HPeek).
  unfold ARC.Clear. lift_steps.
Qed.

Lemma lift_exec Q o c : base_keeps Q -> lift Q c -> lift Q (exec o c).
Proof.
  intros HQ. destruct o; simpl;
    [by apply lift_Add|by apply lift_Get|by apply lift_Remove|by apply lift_Clear].
Qed.

Lemma lift_run Q os c : base_keeps Q -> lift Q c -> lift Q (run os c).
Proof.
  intros HQ. unfold run. revert c. induction os as [|o os IH]; intros c Hc; [done|].
  simpl. by apply IH, lift_exec.
Qed.

Lemma lift_wf Q c : (∀ e, Q e -> wf e) -> lift Q c -> wf_arc c.
Proof. intros HQ (H1' & H2' & H3' & H4'). repeat split; by apply HQ. Qed.

(** *** The capacity and the target [p] *)

Definition config (m q : Z) c : Prop := ARC.maxEntries c = m ∧ ARC.p c = q.

Lemma config_on_t1 {A} m q (e : Base.Engine A) : preserves (config m q) (ARC.on_t1 e).
Proof. intros c Hc. by rewrite on_t1_run. Qed.
Lemma config_on_b1 {A} m q (e : Base.Engine A) : preserves (config m q) (ARC.on_b1 e).
Proof. intros c Hc. by rewrite on_b1_run. Qed.
Lemma config_on_t2 {A} m q (e : Base.Engine A) : preserves (config m q) (ARC.on_t2 e).
Proof. intros c Hc. by rewrite on_t2_run. Qed.
Lemma config_on_b2 {A} m q (e : Base.Engine A) : preserves (config m q) (ARC.on_b2 e).
Proof. intros c Hc. by rewrite on_b2_run. Qed.

Ltac config_steps :=
  repeat first
    [ apply preserves_ret | apply preserves_get
    | apply config_on_t1 | apply config_on_b1 | apply config_on_t2 | apply config_on_b2
    | assumption
    | apply preserves_bind; [|intros ?]
    | apply preserves_if | apply preserves_decide ].

Lemma config_replace m q b : preserves (config m q) (ARC.replace b).
Proof. unfold ARC.replace. config_steps. Qed.

Lemma config_make_room m q b : preserves (config m q) (ARC.make_room b).
Proof.
  pose proof (config_replace m q b) as Hrep. unfold ARC.make_room. config_steps.
Qed.

Lemma ARC_config_Get m q k : preserves (config m q) (ARC.Get k).
Proof. unfold ARC.Get. config_steps. Qed.

Lemma ARC_config_Remove m q k : preserves (config m q) (ARC.Remove k).
Proof. unfold ARC.Remove. config_steps. Qed.

Lemma ARC_config_Clear m q : preserves (config m q) ARC.Clear.
Proof. unfold ARC.Clear. config_steps. Qed.

Lemma config_trim_b1 m q c : config m q c -> config m q (trim_b1 c).
Proof. unfold trim_b1. by destruct (decide _). Qed.

Lemma config_trim_b2 m q c : config m q c -> config m q (trim_b2 c).
Proof. unfold trim_b2. by destruct (decide _). Qed.

Lemma grow_p_maxEntries c : ARC.maxEntries (grow_p c) = ARC.maxEntries c.
Proof. destruct (grow_p_set c) as [n ->]. done. Qed.

Lemma shrink_p_maxEntries c : ARC.maxEntries (shrink_p c) = ARC.maxEntries c.
Proof. destruct (shrink_p_set c) as [n ->]. done. Qed.

(** [Add] changes [p] only on a hit in a ghost engine. *)
Lemma Add_config c k v :
  wf_arc c ->
  config (ARC.maxEntries c)
    (if decide (k ∈ keys_of (ARC.t1 c)) then ARC.p c
     else if decide (k ∈ keys_of (ARC.t2 c)) then ARC.p c
     else if decide (k ∈ keys_of (ARC.b1 c)) then ARC.p (grow_p c)
     else if decide (k ∈ keys_of (ARC.b2 c)) then ARC.p (shrink_p c)
     else ARC.p c)
    (state (ARC.Add k v c)).
Proof.
  intros Hwf. rewrite (ARC_Add_state c k v Hwf).
  destruct (decide (k ∈ keys_of (ARC.t1 c))) as [Hi1|Hn1]; [done|].
  destruct (decide (k ∈ keys_of (ARC.t2 c))) as [Hi2|Hn2]; [done|].
  destruct (decide (k ∈ keys_of (ARC.b1 c))) as [Hi3|Hn3].
  { cbv zeta.
    assert (Hc : config (ARC.maxEntries c) (ARC.p (grow_p c)) (grow_p c))
      by (split; [apply grow_p_maxEntries|done]).
    apply (config_make_room _ _ false) in Hc. exact Hc. }
  destruct (decide (k ∈ keys_of (ARC.b2 c))) as [Hi4|Hn4].
  { cbv zeta.
    assert (Hc : config (ARC.maxEntries c) (ARC.p (shrink_p c)) (shrink_p c))
      by (split; [apply shrink_p_maxEntries|done]).
    apply (config_make_room _ _ true) in Hc. exact Hc. }
  cbv zeta.
  assert (Hc : config (ARC.maxEntries c) (ARC.p c) c) by done.
  apply (config_make_room _ _ false) in Hc.
  apply config_trim_b1, config_trim_b2 in Hc. exact Hc.
Qed.

Lemma quot_bounds a b : 0 <= a -> 0 <= b -> 0 <= Z.quot a b <= a.
Proof.
  intros Ha Hb. destruct (decide (b = 0)) as [->|Hb0].
  - rewrite Z.quot_0_r_ext by done. lia.
  - rewrite Z.quot_div_nonneg by lia. split; [apply Z.div_pos; lia|].
    apply Z.div_le_upper_bound; [lia|nia].
Qed.

Lemma div_bounds a b :
  0 <= a <= Int.max_int -> 0 <= b -> 0 <= Int.div a b <= a.
Proof.
  intros Ha Hb. unfold Int.div. pose proof (quot_bounds a b (proj1 Ha) Hb).
  rewrite IntFacts.wrap_id; [done|].
  unfold Int.in_range, Int.min_int, Int.max_int in *. lia.
Qed.

Lemma grow_p_bounds m c :
  1 <= m -> 2 * m <= Int.max_int -> ARC.maxEntries c = m -> 0 <= ARC.p c <= m ->
  Z.of_nat (count (ARC.b2 c)) <= m ->
  ARC.p c <= ARC.p (grow_p c) <= m.
Proof.
  intros Hm H2m Hmax Hp Hb2. unfold grow_p, count in *. cbv zeta.
  set (b1Len := Z.of_nat (length (Base.entries (ARC.b1 c)))) in *.
  set (b2Len := Z.of_nat (length (Base.entries (ARC.b2 c)))) in *.
  assert (Hd : 0 <= (if decide (b2Len > b1Len) then Int.div b2Len b1Len else 1) <= m).
  { destruct (decide (b2Len > b1Len)); [|lia].
    pose proof (div_bounds b2Len b1Len). unfold Int.max_int in *. lia. }
  revert Hd. generalize (if decide (b2Len > b1Len) then Int.div b2Len b1Len else 1).
  intros delta Hd.
  rewrite IntFacts.add_id by (unfold Int.in_range, Int.min_int, Int.max_int in *; lia).
  rewrite Hmax. destruct (decide (ARC.p c + delta >= m)); cbn [ARC.p ARC.set_p]; lia.
Qed.

Lemma shrink_p_bounds m c :
  0 <= ARC.p c <= m -> m <= Int.max_int ->
  Z.of_nat (count (ARC.b1 c)) <= m ->
  0 <= ARC.p (shrink_p c) <= ARC.p c.
Proof.
  intros Hp Hm Hb1. unfold shrink_p, count in *. cbv zeta.
  set (b1Len := Z.of_nat (length (Base.entries (ARC.b1 c)))) in *.
  set (b2Len := Z.of_nat (length (Base.entries (ARC.b2 c)))) in *.
  assert (Hd : 0 <= (if decide (b1Len > b2Len) then Int.div b1Len b2Len else 1) <= Z.max 1 m).
  { destruct (decide (b1Len > b2Len)); [|lia].
    pose proof (div_bounds b1Len b2Len). unfold Int.max_int in *. lia. }
  revert Hd. generalize (if decide (b1Len > b2Len) then Int.div b1Len b2Len else 1).
  intros delta Hd.
  destruct (decide (delta >= ARC.p c)); cbn [ARC.p ARC.set_p]; [lia|].
  rewrite IntFacts.sub_id by (unfold Int.in_range, Int.min_int, Int.max_int in *; lia).
  lia.
Qed.

(** Engines of capacity [m] that respect it, and a target [p] from 0 to
    [m]. *)
Definition tuned (m : Z) c : Prop :=
  lift (sizedm m) c ∧ ARC.maxEntries c = m ∧ 0 <= ARC.p c <= m.

Lemma tuned_wf m c : tuned m c -> wf_arc c.
Proof. intros [Hl _]. apply (lift_wf (sizedm m)); [|done]. by intros e ([? _] & _). Qed.

Lemma Add_tuned m c k v :
  1 <= m -> 2 * m <= Int.max_int -> tuned m c -> tuned m (state (ARC.Add k v c)).
Proof.
  intros Hm H2m Ht. pose proof (tuned_wf m c Ht) as Hwf.
  destruct Ht as (Hl & Hmax & Hp).
  split; [by apply lift_Add; [apply keeps_sizedm|]|].
  destruct (Add_config c k v Hwf) as [-> ->]. split; [done|].
  destruct Hl as (_ & (_ & _ & Hc1) & _ & (_ & _ & Hc2)).
  destruct (decide (k ∈ keys_of (ARC.t1 c))); [done|].
  destruct (decide (k ∈ keys_of (ARC.t2 c))); [done|].
  destruct (decide (k ∈ keys_of (ARC.b1 c))).
  { pose proof (grow_p_bounds m c Hm H2m Hmax Hp Hc2). lia. }
  destruct (decide (k ∈ keys_of (ARC.b2 c))); [|done].
  assert (Hmi : m <= Int.max_int) by lia.
  pose proof (shrink_p_bounds m c Hp Hmi Hc1). lia.
Qed.

Lemma keeps_tuned {A} m (e : ARC.Method A) c :
  preserves (lift (sizedm m)) e ->
  (∀ q, preserves (config m q) e) ->
  tuned m c -> tuned m (state (e c)).
Proof.
  intros Hl Hc (Hs & Hmax & Hp). split; [by apply Hl|].
  destruct (Hc (ARC.p c) c (conj Hmax eq_refl)) as [-> ->]. done.
Qed.

Lemma exec_tuned m o c :
  1 <= m -> 2 * m <= Int.max_int -> tuned m c -> tuned m (exec o c).
Proof.
  intros Hm H2m Ht. destruct o; simpl.
  - by apply Add_tuned.
  - apply keeps_tuned; [apply lift_Get, keeps_sizedm|intros; apply ARC_config_Get|done].
  - apply keeps_tuned; [apply lift_Remove, keeps_sizedm|intros; apply ARC_config_Remove|done].
  - apply keeps_tuned; [apply lift_Clear, keeps_sizedm|intros; apply ARC_config_Clear|done].
Qed.

Lemma run_tuned m os c :
  1 <= m -> 2 * m <= Int.max_int -> tuned m c -> tuned m (run os c).
Proof.
  intros Hm H2m. unfold run. revert c. induction os as [|o os IH]; intros c Hc; [done|].
  simpl. by apply IH, exec_tuned.
Qed.

Lemma New_tuned n opts :
  n <= Int.max_int ->
  let m := if decide (n <= 0) then Base.defaultSize else n in
  tuned m (ARC.NewARC (K:=K) (V:=V) (F:=F) n opts).
Proof.
  intros Hn m. destruct (sizedm_New (K:=K) (V:=V) (F:=F) n opts Hn) as [Hs Hm].
  fold m in Hs, Hm. unfold ARC.NewARC. fold m.
  split; [exact (conj Hs (conj Hs (conj Hs Hs)))|]. cbn [ARC.maxEntries ARC.p]. lia.
Qed.

(** *** Where [Add] leaves the key *)

Lemma lift_trim_b1 Q c : base_keeps Q -> lift Q c -> lift Q (trim_b1 c).
Proof.
  intros (_ & _ & _ & HRO & _) Hc. unfold trim_b1.
  destruct (decide _); [|done]. destruct Hc as (H1' & H2' & H3' & H4').
  split; [done|]. split; [by apply HRO|done].
Qed.

Lemma lift_trim_b2 Q c : base_keeps Q -> lift Q c -> lift Q (trim_b2 c).
Proof.
  intros (_ & _ & _ & HRO & _) Hc. unfold trim_b2.
  destruct (decide _); [|done]. destruct Hc as (H1' & H2' & H3' & H4').
  split; [done|]. split; [done|]. split; [done|]. by apply HRO.
Qed.

(** After [Add k v] the entry is at the front of [t2], or the key is new to
    the cache, absent from [t2] and at the front of [t1]. *)
Lemma ARC_Add_placed m c k v :
  1 <= m -> lift (wfm m) c -> inv c ->
  let c' := state (ARC.Add k v c) in
  ((k ∈ keys_of (ARC.t1 c) ∨ k ∈ keys_of (ARC.t2 c) ∨
    k ∈ keys_of (ARC.b1 c) ∨ k ∈ keys_of (ARC.b2 c)) ∧
   ∃ l, Base.entries (ARC.t2 c') = Base.Entry k v :: l) ∨
  ((k ∉ keys_of (ARC.t1 c) ∧ k ∉ keys_of (ARC.t2 c) ∧
    k ∉ keys_of (ARC.b1 c) ∧ k ∉ keys_of (ARC.b2 c)) ∧
   k ∉ keys_of (ARC.t2 c') ∧
   ∃ l, Base.entries (ARC.t1 c') = Base.Entry k v :: l).
Proof.
  intros Hm Hcaps Hinv c'. unfold c'. clear c'.
  pose proof Hinv as [Hwf _].
  pose proof Hcaps as ([Ht1 Hm1] & [Hb1 Hm2] & [Ht2 Hm3] & [Hb2 Hm4]).
  rewrite (ARC_Add_state c k v Hwf).
  destruct (decide (k ∈ keys_of (ARC.t1 c))) as [Hi1|Hn1];
    [|destruct (decide (k ∈ keys_of (ARC.t2 c))) as [Hi2|Hn2];
      [|destruct (decide (k ∈ keys_of (ARC.b1 c))) as [Hi3|Hn3];
        [|destruct (decide (k ∈ keys_of (ARC.b2 c))) as [Hi4|Hn4]]]].
  - left. split; [by left|]. cbn [ARC.t2 ARC.set_t2 ARC.set_t1].
    apply Add_front; [done|lia].
  - left. split; [by right; left|]. cbn [ARC.t2 ARC.set_t2].
    apply Add_front; [done|lia].
  - left. split; [by right; right; left|]. cbv zeta.
    destruct (grow_p_set c) as [n Hn]. rewrite Hn.
    assert (Hl : lift (wfm m) (ARC.set_p n c)) by done.
    apply (lift_make_room _ false (keeps_wfm m)) in Hl.
    destruct Hl as (_ & _ & [Hw Hmx] & _).
    cbn [ARC.t2 ARC.set_t2 ARC.set_b1]. apply Add_front; [done|lia].
  - left. split; [by right; right; right|]. cbv zeta.
    destruct (shrink_p_set c) as [n Hn]. rewrite Hn.
    assert (Hl : lift (wfm m) (ARC.set_p n c)) by done.
    apply (lift_make_room _ true (keeps_wfm m)) in Hl.
    destruct Hl as (_ & _ & [Hw Hmx] & _).
    cbn [ARC.t2 ARC.set_t2 ARC.set_b2]. apply Add_front; [done|lia].
  - right. split; [done|]. cbv zeta.
    pose proof (lift_make_room _ false (keeps_wfm m) c Hcaps) as Hl.
    destruct (make_room_keys false c Hinv) as ([Hwf1 _] & _ & Hs2 & _).
    set (c1 := state (ARC.make_room false c)) in *.
    apply (lift_trim_b1 _ _ (keeps_wfm m)) in Hl.
    destruct (within_trim_b1 c1 Hwf1) as (Hwf2 & _ & Hu2 & _).
    set (c2 := trim_b1 c1) in *.
    apply (lift_trim_b2 _ _ (keeps_wfm m)) in Hl.
    destruct (within_trim_b2 c2 Hwf2) as (Hwf3 & _ & Hv2 & _).
    set (c3 := trim_b2 c2) in *.
    destruct Hl as ([Hw Hmx] & _).
    cbn [ARC.t1 ARC.t2 ARC.set_t1]. split.
    + rewrite <- elem_of_ks in Hn2 |- *. keys_solver.
    + apply Add_front; [done|lia].
Qed.

(** *** The queries *)

Lemma ARC_Peek_run c k :
  wf_arc c ->
  ARC.Peek k c =
  (if decide (k ∈ keys_of (ARC.t1 c)) then result (Base.Peek k (ARC.t1 c))
   else result (Base.Peek k (ARC.t2 c)), c, []).
Proof.
  intros (Ht1 & Hb1 & Ht2 & Hb2). unfold ARC.Peek.
  destruct (decide (k ∈ keys_of (ARC.t1 c))) as [Hi|Hn].
  - destruct (Value_elem _ _ Hi) as [e He].
    rewrite (bind_step _ _ _ _ _ _ (on_t1_run _ c)).
    rewrite (Peek_hit _ k e Ht1 He). cbn [result state trace fst snd].
    by rewrite set_t1_id.
  - rewrite (bind_step _ _ _ _ _ _ (on_t1_run _ c)).
    rewrite (Peek_miss _ k Ht1 Hn). cbn [result state trace fst snd].
    rewrite set_t1_id, on_t2_run.
    destruct (Base.list_Value k (Base.entries (ARC.t2 c))) as [e|] eqn:He.
    + rewrite (Peek_hit _ k e Ht2 He). cbn [result state trace fst snd].
      by rewrite set_t2_id.
    + apply Value_None in He. rewrite (Peek_miss _ k Ht2 He).
      cbn [result state trace fst snd]. by rewrite set_t2_id.
Qed.

Lemma Get_t2_run c k :
  wf_arc c -> k ∉ keys_of (ARC.t1 c) ->
  ARC.Get k c =
  (result (Base.Get k (ARC.t2 c)), ARC.set_t2 (state (Base.Get k (ARC.t2 c))) c, []).
Proof.
  intros (Ht1 & Hb1 & Ht2 & Hb2) Hn1. unfold ARC.Get.
  rewrite (bind_step _ _ _ _ _ _ (on_t1_run _ c)).
  rewrite (Peek_miss _ k Ht1 Hn1). cbn [result state trace fst snd].
  rewrite set_t1_id.
  rewrite (bind_step _ _ _ _ _ _ (on_t2_run _ c)).
  destruct (Base.list_Value k (Base.entries (ARC.t2 c))) as [e|] eqn:He.
  - by rewrite (Get_hit _ k e Ht2 He).
  - apply Value_None in He. by rewrite (Get_miss _ k Ht2 He).
Qed.

Lemma ARC_Get_miss_run c k :
  wf_arc c -> k ∉ keys_of (ARC.t1 c) -> k ∉ keys_of (ARC.t2 c) ->
  ARC.Get k c = ((zero, false), c, []).
Proof.
  intros Hwf Hn1 Hn2. rewrite (Get_t2_run c k Hwf Hn1).
  destruct Hwf as (_ & _ & Ht2 & _). rewrite (Get_miss _ k Ht2 Hn2).
  cbn [result state fst snd]. by rewrite set_t2_id.
Qed.

(** What the queries answer just after [Add k v]. *)
Lemma ARC_Add_then_query m c k v :
  1 <= m -> lift (wfm m) c -> inv c ->
  let c1 := state (ARC.Add k v c) in
  ARC.Peek k c1 = ((v, true), c1, []) ∧
  ARC.Contains k c1 = (true, c1, []) ∧
  result (ARC.Get k c1) = (v, true).
Proof.
  intros Hm Hcaps Hinv c1.
  pose proof (ARC_Add_inv c k v Hinv) as [Hwf1 (Hd1 & _)]. fold c1 in Hwf1, Hd1.
  pose proof Hwf1 as (Ht1 & Hb1 & Ht2 & Hb2).
  destruct (ARC_Add_placed m c k v Hm Hcaps Hinv) as [(_ & l & Hl)|(_ & Hn2 & l & Hl)];
    fold c1 in Hl.
  - assert (Hhd : Base.list_Value k (Base.entries (ARC.t2 c1)) = Some (Base.Entry k v))
      by (rewrite Hl; apply (Value_head (Base.Entry k v))).
    assert (Hi2 : k ∈ keys_of (ARC.t2 c1)) by (unfold keys_of; rewrite Hl; left).
    assert (Hn1 : k ∉ keys_of (ARC.t1 c1)).
    { intros Hi1. apply elem_of_ks in Hi1, Hi2. by apply (Hd1 k). }
    split; [|split].
    + rewrite (ARC_Peek_run c1 k Hwf1), decide_False by done.
      by rewrite (Peek_hit _ k _ Ht2 Hhd).
    + rewrite (ARC_Contains_run c1 k Hwf1). f_equal. f_equal.
      apply bool_decide_eq_true_2. by right.
    + rewrite (Get_t2_run c1 k Hwf1 Hn1). by rewrite (Get_hit _ k _ Ht2 Hhd).
  - fold c1 in Hn2.
    assert (Hhd : Base.list_Value k (Base.entries (ARC.t1 c1)) = Some (Base.Entry k v))
      by (rewrite Hl; apply (Value_head (Base.Entry k v))).
    assert (Hi1 : k ∈ keys_of (ARC.t1 c1)) by (unfold keys_of; rewrite Hl; left).
    split; [|split].
    + rewrite (ARC_Peek_run c1 k Hwf1), decide_True by done.
      by rewrite (Peek_hit _ k _ Ht1 Hhd).
    + rewrite (ARC_Contains_run c1 k Hwf1). f_equal. f_equal.
      apply bool_decide_eq_true_2. by left.
    + by rewrite (ARC_Get_promotes c1 k _ Hwf1 Hhd).
Qed.

(** *** Removal *)

Lemma ARC_Remove_result c k : result (ARC.Remove k c) = false.
Proof.
  unfold ARC.Remove, bind, ret.
  destruct (ARC.on_t1 (Base.Remove k) c) as [[a s1] x1]. destruct a; [done|].
  destruct (ARC.on_t2 (Base.Remove k) s1) as [[b s2] x2]. destruct b; [done|].
  destruct (ARC.on_b1 (Base.Remove k) s2) as [[d s3] x3]. destruct d; [done|].
  destruct (ARC.on_b2 (Base.Remove k) s3) as [[d' s4] x4]. by destruct d'.
Qed.

(** The state [Remove] leaves: the first engine that holds the key loses
    it. *)
Lemma ARC_Remove_state c k :
  wf_arc c ->
  state (ARC.Remove k c) =
  if decide (k ∈ keys_of (ARC.t1 c)) then
    ARC.set_t1 (state (Base.Remove k (ARC.t1 c))) c
  else if decide (k ∈ keys_of (ARC.t2 c)) then
    ARC.set_t2 (state (Base.Remove k (ARC.t2 c))) c
  else if decide (k ∈ keys_of (ARC.b1 c)) then
    ARC.set_b1 (state (Base.Remove k (ARC.b1 c))) c
  else
    ARC.set_b2 (state (Base.Remove k (ARC.b2 c))) c.
Proof.
  intros (Ht1 & Hb1 & Ht2 & Hb2). unfold ARC.Remove.
  rewrite (bind_step _ _ _ _ _ _ (on_t1_run _ c)).
  destruct (decide (k ∈ keys_of (ARC.t1 c))) as [Hi1|Hn1].
  { destruct (Value_elem _ _ Hi1) as [e He]. by rewrite (Remove_hit _ k e Ht1 He). }
  rewrite (Remove_miss _ k Ht1 Hn1). cbn [result state trace fst snd].
  rewrite set_t1_id.
  rewrite (bind_step _ _ _ _ _ _ (on_t2_run _ c)).
  destruct (decide (k ∈ keys_of (ARC.t2 c))) as [Hi2|Hn2].
  { destruct (Value_elem _ _ Hi2) as [e He]. by rewrite (Remove_hit _ k e Ht2 He). }
  rewrite (Remove_miss _ k Ht2 Hn2). cbn [result state trace fst snd].
  rewrite set_t2_id.
  rewrite (bind_step _ _ _ _ _ _ (on_b1_run _ c)).
  destruct (decide (k ∈ keys_of (ARC.b1 c))) as [Hi3|Hn3].
  { destruct (Value_elem _ _ Hi3) as [e He]. by rewrite (Remove_hit _ k e Hb1 He). }
  rewrite (Remove_miss _ k Hb1 Hn3). cbn [result state trace fst snd].
  rewrite set_b1_id.
  rewrite (bind_step _ _ _ _ _ _ (on_b2_run _ c)).
  by destruct (result (Base.Remove k (ARC.b2 c))).
Qed.

Lemma ARC_Remove_gone c k :
  inv c ->
  let c' := state (ARC.Remove k c) in
  k ∉ keys_of (ARC.t1 c') ∧ k ∉ keys_of (ARC.t2 c') ∧
  k ∉ keys_of (ARC.b1 c') ∧ k ∉ keys_of (ARC.b2 c').
Proof.
  intros [Hwf (Hd1 & Hd2 & Hd3 & Hd4 & Hd5 & Hd6)] c'.
  cut (k ∉ ks (ARC.t1 c') ∧ k ∉ ks (ARC.t2 c') ∧
       k ∉ ks (ARC.b1 c') ∧ k ∉ ks (ARC.b2 c')).
  { intros (Ha & Hb & Hd & He). split; [|split; [|split]]; by rewrite <- elem_of_ks. }
  unfold c'. clear c'. pose proof Hwf as (Ht1 & Hb1 & Ht2 & Hb2).
  rewrite (ARC_Remove_state c k Hwf).
  destruct (decide (k ∈ keys_of (ARC.t1 c))) as [Hi1|Hn1];
    [|destruct (decide (k ∈ keys_of (ARC.t2 c))) as [Hi2|Hn2];
      [|destruct (decide (k ∈ keys_of (ARC.b1 c))) as [Hi3|Hn3]]].
  - pose proof (ks_Remove _ k Ht1) as Hrm. apply elem_of_ks in Hi1.
    cbn [ARC.t1 ARC.t2 ARC.b1 ARC.b2 ARC.set_t1]. rewrite Hrm. keys_solver.
  - pose proof (ks_Remove _ k Ht2) as Hrm. apply elem_of_ks in Hi2.
    rewrite <- elem_of_ks in Hn1.
    cbn [ARC.t1 ARC.t2 ARC.b1 ARC.b2 ARC.set_t2]. rewrite Hrm. keys_solver.
  - pose proof (ks_Remove _ k Hb1) as Hrm. apply elem_of_ks in Hi3.
    rewrite <- elem_of_ks in Hn1, Hn2.
    cbn [ARC.t1 ARC.t2 ARC.b1 ARC.b2 ARC.set_b1]. rewrite Hrm. keys_solver.
  - pose proof (ks_Remove _ k Hb2) as Hrm. rewrite <- elem_of_ks in Hn1, Hn2, Hn3.
    cbn [ARC.t1 ARC.t2 ARC.b1 ARC.b2 ARC.set_b2]. rewrite Hrm. keys_solver.
Qed.

(** *** The states reached from the constructor *)

Lemma ARC_reached_caps n opts os :
  ∃ m, 1 <= m ∧ lift (wfm m) (reached n opts os).
Proof.
  set (m := if decide (n <= 0) then Base.defaultSize else n).
  assert (Hpos : 1 <= m) by (unfold m, Base.defaultSize; case_decide; lia).
  exists m. split; [done|]. apply lift_run; [apply keeps_wfm|].
  assert (Hw : wfm m (Base.NewUnsafeLru (K:=K) (V:=V) (F:=F) m opts)).
  { split; [apply wf_New|]. rewrite New_maxEntries.
    destruct (decide (m <= 0)) as [Hle|_]; [lia|done]. }
  unfold ARC.NewARC. fold m. exact (conj Hw (conj Hw (conj Hw Hw))).
Qed.

Lemma reached_tuned n opts os :
  2 * n <= Int.max_int ->
  let m := if decide (n <= 0) then Base.defaultSize else n in
  tuned m (reached n opts os).
Proof.
  intros Hn m.
  assert (Hm : 1 <= m ∧ 2 * m <= Int.max_int).
  { unfold m, Base.defaultSize, Int.max_int in *. case_decide; lia. }
  apply run_tuned; [lia..|]. apply New_tuned. unfold Int.max_int in *.
  destruct (decide (n <= 0)); lia.
Qed.

Lemma tuned_caps m c : tuned m c -> lift (wfm m) c.
Proof. intros ((H1' & H2' & H3' & H4') & _). repeat split; (apply H1' || apply H2' || apply H3' || apply H4'). Qed.

(** [Add] of a key that the ghost engine [b2] remembers. *)
Lemma Add_b2_hit m c k v :
  1 <= m -> 2 * m <= Int.max_int -> tuned m c -> inv c ->
  k ∈ keys_of (ARC.b2 c) ->
  let t1Len := Z.of_nat (length (Base.entries (ARC.t1 c))) in
  let t2Len := Z.of_nat (length (Base.entries (ARC.t2 c))) in
  let b1Len := Z.of_nat (length (Base.entries (ARC.b1 c))) in
  let b2Len := Z.of_nat (length (Base.entries (ARC.b2 c))) in
  let delta := Z.max 1 (b1Len `div` b2Len) in
  let p' := Z.max (ARC.p c - delta) 0 in
  let c1 := ARC.set_p p' c in
  let c2 := if decide (t1Len + t2Len >= ARC.maxEntries c)
            then state (ARC.replace true c1) else c1 in
  let c' := state (ARC.Add k v c) in
  c' = ARC.set_t2 (state (Base.Add k v (ARC.t2 c2)))
         (ARC.set_b2 (state (Base.Remove k (ARC.b2 c2))) c2) ∧
  ARC.p c' = p' ∧
  (0 < ARC.p c -> ARC.p c' <= ARC.p c - 1) ∧
  k ∈ keys_of (ARC.t2 c') ∧ k ∉ keys_of (ARC.t1 c') ∧
  k ∉ keys_of (ARC.b1 c') ∧ k ∉ keys_of (ARC.b2 c').
Proof.
  intros Hm H2m Ht Hinv Hi4 t1Len t2Len b1Len b2Len delta p' c1 c2 c'.
  pose proof Hinv as [Hwf (Hd1 & Hd2 & Hd3 & Hd4 & Hd5 & Hd6)].
  pose proof Ht as (((_ & _ & Hc1) & (_ & _ & Hc2) & (_ & _ & Hc3) & (_ & _ & Hc4)) & Hmax & Hp).
  unfold count in Hc1, Hc2, Hc3, Hc4.
  fold t1Len in Hc1. fold b1Len in Hc2. fold t2Len in Hc3. fold b2Len in Hc4.
  assert (Hn1 : k ∉ keys_of (ARC.t1 c)).
  { intros Hi. apply elem_of_ks in Hi, Hi4. by apply (Hd3 k). }
  assert (Hn2 : k ∉ keys_of (ARC.t2 c)).
  { intros Hi. apply elem_of_ks in Hi, Hi4. by apply (Hd5 k). }
  assert (Hn3 : k ∉ keys_of (ARC.b1 c)).
  { intros Hi. apply elem_of_ks in Hi, Hi4. by apply (Hd6 k). }
  assert (Hb2pos : 1 <= b2Len).
  { unfold b2Len. unfold keys_of, keys in Hi4.
    destruct (Base.entries (ARC.b2 c)); [by apply elem_of_nil in Hi4|simpl; lia]. }
  assert (Hsp : shrink_p c = c1).
  { unfold shrink_p, c1, p', delta. cbv zeta. fold b1Len b2Len.
    assert (Hdiv : Int.div b1Len b2Len = b1Len `div` b2Len).
    { unfold Int.div. rewrite Z.quot_div_nonneg by lia.
      apply IntFacts.wrap_id. unfold Int.in_range, Int.min_int, Int.max_int in *.
      assert (0 <= b1Len `div` b2Len) by (apply Z.div_pos; lia).
      assert (b1Len `div` b2Len <= b1Len) by (apply Z.div_le_upper_bound; [lia|nia]).
      lia. }
    assert (Hdl : (if decide (b1Len > b2Len) then Int.div b1Len b2Len else 1) =
                  Z.max 1 (b1Len `div` b2Len)).
    { destruct (decide (b1Len > b2Len)) as [Hgt|Hle].
      - rewrite Hdiv. assert (1 <= b1Len `div` b2Len); [|lia].
        apply Z.div_le_lower_bound; lia.
      - assert (b1Len `div` b2Len <= 1); [|lia].
        apply Z.div_le_upper_bound; lia. }
    rewrite Hdl. destruct (decide (_ >= ARC.p c)) as [Hge|Hlt].
    - f_equal. lia.
    - rewrite IntFacts.sub_id
        by (unfold Int.in_range, Int.min_int, Int.max_int in *; lia).
      f_equal. lia. }
  assert (Hmr : state (ARC.make_room true c1) = c2).
  { rewrite make_room_run. unfold c2. cbn [ARC.t1 ARC.t2 ARC.maxEntries ARC.set_p c1].
    unfold c1. cbn [ARC.t1 ARC.t2 ARC.maxEntries ARC.set_p]. fold t1Len t2Len.
    rewrite IntFacts.add_id
      by (unfold Int.in_range, Int.min_int, Int.max_int in *; lia).
    by destruct (decide (t1Len + t2Len >= ARC.maxEntries c)). }
  assert (Hst : c' = ARC.set_t2 (state (Base.Add k v (ARC.t2 c2)))
                       (ARC.set_b2 (state (Base.Remove k (ARC.b2 c2))) c2)).
  { unfold c'. rewrite (ARC_Add_state c k v Hwf).
    rewrite (decide_False _ _ Hn1), (decide_False _ _ Hn2), (decide_False _ _ Hn3),
      (decide_True _ _ Hi4).
    cbv zeta. rewrite Hsp, Hmr. done. }
  split; [exact Hst|].
  assert (Hp' : ARC.p c' = p').
  { destruct (Add_config c k v Hwf) as [_ Hq]. fold c' in Hq. rewrite Hq.
    rewrite (decide_False _ _ Hn1), (decide_False _ _ Hn2), (decide_False _ _ Hn3),
      (decide_True _ _ Hi4).
    by rewrite Hsp. }
  split; [exact Hp'|]. split; [rewrite Hp'; unfold p', delta; lia|].
  pose proof (ARC_Add_inv c k v Hinv) as [Hwf' (He1 & He2 & He3 & He4 & He5 & He6)].
  fold c' in Hwf', He1, He2, He3, He4, He5, He6.
  assert (Hin : k ∈ keys_of (ARC.t2 c')).
  { destruct (ARC_Add_placed m c k v Hm (tuned_caps m c Ht) Hinv) as [(_ & l & Hl)|((_ & _ & _ & Hx) & _)];
      [|done].
    fold c' in Hl. unfold keys_of. rewrite Hl. left. }
  split; [exact Hin|]. apply elem_of_ks in Hin.
  split; [|split]; intros Hi; apply elem_of_ks in Hi.
  - by apply (He1 k).
  - by apply (He4 k).
  - by apply (He5 k).
Qed.

End ARCRun.
End ARCRun.

(** X16.  In every state of an adaptive replacement cache reached from
    [NewARC] by [Add], [Get], [Remove] and [Clear], a key is in at most one
    of [t1], [t2], [b1] and [b2], and [Keys()] lists no key twice. *)
Theorem ARC_key_in_one_engine :
  ∀ (K : Type) `(Countable K) `(GoZero K) (V : Type) `(GoZero V) (F : Type)
    (n : Z) (opts : list (Base.Option F)) (os : list (ARCRun.call (K:=K) (V:=V))),
    let c : ARC.ARCCache K V F := ARCRun.reached n opts os in
    (∀ k,
       ¬ (k ∈ BaseFacts.keys_of (ARC.t1 c) ∧ k ∈ BaseFacts.keys_of (ARC.t2 c)) ∧
       ¬ (k ∈ BaseFacts.keys_of (ARC.t1 c) ∧ k ∈ BaseFacts.keys_of (ARC.b1 c)) ∧
       ¬ (k ∈ BaseFacts.keys_of (ARC.t1 c) ∧ k ∈ BaseFacts.keys_of (ARC.b2 c)) ∧
       ¬ (k ∈ BaseFacts.keys_of (ARC.t2 c) ∧ k ∈ BaseFacts.keys_of (ARC.b1 c)) ∧
       ¬ (k ∈ BaseFacts.keys_of (ARC.t2 c) ∧ k ∈ BaseFacts.keys_of (ARC.b2 c)) ∧
       ¬ (k ∈ BaseFacts.keys_of (ARC.b1 c) ∧ k ∈ BaseFacts.keys_of (ARC.b2 c))) ∧
    NoDup (result (ARC.Keys c)).
Proof.
  intros K ? ? ? V ? F n opts os c.
  destruct (ARCRun.ARC_reached_inv n opts os) as [Hwf (Hd1 & Hd2 & Hd3 & Hd4 & Hd5 & Hd6)].
  fold c in Hwf, Hd1, Hd2, Hd3, Hd4, Hd5, Hd6.
  destruct Hwf as ([Hn1 _] & _ & [Hn2 _] & _).
  assert (Hk : ∀ (e1 e2 : Base.unsafeCache K V F) k,
             KeySets.ks e1 ## KeySets.ks e2 ->
             ¬ (k ∈ BaseFacts.keys_of e1 ∧ k ∈ BaseFacts.keys_of e2)).
  { intros e1 e2 k Hd [Ha Hb]. apply KeySets.elem_of_ks in Ha, Hb. by apply (Hd k). }
  split.
  - intros k. split_and!; by apply Hk.
  - rewrite ARCFacts.ARC_Keys_run. cbn [result fst snd].
    apply NoDup_app. split; [by rewrite reverse_Permutation|].
    split; [|by rewrite reverse_Permutation].
    intros k Ha Hb. rewrite elem_of_reverse in Ha. rewrite elem_of_reverse in Hb.
    by apply (Hk _ _ k Hd1).
Qed.

(** X17.  When twice the requested capacity fits an [int], in every reached
    state of an adaptive replacement cache the capacity is the one fixed by
    [NewARC], the target [p] is between 0 and the capacity, and each of the
    four engines holds at most [maxEntries] entries, so that [Len()] is at
    most twice the capacity. *)
Theorem ARC_p_within_capacity :
  ∀ (K : Type) `(Countable K) `(GoZero K) (V : Type) `(GoZero V) (F : Type)
    (n : Z) (opts : list (Base.Option F)) (os : list (ARCRun.call (K:=K) (V:=V))),
    2 * n <= Int.max_int ->
    let c : ARC.ARCCache K V F := ARCRun.reached n opts os in
    ARC.maxEntries c = (if decide (n <= 0) then Base.defaultSize else n) ∧
    0 <= ARC.p c <= ARC.maxEntries c ∧
    Z.of_nat (length (Base.entries (ARC.t1 c))) <= ARC.maxEntries c ∧
    Z.of_nat (length (Base.entries (ARC.t2 c))) <= ARC.maxEntries c ∧
    Z.of_nat (length (Base.entries (ARC.b1 c))) <= ARC.maxEntries c ∧
    Z.of_nat (length (Base.entries (ARC.b2 c))) <= ARC.maxEntries c ∧
    0 <= result (ARC.Len c) <= 2 * ARC.maxEntries c.
Proof.
  intros K ? ? ? V ? F n opts os Hn c.
  destruct (ARCRun.reached_tuned (K:=K) (V:=V) (F:=F) n opts os Hn)
    as (((_ & _ & Hc1) & (_ & _ & Hc2) & (_ & _ & Hc3) & (_ & _ & Hc4)) & Hmax & Hp).
  fold c in Hc1, Hc2, Hc3, Hc4, Hmax, Hp. unfold Capacity.count in *.
  rewrite Hmax. split; [done|]. split; [done|]. repeat (split; [done|]).
  rewrite ARCFacts.ARC_Len_run. cbn [result fst snd].
  assert (Hm : 2 * (if decide (n <= 0) then Base.defaultSize else n) <= Int.max_int).
  { unfold Base.defaultSize, Int.max_int in *. case_decide; lia. }
  rewrite IntFacts.add_id by (unfold Int.in_range, Int.min_int, Int.max_int in *; lia).
  lia.
Qed.

(** X17, witness: capacity 2, after eight insertions [p] is 1. *)
Lemma ARC_p_within_capacity_witness :
  let c : ARC.ARCCache Z Z unit :=
    ARCRun.reached 2 []
      [ARCRun.CAdd 1 10; ARCRun.CAdd 2 20; ARCRun.CAdd 3 30; ARCRun.CAdd 1 11;
       ARCRun.CAdd 1 12; ARCRun.CAdd 3 31; ARCRun.CAdd 4 40; ARCRun.CAdd 5 50] in
  ARC.p c = 1 ∧ 0 <= ARC.p c <= ARC.maxEntries c.
Proof.
  intros c. split; [vm_compute; reflexivity|].
  assert (Hn : 2 * 2 <= Int.max_int) by (vm_compute; discriminate).
  destruct (ARC_p_within_capacity Z _ _ Z _ unit 2 []
              [ARCRun.CAdd 1 10; ARCRun.CAdd 2 20; ARCRun.CAdd 3 30; ARCRun.CAdd 1 11;
               ARCRun.CAdd 1 12; ARCRun.CAdd 3 31; ARCRun.CAdd 4 40; ARCRun.CAdd 5 50] Hn)
    as (_ & Hp & _).
  exact Hp.
Defined.

(** X18.  The target [p] and the capacity of an adaptive replacement cache
    change nowhere but in [Add] on a ghost hit: in a reached state [Get],
    [Remove] and [Clear] keep both, [Add] keeps the capacity, and [Add(k, v)]
    keeps [p] unless [k] is in [b1] or in [b2]. *)
Theorem ARC_p_changes_on_ghost_hits_only :
  ∀ (K : Type) `(Countable K) `(GoZero K) (V : Type) `(GoZero V) (F : Type)
    (n : Z) (opts : list (Base.Option F)) (os : list (ARCRun.call (K:=K) (V:=V)))
    (k : K) (v : V),
    let c : ARC.ARCCache K V F := ARCRun.reached n opts os in
    ARCRun.config (ARC.maxEntries c) (ARC.p c) (state (ARC.Get k c)) ∧
    ARCRun.config (ARC.maxEntries c) (ARC.p c) (state (ARC.Remove k c)) ∧
    ARCRun.config (ARC.maxEntries c) (ARC.p c) (state (ARC.Clear c)) ∧
    ARC.maxEntries (state (ARC.Add k v c)) = ARC.maxEntries c ∧
    (ARC.p (state (ARC.Add k v c)) = ARC.p c ∨
     k ∈ BaseFacts.keys_of (ARC.b1 c) ∨ k ∈ BaseFacts.keys_of (ARC.b2 c)).
Proof.
  intros K ? ? ? V ? F n opts os k v c.
  destruct (ARCRun.ARC_reached_inv n opts os) as [Hwf _]. fold c in Hwf.
  assert (Hc : ARCRun.config (ARC.maxEntries c) (ARC.p c) c) by done.
  split; [by apply ARCRun.ARC_config_Get|]. split; [by apply ARCRun.ARC_config_Remove|].
  split; [by apply ARCRun.ARC_config_Clear|].
  destruct (ARCRun.Add_config c k v Hwf) as [Hm Hp]. split; [exact Hm|].
  rewrite Hp.
  destruct (decide (k ∈ BaseFacts.keys_of (ARC.t1 c))); [by left|].
  destruct (decide (k ∈ BaseFacts.keys_of (ARC.t2 c))); [by left|].
  destruct (decide (k ∈ BaseFacts.keys_of (ARC.b1 c))); [by right; left|].
  destruct (decide (k ∈ BaseFacts.keys_of (ARC.b2 c))); [by right; right|by left].
Qed.

(** X19.  [Add(k, v)] in a reached state, twice the requested capacity
    fitting an [int], with [k] in the ghost engine [b2]: [p] becomes
    [max(p - delta, 0)] with [delta = max(1, |b1| / |b2|)]; then
    [replace(true)] runs exactly when [|t1| + |t2| >= maxEntries]; then the
    key leaves [b2] and the entry is added to [t2].  So [p] drops by at
    least one when it was positive, and afterwards the key is in [t2] and in
    no other engine. *)
Theorem ARC_Add_hit_in_b2 :
  ∀ (K : Type) `(Countable K) `(GoZero K) (V : Type) `(GoZero V) (F : Type)
    (n : Z) (opts : list (Base.Option F)) (os : list (ARCRun.call (K:=K) (V:=V)))
    (k : K) (v : V),
    2 * n <= Int.max_int ->
    let c : ARC.ARCCache K V F := ARCRun.reached n opts os in
    k ∈ BaseFacts.keys_of (ARC.b2 c) ->
    let t1Len := Z.of_nat (length (Base.entries (ARC.t1 c))) in
    let t2Len := Z.of_nat (length (Base.entries (ARC.t2 c))) in
    let b1Len := Z.of_nat (length (Base.entries (ARC.b1 c))) in
    let b2Len := Z.of_nat (length (Base.entries (ARC.b2 c))) in
    let delta := Z.max 1 (b1Len `div` b2Len) in
    let p' := Z.max (ARC.p c - delta) 0 in
    let c1 := ARC.set_p p' c in
    let c2 := if decide (t1Len + t2Len >= ARC.maxEntries c)
              then state (ARC.replace true c1) else c1 in
    let c' := state (ARC.Add k v c) in
    c' = ARC.set_t2 (state (Base.Add k v (ARC.t2 c2)))
           (ARC.set_b2 (state (Base.Remove k (ARC.b2 c2))) c2) ∧
    ARC.p c' = p' ∧
    (0 < ARC.p c -> ARC.p c' <= ARC.p c - 1) ∧
    k ∈ BaseFacts.keys_of (ARC.t2 c') ∧ k ∉ BaseFacts.keys_of (ARC.t1 c') ∧
    k ∉ BaseFacts.keys_of (ARC.b1 c') ∧ k ∉ BaseFacts.keys_of (ARC.b2 c').
Proof.
  intros K ? ? ? V ? F n opts os k v Hn c Hin.
  set (m := if decide (n <= 0) then Base.defaultSize else n).
  assert (Hm : 1 <= m ∧ 2 * m <= Int.max_int).
  { unfold m, Base.defaultSize, Int.max_int in *. case_decide; lia. }
  destruct Hm as [Hm H2m].
  exact (ARCRun.Add_b2_hit m c k v Hm H2m
           (ARCRun.reached_tuned (K:=K) (V:=V) (F:=F) n opts os Hn)
           (ARCRun.ARC_reached_inv n opts os) Hin).
Qed.

(** X19, witness: capacity 2; after eight insertions the key 3 is in [b2]
    and [p] is 1; [Add(3, 32)] brings [p] to 0 and the key to [t2]. *)
Lemma ARC_Add_hit_in_b2_witness :
  3 ∈ BaseFacts.keys_of (ARC.b2 (ARCRun.reached (K:=Z) (V:=Z) (F:=unit) 2 []
      [ARCRun.CAdd 1 10; ARCRun.CAdd 2 20; ARCRun.CAdd 3 30; ARCRun.CAdd 1 11;
       ARCRun.CAdd 1 12; ARCRun.CAdd 3 31; ARCRun.CAdd 4 40; ARCRun.CAdd 5 50])) ∧
  3 ∈ BaseFacts.keys_of (ARC.t2 (state (ARC.Add 3 32
    (ARCRun.reached (K:=Z) (V:=Z) (F:=unit) 2 []
      [ARCRun.CAdd 1 10; ARCRun.CAdd 2 20; ARCRun.CAdd 3 30; ARCRun.CAdd 1 11;
       ARCRun.CAdd 1 12; ARCRun.CAdd 3 31; ARCRun.CAdd 4 40; ARCRun.CAdd 5 50])))).
Proof.
  assert (Hn : 2 * 2 <= Int.max_int) by (vm_compute; discriminate).
  assert (Hin : 3 ∈ BaseFacts.keys_of (ARC.b2 (ARCRun.reached (K:=Z) (V:=Z) (F:=unit) 2 []
      [ARCRun.CAdd 1 10; ARCRun.CAdd 2 20; ARCRun.CAdd 3 30; ARCRun.CAdd 1 11;
       ARCRun.CAdd 1 12; ARCRun.CAdd 3 31; ARCRun.CAdd 4 40; ARCRun.CAdd 5 50])))
    by (apply (bool_decide_unpack _); vm_compute; exact I).
  split; [exact Hin|].
  destruct (ARC_Add_hit_in_b2 Z _ _ Z _ unit 2 []
              [ARCRun.CAdd 1 10; ARCRun.CAdd 2 20; ARCRun.CAdd 3 30; ARCRun.CAdd 1 11;
               ARCRun.CAdd 1 12; ARCRun.CAdd 3 31; ARCRun.CAdd 4 40; ARCRun.CAdd 5 50]
              3 32 Hn Hin) as (_ & _ & _ & Ht2 & _).
  exact Ht2.
Defined.

(** X20.  [Remove(k)] of an adaptive replacement cache answers false
    whatever the cache holds, since the named result is never assigned; all
    the same, in a reached state it leaves the key in none of the four
    engines, so that [Contains(k)] is false afterwards. *)
Theorem ARC_Remove_answers_false :
  ∀ (K : Type) `(Countable K) `(GoZero K) (V : Type) `(GoZero V) (F : Type)
    (n : Z) (opts : list (Base.Option F)) (os : list (ARCRun.call (K:=K) (V:=V)))
    (k : K),
    let c : ARC.ARCCache K V F := ARCRun.reached n opts os in
    let r := ARC.Remove k c in
    result r = false ∧
    result (ARC.Contains k (state r)) = false ∧
    k ∉ BaseFacts.keys_of (ARC.b1 (state r)) ∧
    k ∉ BaseFacts.keys_of (ARC.b2 (state r)).
Proof.
  intros K ? ? ? V ? F n opts os k c r.
  pose proof (ARCRun.ARC_reached_inv n opts os) as Hinv. fold c in Hinv.
  destruct (ARCRun.ARC_Remove_gone c k Hinv) as (H1' & H2' & H3' & H4').
  fold r in H1', H2', H3', H4'.
  split; [apply ARCRun.ARC_Remove_result|]. split; [|done].
  assert (Hwf : ARCFacts.wf_arc (state r))
    by (apply ARCFacts.preserves_ARC_Remove; apply Hinv).
  rewrite (ARCFacts.ARC_Contains_run _ k Hwf). cbn [result fst snd].
  apply bool_decide_eq_false_2. tauto.
Qed.

(** X21.  In every reached state of an adaptive replacement cache, whatever
    capacity was asked for, [Add(k, v)] followed by [Peek(k)] gives
    [(v, true)] without changing the cache or invoking a callback,
    [Contains(k)] holds, and [Get(k)] gives [(v, true)]. *)
Theorem ARC_Add_then_Peek :
  ∀ (K : Type) `(Countable K) `(GoZero K) (V : Type) `(GoZero V) (F : Type)
    (n : Z) (opts : list (Base.Option F)) (os : list (ARCRun.call (K:=K) (V:=V)))
    (k : K) (v : V),
    let c : ARC.ARCCache K V F := ARCRun.reached n opts os in
    let c1 := state (ARC.Add k v c) in
    ARC.Peek k c1 = ((v, true), c1, []) ∧
    ARC.Contains k c1 = (true, c1, []) ∧
    result (ARC.Get k c1) = (v, true).
Proof.
  intros K ? ? ? V ? F n opts os k v c c1.
  destruct (ARCRun.ARC_reached_caps (K:=K) (V:=V) (F:=F) n opts os) as (m & Hm & Hcaps).
  exact (ARCRun.ARC_Add_then_query m c k v Hm Hcaps (ARCRun.ARC_reached_inv n opts os)).
Qed.

(** X22.  Admission of the adaptive replacement cache, in a reached state.
    [Add(k, v)] of a key that is in [t1] or [t2] or remembered by [b1] or
    [b2] puts the entry at the front of [t2]; [Add(k, v)] of a key that is
    in none of them puts it at the front of [t1] and not in [t2]. *)
Theorem ARC_Add_admission :
  ∀ (K : Type) `(Countable K) `(GoZero K) (V : Type) `(GoZero V) (F : Type)
    (n : Z) (opts : list (Base.Option F)) (os : list (ARCRun.call (K:=K) (V:=V)))
    (k : K) (v : V),
    let c : ARC.ARCCache K V F := ARCRun.reached n opts os in
    let c' := state (ARC.Add k v c) in
    ((k ∈ BaseFacts.keys_of (ARC.t1 c) ∨ k ∈ BaseFacts.keys_of (ARC.t2 c) ∨
      k ∈ BaseFacts.keys_of (ARC.b1 c) ∨ k ∈ BaseFacts.keys_of (ARC.b2 c)) ∧
     ∃ l, Base.entries (ARC.t2 c') = Base.Entry k v :: l) ∨
    ((k ∉ BaseFacts.keys_of (ARC.t1 c) ∧ k ∉ BaseFacts.keys_of (ARC.t2 c) ∧
      k ∉ BaseFacts.keys_of (ARC.b1 c) ∧ k ∉ BaseFacts.keys_of (ARC.b2 c)) ∧
     k ∉ BaseFacts.keys_of (ARC.t2 c') ∧
     ∃ l, Base.entries (ARC.t1 c') = Base.Entry k v :: l).
Proof.
  intros K ? ? ? V ? F n opts os k v c c'.
  destruct (ARCRun.ARC_reached_caps (K:=K) (V:=V) (F:=F) n opts os) as (m & Hm & Hcaps).
  exact (ARCRun.ARC_Add_placed m c k v Hm Hcaps (ARCRun.ARC_reached_inv n opts os)).
Qed.

(** X23.  The queries of an adaptive replacement cache.  In a reached
    state [Contains], [Peek], [Keys] and [Len] leave the cache as it is and
    invoke no callback; so does [Get] of a key that is neither in [t1] nor
    in [t2], which answers the zero value and false even when a ghost
    engine remembers the key. *)
Theorem ARC_queries_change_nothing :
  ∀ (K : Type) `(Countable K) `(GoZero K) (V : Type) `(GoZero V) (F : Type)
    (n : Z) (opts : list (Base.Option F)) (os : list (ARCRun.call (K:=K) (V:=V)))
    (k : K),
    let c : ARC.ARCCache K V F := ARCRun.reached n opts os in
    (state (ARC.Contains k c) = c ∧ trace (ARC.Contains k c) = []) ∧
    (state (ARC.Peek k c) = c ∧ trace (ARC.Peek k c) = []) ∧
    (state (ARC.Keys c) = c ∧ trace (ARC.Keys c) = []) ∧
    (state (ARC.Len c) = c ∧ trace (ARC.Len c) = []) ∧
    (result (ARC.Contains k c) = false -> ARC.Get k c = ((zero, false), c, [])).
Proof.
  intros K ? ? ? V ? F n opts os k c.
  destruct (ARCRun.ARC_reached_inv n opts os) as [Hwf _]. fold c in Hwf.
  rewrite (ARCFacts.ARC_Contains_run c k Hwf), (ARCRun.ARC_Peek_run c k Hwf),
    ARCFacts.ARC_Keys_run, ARCFacts.ARC_Len_run.
  cbn [result state trace fst snd]. repeat (split; [done|]).
  intros Hn. apply bool_decide_eq_false in Hn.
  apply ARCRun.ARC_Get_miss_run; [done|tauto..].
Qed.

(** X23, witness: capacity 2; after eight insertions [b1] remembers the
    key 2, and [Get(2)] is a miss that changes nothing. *)
Lemma ARC_queries_change_nothing_witness :
  let c : ARC.ARCCache Z Z unit :=
    ARCRun.reached 2 []
      [ARCRun.CAdd 1 10; ARCRun.CAdd 2 20; ARCRun.CAdd 3 30; ARCRun.CAdd 1 11;
       ARCRun.CAdd 1 12; ARCRun.CAdd 3 31; ARCRun.CAdd 4 40; ARCRun.CAdd 5 50] in
  BaseFacts.keys_of (ARC.b1 c) = [2] ∧ ARC.Get 2 c = ((0, false), c, []).
Proof.
  intros c. split; [vm_compute; reflexivity|].
  assert (Hn : result (ARC.Contains 2 c) = false) by (vm_compute; reflexivity).
  destruct (ARC_queries_change_nothing Z _ _ Z _ unit 2 []
              [ARCRun.CAdd 1 10; ARCRun.CAdd 2 20; ARCRun.CAdd 3 30; ARCRun.CAdd 1 11;
               ARCRun.CAdd 1 12; ARCRun.CAdd 3 31; ARCRun.CAdd 4 40; ARCRun.CAdd 5 50] 2)
    as (_ & _ & _ & _ & Hget).
  exact (Hget Hn).
Defined.

(** ** Invocations made by the composite caches *)

(** A method keeps [P] and emits only traces in [T]. *)
Section Emits.

Context {E S : Type}.

Definition emits {A} (P : S -> Prop) (T : list E -> Prop) (m : M E S A) : Prop :=
  ∀ s, P s -> P (state (m s)) ∧ T (trace (m s)).

(** A set of traces with the empty one and closed under concatenation. *)
Definition closed (T : list E -> Prop) : Prop :=
  T [] ∧ ∀ t1 t2, T t1 -> T t2 -> T (t1 ++ t2).

Lemma emits_ret {A} P T (a : A) : closed T -> emits P T (ret a).
Proof. intros [Hn _] s Hs. by split. Qed.

Lemma emits_get P T : closed T -> emits P T get.
Proof. intros [Hn _] s Hs. by split. Qed.

Lemma emits_modify P T (f : S -> S) :
  closed T -> (∀ s, P s -> P (f s)) -> emits P T (modify f).
Proof. intros [Hn _] Hf s Hs. split; [by apply Hf|done]. Qed.

Lemma emits_bind {A B} P T (m : M E S A) (k : A -> M E S B) :
  closed T -> emits P T m -> (∀ a, emits P T (k a)) -> emits P T (bind m k).
Proof.
  intros [_ Happ] Hm Hk s Hs. rewrite bind_run. cbn [state trace fst snd].
  destruct (Hm s Hs) as [Hs1 Ht1].
  destruct (Hk (result (m s)) _ Hs1) as [Hs2 Ht2].
  split; [done|]. by apply Happ.
Qed.

Lemma emits_if {A} P T (b : bool) (m1 m2 : M E S A) :
  emits P T m1 -> emits P T m2 -> emits P T (if b then m1 else m2).
Proof. by destruct b. Qed.

Lemma emits_decide {A} P T (Q : Prop) `{Decision Q} (m1 m2 : M E S A) :
  emits P T m1 -> emits P T m2 -> emits P T (if decide Q then m1 else m2).
Proof. by destruct (decide Q). Qed.

End Emits.

(** ** Ghost engines *)
Module GhostFacts.
Section GhostFacts.

Context {K : Type} `{Countable K} `{GoZero K} {V : Type} `{GoZero V} {F : Type}.

Import ListFacts BaseFacts BaseKeeps BaseKeys Callbacks.

Implicit Types (c : Base.unsafeCache K V F) (k : K) (v : V)
  (cfg : option (F * bool)).

Lemma closed_obeys cfg : closed (obeys (K:=K) (V:=V) cfg).
Proof. split; [apply obeys_nil|apply obeys_app]. Qed.

(** *** The entries a method leaves *)

Lemma elem_of_Remove k (l : list (Base.entry K V)) x :
  x ∈ Base.list_Remove k l -> x ∈ l.
Proof.
  induction l as [|e l IH]; simpl; [done|].
  destruct (decide (Base.key e = k)); [by right|].
  intros [->|Hx]%elem_of_cons; [left|right; auto].
Qed.

Lemma entries_without c e x :
  x ∈ Base.entries (without c e) -> x ∈ Base.entries c.
Proof. unfold without. simpl. apply elem_of_Remove. Qed.

Lemma entries_Add c k v x :
  wf c -> x ∈ Base.entries (state (Base.Add k v c)) ->
  x = Base.Entry k v ∨ x ∈ Base.entries c.
Proof.
  intros Hwf. destruct (decide (k ∈ keys_of c)) as [Hin|Hn].
  - rewrite (Add_hit c k v Hwf Hin). cbn [state fst snd]. unfold touched. simpl.
    intros [->|Hx]%elem_of_cons; [by left|right]. by apply elem_of_Remove in Hx.
  - destruct (decide (Z.of_nat (length (Base.entries c)) + 1 > Base.maxEntries c))
      as [Hgt|Hle].
    + destruct (decide (Base.entries c = [])) as [He|He].
      * destruct (Add_evict_nil c k v Hwf He) as [-> Hen];
          [rewrite He in Hgt; simpl in Hgt; lia|].
        cbn [state fst snd]. rewrite Hen. by intros Hx%elem_of_nil.
      * destruct (entries_nonempty_snoc _ He) as (l & e & Hl).
        destruct (Add_evict_snoc c k v l e Hwf Hn Hl Hgt) as [-> Hen].
        cbn [state fst snd]. rewrite Hen, Hl.
        intros [->|Hx]%elem_of_cons; [by left|right].
        apply elem_of_app. by left.
    + rewrite Add_fit by (done || lia). cbn [state fst snd]. unfold pushed. simpl.
      intros [->|Hx]%elem_of_cons; [by left|by right].
Qed.

Lemma entries_Remove c k x :
  wf c -> x ∈ Base.entries (state (Base.Remove k c)) -> x ∈ Base.entries c.
Proof.
  intros Hwf. destruct (Base.list_Value k (Base.entries c)) as [e|] eqn:He.
  - rewrite (Remove_hit c k e Hwf He). cbn [state fst snd]. apply entries_without.
  - apply Value_None in He. by rewrite (Remove_miss c k Hwf He).
Qed.

Lemma entries_RemoveOldest c x :
  wf c -> x ∈ Base.entries (state (Base.RemoveOldest c)) -> x ∈ Base.entries c.
Proof.
  intros Hwf. destruct (decide (Base.entries c = [])) as [He|He].
  - by rewrite (RemoveOldest_nil c He).
  - destruct (entries_nonempty_snoc _ He) as (l & e & Hl).
    rewrite (RemoveOldest_snoc c l e Hwf Hl). cbn [state fst snd].
    apply entries_without.
Qed.

(** *** Engines with a given configuration *)

(** A well-formed engine configured as [cfg] says. *)
Definition live cfg c : Prop := wf c ∧ has_config cfg c.

(** A ghost engine: every entry has the zero value. *)
Definition zeros c : Prop := ∀ x, x ∈ Base.entries c -> Base.value x = zero.

Definition ghostly cfg c : Prop := live cfg c ∧ zeros c.

Lemma live_exec cfg (o : BaseRun.call (K:=K) (V:=V)) c :
  live cfg c -> live cfg (BaseRun.exec o c).1 ∧ obeys cfg (BaseRun.exec o c).2.
Proof.
  intros [Hwf Hc]. destruct (exec_obeys cfg o c Hwf Hc) as [Hc' Ho].
  split; [split; [by apply BaseRun.exec_wf|done]|done].
Qed.

Lemma live_Add cfg k v : emits (live cfg) (obeys cfg) (Base.Add k v).
Proof. intros c Hc. apply (live_exec cfg (BaseRun.CAdd k v) c Hc). Qed.

Lemma live_Get cfg k : emits (live cfg) (obeys cfg) (Base.Get k).
Proof. intros c Hc. apply (live_exec cfg (BaseRun.CGet k) c Hc). Qed.

Lemma live_Contains cfg k : emits (live cfg) (obeys cfg) (Base.Contains k).
Proof. intros c Hc. apply (live_exec cfg (BaseRun.CContains k) c Hc). Qed.

Lemma live_Peek cfg k : emits (live cfg) (obeys cfg) (Base.Peek k).
Proof. intros c Hc. apply (live_exec cfg (BaseRun.CPeek k) c Hc). Qed.

Lemma live_Remove cfg k : emits (live cfg) (obeys cfg) (Base.Remove k).
Proof. intros c Hc. apply (live_exec cfg (BaseRun.CRemove k) c Hc). Qed.

Lemma live_RemoveOldest cfg : emits (live cfg) (obeys cfg) Base.RemoveOldest.
Proof. intros c Hc. apply (live_exec cfg BaseRun.CRemoveOldest c Hc). Qed.

Lemma live_Len cfg : emits (live cfg) (obeys cfg) Base.Len.
Proof. intros c Hc. apply (live_exec cfg BaseRun.CLen c Hc). Qed.

Lemma live_Clear cfg : emits (live cfg) (obeys cfg) Base.Clear.
Proof. intros c Hc. apply (live_exec cfg BaseRun.CClear c Hc). Qed.

Lemma ghostly_Add cfg k : emits (ghostly cfg) (obeys cfg) (Base.Add k zero).
Proof.
  intros c [Hl Hz]. destruct (live_Add cfg k zero c Hl) as [Hl' Ho].
  split; [|done]. split; [done|]. intros x Hx.
  apply entries_Add in Hx as [->|Hx]; [done|by apply Hz|apply Hl].
Qed.

Lemma ghostly_Remove cfg k : emits (ghostly cfg) (obeys cfg) (Base.Remove k).
Proof.
  intros c [Hl Hz]. destruct (live_Remove cfg k c Hl) as [Hl' Ho].
  split; [|done]. split; [done|]. intros x Hx.
  apply entries_Remove in Hx; [by apply Hz|apply Hl].
Qed.

Lemma ghostly_RemoveOldest cfg : emits (ghostly cfg) (obeys cfg) Base.RemoveOldest.
Proof.
  intros c [Hl Hz]. destruct (live_RemoveOldest cfg c Hl) as [Hl' Ho].
  split; [|done]. split; [done|]. intros x Hx.
  apply entries_RemoveOldest in Hx; [by apply Hz|apply Hl].
Qed.

Lemma ghostly_Clear cfg : emits (ghostly cfg) (obeys cfg) Base.Clear.
Proof.
  intros c [Hl Hz]. destruct (live_Clear cfg c Hl) as [Hl' Ho].
  split; [|done]. split; [done|]. intros x.
  destruct Hl as [Hwf _]. destruct (BaseFacts.Clear_run c Hwf) as [-> _].
  cbn [state fst snd]. by intros Hx%elem_of_nil.
Qed.

Lemma ghostly_Contains cfg k : emits (ghostly cfg) (obeys cfg) (Base.Contains k).
Proof.
  intros c [Hl Hz]. destruct (live_Contains cfg k c Hl) as [Hl' Ho].
  split; [|done]. split; [done|].
  destruct Hl as [Hwf _]. by rewrite (BaseFacts.Contains_run c k Hwf).
Qed.

Lemma ghostly_Len cfg : emits (ghostly cfg) (obeys cfg) Base.Len.
Proof. intros c Hc. split; [done|apply obeys_nil]. Qed.

Lemma ghostly_New cfg n opts :
  cfg = configured opts ->
  ghostly cfg (Base.NewUnsafeLru (K:=K) (V:=V) (F:=F) n opts).
Proof.
  intros ->. split; [split; [apply wf_New|apply New_has_config]|].
  intros x. rewrite New_entries. by intros Hx%elem_of_nil.
Qed.

(** What the removal of a key of a ghost engine invokes. *)
Lemma ghostly_Remove_trace f a c k :
  ghostly (Some (f, a)) c ->
  trace (Base.Remove k c) =
  if decide (k ∈ keys_of c) then [Variants.invocation f a k zero] else [].
Proof.
  intros [[Hwf [Hf Ha]] Hz]. destruct (decide (k ∈ keys_of c)) as [Hin|Hn].
  - destruct (Value_elem _ _ Hin) as [e He].
    rewrite (Remove_hit c k e Hwf He). cbn [trace snd].
    destruct (Value_Some _ _ _ He) as [_ Hel].
    rewrite (Hz e Hel), (Variants.callback_Some c f k zero Hf). by rewrite Ha.
  - by rewrite (Remove_miss c k Hwf Hn).
Qed.

End GhostFacts.
End GhostFacts.

(** ** Invocations of the two-queue cache *)
Module TwoQGhost.
Section TwoQGhost.

Context {K : Type} `{Countable K} `{GoZero K} {V : Type} `{GoZero V} {F : Type}.

Import ListFacts BaseFacts BaseKeeps BaseKeys Callbacks GhostFacts TwoQFacts.

Implicit Types (c : TwoQ.TwoQueueCache K V F) (k : K) (v : V)
  (cfg : option (F * bool)).

(** The three engines are configured as [cfg] says, and the ghost engine
    holds zero values. *)
Definition shaped cfg c : Prop :=
  live cfg (TwoQ.recent c) ∧ live cfg (TwoQ.frequent c) ∧
  ghostly cfg (TwoQ.recentEvict c).

Lemma shaped_wf cfg c : shaped cfg c -> wf_2q c.
Proof. intros ([? _] & [? _] & [[? _] _]). by split. Qed.

Lemma shaped_on_recent {A} cfg (m : Base.Engine A) :
  emits (live cfg) (obeys cfg) m -> emits (shaped cfg) (obeys cfg) (TwoQ.on_recent m).
Proof.
  intros Hm c (Hr & Hf & Hg). rewrite on_recent_run. cbn [state trace fst snd].
  destruct (Hm _ Hr) as [Hr' Ho]. split; [|done]. by split.
Qed.

Lemma shaped_on_frequent {A} cfg (m : Base.Engine A) :
  emits (live cfg) (obeys cfg) m -> emits (shaped cfg) (obeys cfg) (TwoQ.on_frequent m).
Proof.
  intros Hm c (Hr & Hf & Hg). rewrite on_frequent_run. cbn [state trace fst snd].
  destruct (Hm _ Hf) as [Hf' Ho]. split; [|done]. split; [done|]. by split.
Qed.

Lemma shaped_on_recentEvict {A} cfg (m : Base.Engine A) :
  emits (ghostly cfg) (obeys cfg) m ->
  emits (shaped cfg) (obeys cfg) (TwoQ.on_recentEvict m).
Proof.
  intros Hm c (Hr & Hf & Hg). rewrite on_recentEvict_run. cbn [state trace fst snd].
  destruct (Hm _ Hg) as [Hg' Ho]. split; [|done]. split; [done|]. by split.
Qed.

Ltac shaped_steps cfg :=
  repeat first
    [ apply emits_ret; apply closed_obeys
    | apply emits_get; apply closed_obeys
    | assumption
    | apply shaped_on_recent;
      first [apply live_Add|apply live_Get|apply live_Contains|apply live_Peek
            |apply live_Remove|apply live_RemoveOldest|apply live_Len|apply live_Clear]
    | apply shaped_on_frequent;
      first [apply live_Add|apply live_Get|apply live_Contains|apply live_Peek
            |apply live_Remove|apply live_RemoveOldest|apply live_Len|apply live_Clear]
    | apply shaped_on_recentEvict;
      first [apply ghostly_Add|apply ghostly_Contains|apply ghostly_Remove
            |apply ghostly_RemoveOldest|apply ghostly_Len|apply ghostly_Clear]
    | apply emits_bind; [apply closed_obeys| |intros ?]
    | apply emits_if | apply emits_decide ].

Lemma shaped_ensureSpace cfg b : emits (shaped cfg) (obeys cfg) (TwoQ.ensureSpace b).
Proof. unfold TwoQ.ensureSpace. shaped_steps cfg. Qed.

Lemma shaped_Add cfg k v : emits (shaped cfg) (obeys cfg) (TwoQ.Add k v).
Proof.
  pose proof (shaped_ensureSpace cfg true) as Ht.
  pose proof (shaped_ensureSpace cfg false) as Hf.
  unfold TwoQ.Add. shaped_steps cfg.
Qed.

Lemma shaped_Get cfg k : emits (shaped cfg) (obeys cfg) (TwoQ.Get k).
Proof. unfold TwoQ.Get. shaped_steps cfg. Qed.

Lemma shaped_Remove cfg k : emits (shaped cfg) (obeys cfg) (TwoQ.Remove k).
Proof. unfold TwoQ.Remove. shaped_steps cfg. Qed.

Lemma shaped_Clear cfg : emits (shaped cfg) (obeys cfg) TwoQ.Clear.
Proof. unfold TwoQ.Clear. shaped_steps cfg. Qed.

(** The invocations a call makes, and those of a sequence of calls. *)
Definition exec_trace (o : TwoQRun.call (K:=K) (V:=V)) c : list (Base.ev K V F) :=
  match o with
  | TwoQRun.CAdd k v => trace (TwoQ.Add k v c)
  | TwoQRun.CGet k => trace (TwoQ.Get k c)
  | TwoQRun.CRemove k => trace (TwoQ.Remove k c)
  | TwoQRun.CClear => trace (TwoQ.Clear c)
  end.

Fixpoint run_trace (os : list (TwoQRun.call (K:=K) (V:=V))) c : list (Base.ev K V F) :=
  match os with
  | [] => []
  | o :: os' => exec_trace o c ++ run_trace os' (TwoQRun.exec o c)
  end.

Lemma shaped_exec cfg o c :
  shaped cfg c -> shaped cfg (TwoQRun.exec o c) ∧ obeys cfg (exec_trace o c).
Proof.
  intros Hc. destruct o; simpl;
    [by apply shaped_Add|by apply shaped_Get|by apply shaped_Remove|by apply shaped_Clear].
Qed.

Lemma shaped_run cfg os c :
  shaped cfg c -> shaped cfg (TwoQRun.run os c) ∧ obeys cfg (run_trace os c).
Proof.
  unfold TwoQRun.run. revert c. induction os as [|o os IH]; intros c Hc.
  - split; [done|apply obeys_nil].
  - destruct (shaped_exec cfg o c Hc) as [Hc1 Ho1].
    destruct (IH _ Hc1) as [Hc2 Ho2]. simpl. split; [done|]. by apply obeys_app.
Qed.

Lemma shaped_New n rr gr opts :
  shaped (configured opts) (TwoQ.New2QParams (K:=K) (V:=V) (F:=F) n rr gr opts).
Proof.
  unfold TwoQ.New2QParams. cbn [shaped TwoQ.recent TwoQ.frequent TwoQ.recentEvict].
  split; [|split]; [apply (ghostly_New _ _ _ eq_refl)..|].
  apply (ghostly_New _ _ _ eq_refl).
Qed.

(** The invocations of [Add] on a key that only the ghost engine holds. *)
Lemma Add_ghost_trace c k v :
  wf_2q c -> k ∉ keys_of (TwoQ.frequent c) -> k ∉ keys_of (TwoQ.recent c) ->
  k ∈ keys_of (TwoQ.recentEvict c) ->
  let c1 := state (TwoQ.ensureSpace true c) in
  trace (TwoQ.Add k v c) =
  trace (TwoQ.ensureSpace true c) ++
  trace (Base.Remove k (TwoQ.recentEvict c1)) ++
  trace (Base.Add k v (TwoQ.frequent c1)).
Proof.
  intros (Hr & Hf & Hg) Hnf Hnr Hig c1. unfold TwoQ.Add.
  rewrite (bind_pure _ _ _ _ (on_frequent_Contains c k Hf)).
  rewrite (bool_decide_eq_false_2 _ Hnf).
  rewrite (bind_pure _ _ _ _ (on_recent_Contains c k Hr)).
  rewrite (bool_decide_eq_false_2 _ Hnr).
  rewrite (bind_pure _ _ _ _ (on_recentEvict_Contains c k Hg)).
  rewrite (bool_decide_eq_true_2 _ Hig).
  rewrite (bind_step _ _ _ _ _ _ (run_eta (TwoQ.ensureSpace true c))).
  rewrite (bind_step _ _ _ _ _ _ (on_recentEvict_run _ _)).
  by rewrite bind_ret_tt, on_frequent_run.
Qed.

End TwoQGhost.
End TwoQGhost.

(** X24.  The options decide every invocation of a two-queue cache, those
    of the ghost engine included.  With [configured opts] the callback of
    the last option that is not nil and its mode: when there is none, no
    sequence of [Add], [Get], [Remove] and [Clear] on a cache built by
    [New2QParams] invokes anything; when it is [WithOnEvicted f], every
    invocation runs [f] inline; when it is [WithOnEvictedAsync f], every
    invocation starts [f] on a goroutine. *)
Theorem TwoQ_options_decide_invocations :
  ∀ (K : Type) `(Countable K) `(GoZero K) (V : Type) `(GoZero V) (F : Type)
    (n : Z) (rr gr : Float64.float64) (opts : list (Base.Option F))
    (os : list (TwoQRun.call (K:=K) (V:=V))),
    let tr := TwoQGhost.run_trace os (TwoQ.New2QParams (F:=F) n rr gr opts) in
    match Callbacks.configured opts with
    | None => tr = []
    | Some (f, a) => ∀ e, e ∈ tr -> ∃ k v, e = if a then Spawned f k v else Ran f k v
    end.
Proof.
  intros K ? ? ? V ? F n rr gr opts os tr.
  apply (TwoQGhost.shaped_run (Callbacks.configured opts)), TwoQGhost.shaped_New.
Qed.

(** X25.  The ghost engine of a two-queue cache holds zero values only, in
    every reached state.  So when a callback [f] is configured, [Add(k, v)]
    of a key that only the ghost engine remembers invokes, after what
    [ensureSpace(true)] invokes, [f] with [k] and the zero value if the
    key is still in the ghost engine then (and nothing if [ensureSpace]
    pushed it out), and then what [frequent.Add(k, v)] invokes. *)
Theorem TwoQ_ghost_hit_invokes_callback :
  ∀ (K : Type) `(Countable K) `(GoZero K) (V : Type) `(GoZero V) (F : Type)
    (n : Z) (rr gr : Float64.float64) (opts : list (Base.Option F))
    (os : list (TwoQRun.call (K:=K) (V:=V))) (f : F) (a : bool) (k : K) (v : V),
    Callbacks.configured opts = Some (f, a) ->
    let c : TwoQ.TwoQueueCache K V F := TwoQRun.reached n rr gr opts os in
    (∀ x, x ∈ Base.entries (TwoQ.recentEvict c) -> Base.value x = zero) ∧
    (result (TwoQ.Contains k c) = false ->
     k ∈ BaseFacts.keys_of (TwoQ.recentEvict c) ->
     let c1 := state (TwoQ.ensureSpace true c) in
     trace (TwoQ.Add k v c) =
     trace (TwoQ.ensureSpace true c) ++
     (if decide (k ∈ BaseFacts.keys_of (TwoQ.recentEvict c1))
      then [Variants.invocation f a k zero] else []) ++
     trace (Base.Add k v (TwoQ.frequent c1))).
Proof.
  intros K ? ? ? V ? F n rr gr opts os f a k v Hcfg c.
  destruct (TwoQGhost.shaped_run (Callbacks.configured opts) os _
              (TwoQGhost.shaped_New n rr gr opts)) as [Hs _].
  change (TwoQRun.run os _) with c in Hs. rewrite Hcfg in Hs.
  pose proof (TwoQGhost.shaped_wf _ _ Hs) as Hwf.
  split; [apply Hs|].
  intros Hn Hig c1. rewrite (TwoQFacts.TwoQ_Contains_run c k Hwf) in Hn.
  cbn [result fst snd] in Hn. apply bool_decide_eq_false in Hn.
  rewrite (TwoQGhost.Add_ghost_trace c k v Hwf); [|tauto..|done]. fold c1.
  destruct (TwoQGhost.shaped_ensureSpace _ true c Hs) as [(_ & _ & Hg1) _].
  fold c1 in Hg1.
  by rewrite (GhostFacts.ghostly_Remove_trace f a _ k Hg1).
Qed.

(** X25, witness: capacity 4 with an inline callback; after five
    insertions the ghost engine remembers key 1, and adding it again runs
    the callback with the key 1 and the zero value. *)
Lemma TwoQ_ghost_hit_invokes_callback_witness :
  Ran tt 1 0 ∈ trace (TwoQ.Add 1 11
    (TwoQRun.reached (K:=Z) (V:=Z) (F:=unit) 4
       TwoQ.default2QRecentRatio TwoQ.default2QGhostEntries [Base.WithOnEvicted tt]
       [TwoQRun.CAdd 1 10; TwoQRun.CAdd 2 20; TwoQRun.CAdd 3 30; TwoQRun.CAdd 4 40;
        TwoQRun.CAdd 5 50])).
Proof.
  assert (Hcfg : Callbacks.configured [Base.WithOnEvicted tt] = Some (tt, false))
    by reflexivity.
  destruct (TwoQ_ghost_hit_invokes_callback Z _ _ Z _ unit 4
              TwoQ.default2QRecentRatio TwoQ.default2QGhostEntries [Base.WithOnEvicted tt]
              [TwoQRun.CAdd 1 10; TwoQRun.CAdd 2 20; TwoQRun.CAdd 3 30; TwoQRun.CAdd 4 40;
               TwoQRun.CAdd 5 50] tt false 1 11 Hcfg) as [_ Htr].
  assert (Hn : result (TwoQ.Contains 1
    (TwoQRun.reached (K:=Z) (V:=Z) (F:=unit) 4
       TwoQ.default2QRecentRatio TwoQ.default2QGhostEntries [Base.WithOnEvicted tt]
       [TwoQRun.CAdd 1 10; TwoQRun.CAdd 2 20; TwoQRun.CAdd 3 30; TwoQRun.CAdd 4 40;
        TwoQRun.CAdd 5 50])) = false) by (vm_compute; reflexivity).
  assert (Hig : 1 ∈ BaseFacts.keys_of (TwoQ.recentEvict
    (TwoQRun.reached (K:=Z) (V:=Z) (F:=unit) 4
       TwoQ.default2QRecentRatio TwoQ.default2QGhostEntries [Base.WithOnEvicted tt]
       [TwoQRun.CAdd 1 10; TwoQRun.CAdd 2 20; TwoQRun.CAdd 3 30; TwoQRun.CAdd 4 40;
        TwoQRun.CAdd 5 50])))
    by (apply (bool_decide_unpack _); vm_compute; exact I).
  rewrite (Htr Hn Hig).
  apply elem_of_app. right. apply elem_of_app. left.
  rewrite decide_True by (apply (bool_decide_unpack _); vm_compute; exact I).
  left.
Defined.

(** ** Invocations of the adaptive replacement cache *)
Module ARCGhost.
Section ARCGhost.

Context {K : Type} `{Countable K} `{GoZero K} {V : Type} `{GoZero V} {F : Type}.

Import ListFacts BaseFacts BaseKeeps BaseKeys Callbacks GhostFacts ARCFacts.

Implicit Types (c : ARC.ARCCache K V F) (k : K) (v : V)
  (cfg : option (F * bool)).

(** The four engines are configured as [cfg] says, and the ghost engines
    hold zero values. *)
Definition shaped cfg c : Prop :=
  live cfg (ARC.t1 c) ∧ ghostly cfg (ARC.b1 c) ∧
  live cfg (ARC.t2 c) ∧ ghostly cfg (ARC.b2 c).

Lemma shaped_arc_wf cfg c : shaped cfg c -> wf_arc c.
Proof. intros ([? _] & [[? _] _] & [? _] & [[? _] _]). by split. Qed.

Lemma shaped_on_t1 {A} cfg (m : Base.Engine A) :
  emits (live cfg) (obeys cfg) m -> emits (shaped cfg) (obeys cfg) (ARC.on_t1 m).
Proof.
  intros Hm c (H1' & H2' & H3' & H4'). rewrite on_t1_run. cbn [state trace fst snd].
  destruct (Hm _ H1') as [Hs Ho]. split; [|done]. by split.
Qed.

Lemma shaped_on_b1 {A} cfg (m : Base.Engine A) :
  emits (ghostly cfg) (obeys cfg) m -> emits (shaped cfg) (obeys cfg) (ARC.on_b1 m).
Proof.
  intros Hm c (H1' & H2' & H3' & H4'). rewrite on_b1_run. cbn [state trace fst snd].
  destruct (Hm _ H2') as [Hs Ho]. split; [|done]. split; [done|]. by split.
Qed.

Lemma shaped_on_t2 {A} cfg (m : Base.Engine A) :
  emits (live cfg) (obeys cfg) m -> emits (shaped cfg) (obeys cfg) (ARC.on_t2 m).
Proof.
  intros Hm c (H1' & H2' & H3' & H4'). rewrite on_t2_run. cbn [state trace fst snd].
  destruct (Hm _ H3') as [Hs Ho]. split; [|done].
  split; [done|]. split; [done|]. by split.
Qed.

Lemma shaped_on_b2 {A} cfg (m : Base.Engine A) :
  emits (ghostly cfg) (obeys cfg) m -> emits (shaped cfg) (obeys cfg) (ARC.on_b2 m).
Proof.
  intros Hm c (H1' & H2' & H3' & H4'). rewrite on_b2_run. cbn [state trace fst snd].
  destruct (Hm _ H4') as [Hs Ho]. split; [|done].
  split; [done|]. split; [done|]. by split.
Qed.

Lemma shaped_set_p cfg n :
  emits (shaped cfg) (obeys cfg) (modify (E:=Base.ev K V F) (ARC.set_p n)).
Proof. apply emits_modify; [apply closed_obeys|]. by intros c Hc. Qed.

Ltac shaped_steps cfg :=
  repeat first
    [ apply emits_ret; apply closed_obeys
    | apply emits_get; apply closed_obeys
    | apply shaped_set_p
    | assumption
    | apply shaped_on_t1;
      first [apply live_Add|apply live_Get|apply live_Contains|apply live_Peek
            |apply live_Remove|apply live_RemoveOldest|apply live_Len|apply live_Clear]
    | apply shaped_on_t2;
      first [apply live_Add|apply live_Get|apply live_Contains|apply live_Peek
            |apply live_Remove|apply live_RemoveOldest|apply live_Len|apply live_Clear]
    | apply shaped_on_b1;
      first [apply ghostly_Add|apply ghostly_Contains|apply ghostly_Remove
            |apply ghostly_RemoveOldest|apply ghostly_Len|apply ghostly_Clear]
    | apply shaped_on_b2;
      first [apply ghostly_Add|apply ghostly_Contains|apply ghostly_Remove
            |apply ghostly_RemoveOldest|apply ghostly_Len|apply ghostly_Clear]
    | apply emits_bind; [apply closed_obeys| |intros ?]
    | apply emits_if | apply emits_decide ].

Lemma shaped_replace cfg b : emits (shaped cfg) (obeys cfg) (ARC.replace b).
Proof. unfold ARC.replace. shaped_steps cfg. Qed.

Lemma shaped_make_room cfg b : emits (shaped cfg) (obeys cfg) (ARC.make_room b).
Proof.
  pose proof (shaped_replace cfg b) as Hrep. unfold ARC.make_room. shaped_steps cfg.
Qed.

Lemma shaped_arc_Add cfg k v : emits (shaped cfg) (obeys cfg) (ARC.Add k v).
Proof.
  pose proof (shaped_make_room cfg true) as Ht.
  pose proof (shaped_make_room cfg false) as Hf.
  unfold ARC.Add. shaped_steps cfg.
Qed.

Lemma shaped_arc_Get cfg k : emits (shaped cfg) (obeys cfg) (ARC.Get k).
Proof. unfold ARC.Get. shaped_steps cfg. Qed.

Lemma shaped_arc_Remove cfg k : emits (shaped cfg) (obeys cfg) (ARC.Remove k).
Proof. unfold ARC.Remove. shaped_steps cfg. Qed.

Lemma shaped_arc_Clear cfg : emits (shaped cfg) (obeys cfg) ARC.Clear.
Proof. unfold ARC.Clear. shaped_steps cfg. Qed.

(** The invocations a call makes, and those of a sequence of calls. *)
Definition exec_trace (o : ARCRun.call (K:=K) (V:=V)) c : list (Base.ev K V F) :=
  match o with
  | ARCRun.CAdd k v => trace (ARC.Add k v c)
  | ARCRun.CGet k => trace (ARC.Get k c)
  | ARCRun.CRemove k => trace (ARC.Remove k c)
  | ARCRun.CClear => trace (ARC.Clear c)
  end.

Fixpoint run_trace (os : list (ARCRun.call (K:=K) (V:=V))) c : list (Base.ev K V F) :=
  match os with
  | [] => []
  | o :: os' => exec_trace o c ++ run_trace os' (ARCRun.exec o c)
  end.

Lemma shaped_arc_exec cfg o c :
  shaped cfg c -> shaped cfg (ARCRun.exec o c) ∧ obeys cfg (exec_trace o c).
Proof.
  intros Hc. destruct o; simpl;
    [by apply shaped_arc_Add|by apply shaped_arc_Get
    |by apply shaped_arc_Remove|by apply shaped_arc_Clear].
Qed.

Lemma shaped_arc_run cfg os c :
  shaped cfg c -> shaped cfg (ARCRun.run os c) ∧ obeys cfg (run_trace os c).
Proof.
  unfold ARCRun.run. revert c. induction os as [|o os IH]; intros c Hc.
  - split; [done|apply obeys_nil].
  - destruct (shaped_arc_exec cfg o c Hc) as [Hc1 Ho1].
    destruct (IH _ Hc1) as [Hc2 Ho2]. simpl. split; [done|]. by apply obeys_app.
Qed.

Lemma shaped_NewARC n opts :
  shaped (configured opts) (ARC.NewARC (K:=K) (V:=V) (F:=F) n opts).
Proof.
  unfold ARC.NewARC. cbn [shaped ARC.t1 ARC.t2 ARC.b1 ARC.b2].
  split; [|split; [|split]]; apply (ghostly_New _ _ _ eq_refl).
Qed.

(** The invocations of [Add] on a key that only [b1] holds, and on a key
    that only [b2] holds. *)
Lemma Add_b1_trace c k v :
  wf_arc c -> k ∉ keys_of (ARC.t1 c) -> k ∉ keys_of (ARC.t2 c) ->
  k ∈ keys_of (ARC.b1 c) ->
  let c1 := state (ARC.make_room false (ARCRun.grow_p c)) in
  trace (ARC.Add k v c) =
  trace (ARC.make_room false (ARCRun.grow_p c)) ++
  trace (Base.Remove k (ARC.b1 c1)) ++ trace (Base.Add k v (ARC.t2 c1)).
Proof.
  intros (Ht1 & Hb1 & Ht2 & Hb2) Hn1 Hn2 Hi3 c1. unfold ARC.Add.
  rewrite (bind_pure _ _ _ _ (on_t1_Contains c k Ht1)), (bool_decide_eq_false_2 _ Hn1).
  rewrite (bind_pure _ _ _ _ (on_t2_Contains c k Ht2)), (bool_decide_eq_false_2 _ Hn2).
  rewrite (bind_pure _ _ _ _ (on_b1_Contains c k Hb1)), (bool_decide_eq_true_2 _ Hi3).
  rewrite (bind_pure _ _ _ _ (on_b1_Len c)), (bind_pure _ _ _ _ (on_b2_Len c)).
  rewrite bind_get.
  assert (Hp : (if decide (Int.add (ARC.p c)
                   (if decide (Z.of_nat (length (Base.entries (ARC.b2 c))) >
                               Z.of_nat (length (Base.entries (ARC.b1 c))))
                    then Int.div (Z.of_nat (length (Base.entries (ARC.b2 c))))
                                 (Z.of_nat (length (Base.entries (ARC.b1 c))))
                    else 1) >= ARC.maxEntries c)
                then modify (E:=Base.ev K V F) (ARC.set_p (ARC.maxEntries c))
                else modify (ARC.set_p (Int.add (ARC.p c)
                   (if decide (Z.of_nat (length (Base.entries (ARC.b2 c))) >
                               Z.of_nat (length (Base.entries (ARC.b1 c))))
                    then Int.div (Z.of_nat (length (Base.entries (ARC.b2 c))))
                                 (Z.of_nat (length (Base.entries (ARC.b1 c))))
                    else 1)))) c = (tt, ARCRun.grow_p c, [])).
  { unfold ARCRun.grow_p. cbv zeta. by destruct (decide (Int.add _ _ >= _)). }
  rewrite (bind_step _ _ _ _ _ _ Hp).
  rewrite (bind_step _ _ _ _ _ _ (run_eta (ARC.make_room false (ARCRun.grow_p c)))).
  rewrite (bind_step _ _ _ _ _ _ (on_b1_run _ _)).
  by rewrite bind_ret_tt, on_t2_run.
Qed.

Lemma Add_b2_trace c k v :
  wf_arc c -> k ∉ keys_of (ARC.t1 c) -> k ∉ keys_of (ARC.t2 c) ->
  k ∉ keys_of (ARC.b1 c) -> k ∈ keys_of (ARC.b2 c) ->
  let c1 := state (ARC.make_room true (ARCRun.shrink_p c)) in
  trace (ARC.Add k v c) =
  trace (ARC.make_room true (ARCRun.shrink_p c)) ++
  trace (Base.Remove k (ARC.b2 c1)) ++ trace (Base.Add k v (ARC.t2 c1)).
Proof.
  intros (Ht1 & Hb1 & Ht2 & Hb2) Hn1 Hn2 Hn3 Hi4 c1. unfold ARC.Add.
  rewrite (bind_pure _ _ _ _ (on_t1_Contains c k Ht1)), (bool_decide_eq_false_2 _ Hn1).
  rewrite (bind_pure _ _ _ _ (on_t2_Contains c k Ht2)), (bool_decide_eq_false_2 _ Hn2).
  rewrite (bind_pure _ _ _ _ (on_b1_Contains c k Hb1)), (bool_decide_eq_false_2 _ Hn3).
  rewrite (bind_pure _ _ _ _ (on_b2_Contains c k Hb2)), (bool_decide_eq_true_2 _ Hi4).
  rewrite (bind_pure _ _ _ _ (on_b1_Len c)), (bind_pure _ _ _ _ (on_b2_Len c)).
  rewrite bind_get.
  assert (Hp : (if decide ((if decide (Z.of_nat (length (Base.entries (ARC.b1 c))) >
                                       Z.of_nat (length (Base.entries (ARC.b2 c))))
                    then Int.div (Z.of_nat (length (Base.entries (ARC.b1 c))))
                                 (Z.of_nat (length (Base.entries (ARC.b2 c))))
                    else 1) >= ARC.p c)
                then modify (E:=Base.ev K V F) (ARC.set_p 0)
                else modify (ARC.set_p (Int.sub (ARC.p c)
                   (if decide (Z.of_nat (length (Base.entries (ARC.b1 c))) >
                               Z.of_nat (length (Base.entries (ARC.b2 c))))
                    then Int.div (Z.of_nat (length (Base.entries (ARC.b1 c))))
                                 (Z.of_nat (length (Base.entries (ARC.b2 c))))
                    else 1)))) c = (tt, ARCRun.shrink_p c, [])).
  { unfold ARCRun.shrink_p. cbv zeta. by destruct (decide (_ >= ARC.p c)). }
  rewrite (bind_step _ _ _ _ _ _ Hp).
  rewrite (bind_step _ _ _ _ _ _ (run_eta (ARC.make_room true (ARCRun.shrink_p c)))).
  rewrite (bind_step _ _ _ _ _ _ (on_b2_run _ _)).
  by rewrite bind_ret_tt, on_t2_run.
Qed.

Lemma shaped_grow_p cfg c : shaped cfg c -> shaped cfg (ARCRun.grow_p c).
Proof. intros Hc. destruct (ARCRun.grow_p_set c) as [n ->]. exact Hc. Qed.

Lemma shaped_shrink_p cfg c : shaped cfg c -> shaped cfg (ARCRun.shrink_p c).
Proof. intros Hc. destruct (ARCRun.shrink_p_set c) as [n ->]. exact Hc. Qed.

End ARCGhost.
End ARCGhost.

(** X26.  The options decide every invocation of an adaptive replacement
    cache, those of the ghost engines included: when no option configures
    a callback, no sequence of [Add], [Get], [Remove] and [Clear] on a
    cache built by [NewARC] invokes anything; when the last option that is
    not nil is [WithOnEvicted f], every invocation runs [f] inline; when it
    is [WithOnEvictedAsync f], every invocation starts [f] on a
    goroutine. *)
Theorem ARC_options_decide_invocations :
  ∀ (K : Type) `(Countable K) `(GoZero K) (V : Type) `(GoZero V) (F : Type)
    (n : Z) (opts : list (Base.Option F)) (os : list (ARCRun.call (K:=K) (V:=V))),
    let tr := ARCGhost.run_trace os (ARC.NewARC (F:=F) n opts) in
    match Callbacks.configured opts with
    | None => tr = []
    | Some (f, a) => ∀ e, e ∈ tr -> ∃ k v, e = if a then Spawned f k v else Ran f k v
    end.
Proof.
  intros K ? ? ? V ? F n opts os tr.
  apply (ARCGhost.shaped_arc_run (Callbacks.configured opts)), ARCGhost.shaped_NewARC.
Qed.

(** X27.  The ghost engines [b1] and [b2] of an adaptive replacement cache
    hold zero values only, in every reached state.  So when a callback [f]
    is configured, [Add(k, v)] of a key that [b1] (or [b2]) remembers
    invokes, after what the room-making step invokes, [f] with [k] and the
    zero value if the key is still in that ghost engine then, and then
    what [t2.Add(k, v)] invokes. *)
Theorem ARC_ghost_hit_invokes_callback :
  ∀ (K : Type) `(Countable K) `(GoZero K) (V : Type) `(GoZero V) (F : Type)
    (n : Z) (opts : list (Base.Option F)) (os : list (ARCRun.call (K:=K) (V:=V)))
    (f : F) (a : bool) (k : K) (v : V),
    Callbacks.configured opts = Some (f, a) ->
    let c : ARC.ARCCache K V F := ARCRun.reached n opts os in
    (∀ x, x ∈ Base.entries (ARC.b1 c) ∨ x ∈ Base.entries (ARC.b2 c) ->
          Base.value x = zero) ∧
    (k ∈ BaseFacts.keys_of (ARC.b1 c) ->
     let r := ARC.make_room false (ARCRun.grow_p c) in
     trace (ARC.Add k v c) =
     trace r ++
     (if decide (k ∈ BaseFacts.keys_of (ARC.b1 (state r)))
      then [Variants.invocation f a k zero] else []) ++
     trace (Base.Add k v (ARC.t2 (state r)))) ∧
    (k ∈ BaseFacts.keys_of (ARC.b2 c) ->
     let r := ARC.make_room true (ARCRun.shrink_p c) in
     trace (ARC.Add k v c) =
     trace r ++
     (if decide (k ∈ BaseFacts.keys_of (ARC.b2 (state r)))
      then [Variants.invocation f a k zero] else []) ++
     trace (Base.Add k v (ARC.t2 (state r)))).
Proof.
  intros K ? ? ? V ? F n opts os f a k v Hcfg c.
  destruct (ARCGhost.shaped_arc_run (Callbacks.configured opts) os _
              (ARCGhost.shaped_NewARC n opts)) as [Hs _].
  change (ARCRun.run os _) with c in Hs. rewrite Hcfg in Hs.
  pose proof (ARCGhost.shaped_arc_wf _ _ Hs) as Hwf.
  destruct (ARCRun.ARC_reached_inv n opts os) as [_ (Hd1 & Hd2 & Hd3 & Hd4 & Hd5 & Hd6)].
  fold c in Hd1, Hd2, Hd3, Hd4, Hd5, Hd6.
  assert (Hk : ∀ (e1 e2 : Base.unsafeCache K V F),
             KeySets.ks e1 ## KeySets.ks e2 ->
             k ∈ BaseFacts.keys_of e2 -> k ∉ BaseFacts.keys_of e1).
  { intros e1 e2 Hd Hb Ha. apply KeySets.elem_of_ks in Ha, Hb. by apply (Hd k). }
  split; [|split].
  - destruct Hs as (_ & [_ Hz1] & _ & [_ Hz2]). intros x [Hx|Hx]; [by apply Hz1|by apply Hz2].
  - intros Hi r.
    rewrite (ARCGhost.Add_b1_trace c k v Hwf); [|by apply (Hk _ _ Hd2)|by apply (Hk _ _ Hd4)|done].
    fold r.
    destruct (ARCGhost.shaped_make_room _ false _ (ARCGhost.shaped_grow_p _ c Hs))
      as [(_ & Hg1 & _) _].
    fold r in Hg1. by rewrite (GhostFacts.ghostly_Remove_trace f a _ k Hg1).
  - intros Hi r.
    rewrite (ARCGhost.Add_b2_trace c k v Hwf);
      [|by apply (Hk _ _ Hd3)|by apply (Hk _ _ Hd5)|by apply (Hk _ _ Hd6)|done].
    fold r.
    destruct (ARCGhost.shaped_make_room _ true _ (ARCGhost.shaped_shrink_p _ c Hs))
      as [(_ & _ & _ & Hg2) _].
    fold r in Hg2. by rewrite (GhostFacts.ghostly_Remove_trace f a _ k Hg2).
Qed.

(** X27, witness: capacity 2 with an inline callback; after three
    insertions [b1] remembers key 1, and adding it again runs the callback
    with the key 1 and the zero value. *)
Lemma ARC_ghost_hit_invokes_callback_witness :
  Ran tt 1 0 ∈ trace (ARC.Add 1 11
    (ARCRun.reached (K:=Z) (V:=Z) (F:=unit) 2 [Base.WithOnEvicted tt]
       [ARCRun.CAdd 1 10; ARCRun.CAdd 2 20; ARCRun.CAdd 3 30])).
Proof.
  assert (Hcfg : Callbacks.configured [Base.WithOnEvicted tt] = Some (tt, false))
    by reflexivity.
  destruct (ARC_ghost_hit_invokes_callback Z _ _ Z _ unit 2 [Base.WithOnEvicted tt]
              [ARCRun.CAdd 1 10; ARCRun.CAdd 2 20; ARCRun.CAdd 3 30] tt false 1 11 Hcfg)
    as (_ & Htr & _).
  assert (Hi : 1 ∈ BaseFacts.keys_of (ARC.b1
    (ARCRun.reached (K:=Z) (V:=Z) (F:=unit) 2 [Base.WithOnEvicted tt]
       [ARCRun.CAdd 1 10; ARCRun.CAdd 2 20; ARCRun.CAdd 3 30])))
    by (apply (bool_decide_unpack _); vm_compute; exact I).
  rewrite (Htr Hi).
  apply elem_of_app. right. apply elem_of_app. left.
  rewrite decide_True by (apply (bool_decide_unpack _); vm_compute; exact I).
  left.
Defined.
